(** * The configuration resolver of lib/lookup: a shallow embedding

    The development follows the source files one module at a time:

    - [JS]: the fragment of the JavaScript object model the resolver relies
      on (values, property keys, objects, a heap, exceptions);
    - [ConfigArray]: config-array.js, both the eager variant (argument check,
      plugin members collected while merging, validation after the fold) and
      the lazy variant (no argument check, plugin members indexed on demand);
    - [OverrideTester]: override-tester.js;
    - [Dependency]: config-dependency.js and loaded-entity.js;
    - [Factory]: the parser and plugin loaders of config-array-factory.js;
    - [Directory]: the search for the config file of a directory, of
      config-array-factory.js;
    - [Eff] and [Merge]: the state and exception monad the functions run
      in, and the helpers and merge functions both variants share;
    - [Scenarios]: concrete arrays and factories;
    - [Props]: the predicates of the statements.

    The facts come after the definitions, module by module, and the
    properties of the resolver last.

    Node's [path] module, minimatch, the module resolver, [require], the
    naming helpers and the schema validator are collaborators of the
    resolver; they appear as section variables. *)

From stdpp Require Import gmap strings list pretty sorting.

(* ===================================================================== *)
(** * JavaScript values, objects and the heap *)
(* ===================================================================== *)

Module JS.

Abbreviation loc := nat.

(** A property key is an array index (a canonical numeric string in
    JavaScript) or any other name.  [KName s] is only used with an [s] that
    is not a canonical array index. *)
Inductive key :=
| KIdx (i : nat)
| KName (s : string).

Global Instance key_eq_dec : EqDecision key.
Proof. solve_decision. Defined.

Definition key_to_string (k : key) : string :=
  match k with
  | KIdx i => pretty i
  | KName s => s
  end.

(** Values.  Numbers are the integers (the resolver only tests them for
    truthiness and copies them); [VFun] is an opaque callable; [VRef] is a
    reference to a heap object. *)
Inductive value :=
| VUndef
| VNull
| VBool (b : bool)
| VNum (n : Z)
| VStr (s : string)
| VFun (f : nat)
| VRef (l : loc).

Global Instance value_eq_dec : EqDecision value.
Proof. solve_decision. Defined.

Inductive shape :=
| Plain
| ArrayOf (len : nat).

Global Instance shape_eq_dec : EqDecision shape.
Proof. solve_decision. Defined.

(** An object: its own enumerable properties in insertion order, and for an
    array its [length]. *)
Record object := Object { shape_of : shape; props : list (key * value) }.

Global Instance object_eq_dec : EqDecision object.
Proof. solve_decision. Defined.

Definition empty_object : object := Object Plain [].
Definition empty_array : object := Object (ArrayOf 0) [].

Definition is_array (o : object) : bool :=
  match shape_of o with ArrayOf _ => true | Plain => false end.

Definition array_length (o : object) : nat :=
  match shape_of o with ArrayOf n => n | Plain => 0 end.

Fixpoint assoc (k : key) (ps : list (key * value)) : option value :=
  match ps with
  | [] => None
  | (k', v) :: ps' => if decide (k' = k) then Some v else assoc k ps'
  end.

Fixpoint assoc_set (k : key) (v : value) (ps : list (key * value))
  : list (key * value) :=
  match ps with
  | [] => [(k, v)]
  | (k', v') :: ps' =>
      if decide (k' = k) then (k, v) :: ps' else (k', v') :: assoc_set k v ps'
  end.

(** [o[k]] on an object: own properties only, plus [length] of an array.
    Members inherited from [Object.prototype] are outside the model. *)
Definition obj_get (o : object) (k : key) : value :=
  match shape_of o with
  | ArrayOf n =>
      if decide (k = KName "length") then VNum (Z.of_nat n)
      else default VUndef (assoc k (props o))
  | Plain => default VUndef (assoc k (props o))
  end.

(** [o[k] = v]: writing an index at or past the end of an array grows it.
    Every write of the resolver is guarded by [o[k] === undefined], so the
    [length] of an array is never assigned. *)
Definition obj_set (k : key) (v : value) (o : object) : object :=
  let sh :=
    match shape_of o, k with
    | ArrayOf n, KIdx i => ArrayOf (Nat.max n (S i))
    | sh, _ => sh
    end in
  Object sh (assoc_set k v (props o)).

Fixpoint insert_sorted (i : nat) (l : list nat) : list nat :=
  match l with
  | [] => [i]
  | j :: l' => if decide (i ≤ j) then i :: l else j :: insert_sorted i l'
  end.

Definition index_keys (ps : list (key * value)) : list nat :=
  foldr insert_sorted []
    (omap (λ p, match fst p with KIdx i => Some i | KName _ => None end) ps).

Definition name_keys (ps : list (key * value)) : list string :=
  omap (λ p, match fst p with KName s => Some s | KIdx _ => None end) ps.

(** [Object.keys(o)]: the indices in ascending order, then the names in
    insertion order. *)
Definition own_keys (o : object) : list key :=
  map KIdx (index_keys (props o)) ++ map KName (name_keys (props o)).

(** The elements of an array as iteration ([...a]) sees them: a hole reads
    as [undefined]. *)
Definition array_values (o : object) : list value :=
  map (λ i, obj_get o (KIdx i)) (seq 0 (array_length o)).

(** The array literal [[v0, v1, ...]]. *)
Definition array_of_list (vs : list value) : object :=
  Object (ArrayOf (length vs)) (imap (λ i v, (KIdx i, v)) vs).

(** [a.push(v0, v1, ...)] on the object itself. *)
Definition array_push (vs : list value) (o : object) : object :=
  foldl (λ o' v, obj_set (KIdx (array_length o')) v o') o vs.

Definition truthy (v : value) : bool :=
  match v with
  | VUndef | VNull => false
  | VBool b => b
  | VNum n => negb (n =? 0)%Z
  | VStr s => negb (String.eqb s "")
  | VFun _ | VRef _ => true
  end.

(** [typeof x === "object" && x !== null] *)
Definition isNonNullObject (x : value) : bool :=
  match x with VRef _ => true | _ => false end.

Definition is_undefined (x : value) : bool :=
  match x with VUndef => true | _ => false end.

Definition is_string (x : value) : bool :=
  match x with VStr _ => true | _ => false end.

(** ** Heap *)

Abbreviation heap := (list object).

Definition heap_alloc (o : object) (h : heap) : heap * loc := (h ++ [o], length h).

Definition heap_get (h : heap) (l : loc) (k : key) : value :=
  match h !! l with
  | Some o => obj_get o k
  | None => VUndef
  end.

Definition heap_set (l : loc) (k : key) (v : value) (h : heap) : heap :=
  alter (obj_set k v) l h.

(** [Array.isArray(x)] *)
Definition isArray (h : heap) (x : value) : bool :=
  match x with
  | VRef l => match h !! l with Some o => is_array o | None => false end
  | _ => false
  end.

(** ** Exceptions *)

Inductive exn :=
| Thrown (v : value)        (* throw v, for a value that already exists *)
| NewError (msg : string)   (* throw new Error(msg) *)
| TypeError                 (* a property of undefined or null, a call of a non-function *)
| StackOverflow.            (* the recursion went deeper than the fuel *)

Inductive outcome (A : Type) :=
| Ret (a : A)
| Raise (e : exn).
Global Arguments Ret {A} a.
Global Arguments Raise {A} e.

(** [String(v)] as a template literal computes it.  The text of an object or
    of a function depends on [toString] methods, which the model does not
    have: [render] supplies it. *)
Definition to_string (render : heap → value → string) (h : heap) (v : value)
  : string :=
  match v with
  | VUndef => "undefined"
  | VNull => "null"
  | VBool true => "true"
  | VBool false => "false"
  | VNum n => pretty n
  | VStr s => s
  | VFun _ | VRef _ => render h v
  end.

End JS.

(* ===================================================================== *)
(** * Computations that change a state and may throw *)
(* ===================================================================== *)

Module Eff.
Import JS.

Definition M (St A : Type) : Type := St → St * outcome A.

Section Ops.
Context {St : Type}.

Definition ret {A} (a : A) : M St A := λ s, (s, Ret a).

Definition throw {A} (e : exn) : M St A := λ s, (s, Raise e).

Definition bind {A B} (m : M St A) (k : A → M St B) : M St B :=
  λ s, match m s with
       | (s', Ret a) => k a s'
       | (s', Raise e) => (s', Raise e)
       end.

(** [try { m } catch (e) { handler(e) }] *)
Definition try_catch {A} (m : M St A) (handler : exn → M St A) : M St A :=
  λ s, match m s with
       | (s', Ret a) => (s', Ret a)
       | (s', Raise e) => handler e s'
       end.

Definition lift {A} (o : outcome A) : M St A := λ s, (s, o).

End Ops.

Notation "'let!' x ':=' m 'in' k" := (bind m (λ x, k))
  (at level 10, x name, m at level 100, k at level 200).
Notation "m ';;' k" := (bind m (λ _, k))
  (at level 100, k at level 200, right associativity).

Fixpoint for_each {St A} (xs : list A) (body : A → M St unit) : M St unit :=
  match xs with
  | [] => ret tt
  | x :: xs' => body x ;; for_each xs' body
  end.

End Eff.

(* ===================================================================== *)
(** * override-tester.js *)
(* ===================================================================== *)

Module OverrideTester.

(** The [files] and [excludedFiles] of a config: a glob, a list of globs, or
    nothing. *)
Inductive patterns_arg :=
| NoPatterns
| OnePattern (p : string)
| PatternList (ps : list string).

Definition nonempty (s : string) : bool := negb (String.eqb s "").

Definition normalizePatterns (patterns : patterns_arg) : list string :=
  match patterns with
  | PatternList ps => filter (λ p, nonempty p = true) ps
  | OnePattern p => if nonempty p then [p] else []
  | NoPatterns => []
  end.

(** [new Minimatch(pattern, minimatchOpts)]: the matcher keeps its pattern;
    what it matches is minimatch's business. *)
Record Minimatch := Matcher { pattern : string }.

Definition toMatcher (patterns : list string) : option (list Minimatch) :=
  match patterns with
  | [] => None
  | _ => Some (map Matcher patterns)
  end.

Record Pattern := { includes : option (list Minimatch);
                    excludes : option (list Minimatch) }.

Record t := Tester { patterns : list Pattern; basePath : string }.

(** [haystack.includes(needle)] of String *)
Fixpoint str_includes (needle haystack : string) : bool :=
  String.prefix needle haystack ||
  match haystack with
  | EmptyString => false
  | String _ rest => str_includes needle rest
  end.

Definition invalid_pattern_message (pattern : string) : string :=
  "Invalid override pattern (expected relative path not containing '..'): "
    +:+ pattern.

Section WithPath.
Variable isAbsolute : string → bool.           (* path.isAbsolute *)
Variable relative : string → string → string.  (* path.relative *)
Variable minimatch : string → string → bool.   (* m.match(p) for the pattern of m,
                                                   with { dot: true, matchBase: true } *)

Definition rejected (pattern : string) : bool :=
  isAbsolute pattern || str_includes ".." pattern.

Definition create (files excludedFiles : patterns_arg) (basePath : string)
  : JS.outcome (option t) :=
  let includePatterns := normalizePatterns files in
  let excludePatterns := normalizePatterns excludedFiles in
  let allPatterns := includePatterns ++ excludePatterns in
  if decide (length allPatterns = 0) then JS.Ret None
  else
    match List.find rejected allPatterns with
    | Some pattern => JS.Raise (JS.NewError (invalid_pattern_message pattern))
    | None =>
        let includes := toMatcher includePatterns in
        let excludes := toMatcher excludePatterns in
        JS.Ret (Some (Tester [Build_Pattern includes excludes] basePath))
    end.

Definition and (a b : option t) : option t :=
  match b with
  | None => a
  | Some b' =>
      match a with
      | None => b
      | Some a' => Some (Tester (patterns a' ++ patterns b') (basePath a'))
      end
  end.

Definition some_match (ms : list Minimatch) (relativePath : string) : bool :=
  existsb (λ m, minimatch (pattern m) relativePath) ms.

Definition test (self : t) (filePath : string) : bool :=
  let relativePath := relative (basePath self) filePath in
  forallb
    (λ p,
       match includes p with
       | None => true
       | Some ms => some_match ms relativePath
       end &&
       match excludes p with
       | None => true
       | Some ms => negb (some_match ms relativePath)
       end)
    (patterns self).

End WithPath.

(** POSIX [path.isAbsolute]: the path starts with a slash. *)
Definition posix_isAbsolute (p : string) : bool := String.prefix "/" p.

(** The segments of a POSIX path, for comparison with the wording "contains
    a [..] segment". *)
Fixpoint segments_go (cur : string) (s : string) : list string :=
  match s with
  | EmptyString => [cur]
  | String c rest =>
      if String.eqb (String c "") "/" then cur :: segments_go "" rest
      else segments_go (cur +:+ String c "") rest
  end.

Definition segments (s : string) : list string := segments_go "" s.

Definition has_dotdot_segment (s : string) : bool :=
  bool_decide (".." ∈ segments s).

(** ** toJSON

    The object that [patternToJson] returns, [{ includes, excludes }]: each
    is the list of the patterns of the matchers, or [null]. *)
Record PatternJson := {
  includes_json : option (list string);
  excludes_json : option (list string)
}.

Definition patternToJson (p : Pattern) : PatternJson :=
  {| includes_json := option_map (map pattern) (includes p);
     excludes_json := option_map (map pattern) (excludes p) |}.

(** The two objects that [toJSON] returns. *)
Inductive TesterJson :=
| Single (includes excludes : option (list string)) (basePath : string)
    (* { includes, excludes, basePath } *)
| AND (patterns : list PatternJson) (basePath : string).
    (* { AND: [...], basePath } *)

Definition toJSON (self : t) : TesterJson :=
  match patterns self with
  | [p] =>
      Single (includes_json (patternToJson p)) (excludes_json (patternToJson p))
        (basePath self)
  | ps => AND (map patternToJson ps) (basePath self)
  end.

End OverrideTester.

(* ===================================================================== *)
(** * config-dependency.js and loaded-entity.js *)
(* ===================================================================== *)

Module Dependency.
Import JS.

(** [ConfigDependency]: the constructor stores its six fields in this
    order; an omitted [definition], [error] or [filePath] is [null]. *)
Record ConfigDependency := {
  definition : value;
  error : value;
  filePath : value;
  id : value;
  importerName : value;
  importerPath : value
}.

(** The instance as an object: its own enumerable properties. *)
Definition ConfigDependency_object (d : ConfigDependency) : object :=
  Object Plain
    [ (KName "definition", definition d);
      (KName "error", error d);
      (KName "filePath", filePath d);
      (KName "id", id d);
      (KName "importerName", importerName d);
      (KName "importerPath", importerPath d) ].

(** [const { definition: _ignore, ...obj } = this; return obj;] *)
Definition ConfigDependency_toJSON (d : ConfigDependency) : object :=
  Object Plain
    (filter (λ p, fst p ≠ KName "definition")
       (props (ConfigDependency_object d))).

(** [LoadedEntity]: the same record without [importerName]. *)
Record LoadedEntity := {
  le_definition : value;
  le_error : value;
  le_filePath : value;
  le_id : value;
  le_importerPath : value
}.

(** [x.k] for a truthy [x] (so never a TypeError); a primitive has none of
    the properties read here. *)
Definition member (h : heap) (x : value) (k : key) : value :=
  match x with
  | VRef l => heap_get h l k
  | _ => VUndef
  end.

Definition LoadedEntity_toJSON (h : heap) (e : LoadedEntity) : object :=
  let obj := Object Plain [ (KName "id", le_id e);
                            (KName "importerPath", le_importerPath e) ] in
  let obj := if truthy (le_filePath e)
             then obj_set (KName "filePath") (le_filePath e) obj else obj in
  let obj := if truthy (le_error e)
             then obj_set (KName "error") (member h (le_error e) (KName "stack")) obj
             else obj in
  obj.

End Dependency.

(* ===================================================================== *)
(** * config-array.js: state, helpers and the merge functions *)
(* ===================================================================== *)

Module Merge.
Import JS Eff.

(** config-array-element.js.  An absent field is [undefined]; [criteria] is
    a tester or [null]. *)
Record ConfigArrayElement := Element {
  name : string;
  filePath : string;
  criteria : option OverrideTester.t;
  env : value;
  globals : value;
  parser : value;
  parserOptions : value;
  plugins : value;
  processor : value;
  root : value;
  rules : value;
  settings : value
}.

(** The heap together with the internal slots of the one ConfigArray under
    study ([internalSlotsMap.get(this)]). *)
Record world := World {
  heap_of : heap;
  cache : gmap string value;
  envMap : gmap string value;
  processorMap : gmap string value;
  ruleMap : gmap string value
}.

Definition with_heap (h : heap) (w : world) : world :=
  World h (cache w) (envMap w) (processorMap w) (ruleMap w).

Definition with_cache (c : gmap string value) (w : world) : world :=
  World (heap_of w) c (envMap w) (processorMap w) (ruleMap w).

Abbreviation M := (Eff.M world).

Definition alloc (o : object) : M loc :=
  λ w, (with_heap (heap_of w ++ [o]) w, Ret (length (heap_of w))).

(** [o[k]] for an object [o] *)
Definition read (l : loc) (k : key) : M value :=
  λ w, (w, Ret (heap_get (heap_of w) l k)).

(** [o[k] = v] for an object [o] *)
Definition write (l : loc) (k : key) (v : value) : M unit :=
  λ w, (with_heap (heap_set l k v (heap_of w)) w, Ret tt).

(** [x.k] for any value: undefined and null have no properties; a string has
    its length and its characters; other primitives and callables have none
    of the properties the resolver reads. *)
Definition get_prop (x : value) (k : key) : M value :=
  match x with
  | VUndef | VNull => throw TypeError
  | VRef l => read l k
  | VStr s =>
      if decide (k = KName "length") then ret (VNum (Z.of_nat (String.length s)))
      else
        match k with
        | KIdx i =>
            ret (match String.get i s with
                 | Some c => VStr (String c "")
                 | None => VUndef
                 end)
        | KName _ => ret VUndef
        end
  | _ => ret VUndef
  end.

(** [Object.keys(o)] of an object *)
Definition object_keys (l : loc) : M (list key) :=
  λ w, (w, Ret (match heap_of w !! l with
                | Some o => own_keys o
                | None => []
                end)).

Definition Array_isArray (x : value) : M bool :=
  λ w, (w, Ret (isArray (heap_of w) x)).

(** [[...a]] for an array [a] *)
Definition spread (x : value) : M (list value) :=
  match x with
  | VRef l =>
      λ w, (w, Ret (match heap_of w !! l with
                    | Some o => array_values o
                    | None => []
                    end))
  | _ => throw TypeError
  end.

(** [x.push(...vs)]: only arrays have [push]. *)
Definition push (x : value) (vs : list value) : M unit :=
  match x with
  | VRef l =>
      let! isArr := Array_isArray x in
      if isArr : bool
      then λ w, (with_heap (alter (array_push vs) l (heap_of w)) w, Ret tt)
      else throw TypeError
  | _ => throw TypeError
  end.

(** ** getMatchedIndices *)

Section Matching.
Variable relative : string → string → string.
Variable minimatch : string → string → bool.

(** [!element.criteria || element.criteria.test(filePath)]; [path.relative]
    rejects a [filePath] that is not a string. *)
Definition matches (element : ConfigArrayElement) (filePath : value)
  : outcome bool :=
  match criteria element with
  | None => Ret true
  | Some tester =>
      match filePath with
      | VStr p => Ret (OverrideTester.test relative minimatch tester p)
      | _ => Raise TypeError
      end
  end.

(** The loop [for (let i = n - 1; i >= 0; --i)], as a recursion on [n]. *)
Fixpoint matched_below (elements : list ConfigArrayElement) (filePath : value)
  (n : nat) : outcome (list nat) :=
  match n with
  | 0 => Ret []
  | S i =>
      match elements !! i with
      | None => Raise TypeError
      | Some element =>
          match matches element filePath with
          | Raise e => Raise e
          | Ret b =>
              match matched_below elements filePath i with
              | Raise e => Raise e
              | Ret indices => Ret (if b then i :: indices else indices)
              end
          end
      end
  end.

Definition getMatchedIndices (elements : list ConfigArrayElement)
  (filePath : value) : outcome (list nat) :=
  matched_below elements filePath (length elements).

End Matching.

(** ** assignWithoutOverwrite

    [target] is always an object: the callers pass a record the extraction
    created, and the recursion passes [target[key]] after testing it with
    [isNonNullObject].  [fuel] bounds the depth of the recursion. *)
Fixpoint assignWithoutOverwrite (fuel : nat) (target : loc) (source : value)
  : M unit :=
  match fuel with
  | 0 => throw StackOverflow
  | S fuel' =>
      match source with
      | VRef s =>
          let! keys := object_keys s in
          for_each keys (λ key,
            let! targetValue := read target key in
            match targetValue with
            | VRef inner =>
                let! sourceValue := read s key in
                assignWithoutOverwrite fuel' inner sourceValue
            | VUndef =>
                let! sourceValue := read s key in
                match sourceValue with
                | VRef _ =>
                    let! isArr := Array_isArray sourceValue in
                    let! fresh :=
                      alloc (if isArr : bool then empty_array else empty_object) in
                    write target key (VRef fresh) ;;
                    assignWithoutOverwrite fuel' fresh sourceValue
                | VUndef => ret tt
                | _ => write target key sourceValue
                end
            | _ => ret tt
            end)
      | _ => ret tt
      end
  end.

(** ** mergeRules *)

(** [x >= n] for a number [x] *)
Definition at_least (n : Z) (x : value) : bool :=
  match x with
  | VNum m => (n <=? m)%Z
  | _ => false
  end.

Definition mergeRule (target s : loc) (key : key) : M unit :=
  let! targetDef := read target key in
  let! sourceDef := read s key in
  if is_undefined targetDef then
    let! isArr := Array_isArray sourceDef in
    if isArr : bool then
      let! items := spread sourceDef in
      let! copy := alloc (array_of_list items) in
      write target key (VRef copy)
    else
      let! wrapped := alloc (array_of_list [sourceDef]) in   (* Severity only. *)
      write target key (VRef wrapped)
  else
    let! targetLength := get_prop targetDef (KName "length") in
    if decide (targetLength = VNum 1) then
      let! isArr := Array_isArray sourceDef in
      if isArr : bool then
        let! sourceLength := get_prop sourceDef (KName "length") in
        if at_least 2 sourceLength then
          let! items := spread sourceDef in
          push targetDef (drop 1 items)                      (* Options only. *)
        else ret tt
      else ret tt
    else ret tt.

Definition mergeRules (target : loc) (source : value) : M unit :=
  match source with
  | VRef s =>
      let! keys := object_keys s in
      for_each keys (mergeRule target s)
  | _ => ret tt
  end.

(** ** ExtractedConfig (extracted-config.js) *)

Definition ExtractedConfig_object (env globals parserOptions plugins rules settings : loc)
  : object :=
  Object Plain
    [ (KName "env", VRef env);
      (KName "globals", VRef globals);
      (KName "parser", VNull);
      (KName "parserOptions", VRef parserOptions);
      (KName "plugins", VRef plugins);
      (KName "processor", VNull);
      (KName "rules", VRef rules);
      (KName "settings", VRef settings) ].

(** [new ExtractedConfig()]: six empty records and the config that holds
    them. *)
Definition new_ExtractedConfig : M loc :=
  let! env := alloc empty_object in
  let! globals := alloc empty_object in
  let! parserOptions := alloc empty_object in
  let! plugins := alloc empty_object in
  let! rules := alloc empty_object in
  let! settings := alloc empty_object in
  alloc (ExtractedConfig_object env globals parserOptions plugins rules settings).

(** [config.k] where the constructor stored an object *)
Definition field (config : loc) (k : string) : M loc :=
  let! v := read config (KName k) in
  match v with
  | VRef l => ret l
  | _ => throw TypeError
  end.

(** ** The body of the merge loop of createConfig

    Both variants of config-array.js have the same loop; they differ in the
    [mergePlugins] they call. *)
Definition mergeElement (mergePlugins : loc → value → M unit) (fuel : nat)
  (config : loc) (element : ConfigArrayElement) : M unit :=
  let! configParser := read config (KName "parser") in
  (if negb (truthy configParser) && truthy (parser element) then
     let! error := get_prop (parser element) (KName "error") in
     if truthy error then throw (Thrown error)
     else write config (KName "parser") (parser element)
   else ret tt) ;;
  let! configProcessor := read config (KName "processor") in
  (if negb (truthy configProcessor) && truthy (processor element)
   then write config (KName "processor") (processor element)
   else ret tt) ;;
  let! configEnv := field config "env" in
  assignWithoutOverwrite fuel configEnv (env element) ;;
  let! configGlobals := field config "globals" in
  assignWithoutOverwrite fuel configGlobals (globals element) ;;
  let! configParserOptions := field config "parserOptions" in
  assignWithoutOverwrite fuel configParserOptions (parserOptions element) ;;
  let! configSettings := field config "settings" in
  assignWithoutOverwrite fuel configSettings (settings element) ;;
  let! configPlugins := field config "plugins" in
  mergePlugins configPlugins (plugins element) ;;
  let! configRules := field config "rules" in
  mergeRules configRules (rules element).

Definition merge_loop (mergePlugins : loc → value → M unit) (fuel : nat)
  (instance : list ConfigArrayElement) (config : loc) (indices : list nat)
  : M unit :=
  for_each indices (λ index,
    match instance !! index with
    | Some element => mergeElement mergePlugins fuel config element
    | None => throw TypeError
    end).

(** [indices.join(",")] *)
Definition cache_key (indices : list nat) : string :=
  String.concat "," (map pretty indices).

Definition cache_has (k : string) : M bool :=
  λ w, (w, Ret (bool_decide (is_Some (cache w !! k)))).

Definition cache_set (k : string) (v : value) : M unit :=
  λ w, (with_cache (<[k := v]> (cache w)) w, Ret tt).

Definition cache_get (k : string) : M value :=
  λ w, (w, Ret (default VUndef (cache w !! k))).

(** ** isRoot (the getter [root] of the other variant has the same body)

    The loop [for (let i = this.length - 1; i >= 0; --i)], as a recursion
    on the number of elements left to look at. *)
Fixpoint root_below (elements : list ConfigArrayElement) (n : nat)
  : outcome bool :=
  match n with
  | 0 => Ret false
  | S i =>
      match elements !! i with
      | None => Raise TypeError
      | Some element =>
          match root element with
          | VBool b => Ret b            (* typeof root === "boolean" *)
          | _ => root_below elements i
          end
      end
  end.

Definition isRoot (elements : list ConfigArrayElement) : outcome bool :=
  root_below elements (length elements).

End Merge.

(* ===================================================================== *)
(** * config-array.js, the variant that checks its argument, collects the
      plugin members while merging and validates after the fold *)
(* ===================================================================== *)

Module ConfigArray.
Import JS Eff Merge.

Inductive member_map := EnvMap | ProcessorMap | RuleMap.

(** [map.set(k, v)] on one of the three plugin-member maps of the slots *)
Definition map_set (which : member_map) (k : string) (v : value) : M unit :=
  λ w,
    (match which with
     | EnvMap =>
         World (heap_of w) (cache w) (<[k := v]> (envMap w)) (processorMap w) (ruleMap w)
     | ProcessorMap =>
         World (heap_of w) (cache w) (envMap w) (<[k := v]> (processorMap w)) (ruleMap w)
     | RuleMap =>
         World (heap_of w) (cache w) (envMap w) (processorMap w) (<[k := v]> (ruleMap w))
     end, Ret tt).

(** [Object.entries(x)] for a truthy [x]: the own properties of an object,
    the characters of a string, nothing for other primitives. *)
Definition entries (x : value) : M (list (key * value)) :=
  match x with
  | VRef l =>
      λ w, (w, Ret (match heap_of w !! l with
                    | Some o => map (λ k, (k, obj_get o k)) (own_keys o)
                    | None => []
                    end))
  | VStr s =>
      ret (imap (λ i c, (KIdx i, VStr (String c ""))) (String.list_ascii_of_string s))
  | _ => ret []
  end.

(** [map.get(id) || null] on one of the three maps: getPluginEnvironment,
    getPluginProcessor and getPluginRule. *)
Definition map_get (which : member_map) (id : string) : M value :=
  λ w,
    let found :=
      default VUndef
        (match which with
         | EnvMap => envMap w
         | ProcessorMap => processorMap w
         | RuleMap => ruleMap w
         end !! id) in
    (w, Ret (if truthy found then found else VNull)).

Definition getPluginEnvironment (envId : string) : M value :=
  map_get EnvMap envId.

Definition getPluginProcessor (processorId : string) : M value :=
  map_get ProcessorMap processorId.

Definition getPluginRule (ruleId : string) : M value :=
  map_get RuleMap ruleId.

Definition collect (pluginId : string) (defs : value) (map : member_map)
  (normalize : option (value → M value)) : M unit :=
  if truthy defs then
    let prefix := if String.eqb pluginId "" then pluginId else pluginId +:+ "/" in
    let! es := entries defs in
    for_each es (λ entry,
      let! v := match normalize with
                | Some f => f (snd entry)
                | None => ret (snd entry)
                end in
      map_set map (prefix +:+ key_to_string (fst entry)) v)
  else ret tt.

Section Eager.
Variable isAbsolute : string → bool.
Variable relative : string → string → string.
Variable minimatch : string → string → bool.
Variable render : heap → value → string.
(** [require(id)] for a module that is loaded already: its exports, or the
    exception it throws. *)
Variable require : string → outcome value.
(** [validateConfigArrayElement(element, ruleLookup, envLookup)] of
    config-validator: [None] when the element is valid, the exception
    otherwise. *)
Variable validateConfigArrayElement :
  heap → ConfigArrayElement → (string → value) → (string → value) → option exn.

Fixpoint normalizePluginRule (fuel : nat) (rule : value) : M value :=
  match fuel with
  | 0 => throw StackOverflow
  | S fuel' =>
      match rule with
      | VStr id =>
          let! loaded := lift (require id) in
          normalizePluginRule fuel' loaded
      | VFun _ =>
          let! wrapper := alloc (Object Plain [(KName "create", rule)]) in
          ret (VRef wrapper)
      | _ => ret rule
      end
  end.

Definition mergePlugin (fuel : nat) (target s : loc) (key : key) : M unit :=
  let! targetValue := read target key in
  let! sourceValue := read s key in
  (* Adopt the plugin which was found at first. *)
  if is_undefined targetValue then
    let! error := get_prop sourceValue (KName "error") in
    if truthy error then throw (Thrown error)
    else
      write target key sourceValue ;;
      (* Collect envs, processors, and rules. *)
      let! definition := get_prop sourceValue (KName "definition") in
      let! environments := get_prop definition (KName "environments") in
      collect (key_to_string key) environments EnvMap None ;;
      let! definition := get_prop sourceValue (KName "definition") in
      let! processors := get_prop definition (KName "processors") in
      collect (key_to_string key) processors ProcessorMap None ;;
      let! definition := get_prop sourceValue (KName "definition") in
      let! pluginRules := get_prop definition (KName "rules") in
      collect (key_to_string key) pluginRules RuleMap
        (Some (normalizePluginRule fuel))
  else ret tt.

Definition mergePlugins (fuel : nat) (target : loc) (source : value) : M unit :=
  match source with
  | VRef s =>
      let! keys := object_keys s in
      for_each keys (mergePlugin fuel target s)
  | _ => ret tt
  end.

Definition validate (element : ConfigArrayElement) : M unit :=
  λ w,
    match validateConfigArrayElement (heap_of w) element
            (λ id, default VUndef (ruleMap w !! id))
            (λ id, default VUndef (envMap w !! id)) with
    | Some e => (w, Raise e)
    | None => (w, Ret tt)
    end.

Definition createConfig (fuel : nat) (instance : list ConfigArrayElement)
  (indices : list nat) : M loc :=
  let! config := new_ExtractedConfig in
  (* Merge elements. *)
  merge_loop (mergePlugins fuel) fuel instance config indices ;;
  (* Validate environments and rule's configs. *)
  for_each indices (λ index,
    match instance !! index with
    | Some element => validate element
    | None => throw TypeError
    end) ;;
  ret config.

Definition invalid_argument_message (h : heap) (filePath : value) : string :=
  "'filePath' should be an absolute path, but got "
    +:+ to_string render h filePath +:+ ".".

(** [path.isAbsolute(filePath)] once [filePath] is known to be a string *)
Definition is_absolute_path (filePath : value) : bool :=
  match filePath with
  | VStr p => isAbsolute p
  | _ => false
  end.

Definition extractConfig (fuel : nat) (instance : list ConfigArrayElement)
  (filePath : value) : M value :=
  if negb (is_string filePath) || negb (is_absolute_path filePath) then
    λ w, (w, Raise (NewError (invalid_argument_message (heap_of w) filePath)))
  else
    let! indices := lift (getMatchedIndices relative minimatch instance filePath) in
    let cacheKey := cache_key indices in
    let! cached := cache_has cacheKey in
    (if cached : bool then ret tt
     else
       let! config := createConfig fuel instance indices in
       cache_set cacheKey (VRef config)) ;;
    cache_get cacheKey.

End Eager.
End ConfigArray.

(* ===================================================================== *)
(** * config-array.js, the variant with plugin members indexed on demand *)
(* ===================================================================== *)

Module ConfigArrayLazy.
Import JS Eff Merge.

Definition mergePlugin (target s : loc) (key : key) : M unit :=
  let! targetValue := read target key in
  let! sourceValue := read s key in
  (* Adopt the plugin which was found at first. *)
  if is_undefined targetValue then
    let! error := get_prop sourceValue (KName "error") in
    if truthy error then throw (Thrown error)
    else write target key sourceValue
  else ret tt.

Definition mergePlugins (target : loc) (source : value) : M unit :=
  match source with
  | VRef s =>
      let! keys := object_keys s in
      for_each keys (mergePlugin target s)
  | _ => ret tt
  end.

Definition createConfig (fuel : nat) (instance : list ConfigArrayElement)
  (indices : list nat) : M loc :=
  let! config := new_ExtractedConfig in
  merge_loop mergePlugins fuel instance config indices ;;
  ret config.

Section Lazy.
Variable relative : string → string → string.
Variable minimatch : string → string → bool.

Definition extractConfig (fuel : nat) (instance : list ConfigArrayElement)
  (filePath : value) : M value :=
  let! indices := lift (getMatchedIndices relative minimatch instance filePath) in
  let cacheKey := cache_key indices in
  let! cached := cache_has cacheKey in
  (if cached : bool then ret tt
   else
     let! config := createConfig fuel instance indices in
     cache_set cacheKey (VRef config)) ;;
  cache_get cacheKey.

End Lazy.
End ConfigArrayLazy.

(* ===================================================================== *)
(** * config-array-factory.js: the parser and plugin loaders *)
(* ===================================================================== *)

Module Factory.
Import JS Eff Dependency.

(** The calls the loaders make to their collaborators. *)
Inductive event :=
| Resolve (request importer : string)   (* ModuleResolver.resolve(request, importer) *)
| Require (id : string).                (* require(id) *)

Global Instance event_eq_dec : EqDecision event.
Proof. solve_decision. Defined.

Record fstate := FState { heap_of : heap; trace : list event }.

Abbreviation F := (Eff.M fstate).

Record ConfigArrayFactory := {
  additionalParserPool : gmap string value;
  additionalPluginPool : gmap string value;
  cwd : string
}.

(** [pool.get(k)] of a Map *)
Definition pool_get (pool : gmap string value) (k : string) : value :=
  default VUndef (pool !! k).

(** What [_loadPlugin] returns: an instance of ConfigDependency, or the
    object literal [{ error, id, importerPath }] of the whitespace case. *)
Inductive loaded :=
| Instance (d : ConfigDependency)
| Literal (error : value) (id : string) (importerPath : string).

Definition loaded_id (p : loaded) : value :=
  match p with
  | Instance d => id d
  | Literal _ i _ => VStr i
  end.

Definition backslash : string := String (Ascii.ascii_of_nat 92) "".

Definition alloc (o : object) : F loc :=
  λ s, (FState (heap_of s ++ [o]) (trace s), Ret (length (heap_of s))).

Definition write (x : value) (k : key) (v : value) : F unit :=
  match x with
  | VRef l => λ s, (FState (heap_set l k v (heap_of s)) (trace s), Ret tt)
  | _ => throw TypeError
  end.

Definition log (e : event) : F unit :=
  λ s, (FState (heap_of s) (trace s ++ [e]), Ret tt).

(** [new Error(message)] *)
Definition new_Error (message : string) : F value :=
  let! l := alloc (Object Plain [(KName "message", VStr message)]) in
  ret (VRef l).

Section Loaders.
Variable isAbsolute : string → bool.                     (* path.isAbsolute *)
Variable join : string → string → string.                (* path.join *)
Variable resolve : string → string → outcome string.     (* ModuleResolver.resolve *)
Variable require : string → outcome value.               (* require *)
Variable normalizePackageName : string → string → string. (* naming.normalizePackageName *)
Variable getShorthandName : string → string → string.    (* naming.getShorthandName *)
Variable instanceof_Error : heap → value → bool.         (* error instanceof Error *)
Variable render : heap → value → string.
Variable debug_enabled : bool.                           (* debug.enabled *)

(** [/^\.{1,2}[/\\]/u.test(nameOrPath) || path.isAbsolute(nameOrPath)] *)
Definition isFilePath (nameOrPath : string) : bool :=
  (String.prefix "./" nameOrPath
   || String.prefix ("." +:+ backslash) nameOrPath
   || String.prefix "../" nameOrPath
   || String.prefix (".." +:+ backslash) nameOrPath)
  || isAbsolute nameOrPath.

Definition do_resolve (request importer : string) : F string :=
  log (Resolve request importer) ;; lift (resolve request importer).

Definition do_require (id : string) : F value :=
  log (Require id) ;; lift (require id).

(** The value bound by [catch (error)]. *)
Definition caught (e : exn) : F value :=
  match e with
  | Thrown v => ret v
  | NewError message => new_Error message
  | TypeError => new_Error "TypeError"
  | StackOverflow => new_Error "Maximum call stack size exceeded"
  end.

(** [error instanceof Error ? error : new Error(error)] *)
Definition as_Error (error : value) : F value :=
  λ s,
    if instanceof_Error (heap_of s) error then (s, Ret error)
    else new_Error (to_string render (heap_of s) error) s.

(** The version lookup done for the debug log; its failure is swallowed. *)
Definition debug_version (name : string) : F unit :=
  if debug_enabled
  then try_catch (do_require (name +:+ "/package.json") ;; ret tt) (λ _, ret tt)
  else ret tt.

Definition _loadParser (self : ConfigArrayFactory)
  (nameOrPath importerPath : string) (importerName : value)
  : F ConfigDependency :=
  (* Check for additional pool. *)
  let parser := pool_get (additionalPluginPool self) nameOrPath in
  if truthy parser then
    ret {| definition := parser;
           error := VNull;
           filePath := VStr importerPath;
           id := VStr nameOrPath;
           importerName := importerName;
           importerPath := VStr importerPath |}
  else
    try_catch
      (let! filePath :=
         do_resolve nameOrPath
           (if String.eqb importerPath "" then join (cwd self) "a.js"
            else importerPath) in
       debug_version nameOrPath ;;
       let! definition := do_require filePath in
       ret {| definition := definition;
              error := VNull;
              filePath := VStr filePath;
              id := VStr nameOrPath;
              importerName := importerName;
              importerPath := VStr importerPath |})
      (λ e,
         let! error := caught e in
         let! error := as_Error error in
         ret {| definition := VNull;
                error := error;
                filePath := VNull;
                id := VStr nameOrPath;
                importerName := importerName;
                importerPath := VStr importerPath |}).

(** [/\s+/u] finds a match: some character is white space (of the ASCII
    ones; a string here is a sequence of bytes). *)
Definition has_whitespace (s : string) : bool :=
  existsb Ascii.is_space (String.list_ascii_of_string s).

Definition member (x : value) (k : key) : F value :=
  λ s, (s, Ret (Dependency.member (heap_of s) x k)).

Definition plugin_missing (self : ConfigArrayFactory) (request : string)
  (error : value) : F unit :=
  let! code := member error (KName "code") in
  if truthy error && bool_decide (code = VStr "MODULE_NOT_FOUND") then
    let! message := member error (KName "message") in
    let! text :=
      (λ s, (s, Ret ("Failed to load plugin " +:+ request +:+ ": "
                       +:+ to_string render (heap_of s) message
                       +:+ " (relative to " +:+ cwd self +:+ ")"))) in
    write error (KName "message") (VStr text) ;;
    write error (KName "messageTemplate") (VStr "plugin-missing") ;;
    let! data := alloc (Object Plain [ (KName "pluginName", VStr request);
                                       (KName "projectRoot", VStr (cwd self)) ]) in
    write error (KName "messageData") (VRef data)
  else ret tt.

Definition load_from_disk (self : ConfigArrayFactory)
  (request id importerPath : string) (importerName : value) : F loaded :=
  try_catch
    (* Resolve the plugin file relative to the project root. *)
    (let! filePath := do_resolve request (join (cwd self) "a.js") in
     debug_version request ;;
     let! definition := do_require filePath in
     ret (Instance {| definition := definition;
                      error := VNull;
                      filePath := VStr filePath;
                      id := VStr id;
                      importerName := importerName;
                      importerPath := VStr importerPath |}))
    (λ e,
       let! error := caught e in
       plugin_missing self request error ;;
       let! error := as_Error error in
       ret (Instance {| definition := VNull;
                        error := error;
                        filePath := VNull;
                        id := VStr id;
                        importerName := importerName;
                        importerPath := VStr importerPath |})).

Definition _loadPlugin (self : ConfigArrayFactory)
  (nameOrPath importerPath : string) (importerName : value) : F loaded :=
  if isFilePath nameOrPath then
    load_from_disk self nameOrPath nameOrPath importerPath importerName
  else
    let request := normalizePackageName nameOrPath "eslint-plugin" in
    let id := getShorthandName request "eslint-plugin" in
    if has_whitespace nameOrPath then
      let! error :=
        new_Error ("Whitespace found in plugin name '" +:+ nameOrPath +:+ "'") in
      write error (KName "messageTemplate") (VStr "whitespace-found") ;;
      let! data := alloc (Object Plain [(KName "pluginName", VStr request)]) in
      write error (KName "messageData") (VRef data) ;;
      ret (Literal error id importerPath)
    else
      (* Check for additional pool. *)
      let plugin :=
        if truthy (pool_get (additionalPluginPool self) request)
        then pool_get (additionalPluginPool self) request
        else pool_get (additionalPluginPool self) id in
      if truthy plugin then
        ret (Instance {| definition := plugin;
                         error := VNull;
                         filePath := VStr importerPath;
                         id := VStr id;
                         importerName := importerName;
                         importerPath := VStr importerPath |})
      else load_from_disk self request id importerPath importerName.

(** [map[k] = v] on the object that [_loadPlugins] builds *)
Fixpoint map_set (k : value) (v : loaded) (m : list (value * loaded))
  : list (value * loaded) :=
  match m with
  | [] => [(k, v)]
  | (k', v') :: m' =>
      if decide (k' = k) then (k, v) :: m' else (k', v') :: map_set k v m'
  end.

(** [names.reduce((map, name) => ..., {})] *)
Fixpoint load_each (self : ConfigArrayFactory) (names : list string)
  (importerPath : string) (importerName : value) (map : list (value * loaded))
  : F (list (value * loaded)) :=
  match names with
  | [] => ret map
  | name :: rest =>
      if isFilePath name then
        throw (NewError "Plugins array cannot includes file paths.")
      else
        let! plugin := _loadPlugin self name importerPath importerName in
        load_each self rest importerPath importerName
          (map_set (loaded_id plugin) plugin map)
  end.

Definition _loadPlugins (self : ConfigArrayFactory) (names : list string)
  (importerPath : string) (importerName : value) : F (list (value * loaded)) :=
  load_each self names importerPath importerName [].

End Loaders.

(** [createConfigArray(elements, parentConfigArray)], once the elements
    that the iterator yields are known; [null] is [None]. *)
Definition createConfigArray
  (elements parentConfigArray : option (list Merge.ConfigArrayElement))
  : outcome (list Merge.ConfigArrayElement) :=
  match elements with
  | None => Ret (default [] parentConfigArray)
  | Some configArray =>
      match parentConfigArray with
      | None => Ret configArray
      | Some parent =>
          match Merge.isRoot configArray with
          | Raise e => Raise e
          | Ret true => Ret configArray
          | Ret false => Ret (parent ++ configArray)   (* unshift(...parent) *)
          end
      end
  end.
End Factory.

(* ===================================================================== *)
(** * config-array-factory.js: the config file of a directory *)
(* ===================================================================== *)

Module Directory.
Import JS Eff.

(** The heap, [debug.enabled], and what [debug] has printed. *)
Record dstate := DState {
  heap_of : heap;
  enabled : bool;
  printed : list string
}.

Abbreviation D := (Eff.M dstate).

Definition configFilenames : list string :=
  [ ".eslintrc.js";
    ".eslintrc.yaml";
    ".eslintrc.yml";
    ".eslintrc.json";
    ".eslintrc";
    "package.json" ].

(** [debug(message)] prints when [debug.enabled] is set. *)
Definition debug (message : string) : D unit :=
  λ s, (if enabled s
        then DState (heap_of s) (enabled s) (printed s ++ [message])
        else s, Ret tt).

Definition get_enabled : D bool := λ s, (s, Ret (enabled s)).

Definition set_enabled (b : bool) : D unit :=
  λ s, (DState (heap_of s) b (printed s), Ret tt).

(** [try { m } finally { cleanup }] *)
Definition try_finally {A} (m : D A) (cleanup : D unit) : D A :=
  λ s, match m s with
       | (s1, r) =>
           match cleanup s1 with
           | (s2, Ret _) => (s2, r)
           | (s2, Raise e) => (s2, Raise e)
           end
       end.

(** [error.code] for what was caught: undefined and null have no
    properties; an object has what the heap says; the errors that the
    resolver and the runtime create have no code. *)
Definition error_code (error : exn) : D value :=
  match error with
  | Thrown (VRef l) => λ s, (s, Ret (heap_get (heap_of s) l (KName "code")))
  | Thrown VUndef | Thrown VNull => throw TypeError
  | _ => ret VUndef
  end.

(** [code === "ENOENT" || code === "MODULE_NOT_FOUND"] *)
Definition missing (code : value) : bool :=
  match code with
  | VStr c => String.eqb c "ENOENT" || String.eqb c "MODULE_NOT_FOUND"
  | _ => false
  end.

Section Load.
(** What [_normalizeConfigData] returns: the iterator of the elements. *)
Variable R : Type.
Variable join : string → string → string.                (* path.join *)
Variable loadConfigFile : string → D value.
(** [this._normalizeConfigData(configData, { filePath, name })] *)
Variable _normalizeConfigData : value → string → value → D R.

(** The body of the loop over the file names; [Some] is its [return]. *)
Definition try_filename (directoryPath filename : string) (name : value)
  : D (option R) :=
  let filePath := join directoryPath filename in
  try_catch
    (let! originalEnabled := get_enabled in
     (* Make silent temporary because of too verbose. *)
     set_enabled false ;;
     let! configData :=
       try_finally (loadConfigFile filePath) (set_enabled originalEnabled) in
     if truthy configData then
       debug ("Config file found: " +:+ filePath) ;;
       let! elements := _normalizeConfigData configData filePath name in
       ret (Some elements)
     else ret None)
    (λ error,
       let! code := error_code error in
       if missing code then ret None else throw error).

Fixpoint search (directoryPath : string) (filenames : list string)
  (name : value) : D (option R) :=
  match filenames with
  | [] =>
      debug ("Config file not found on " +:+ directoryPath) ;;
      ret None
  | filename :: rest =>
      let! found := try_filename directoryPath filename name in
      match found with
      | Some elements => ret (Some elements)
      | None => search directoryPath rest name
      end
  end.

Definition _loadConfigDataOnDirectory (directoryPath : string) (name : value)
  : D (option R) :=
  search directoryPath configFilenames name.

End Load.

End Directory.

(* ===================================================================== *)
(** * Scenarios

    Concrete arrays, in worlds where the records of the elements are on the
    heap already, and stand-ins for the collaborators. *)
(* ===================================================================== *)

Module Scenarios.
Import JS Eff Merge.

(** Stand-ins: paths are matched as they are, no glob matches, every
    element is valid, no module can be required. *)
Definition relative : string → string → string := λ _ p, p.
Definition minimatch : string → string → bool := λ _ _, false.
Definition render : heap → value → string := λ _ _, "[object Object]".
Definition require : string → outcome value := λ _, Raise TypeError.
Definition valid :
  heap → ConfigArrayElement → (string → value) → (string → value) → option exn :=
  λ _ _ _ _, None.

Definition element : ConfigArrayElement :=
  Element "" "" None VUndef VUndef VUndef VUndef VUndef VUndef VUndef VUndef VUndef.

Definition with_rules (r : value) : ConfigArrayElement :=
  Element "" "" None VUndef VUndef VUndef VUndef VUndef VUndef VUndef r VUndef.

Definition with_parserOptions (o : value) : ConfigArrayElement :=
  Element "" "" None VUndef VUndef VUndef o VUndef VUndef VUndef VUndef VUndef.

Definition with_parser (p : value) : ConfigArrayElement :=
  Element "" "" None VUndef VUndef p VUndef VUndef VUndef VUndef VUndef VUndef.

(** [[{ rules: { r: [1, "n", "u"] } }, { rules: { r: "error" } }]] *)
Definition backfill_heap : heap :=
  [ array_of_list [VNum 1; VStr "n"; VStr "u"];
    Object Plain [(KName "r", VRef 0)];
    Object Plain [(KName "r", VStr "error")] ].

Definition backfill : list ConfigArrayElement :=
  [with_rules (VRef 1); with_rules (VRef 2)].

(** [[{ parserOptions: { ecmaFeatures: { jsx: true } } },
      { parserOptions: { ecmaFeatures: { globalReturn: true } } }]] *)
Definition features_heap : heap :=
  [ Object Plain [(KName "jsx", VBool true)];
    Object Plain [(KName "ecmaFeatures", VRef 0)];
    Object Plain [(KName "globalReturn", VBool true)];
    Object Plain [(KName "ecmaFeatures", VRef 2)] ].

Definition features : list ConfigArrayElement :=
  [with_parserOptions (VRef 1); with_parserOptions (VRef 3)].

(** [[{ parser: { error: E } }, { parser: P }]] and [[{ parser: { error: E } }]] *)
Definition parsers_heap : heap :=
  [ Object Plain [(KName "message", VStr "Failed to load a parser.")];
    Object Plain [(KName "error", VRef 0)];
    Object Plain [(KName "id", VStr "a parser")] ].

Definition overridden : list ConfigArrayElement :=
  [with_parser (VRef 1); with_parser (VRef 2)].

Definition broken : list ConfigArrayElement := [with_parser (VRef 1)].

(** A criteria that matches nothing, on an element with the broken parser. *)
Definition unmatched : list ConfigArrayElement :=
  [ Element "" ""
      (Some (OverrideTester.Tester
               [OverrideTester.Build_Pattern
                  (Some [OverrideTester.Matcher "*.ts"]) None] "/"))
      VUndef VUndef (VRef 1) VUndef VUndef VUndef VUndef VUndef VUndef ].

(** A matcher that accepts the path that is its pattern, and an array whose
    second element is for one file only. *)
Definition exact : string → string → bool := String.eqb.

Definition override : list ConfigArrayElement :=
  [ element;
    Element "" ""
      (Some (OverrideTester.Tester
               [OverrideTester.Build_Pattern
                  (Some [OverrideTester.Matcher "/project/a.ts"]) None] "/"))
      VUndef VUndef VUndef VUndef VUndef VUndef VUndef VUndef VUndef ].

(** [{ browser: false, lib: {} }] and [{ browser: true, node: true, lib: 1 }] *)
Definition envs_heap : heap :=
  [ Object Plain [(KName "browser", VBool false); (KName "lib", VRef 2)];
    Object Plain [(KName "browser", VBool true); (KName "node", VBool true);
                  (KName "lib", VNum 1)];
    Object Plain [] ].

Definition with_env (o : value) : ConfigArrayElement :=
  Element "" "" None o VUndef VUndef VUndef VUndef VUndef VUndef VUndef VUndef.

(** [[{ env: { browser: false, node: true } }, { env: { browser: true } }]] *)
Definition browsers_heap : heap :=
  [ Object Plain [(KName "browser", VBool false); (KName "node", VBool true)];
    Object Plain [(KName "browser", VBool true)] ].

Definition browsers : list ConfigArrayElement :=
  [with_env (VRef 0); with_env (VRef 1)].

Definition with_plugins (o : value) : ConfigArrayElement :=
  Element "" "" None VUndef VUndef VUndef VUndef o VUndef VUndef VUndef VUndef.

(** Two loaded plugins with the id [a] and one with the id [b]:
    [[{ plugins: { a: A1 } }, { plugins: { a: A2, b: B } }]] *)
Definition plugins_heap : heap :=
  [ Object Plain [];
    Object Plain [(KName "definition", VRef 0); (KName "filePath", VStr "/one/a.js")];
    Object Plain [(KName "definition", VRef 0); (KName "filePath", VStr "/two/a.js")];
    Object Plain [(KName "definition", VRef 0); (KName "filePath", VStr "/two/b.js")];
    Object Plain [(KName "a", VRef 1)];
    Object Plain [(KName "a", VRef 2); (KName "b", VRef 3)] ].

Definition two_plugins : list ConfigArrayElement :=
  [with_plugins (VRef 4); with_plugins (VRef 5)].

(** A factory with a parser in the parser pool only, and a resolver that
    finds nothing. *)
Definition my_parser : Factory.ConfigArrayFactory :=
  {| Factory.additionalParserPool := {[ "my-parser" := VRef 0 ]};
     Factory.additionalPluginPool := ∅;
     Factory.cwd := "/project" |}.

Definition not_found : string → string → outcome string :=
  λ _ _, Raise (Thrown (VRef 1)).

Definition loader_state : Factory.fstate :=
  Factory.FState
    [ Object Plain [(KName "parse", VFun 0)];
      Object Plain [(KName "code", VStr "MODULE_NOT_FOUND")] ] [].

(** A directory with a [.eslintrc.json] only: the other files are
    missing, and the loader leaves [debug.enabled] set when it fails. *)
Definition json_only (filePath : string) : Directory.D value :=
  if String.eqb filePath "/project/.eslintrc.json" then ret (VRef 0)
  else Directory.set_enabled true ;; throw (Thrown (VRef 1)).

Definition as_it_is (configData : value) (filePath : string) (name : value)
  : Directory.D value :=
  ret configData.

Definition slash (directory filename : string) : string :=
  directory +:+ "/" +:+ filename.

Definition directory_state : Directory.dstate :=
  Directory.DState
    [ Object Plain [(KName "root", VBool true)];
      Object Plain [(KName "code", VStr "ENOENT")] ] false [].

End Scenarios.

(* ===================================================================== *)
(** * Predicates used in the statements and in the proofs *)
(* ===================================================================== *)

Module Props.
Import JS Eff Merge.

(** ** Regions of the heap

    A region is a set of locations.  It is closed when the objects in it
    only refer to objects in it. *)

Definition region := loc → Prop.

Definition closed (h : heap) (T : region) : Prop :=
  ∀ l o k l', T l → h !! l = Some o → (k, VRef l') ∈ props o → T l'.

Definition bounded (h : heap) (T : region) : Prop :=
  ∀ l, T l → l < length h.

Definition same_shapes (h h' : heap) : Prop :=
  ∀ l o, h !! l = Some o → ∃ o', h' !! l = Some o' ∧ is_array o' = is_array o.

(** [grows T h T' h']: the heap went from [h] to [h'] by writes inside the
    closed region [T] and by allocations, and [T'] is [T] with some of the
    new locations. *)
Record grows (T : region) (h : heap) (T' : region) (h' : heap) : Prop := Grows {
  grows_incl : ∀ l, T l → T' l;
  grows_new : ∀ l, T' l → T l ∨ length h ≤ l;
  grows_bounded : bounded h' T';
  grows_closed : closed h' T';
  grows_length : length h ≤ length h';
  grows_frame : ∀ l, l < length h → ¬ T l → h' !! l = h !! l;
  grows_shapes : same_shapes h h'
}.

(** The slots of the array other than the heap. *)
Definition same_slots (w w' : world) : Prop :=
  cache w' = cache w ∧ envMap w' = envMap w ∧
  processorMap w' = processorMap w ∧ ruleMap w' = ruleMap w.

(** The heap only grew, and what was there is as it was. *)
Definition extends (h h' : heap) : Prop :=
  ∀ l, l < length h → h' !! l = h !! l.

(** ** The invariant of the merge loop

    [h0] is the heap before [new ExtractedConfig()]; the constructor puts
    the six records at [length h0 .. length h0 + 5] and the config at
    [length h0 + 6].  [T] is the region of the four records that
    assignWithoutOverwrite fills. *)

Definition fresh_config (h0 : heap) : heap :=
  h0 ++ [empty_object; empty_object; empty_object; empty_object; empty_object;
         empty_object;
         ExtractedConfig_object (length h0) (length h0 + 1) (length h0 + 2)
           (length h0 + 3) (length h0 + 4) (length h0 + 5)].

Definition records (h0 : heap) : region :=
  λ l, l = length h0 ∨ l = length h0 + 1 ∨ l = length h0 + 2 ∨ l = length h0 + 5.

Definition is_config (base : nat) (C : object) : Prop :=
  obj_get C (KName "env") = VRef base ∧
  obj_get C (KName "globals") = VRef (base + 1) ∧
  obj_get C (KName "parserOptions") = VRef (base + 2) ∧
  obj_get C (KName "plugins") = VRef (base + 3) ∧
  obj_get C (KName "rules") = VRef (base + 4) ∧
  obj_get C (KName "settings") = VRef (base + 5).

(** Every value of the rules record is an array the extraction created. *)
Definition rule_arrays (base : nat) (T : region) (h : heap) (R : object) : Prop :=
  ∀ k v, (k, v) ∈ props R →
    ∃ a arr, v = VRef a ∧ base ≤ a ∧ ¬ T a ∧ h !! a = Some arr ∧ is_array arr = true.

Record cfg_inv (h0 : heap) (T : region) (h : heap) : Prop := CfgInv {
  ci_frame : ∀ l, l < length h0 → h !! l = h0 !! l;
  ci_config : ∃ C, h !! (length h0 + 6) = Some C ∧ is_array C = false ∧
                   is_config (length h0) C;
  ci_plugins : ∃ P, h !! (length h0 + 3) = Some P ∧ is_array P = false;
  ci_rules : ∃ R, h !! (length h0 + 4) = Some R ∧ is_array R = false ∧
                  rule_arrays (length h0) T h R;
  ci_in : T (length h0) ∧ T (length h0 + 1) ∧ T (length h0 + 2) ∧ T (length h0 + 5);
  ci_out : ¬ T (length h0 + 3) ∧ ¬ T (length h0 + 4) ∧ ¬ T (length h0 + 6);
  ci_low : ∀ l, T l → length h0 ≤ l;
  ci_closed : closed h T;
  ci_bounded : bounded h T
}.

(** [keeps h0 T w w']: a step of the merge loop that keeps the invariant,
    the cache and the config object itself. *)
Definition keeps (h0 : heap) (T : region) (w w' : world) : Prop :=
  cfg_inv h0 T (heap_of w') ∧ cache w' = cache w ∧
  heap_of w' !! (length h0 + 6) = heap_of w !! (length h0 + 6).

Definition config_parser (h0 : heap) (w : world) : value :=
  heap_get (heap_of w) (length h0 + 6) (KName "parser").

(** [advances h0 w w']: what a part of the merge loop does to the world. *)
Definition advances (h0 : heap) (w w' : world) : Prop :=
  (∃ T, cfg_inv h0 T (heap_of w')) ∧
  cache w' = cache w ∧
  (truthy (config_parser h0 w) = true → config_parser h0 w' = config_parser h0 w).

(** What the merge loop needs from the [mergePlugins] it is given. *)
Definition plugins_ok (mergePlugins : loc → value → M unit) : Prop :=
  ∀ h0 T source w w' r,
    cfg_inv h0 T (heap_of w) →
    mergePlugins (length h0 + 3) source w = (w', r) →
    keeps h0 T w w'.

(** ** Elements and configs *)

(** The element's parser failed to load: [element.parser.error] is truthy. *)
Definition errored (h : heap) (element : ConfigArrayElement) (err : value) : Prop :=
  ∃ p, parser element = VRef p ∧ p < length h ∧
       heap_get h p (KName "error") = err ∧ truthy err = true.

(** The rules record of a config holds arrays only. *)
Definition rules_are_arrays (h : heap) (c : loc) : Prop :=
  ∃ r R, heap_get h c (KName "rules") = VRef r ∧ h !! r = Some R ∧
         ∀ k v, (k, v) ∈ props R → isArray h v = true.

(** The config is as the constructor made it. *)
Definition empty_config (h : heap) (c : loc) : Prop :=
  ∃ env globals parserOptions plugins rules settings,
    h !! c = Some (ExtractedConfig_object env globals parserOptions plugins
                     rules settings) ∧
    h !! env = Some empty_object ∧ h !! globals = Some empty_object ∧
    h !! parserOptions = Some empty_object ∧ h !! plugins = Some empty_object ∧
    h !! rules = Some empty_object ∧ h !! settings = Some empty_object.

Definition with_parser (p : value) (e : ConfigArrayElement) : ConfigArrayElement :=
  Element (name e) (filePath e) (criteria e) (env e) (globals e) p
    (parserOptions e) (plugins e) (processor e) (root e) (rules e) (settings e).

(** Two arrays that differ at most in the parsers of their elements. *)
Definition same_but_parsers (instance instance' : list ConfigArrayElement) : Prop :=
  Forall2 (λ e e', e' = with_parser (parser e') e) instance instance'.

(** ** Values as trees *)

Unset Elimination Schemes.
Inductive tree :=
| TUndef | TNull | TBool (b : bool) | TNum (n : Z) | TStr (s : string)
| TFun (f : nat)
| TObject (sh : shape) (ps : list (key * tree))
| TDangling
| TDeeper.
Set Elimination Schemes.

(** What [v] looks like in [h], down to a depth. *)
Fixpoint snapshot (depth : nat) (h : heap) (v : value) : tree :=
  match v with
  | VUndef => TUndef
  | VNull => TNull
  | VBool b => TBool b
  | VNum n => TNum n
  | VStr s => TStr s
  | VFun f => TFun f
  | VRef l =>
      match depth with
      | 0 => TDeeper
      | S d =>
          match h !! l with
          | Some o => TObject (shape_of o)
                        (map (λ p, (fst p, snapshot d h (snd p))) (props o))
          | None => TDangling
          end
      end
  end.

(** No reference of the heap dangles. *)
Definition wf_heap (h : heap) : Prop :=
  ∀ l o k l', h !! l = Some o → (k, VRef l') ∈ props o → l' < length h.

Definition wf_value (h : heap) (v : value) : Prop :=
  ∀ l, v = VRef l → l < length h.

(** The fields of an element that extraction reads as records. *)
Definition wf_element (h : heap) (e : ConfigArrayElement) : Prop :=
  wf_value h (env e) ∧ wf_value h (globals e) ∧ wf_value h (parserOptions e) ∧
  wf_value h (settings e) ∧ wf_value h (rules e).

Definition same_element (depth : nat) (h h' : heap) (e : ConfigArrayElement) : Prop :=
  snapshot depth h' (env e) = snapshot depth h (env e) ∧
  snapshot depth h' (globals e) = snapshot depth h (globals e) ∧
  snapshot depth h' (parserOptions e) = snapshot depth h (parserOptions e) ∧
  snapshot depth h' (settings e) = snapshot depth h (settings e) ∧
  snapshot depth h' (rules e) = snapshot depth h (rules e).

(** ** Cache keys *)

Definition is_digit (c : Ascii.ascii) : Prop := is_Some (Ascii.is_nat c).

Fixpoint all_digits (s : string) : Prop :=
  match s with
  | EmptyString => True
  | String c s' => is_digit c ∧ all_digits s'
  end.

(** ** extractConfig and its cache

    Both variants of extractConfig have one shape: an optional check of the
    argument, the matched indices, the cache lookup, createConfig on a
    miss. *)

Definition initial (h0 : heap) : world := World h0 ∅ ∅ ∅ ∅.

Section Extraction.
Variable guard : heap → value → option exn.
Variable matched : value → outcome (list nat).
Variable create : nat → list nat → M loc.

Definition extract (fuel : nat) (filePath : value) : M value :=
  λ w,
    match guard (heap_of w) filePath with
    | Some e => (w, Raise e)
    | None =>
        (let! indices := lift (matched filePath) in
         let cacheKey := cache_key indices in
         let! cached := cache_has cacheKey in
         (if cached : bool then ret tt
          else
            let! config := create fuel indices in
            cache_set cacheKey (VRef config)) ;;
         cache_get cacheKey) w
    end.

(** The five ways a call can go. *)
Inductive run (fuel : nat) (filePath : value) (w : world)
  : world → outcome value → Prop :=
| run_rejected e :
    guard (heap_of w) filePath = Some e →
    run fuel filePath w w (Raise e)
| run_unmatched e :
    guard (heap_of w) filePath = None → matched filePath = Raise e →
    run fuel filePath w w (Raise e)
| run_hit indices v :
    guard (heap_of w) filePath = None → matched filePath = Ret indices →
    cache w !! cache_key indices = Some v →
    run fuel filePath w w (Ret v)
| run_failed indices w' e :
    guard (heap_of w) filePath = None → matched filePath = Ret indices →
    cache w !! cache_key indices = None →
    create fuel indices w = (w', Raise e) →
    run fuel filePath w w' (Raise e)
| run_created indices w' c :
    guard (heap_of w) filePath = None → matched filePath = Ret indices →
    cache w !! cache_key indices = None →
    create fuel indices w = (w', Ret c) →
    run fuel filePath w
      (with_cache (<[cache_key indices := VRef c]> (cache w')) w')
      (Ret (VRef c)).

(** Any number of calls, with any arguments. *)
Inductive calls : world → world → Prop :=
| calls_none w : calls w w
| calls_more w1 w2 w3 fuel filePath r :
    calls w1 w2 → extract fuel filePath w2 = (w3, r) → calls w1 w3.

(** The cache of a world reached from a fresh array. *)
Definition sound (h0 : heap) (w : world) : Prop :=
  extends h0 (heap_of w) ∧
  ∀ k v, cache w !! k = Some v →
    ∃ indices c fuel w0 w1,
      k = cache_key indices ∧ v = VRef c ∧
      extends h0 (heap_of w0) ∧
      create fuel indices w0 = (w1, Ret c) ∧
      extends (heap_of w1) (heap_of w).

End Extraction.

(** The worlds that calls of extractConfig lead to, for each variant. *)
Section Reached.
Variable isAbsolute : string → bool.
Variable relative : string → string → string.
Variable minimatch : string → string → bool.
Variable render : heap → value → string.
Variable require : string → outcome value.
Variable validateConfigArrayElement :
  heap → ConfigArrayElement → (string → value) → (string → value) → option exn.
Variable instance : list ConfigArrayElement.

Definition eager_guard (h : heap) (filePath : value) : option exn :=
  if negb (is_string filePath)
     || negb (ConfigArray.is_absolute_path isAbsolute filePath)
  then Some (NewError (ConfigArray.invalid_argument_message render h filePath))
  else None.

Inductive eager_calls : world → world → Prop :=
| eager_none w : eager_calls w w
| eager_more w1 w2 w3 fuel filePath r :
    eager_calls w1 w2 →
    ConfigArray.extractConfig isAbsolute relative minimatch render require
      validateConfigArrayElement fuel instance filePath w2 = (w3, r) →
    eager_calls w1 w3.

Inductive lazy_calls : world → world → Prop :=
| lazy_none w : lazy_calls w w
| lazy_more w1 w2 w3 fuel filePath r :
    lazy_calls w1 w2 →
    ConfigArrayLazy.extractConfig relative minimatch fuel instance filePath w2
      = (w3, r) →
    lazy_calls w1 w3.

End Reached.

(** ** The serialization of a dependency, as the specification words it:
    [id] and [importerPath], then [filePath] when present, then the error's
    stack when an error is present. *)
Definition diagnostic (id importerPath filePath error stack : value) : object :=
  Object Plain
    ([(KName "id", id); (KName "importerPath", importerPath)]
       ++ (if truthy filePath then [(KName "filePath", filePath)] else [])
       ++ (if truthy error then [(KName "error", stack)] else [])).

Definition has_key (k : string) (o : object) : Prop :=
  KName k ∈ map fst (props o).

(** ** Merging *)

(** Every own property that has a value keeps it. *)
Definition keeps_defined (h h' : heap) : Prop :=
  ∀ l o k v, h !! l = Some o → assoc k (props o) = Some v → v ≠ VUndef →
    ∃ o', h' !! l = Some o' ∧ assoc k (props o') = Some v ∧
          is_array o' = is_array o.

(** No value of the object is an object. *)
Definition flat (o : object) : Prop :=
  ∀ k v, (k, v) ∈ props o → isNonNullObject v = false.

(** The body of the loop of assignWithoutOverwrite, for one key. *)
Definition assign_key (fuel : nat) (target s : loc) (key : key) : M unit :=
  let! targetValue := read target key in
  match targetValue with
  | VRef inner =>
      let! sourceValue := read s key in
      assignWithoutOverwrite fuel inner sourceValue
  | VUndef =>
      let! sourceValue := read s key in
      match sourceValue with
      | VRef _ =>
          let! isArr := Array_isArray sourceValue in
          let! fresh :=
            alloc (if isArr : bool then empty_array else empty_object) in
          write target key (VRef fresh) ;;
          assignWithoutOverwrite fuel fresh sourceValue
      | VUndef => ret tt
      | _ => write target key sourceValue
      end
  | _ => ret tt
  end.

(** [target[k]] after assignWithoutOverwrite, when the source is flat. *)
Definition defaulted (target source : object) (k : key) : value :=
  if is_undefined (obj_get target k) then obj_get source k
  else obj_get target k.

(** ** The cascade

    The four records of a config that assignWithoutOverwrite fills. *)
Inductive record_field := FEnv | FGlobals | FParserOptions | FSettings.

Definition field_offset (f : record_field) : nat :=
  match f with FEnv => 0 | FGlobals => 1 | FParserOptions => 2 | FSettings => 5 end.

Definition field_name (f : record_field) : string :=
  match f with
  | FEnv => "env"
  | FGlobals => "globals"
  | FParserOptions => "parserOptions"
  | FSettings => "settings"
  end.

Definition field_source (f : record_field) (e : ConfigArrayElement) : value :=
  match f with
  | FEnv => env e
  | FGlobals => globals e
  | FParserOptions => parserOptions e
  | FSettings => settings e
  end.

#[global] Instance record_field_eq_dec : EqDecision record_field.
Proof. solve_decision. Defined.

(** The value of [k] in the first of the objects that has one. *)
Fixpoint cascade (sources : list object) (k : key) : value :=
  match sources with
  | [] => VUndef
  | source :: rest =>
      if is_undefined (obj_get source k) then cascade rest k
      else obj_get source k
  end.

(** The field of the element, when it is an object, is a plain object of
    the heap without objects in it. *)
Definition flat_field (h0 : heap) (f : record_field) (e : ConfigArrayElement)
  : Prop :=
  ∀ s, field_source f e = VRef s →
       ∃ source, h0 !! s = Some source ∧ is_array source = false ∧ flat source.

(** The object that the element has in the field. *)
Definition source_of (h0 : heap) (f : record_field) (e : ConfigArrayElement)
  : option object :=
  match field_source f e with
  | VRef s => h0 !! s
  | _ => None
  end.

(** The objects that the elements at the indices give, in the order of
    the indices. *)
Definition sources (source : ConfigArrayElement → option object)
  (instance : list ConfigArrayElement) (indices : list nat) : list object :=
  omap (λ i, match instance !! i with
             | Some e => source e
             | None => None
             end) indices.

Definition sources_of (h0 : heap) (f : record_field)
  (instance : list ConfigArrayElement) (indices : list nat) : list object :=
  sources (source_of h0 f) instance indices.

(** The record that the config at [c] has in the field. *)
Definition record_of (h : heap) (c : loc) (f : record_field) (R : object)
  : Prop :=
  ∃ r, heap_get h c (KName (field_name f)) = VRef r ∧ h !! r = Some R.

(** The objects of the region are as they were. *)
Definition frames (T : region) (h h' : heap) : Prop :=
  ∀ l, T l → h' !! l = h !! l.

(** A step that keeps the invariant and the objects of the region. *)
Definition settles (h0 : heap) (T : region) (w w' : world) : Prop :=
  keeps h0 T w w' ∧ frames T (heap_of w) (heap_of w').

(** What the cascade needs from the [mergePlugins] it is given. *)
Definition plugins_frame (mergePlugins : loc → value → M unit) : Prop :=
  ∀ h0 T source w w' r,
    cfg_inv h0 T (heap_of w) →
    mergePlugins (length h0 + 3) source w = (w', r) →
    frames T (heap_of w) (heap_of w').

(** The invariant of the merge loop for the record at [rec]: the record
    holds no object, and it is apart from the rest of the region. *)
Record sep_inv (h0 : heap) (rec : loc) (Tr : region) (h : heap) (E : object)
  : Prop := SepInv {
  si_cfg : cfg_inv h0 (λ l, l = rec ∨ Tr l) h;
  si_out : ¬ Tr rec;
  si_closed : closed h Tr;
  si_rec : h !! rec = Some E;
  si_plain : is_array E = false;
  si_flat : flat E
}.

(** ** The plugins of a config

    The plugins of the element, when they are an object, are a plain object
    of the heap. *)
Definition plain_plugins (h0 : heap) (e : ConfigArrayElement) : Prop :=
  ∀ s, plugins e = VRef s →
       ∃ source, h0 !! s = Some source ∧ is_array source = false.

Definition plugin_source (h0 : heap) (e : ConfigArrayElement) : option object :=
  match plugins e with
  | VRef s => h0 !! s
  | _ => None
  end.

(** How the merge of the plugins of [src] into [T] can fail: at a plugin
    that [T] lacks, which is no object or has a truthy [error]. *)
Definition plugin_failure (h : heap) (T src : object) (e : exn) : Prop :=
  ∃ key, key ∈ own_keys src ∧ obj_get T key = VUndef ∧
    match obj_get src key with
    | VUndef | VNull => e = TypeError
    | VRef l =>
        e = Thrown (heap_get h l (KName "error")) ∧
        truthy (heap_get h l (KName "error")) = true
    | _ => False
    end.

(** The plugins record of the config at [c]. *)
Definition plugins_of (h : heap) (c : loc) (P : object) : Prop :=
  ∃ p, heap_get h c (KName "plugins") = VRef p ∧ h !! p = Some P.

(** The invariant of the merge loop for the plugins record. *)
Definition pl_inv (h0 h : heap) (P : object) : Prop :=
  (∃ T, cfg_inv h0 T h) ∧ h !! (length h0 + 3) = Some P.

(** What the cascade of the plugins needs from [mergePlugins]: a plugin
    that the record has stays, a plugin that it lacks is taken from the
    source. *)
Definition plugins_adopt (mergePlugins : loc → value → M unit) : Prop :=
  ∀ h0 e P w w',
    pl_inv h0 (heap_of w) P → plain_plugins h0 e →
    mergePlugins (length h0 + 3) (plugins e) w = (w', Ret tt) →
    ∃ P', heap_of w' !! (length h0 + 3) = Some P' ∧
          ∀ k, obj_get P' k = match plugin_source h0 e with
                              | Some source => defaulted P source k
                              | None => obj_get P k
                              end.

(** ** The rules of a config *)

(** What a value of a rules object gives to a rule that is not set: the
    elements of an array, the value itself otherwise. *)
Definition rule_items (h0 : heap) (v : value) : list value :=
  match v with
  | VRef a =>
      match h0 !! a with
      | Some arr => if is_array arr then array_values arr else [v]
      | None => [v]
      end
  | _ => [v]
  end.

(** mergeRule on the elements of the rule: [None] is a rule that is not
    set. *)
Definition merge_rule (h0 : heap) (target : option (list value))
  (sourceDef : value) : option (list value) :=
  match target with
  | None => Some (rule_items h0 sourceDef)
  | Some items =>
      if bool_decide (length items = 1) && isArray h0 sourceDef
         && bool_decide (2 ≤ length (rule_items h0 sourceDef))
      then Some (items ++ drop 1 (rule_items h0 sourceDef))
      else Some items
  end.

(** mergeRules for the key [k]. *)
Definition merge_rules (h0 : heap) (k : key) (target : option (list value))
  (source : object) : option (list value) :=
  if bool_decide (k ∈ own_keys source)
  then merge_rule h0 target (obj_get source k)
  else target.

(** The elements of the rule [k] after the sources were merged in their
    order. *)
Definition rule_cascade (h0 : heap) (sources : list object) (k : key)
  : option (list value) :=
  foldl (merge_rules h0 k) None sources.

(** The rules of the element, when they are an object, are a plain object
    of the heap, and the objects in it are objects of the heap. *)
Definition plain_rules (h0 : heap) (e : ConfigArrayElement) : Prop :=
  ∀ s, rules e = VRef s →
       ∃ source, h0 !! s = Some source ∧ is_array source = false ∧
                 ∀ k a, obj_get source k = VRef a → a < length h0.

Definition rules_source (h0 : heap) (e : ConfigArrayElement) : option object :=
  match rules e with
  | VRef s => h0 !! s
  | _ => None
  end.

(** The rules record holds, for every rule, an array with the elements
    that [spec] gives, and nothing for the rules for which it gives none. *)
Definition rules_hold (h : heap) (R : object)
  (spec : key → option (list value)) : Prop :=
  ∀ k, match spec k with
       | None => obj_get R k = VUndef
       | Some items =>
           ∃ a arr, obj_get R k = VRef a ∧ h !! a = Some arr ∧
                    is_array arr = true ∧ array_values arr = items
       end.

(** The rules record of the config at [c]. *)
Definition rules_of (h : heap) (c : loc) (spec : key → option (list value))
  : Prop :=
  ∃ r R, heap_get h c (KName "rules") = VRef r ∧ h !! r = Some R ∧
         rules_hold h R spec.

(** The invariant of the merge loop for the rules record: no two rules
    share their array. *)
Definition ru_inv (h0 h : heap) (spec : key → option (list value)) : Prop :=
  (∃ T, cfg_inv h0 T h) ∧
  ∃ R, h !! (length h0 + 4) = Some R ∧ rules_hold h R spec ∧
       ∀ k k' a, obj_get R k = VRef a → obj_get R k' = VRef a → k = k'.

(** [mergePlugins] writes to its target only. *)
Definition plugins_local (mergePlugins : loc → value → M unit) : Prop :=
  ∀ target source w w' r,
    mergePlugins target source w = (w', r) →
    ∀ l, l < length (heap_of w) → l ≠ target →
         heap_of w' !! l = heap_of w !! l.

(** The cache holds a different object under every key, and none of them
    was on the heap the array started from. *)
Definition fresh_cache (h0 : heap) (w : world) : Prop :=
  length h0 ≤ length (heap_of w) ∧
  (∀ k v, cache w !! k = Some v →
          ∃ c, v = VRef c ∧ length h0 ≤ c < length (heap_of w)) ∧
  (∀ k1 k2 v, cache w !! k1 = Some v → cache w !! k2 = Some v → k1 = k2).

(** What a call does to the cache. *)
Definition cache_effect (matched : outcome (list nat)) (w w' : world)
  (r : outcome value) : Prop :=
  match r with
  | Raise _ => cache w' = cache w
  | Ret v =>
      ∃ indices, matched = Ret indices ∧
        ((cache w !! cache_key indices = Some v ∧ w' = w) ∨
         (cache w !! cache_key indices = None ∧
          cache w' = <[cache_key indices := v]> (cache w)))
  end.

(** One of the three maps of plugin members. *)
Definition slot (which : ConfigArray.member_map) (w : world)
  : gmap string value :=
  match which with
  | ConfigArray.EnvMap => envMap w
  | ConfigArray.ProcessorMap => processorMap w
  | ConfigArray.RuleMap => ruleMap w
  end.

(** The prefix that [collect] puts before the keys. *)
Definition member_prefix (pluginId : string) : string :=
  if String.eqb pluginId "" then "" else pluginId +:+ "/".

(** The keys of the object are different as strings. *)
Definition distinct_keys (o : object) : Prop :=
  NoDup (map key_to_string (own_keys o)).

(** ** Testers and matching *)

(** A list of patterns as [toMatcher] and [patternToJson] show it. *)
Definition or_null (patterns : list string) : option (list string) :=
  match patterns with [] => None | _ => Some patterns end.

(** [!element.criteria || element.criteria.test(filePath)] for a path. *)
Definition accepts (relative : string → string → string)
  (minimatch : string → string → bool) (element : ConfigArrayElement)
  (filePath : string) : bool :=
  match criteria element with
  | None => true
  | Some tester => OverrideTester.test relative minimatch tester filePath
  end.

(** The element has a [root] that is a boolean. *)
Definition has_root (element : ConfigArrayElement) : bool :=
  match root element with VBool _ => true | _ => false end.

(** ** Loaders *)

(** A computation that cannot throw. *)
Definition returns {A} (m : Factory.F A) : Prop :=
  ∀ s, ∃ s' a, m s = (s', Ret a).

(** A computation that only adds to the trace. *)
Definition appends {A} (m : Factory.F A) : Prop :=
  ∀ s s' r, m s = (s', r) → ∃ later, Factory.trace s' = Factory.trace s ++ later.

(** A computation that only adds events that satisfy [P] to the trace. *)
Definition logs (P : Factory.event → Prop) {A} (m : Factory.F A) : Prop :=
  ∀ s s' r, m s = (s', r) →
    ∃ later, Factory.trace s' = Factory.trace s ++ later ∧ Forall P later.

(** The module resolver is only asked for [request], from [importer]. *)
Definition resolves (request importer : string) (e : Factory.event) : Prop :=
  match e with
  | Factory.Resolve r i => r = request ∧ i = importer
  | Factory.Require _ => True
  end.

(** The importer that [_loadParser] gives to the module resolver. *)
Definition parser_importer (join : string → string → string)
  (self : Factory.ConfigArrayFactory) (importerPath : string) : string :=
  if String.eqb importerPath "" then join (Factory.cwd self) "a.js"
  else importerPath.

(** What is known of the dependency that [_loadParser] returns. *)
Definition parser_of (nameOrPath importerPath : string) (importerName : value)
  (d : Dependency.ConfigDependency) : Prop :=
  Dependency.id d = VStr nameOrPath ∧
  Dependency.importerName d = importerName ∧
  Dependency.importerPath d = VStr importerPath ∧
  (Dependency.error d = VNull ∨
   (Dependency.definition d = VNull ∧ Dependency.filePath d = VNull)).

(** The request and the id that [_loadPlugin] derives from a name. *)
Definition plugin_request (isAbsolute : string → bool)
  (normalizePackageName : string → string → string) (name : string) : string :=
  if Factory.isFilePath isAbsolute name then name
  else normalizePackageName name "eslint-plugin".

Definition plugin_id (isAbsolute : string → bool)
  (normalizePackageName getShorthandName : string → string → string)
  (name : string) : string :=
  if Factory.isFilePath isAbsolute name then name
  else getShorthandName (normalizePackageName name "eslint-plugin")
         "eslint-plugin".

(** The event is not a call of the module resolver. *)
Definition no_resolve (e : Factory.event) : Prop :=
  match e with
  | Factory.Resolve _ _ => False
  | Factory.Require _ => True
  end.

(** The record that [_loadPlugins] builds has one entry for each id, under
    the id of the plugin it holds. *)
Definition keyed_by_id (map : list (value * Factory.loaded)) : Prop :=
  NoDup (map.*1) ∧ Forall (λ entry, Factory.loaded_id entry.2 = entry.1) map.

(** ** The config file of a directory *)

(** The computation leaves [debug.enabled] as it was. *)
Definition keeps_enabled {A} (m : Directory.D A) : Prop :=
  ∀ s s' r, m s = (s', r) → Directory.enabled s' = Directory.enabled s.

(** What was thrown has a code that says that a file is missing. *)
Definition says_missing (h : heap) (e : exn) : Prop :=
  match e with
  | Thrown (VRef l) => Directory.missing (heap_get h l (KName "code")) = true
  | _ => False
  end.

Section Directory.
Context {R : Type}.
Variable loadConfigFile : string → Directory.D value.
Variable normalize : value → string → value → Directory.D R.

(** The file was tried and gave nothing: it has no config, or what was
    thrown says that a file is missing. *)
Definition passed_over (filePath : string) (name : value) : Prop :=
  ∃ s1 s2 r0,
    loadConfigFile filePath s1 = (s2, r0) ∧
    match r0 with
    | Raise e => says_missing (Directory.heap_of s2) e
    | Ret configData =>
        truthy configData = false ∨
        ∃ s3 s4 e,
          truthy configData = true ∧
          normalize configData filePath name s3 = (s4, Raise e) ∧
          says_missing (Directory.heap_of s4) e
    end.

(** The elements are those of the config of the file. *)
Definition found_in (filePath : string) (name : value)
  (s' : Directory.dstate) (elements : R) : Prop :=
  ∃ s1 s2 configData s3,
    loadConfigFile filePath s1 = (s2, Ret configData) ∧
    truthy configData = true ∧
    normalize configData filePath name s3 = (s', Ret elements).

End Directory.

End Props.

(* ===================================================================== *)
(** * Facts about objects and heaps *)
(* ===================================================================== *)

Module JSFacts.
Import JS.

Lemma assoc_elem k v ps : assoc k ps = Some v → (k, v) ∈ ps.
Proof.
  induction ps as [|[k' v'] ps IH]; simpl; [done|].
  case_decide; intros E.
  - simplify_eq. apply list_elem_of_here.
  - apply list_elem_of_further; auto.
Qed.

Lemma assoc_set_elem k v ps k' v' :
  (k', v') ∈ assoc_set k v ps → (k', v') = (k, v) ∨ (k', v') ∈ ps.
Proof.
  induction ps as [|[k0 v0] ps IH]; simpl.
  - rewrite list_elem_of_singleton. auto.
  - case_decide; rewrite !elem_of_cons; intros [E|E]; auto.
    destruct (IH E); auto.
Qed.

Lemma assoc_set_eq k v ps : assoc k (assoc_set k v ps) = Some v.
Proof.
  induction ps as [|[k0 v0] ps IH]; simpl.
  - by rewrite decide_True.
  - case_decide; simpl; [by rewrite decide_True|by rewrite decide_False].
Qed.

Lemma assoc_set_ne k k' v ps :
  k ≠ k' → assoc k' (assoc_set k v ps) = assoc k' ps.
Proof.
  intros Hne. induction ps as [|[k0 v0] ps IH]; simpl.
  - by rewrite decide_False.
  - case_decide; simpl.
    + subst. by rewrite !decide_False.
    + case_decide; auto.
Qed.

Lemma obj_get_ref o k l : obj_get o k = VRef l → (k, VRef l) ∈ props o.
Proof.
  unfold obj_get. intros E. apply assoc_elem.
  destruct (shape_of o); [|case_decide; [done|]];
    destruct (assoc k (props o)); simpl in E; by simplify_eq.
Qed.

Lemma obj_get_plain o k :
  is_array o = false → obj_get o k = default VUndef (assoc k (props o)).
Proof. unfold is_array, obj_get. by destruct (shape_of o). Qed.

Lemma obj_get_elem o k :
  is_array o = false → obj_get o k ≠ VUndef → (k, obj_get o k) ∈ props o.
Proof.
  intros Ha. rewrite (obj_get_plain _ _ Ha).
  destruct (assoc k (props o)) as [v|] eqn:E; [|done].
  intros _. by apply assoc_elem.
Qed.

Lemma obj_set_get_eq k v o :
  is_array o = false → obj_get (obj_set k v o) k = v.
Proof.
  unfold is_array, obj_get, obj_set; simpl. destruct (shape_of o); [|done].
  intros _. by rewrite assoc_set_eq.
Qed.

Lemma obj_set_get_ne k k' v o :
  is_array o = false → k ≠ k' → obj_get (obj_set k v o) k' = obj_get o k'.
Proof.
  unfold is_array, obj_get, obj_set; simpl. destruct (shape_of o); [|done].
  intros _ Hne. by rewrite assoc_set_ne.
Qed.

Lemma is_array_obj_set k v o : is_array (obj_set k v o) = is_array o.
Proof. unfold is_array, obj_set; simpl. by destruct (shape_of o), k. Qed.

Lemma is_array_push vs o : is_array (array_push vs o) = is_array o.
Proof.
  unfold array_push. revert o.
  induction vs as [|v vs IH]; intros o; simpl; [done|].
  by rewrite IH, is_array_obj_set.
Qed.

Lemma props_obj_set k v o : props (obj_set k v o) = assoc_set k v (props o).
Proof. done. Qed.

(** Heap updates. *)

Lemma heap_set_length l k v h : length (heap_set l k v h) = length h.
Proof. apply length_alter. Qed.

Lemma heap_set_lookup_ne l l' k v (h : heap) :
  l ≠ l' → heap_set l k v h !! l' = h !! l'.
Proof. apply list_lookup_alter_ne. Qed.

Lemma heap_set_lookup l k v (h : heap) :
  heap_set l k v h !! l = obj_set k v <$> h !! l.
Proof. apply list_lookup_alter_eq. Qed.

Lemma alloc_lookup_old (h : heap) o l : l < length h → (h ++ [o]) !! l = h !! l.
Proof. apply lookup_app_l. Qed.

Lemma alloc_lookup_new (h : heap) o : (h ++ [o]) !! length h = Some o.
Proof. by rewrite list_lookup_middle. Qed.

End JSFacts.

(* ===================================================================== *)
(** * Facts about the merge functions *)
(* ===================================================================== *)

Module MergeFacts.
Import JS Eff Merge JSFacts Props.

(** ** Running a computation step by step *)

Lemma bind_inv {St A B} (m : Eff.M St A) (k : A → Eff.M St B) s s' r :
  bind m k s = (s', r) →
  (∃ s1 a, m s = (s1, Ret a) ∧ k a s1 = (s', r)) ∨
  (∃ e, m s = (s', Raise e) ∧ r = Raise e).
Proof.
  unfold bind. destruct (m s) as [s1 [a|e]]; intros E.
  - left. eauto.
  - right. exists e. by simplify_eq.
Qed.

Lemma for_each_inv {St A} (I : St → Prop) (body : A → Eff.M St unit) xs :
  (∀ x s s' r, I s → body x s = (s', r) → I s') →
  ∀ s s' r, I s → for_each xs body s = (s', r) → I s'.
Proof.
  intros Hbody. induction xs as [|x xs IH]; intros s s' r HI E; simpl in E.
  - unfold ret in E. by simplify_eq.
  - apply bind_inv in E as [(s1 & [] & E1 & E2)|(e & E1 & ->)]; eauto.
Qed.

Ltac inv_bind H :=
  let s1 := fresh "w" in
  let a := fresh "a" in
  let e := fresh "e" in
  let H1 := fresh H in
  let Hr := fresh "Hr" in
  apply bind_inv in H as [(s1 & a & H1 & H)|(e & H & Hr)];
  [|first [subst|injection Hr as <-|injection Hr as ->]].

Ltac inv_prim H :=
  unfold ret, throw, lift, read, write, alloc, object_keys, Array_isArray,
    cache_has, cache_set, cache_get in H;
  try (injection H as <- <-); simplify_eq.

(** ** Regions of the heap

    A region is a set of locations.  It is closed when the objects in it
    only refer to objects in it. *)

Lemma same_shapes_refl h : same_shapes h h.
Proof. intros l o E. eauto. Qed.

Lemma same_shapes_trans h1 h2 h3 :
  same_shapes h1 h2 → same_shapes h2 h3 → same_shapes h1 h3.
Proof.
  intros H12 H23 l o E.
  destruct (H12 _ _ E) as (o2 & E2 & A2).
  destruct (H23 _ _ E2) as (o3 & E3 & A3).
  exists o3. split; [done|congruence].
Qed.

Lemma same_shapes_alloc (h : heap) o : same_shapes h (h ++ [o]).
Proof.
  intros l o' E. exists o'. split; [|done].
  rewrite lookup_app_l; [done|]. by eapply lookup_lt_Some.
Qed.

Lemma same_shapes_alter (h : heap) f l :
  (∀ o, is_array (f o) = is_array o) → same_shapes h (alter f l h).
Proof.
  intros Hf l' o E. destruct (decide (l = l')) as [->|Hne].
  - exists (f o). rewrite list_lookup_alter_eq, E. auto.
  - exists o. by rewrite list_lookup_alter_ne.
Qed.

Lemma same_shapes_set (h : heap) l k v : same_shapes h (heap_set l k v h).
Proof. apply same_shapes_alter. intros. apply is_array_obj_set. Qed.

Lemma grows_refl T h : closed h T → bounded h T → grows T h T h.
Proof.
  intros Hc Hb. split; auto using same_shapes_refl.
Qed.

Lemma grows_trans T1 h1 T2 h2 T3 h3 :
  grows T1 h1 T2 h2 → grows T2 h2 T3 h3 → grows T1 h1 T3 h3.
Proof.
  intros [I1 N1 B1 C1 L1 F1 S1] [I2 N2 B2 C2 L2 F2 S2]. split; auto.
  - intros l H3. destruct (N2 l H3) as [H2|H2]; [auto|]. right. lia.
  - lia.
  - intros l Hl HT. rewrite F2; [auto|lia|].
    intros H2. destruct (N1 l H2); [done|lia].
  - eauto using same_shapes_trans.
Qed.

(** Allocating an object whose references stay in the region, and taking
    it into the region. *)
Lemma grows_alloc T (h : heap) o :
  closed h T → bounded h T →
  (∀ k l', (k, VRef l') ∈ props o → T l') →
  grows T h (λ l, T l ∨ l = length h) (h ++ [o]).
Proof.
  intros Hc Hb Ho. split.
  - auto.
  - intros l [?| ->]; [auto|right; lia].
  - intros l [Hl| ->]; rewrite length_app; simpl; [|lia].
    specialize (Hb l Hl). lia.
  - intros l o' k l' [Hl| ->] E Hin.
    + rewrite lookup_app_l in E by auto. left. eauto.
    + rewrite list_lookup_middle in E by done. simplify_eq. left. eauto.
  - rewrite length_app. lia.
  - intros l Hl _. by rewrite lookup_app_l.
  - apply same_shapes_alloc.
Qed.

(** Writing a property of an object of the region. *)
Lemma grows_write T (h : heap) l k v :
  closed h T → bounded h T → T l →
  (∀ l', v = VRef l' → T l') →
  grows T h T (heap_set l k v h).
Proof.
  intros Hc Hb Hl Hv. split; auto.
  - intros l0 H0. rewrite heap_set_length. auto.
  - intros l0 o k0 l' H0 E Hin.
    destruct (decide (l = l0)) as [->|Hne].
    + rewrite heap_set_lookup in E.
      destruct (h !! l0) as [o0|] eqn:E0; simpl in E; [|done].
      simplify_eq. rewrite props_obj_set in Hin.
      apply assoc_set_elem in Hin as [Hin|Hin]; [simplify_eq; auto|eauto].
    + rewrite heap_set_lookup_ne in E by done. eauto.
  - by rewrite heap_set_length.
  - intros l0 _ H0. apply heap_set_lookup_ne. intros ->. done.
  - apply same_shapes_set.
Qed.

Lemma same_slots_refl w : same_slots w w.
Proof. by repeat split. Qed.

Lemma same_slots_trans w1 w2 w3 :
  same_slots w1 w2 → same_slots w2 w3 → same_slots w1 w3.
Proof. intros (?&?&?&?) (?&?&?&?). repeat split; congruence. Qed.

Lemma same_slots_heap h w : same_slots w (with_heap h w).
Proof. by repeat split. Qed.

Lemma heap_get_ref (h : heap) l k l' :
  heap_get h l k = VRef l' → ∃ o, h !! l = Some o ∧ (k, VRef l') ∈ props o.
Proof.
  unfold heap_get. destruct (h !! l) as [o|]; [|done].
  intros E. exists o. split; [done|]. by apply obj_get_ref.
Qed.

(** ** assignWithoutOverwrite stays inside the target's region *)

Lemma assignWithoutOverwrite_grows fuel :
  ∀ T target source w w' r,
    T target → closed (heap_of w) T → bounded (heap_of w) T →
    assignWithoutOverwrite fuel target source w = (w', r) →
    ∃ T', grows T (heap_of w) T' (heap_of w') ∧ same_slots w w'.
Proof.
  induction fuel as [|fuel IH]; intros T target source w w' r Ht Hc Hb E;
    simpl in E.
  { inv_prim E. eauto using grows_refl, same_slots_refl. }
  destruct source as [| | | | | |s];
    try (inv_prim E; eauto using grows_refl, same_slots_refl).
  inv_bind E; [|inv_prim E; eauto using grows_refl, same_slots_refl].
  inv_prim E0.
  revert E.
  apply (for_each_inv
           (λ w1, ∃ T1, grows T (heap_of w) T1 (heap_of w1) ∧ same_slots w w1));
    [|eauto using grows_refl, same_slots_refl].
  clear w' r. intros key w1 w2 r (T1 & G1 & S1) E.
  assert (T1 target) as Ht1 by (by apply G1).
  pose proof (grows_closed _ _ _ _ G1) as Hc1.
  pose proof (grows_bounded _ _ _ _ G1) as Hb1.
  inv_bind E; [|inv_prim E; eauto].
  inv_prim E0.
  destruct (heap_get (heap_of w1) target key) as [| | | | | |inner] eqn:Etv;
    try (inv_prim E; eauto).
  - (* target[key] === undefined *)
    inv_bind E; [|inv_prim E; eauto]. inv_prim E0.
    destruct (heap_get (heap_of w1) s key) as [| | | | | |s'] eqn:Esv;
      try (inv_prim E; simpl;
           eexists; split;
           [eapply grows_trans; [exact G1|];
            apply grows_write; auto; intros ? [=]
           |eauto using same_slots_trans, same_slots_heap]).
    + inv_prim E. eauto.
    + inv_bind E; [|inv_prim E; eauto]. inv_prim E0.
      inv_bind E; [|inv_prim E]. inv_prim E0.
      inv_bind E; [|inv_prim E]. inv_prim E0.
      set (o := if isArray (heap_of w1) (VRef s') then empty_array else empty_object) in *.
      set (fresh := length (heap_of w1)) in *.
      assert (grows T1 (heap_of w1) (λ l, T1 l ∨ l = fresh) (heap_of w1 ++ [o])) as G2.
      { apply grows_alloc; auto. intros k l'. subst o.
        destruct (isArray _ _); simpl; by rewrite elem_of_nil. }
      assert (grows (λ l, T1 l ∨ l = fresh) (heap_of w1 ++ [o])
                (λ l, T1 l ∨ l = fresh)
                (heap_set target key (VRef fresh) (heap_of w1 ++ [o]))) as G3.
      { apply grows_write; [apply G2|apply G2|auto|]. intros l' [= <-]. auto. }
      eapply (IH (λ l, T1 l ∨ l = fresh)) in E as (T' & G4 & S4);
        [|by right|apply G3|apply G3].
      simpl in G4. exists T'. split.
      * eauto using grows_trans.
      * eapply same_slots_trans; [exact S1|].
        eapply same_slots_trans; [|exact S4]. by repeat split.
  - (* target[key] is an object *)
    inv_bind E; [|inv_prim E; eauto]. inv_prim E0.
    apply heap_get_ref in Etv as (o & Eo & Hin).
    eapply (IH T1) in E as (T' & G4 & S4); [|eapply Hc1; eauto|done|done].
    exists T'. eauto using grows_trans, same_slots_trans.
Qed.

(** ** The invariant of the merge loop

    [h0] is the heap before [new ExtractedConfig()]; the constructor puts
    the six records at [length h0 .. length h0 + 5] and the config at
    [length h0 + 6].  [T] is the region of the four records that
    assignWithoutOverwrite fills. *)

Lemma cfg_inv_length h0 T h : cfg_inv h0 T h → length h0 + 7 ≤ length h.
Proof.
  intros [_ (C & E & _) _ _ _ _ _ _ _]. apply lookup_lt_Some in E. lia.
Qed.

Lemma cfg_inv_grows h0 T h T' h' :
  cfg_inv h0 T h → grows T h T' h' →
  cfg_inv h0 T' h' ∧ h' !! (length h0 + 6) = h !! (length h0 + 6).
Proof.
  intros I G. pose proof (cfg_inv_length _ _ _ I) as Hlen.
  destruct I as [Hf (C & EC & AC & HC) (P & EP & AP) (R & ER & AR & HR)
                   (I1 & I2 & I3 & I4) (O1 & O2 & O3) Hlow Hcl Hb].
  destruct G as [Gi Gn Gb Gc Gl Gf Gs].
  assert (∀ l, l < length h → ¬ T l → ¬ T' l) as Hout.
  { intros l Hl Hn H'. destruct (Gn l H'); [done|lia]. }
  assert (h' !! (length h0 + 6) = h !! (length h0 + 6)) as EC'.
  { apply Gf; [lia|done]. }
  split; [|done]. split; auto.
  - intros l Hl. rewrite Gf; [auto|lia|]. intros Ht. apply Hlow in Ht. lia.
  - exists C. by rewrite EC'.
  - exists P. rewrite Gf; [done|lia|done].
  - exists R. rewrite Gf; [|lia|done]. repeat split; [done..|].
    intros k v Hin. destruct (HR k v Hin) as (a & arr & -> & Ha & HTa & Ea & Aa).
    exists a, arr. assert (a < length h) by (by eapply lookup_lt_Some).
    repeat split; auto. by rewrite Gf.
  - repeat split; apply Hout; auto; lia.
  - intros l Hl. destruct (Gn l Hl); [auto|lia].
Qed.

(** An update, outside the region, of an object the extraction created. *)
Lemma cfg_inv_alter h0 T (h : heap) l f :
  cfg_inv h0 T h → length h0 ≤ l → ¬ T l →
  (∀ o, is_array (f o) = is_array o) →
  (l = length h0 + 6 →
   ∀ C, is_array C = false → is_config (length h0) C → is_config (length h0) (f C)) →
  (l = length h0 + 4 →
   ∀ R, h !! l = Some R → ∀ k v, (k, v) ∈ props (f R) →
     (k, v) ∈ props R ∨
     ∃ a arr, v = VRef a ∧ length h0 ≤ a ∧ ¬ T a ∧ h !! a = Some arr ∧
              is_array arr = true) →
  cfg_inv h0 T (alter f l h).
Proof.
  intros I Hl HT Hf Hcfg Hrules.
  destruct I as [Hfr (C & EC & AC & HC) (P & EP & AP) (R & ER & AR & HR)
                   (I1 & I2 & I3 & I4) (O1 & O2 & O3) Hlow Hcl Hb].
  assert (∀ l' o, h !! l' = Some o →
            ∃ o', alter f l h !! l' = Some o' ∧ is_array o' = is_array o ∧
                  (l' ≠ l → o' = o)) as Hlook.
  { intros l' o E. destruct (decide (l = l')) as [->|Hne].
    - exists (f o). rewrite list_lookup_alter_eq, E. repeat split; auto. done.
    - exists o. by rewrite list_lookup_alter_ne. }
  split; auto.
  - intros l' Hl'. rewrite list_lookup_alter_ne by lia. auto.
  - destruct (decide (l = length h0 + 6)) as [->|Hne].
    + exists (f C). rewrite list_lookup_alter_eq, EC. rewrite Hf. auto.
    + exists C. by rewrite list_lookup_alter_ne.
  - destruct (Hlook _ _ EP) as (P' & EP' & AP' & _). exists P'.
    split; [done|congruence].
  - assert (∀ a arr, h !! a = Some arr → is_array arr = true →
              a ≠ length h0 + 4) as Hdiff.
    { intros a arr Ea Aa ->. congruence. }
    destruct (decide (l = length h0 + 4)) as [->|Hne].
    + exists (f R). rewrite list_lookup_alter_eq, ER. rewrite Hf.
      repeat split; [done..|]. intros k v Hin.
      destruct (Hrules eq_refl R ER k v Hin) as [Hold|Hnew].
      * destruct (HR k v Hold) as (a & arr & -> & Ha & HTa & Ea & Aa).
        exists a, arr. repeat split; auto.
        rewrite list_lookup_alter_ne; [done|]. intros E'. by eapply Hdiff.
      * destruct Hnew as (a & arr & -> & Ha & HTa & Ea & Aa).
        exists a, arr. repeat split; auto.
        rewrite list_lookup_alter_ne; [done|]. intros E'. by eapply Hdiff.
    + exists R. rewrite list_lookup_alter_ne by done. repeat split; [done..|].
      intros k v Hin. destruct (HR k v Hin) as (a & arr & -> & Ha & HTa & Ea & Aa).
      destruct (Hlook _ _ Ea) as (arr' & Ea' & Aa' & _).
      exists a, arr'. repeat split; auto. congruence.
  - intros l' o k l'' Hl' E Hin. rewrite list_lookup_alter_ne in E; [eauto|].
    intros ->. done.
  - intros l' Hl'. rewrite length_alter. auto.
Qed.

Lemma cfg_inv_alloc h0 T (h : heap) o :
  cfg_inv h0 T h → cfg_inv h0 T (h ++ [o]).
Proof.
  intros I. pose proof (cfg_inv_length _ _ _ I) as Hlen.
  destruct I as [Hfr (C & EC & AC & HC) (P & EP & AP) (R & ER & AR & HR)
                   (I1 & I2 & I3 & I4) (O1 & O2 & O3) Hlow Hcl Hb].
  split; auto.
  - intros l Hl. rewrite lookup_app_l by lia. auto.
  - exists C. rewrite lookup_app_l by lia. auto.
  - exists P. rewrite lookup_app_l by lia. auto.
  - exists R. rewrite lookup_app_l by lia. repeat split; [done..|].
    intros k v Hin. destruct (HR k v Hin) as (a & arr & -> & Ha & HTa & Ea & Aa).
    exists a, arr. repeat split; auto.
    rewrite lookup_app_l; [done|]. by eapply lookup_lt_Some.
  - intros l o' k l' Hl E Hin. rewrite lookup_app_l in E by auto. eauto.
  - intros l Hl. rewrite length_app. specialize (Hb l Hl). lia.
Qed.

Lemma keeps_refl h0 T w : cfg_inv h0 T (heap_of w) → keeps h0 T w w.
Proof. by split. Qed.

Lemma keeps_trans h0 T w1 w2 w3 :
  keeps h0 T w1 w2 → keeps h0 T w2 w3 → keeps h0 T w1 w3.
Proof. intros (?&?&?) (?&?&?). split; [done|split; congruence]. Qed.

Lemma keeps_alloc h0 T w o :
  cfg_inv h0 T (heap_of w) → keeps h0 T w (with_heap (heap_of w ++ [o]) w).
Proof.
  intros I. pose proof (cfg_inv_length _ _ _ I). unfold keeps; split; [|split; [done|]]; simpl.
  - by apply cfg_inv_alloc.
  - rewrite lookup_app_l; [done|lia].
Qed.

(** [target[key] = [...]] on the rules record, for a fresh array. *)
Lemma keeps_set_rule h0 T w k a arr :
  cfg_inv h0 T (heap_of w) →
  length h0 ≤ a → ¬ T a → heap_of w !! a = Some arr → is_array arr = true →
  keeps h0 T w (with_heap (heap_set (length h0 + 4) k (VRef a) (heap_of w)) w).
Proof.
  intros I Ha HTa Ea Aa. unfold keeps; split; [|split; [done|]]; simpl.
  - apply cfg_inv_alter; auto.
    + lia.
    + apply I.
    + intros. apply is_array_obj_set.
    + lia.
    + intros _ R _ k' v' Hin. rewrite props_obj_set in Hin.
      apply assoc_set_elem in Hin as [[= -> ->]|Hin]; [|auto].
      right. eauto 10.
  - apply heap_set_lookup_ne. lia.
Qed.

(** [targetDef.push(...)] on one of the arrays of the rules record. *)
Lemma keeps_push h0 T w a arr vs :
  cfg_inv h0 T (heap_of w) →
  length h0 ≤ a → ¬ T a → heap_of w !! a = Some arr → is_array arr = true →
  keeps h0 T w (with_heap (alter (array_push vs) a (heap_of w)) w).
Proof.
  intros I Ha HTa Ea Aa.
  assert (a ≠ length h0 + 6) as Hc.
  { intros ->. destruct I as [_ (C & EC & AC & _) _ _ _ _ _ _ _]. congruence. }
  assert (a ≠ length h0 + 4) as Hr.
  { intros ->. destruct I as [_ _ _ (R & ER & AR & _) _ _ _ _ _]. congruence. }
  unfold keeps; split; [|split; [done|]]; simpl.
  - apply cfg_inv_alter; auto; [|done..]. intros. apply is_array_push.
  - by apply list_lookup_alter_ne.
Qed.

(** [target[key] = sourceValue] on the plugins record. *)
Lemma keeps_set_plugin h0 T w k v :
  cfg_inv h0 T (heap_of w) →
  keeps h0 T w (with_heap (heap_set (length h0 + 3) k v (heap_of w)) w).
Proof.
  intros I. unfold keeps; split; [|split; [done|]]; simpl.
  - apply cfg_inv_alter; auto; try lia.
    + apply I.
    + intros. apply is_array_obj_set.
  - apply heap_set_lookup_ne. lia.
Qed.

(** [config.parser = ...] and [config.processor = ...] *)
Lemma cfg_inv_set_config h0 T (h : heap) k v :
  cfg_inv h0 T h → k = KName "parser" ∨ k = KName "processor" →
  cfg_inv h0 T (heap_set (length h0 + 6) k v h).
Proof.
  intros I Hk. apply cfg_inv_alter; auto; try lia.
  - apply I.
  - intros. apply is_array_obj_set.
  - intros _ C AC (H1 & H2 & H3 & H4 & H5 & H6).
    unfold is_config. rewrite !obj_set_get_ne by (destruct Hk; by subst).
    done.
Qed.

(** ** mergeRules *)

Lemma get_prop_pure x k w w' r :
  get_prop x k w = (w', r) → w' = w.
Proof.
  unfold get_prop. destruct x; try (intros E; by inv_prim E).
  case_decide; [intros E; by inv_prim E|].
  destruct k; intros E; by inv_prim E.
Qed.

Lemma spread_pure x w w' r : spread x w = (w', r) → w' = w.
Proof. unfold spread. destruct x; intros E; by inv_prim E. Qed.

Lemma mergeRule_keeps h0 T s key w w' r :
  cfg_inv h0 T (heap_of w) →
  mergeRule (length h0 + 4) s key w = (w', r) →
  keeps h0 T w w'.
Proof.
  intros I E. pose proof (cfg_inv_length _ _ _ I) as Hlen.
  unfold mergeRule in E.
  inv_bind E; [|inv_prim E]. inv_prim E0.
  inv_bind E; [|inv_prim E]. inv_prim E0.
  destruct (is_undefined _) eqn:Eundef.
  - (* the rule is not set yet: store a fresh array *)
    assert (∀ vs w1 r1,
              (let! a := alloc (array_of_list vs) in
               write (length h0 + 4) key (VRef a)) w = (w1, r1) →
              keeps h0 T w w1) as Hstore.
    { intros vs w1 r1 E1. inv_bind E1; [|inv_prim E1]. inv_prim E0.
      inv_prim E1.
      eapply keeps_trans; [by apply keeps_alloc|].
      eapply (keeps_set_rule h0 T (with_heap _ w)); simpl.
      - by apply cfg_inv_alloc.
      - lia.
      - intros Ha. apply (ci_bounded _ _ _ I) in Ha. lia.
      - apply list_lookup_middle. done.
      - done. }
    inv_bind E; [|inv_prim E]. inv_prim E0.
    destruct (isArray _ _).
    + inv_bind E; [apply spread_pure in E0 as ->; eauto|].
      apply spread_pure in E as ->. by apply keeps_refl.
    + eauto.
  - (* the rule is set: maybe append the options *)
    inv_bind E; [apply get_prop_pure in E0 as ->|
                 apply get_prop_pure in E as ->; by apply keeps_refl].
    case_decide; [|inv_prim E; by apply keeps_refl].
    inv_bind E; [|inv_prim E]. inv_prim E0.
    destruct (isArray (heap_of w) (heap_get (heap_of w) s key));
      [|inv_prim E; by apply keeps_refl].
    inv_bind E; [apply get_prop_pure in E0 as ->|
                 apply get_prop_pure in E as ->; by apply keeps_refl].
    destruct (at_least _ _); [|inv_prim E; by apply keeps_refl].
    inv_bind E; [apply spread_pure in E0 as ->|
                 apply spread_pure in E as ->; by apply keeps_refl].
    unfold push in E.
    destruct (heap_get (heap_of w) (length h0 + 4) key) as [| | | | | |tl] eqn:Etd;
      try (inv_prim E; by apply keeps_refl).
    inv_bind E; [|inv_prim E]. inv_prim E0.
    apply heap_get_ref in Etd as (R & ER & Hin).
    destruct (ci_rules _ _ _ I) as (R' & ER' & _ & HR).
    assert (R' = R) as -> by congruence.
    destruct (HR _ _ Hin) as (a' & arr & [= <-] & Ha & HTa & Ea & Aa).
    rewrite Ea, Aa in E. inv_prim E.
    by eapply keeps_push.
Qed.

Lemma mergeRules_keeps h0 T source w w' r :
  cfg_inv h0 T (heap_of w) →
  mergeRules (length h0 + 4) source w = (w', r) →
  keeps h0 T w w'.
Proof.
  intros I E. unfold mergeRules in E.
  destruct source; try (inv_prim E; by apply keeps_refl).
  inv_bind E; [|inv_prim E; by apply keeps_refl]. inv_prim E0.
  revert E. apply (for_each_inv (λ w1, keeps h0 T w w1)); [|by apply keeps_refl].
  intros key w1 w2 r1 K1 E1.
  eapply keeps_trans; [exact K1|]. eapply mergeRule_keeps; [apply K1|done].
Qed.

(** ** The body of the merge loop *)

Lemma advances_refl h0 T w : cfg_inv h0 T (heap_of w) → advances h0 w w.
Proof. intros I. split; [eauto|by split]. Qed.

Lemma advances_trans h0 w1 w2 w3 :
  advances h0 w1 w2 → advances h0 w2 w3 → advances h0 w1 w3.
Proof.
  intros (I2 & C2 & P2) (I3 & C3 & P3). split; [done|split; [congruence|]].
  intros Ht. rewrite <- (P2 Ht). apply P3. by rewrite (P2 Ht).
Qed.

Lemma keeps_advances h0 T w w' : keeps h0 T w w' → advances h0 w w'.
Proof.
  intros (I & C & E). split; [eauto|split; [done|]].
  intros _. unfold config_parser, heap_get. by rewrite E.
Qed.

Lemma grows_advances h0 T w w' T' :
  cfg_inv h0 T (heap_of w) → grows T (heap_of w) T' (heap_of w') →
  same_slots w w' → advances h0 w w'.
Proof.
  intros I G (C & _). destruct (cfg_inv_grows _ _ _ _ _ I G) as [I' E].
  split; [eauto|split; [done|]].
  intros _. unfold config_parser, heap_get. by rewrite E.
Qed.

Lemma field_config h0 T w :
  cfg_inv h0 T (heap_of w) →
  field (length h0 + 6) "env" w = (w, Ret (length h0)) ∧
  field (length h0 + 6) "globals" w = (w, Ret (length h0 + 1)) ∧
  field (length h0 + 6) "parserOptions" w = (w, Ret (length h0 + 2)) ∧
  field (length h0 + 6) "plugins" w = (w, Ret (length h0 + 3)) ∧
  field (length h0 + 6) "rules" w = (w, Ret (length h0 + 4)) ∧
  field (length h0 + 6) "settings" w = (w, Ret (length h0 + 5)).
Proof.
  intros [_ (C & EC & _ & H1 & H2 & H3 & H4 & H5 & H6) _ _ _ _ _ _ _].
  unfold field, bind, read, heap_get, ret. rewrite EC, H1, H2, H3, H4, H5, H6.
  done.
Qed.

Lemma assign_advances h0 T fuel target source w w' r :
  cfg_inv h0 T (heap_of w) → T target →
  assignWithoutOverwrite fuel target source w = (w', r) →
  advances h0 w w'.
Proof.
  intros I Ht E.
  eapply assignWithoutOverwrite_grows in E as (T' & G & S);
    [|done|apply I|apply I].
  by eapply grows_advances.
Qed.

Lemma set_config_advances h0 T w k v :
  cfg_inv h0 T (heap_of w) →
  k = KName "processor" ∨
  (k = KName "parser" ∧ truthy (config_parser h0 w) = false) →
  advances h0 w (with_heap (heap_set (length h0 + 6) k v (heap_of w)) w).
Proof.
  intros I Hk. split; [|split; [done|]].
  - exists T. apply cfg_inv_set_config; [done|]. destruct Hk as [->|[-> _]]; auto.
  - intros Ht. destruct Hk as [->|[_ Hf]]; [|congruence].
    destruct (ci_config _ _ _ I) as (C & EC & AC & _).
    unfold config_parser, heap_get; simpl.
    rewrite heap_set_lookup, EC; simpl. by rewrite obj_set_get_ne.
Qed.

Lemma mergeElement_advances mergePlugins h0 T fuel element w w' r :
  plugins_ok mergePlugins →
  cfg_inv h0 T (heap_of w) →
  mergeElement mergePlugins fuel (length h0 + 6) element w = (w', r) →
  advances h0 w w'.
Proof.
  intros Hmp I E. unfold mergeElement in E.
  (* parser *)
  inv_bind E; [|inv_prim E]. inv_prim E0.
  inv_bind E.
  2:{ destruct (_ && _); [|inv_prim E].
      inv_bind E; [apply get_prop_pure in E0 as ->|
                   apply get_prop_pure in E as ->; by eapply advances_refl].
      destruct (truthy a); inv_prim E; by eapply advances_refl. }
  assert (advances h0 w w0) as A0.
  { destruct (negb _ && _) eqn:Econd; [|inv_prim E0; by eapply advances_refl].
    apply andb_true_iff in Econd as [Hcp _]. apply negb_true_iff in Hcp.
    inv_bind E0; [apply get_prop_pure in E1 as ->|
                  apply get_prop_pure in E0 as ->; by eapply advances_refl].
    destruct (truthy a0); inv_prim E0. eapply set_config_advances; eauto. }
  clear E0. revert E. generalize dependent w0. clear I T.
  assert (∀ w1 w2,
            advances h0 w w1 → (∀ T1, cfg_inv h0 T1 (heap_of w1) → advances h0 w1 w2) →
            advances h0 w w2) as Hseq.
  { intros w1 w2 A1 H. destruct A1 as ((T1 & I1) & C1 & P1).
    eapply advances_trans; [|by eapply H]. split; eauto. }
  intros w0 A0 E.
  (* processor *)
  inv_bind E; [|inv_prim E]. inv_prim E0.
  inv_bind E.
  2:{ destruct (_ && _); inv_prim E. }
  assert (advances h0 w w1) as A1.
  { eapply Hseq; [exact A0|]. intros T1 I1.
    destruct (_ && _); inv_prim E0; [|by eapply advances_refl].
    eapply set_config_advances; eauto. }
  clear E0 A0 w0.
  (* env, globals, parserOptions, settings *)
  assert (∀ k target source w1 w2 r2 (rest : M unit),
            advances h0 w w1 →
            (∀ T1, cfg_inv h0 T1 (heap_of w1) →
                   field (length h0 + 6) k w1 = (w1, Ret target) ∧ T1 target) →
            (let! t := field (length h0 + 6) k in
             assignWithoutOverwrite fuel t source ;; rest) w1 = (w2, r2) →
            advances h0 w w2 ∨
            ∃ w3, advances h0 w w3 ∧ rest w3 = (w2, r2)) as Hassign.
  { intros k target source w2 w3 r3 rest A2 Hfield E3.
    destruct A2 as ((T2 & I2) & C2 & P2).
    destruct (Hfield T2 I2) as [Ef Ht].
    unfold bind at 1 in E3. rewrite Ef in E3.
    inv_bind E3.
    - right. exists w0. split; [|done].
      eapply advances_trans; [split; eauto|]. by eapply assign_advances.
    - left. eapply advances_trans; [split; eauto|]. by eapply assign_advances. }
  eapply Hassign in E as [?|(w2 & A2 & E)]; [done|clear A1|exact A1|];
    [|intros T1 I1; split; [apply (field_config _ _ _ I1)|apply I1]].
  eapply Hassign in E as [?|(w3 & A3 & E)]; [done|clear A2|exact A2|];
    [|intros T1 I1; split; [apply (field_config _ _ _ I1)|apply I1]].
  eapply Hassign in E as [?|(w4 & A4 & E)]; [done|clear A3|exact A3|];
    [|intros T1 I1; split; [apply (field_config _ _ _ I1)|apply I1]].
  eapply Hassign in E as [?|(w5 & A5 & E)]; [done|clear A4|exact A4|];
    [|intros T1 I1; split; [apply (field_config _ _ _ I1)|apply I1]].
  (* plugins, rules *)
  destruct A5 as ((T5 & I5) & C5 & P5).
  destruct (field_config _ _ _ I5) as (_ & _ & _ & Fp & Fr & _).
  unfold bind at 1 in E. rewrite Fp in E.
  inv_bind E.
  2:{ eapply advances_trans; [split; eauto|].
      eapply keeps_advances. by eapply Hmp. }
  pose proof (Hmp _ _ _ _ _ _ I5 E0) as K6.
  destruct (field_config _ _ _ (proj1 K6)) as (_ & _ & _ & _ & Fr' & _).
  unfold bind at 1 in E. rewrite Fr' in E.
  eapply advances_trans; [split; eauto|].
  eapply advances_trans; [by eapply keeps_advances|].
  eapply keeps_advances. eapply mergeRules_keeps; [apply K6|done].
Qed.

Lemma merge_loop_advances mergePlugins h0 T fuel instance indices w w' r :
  plugins_ok mergePlugins →
  cfg_inv h0 T (heap_of w) →
  merge_loop mergePlugins fuel instance (length h0 + 6) indices w = (w', r) →
  advances h0 w w'.
Proof.
  intros Hmp I. unfold merge_loop.
  apply (for_each_inv (λ w1, advances h0 w w1)); [|by eapply advances_refl].
  intros index w1 w2 r1 A1 E1.
  destruct (instance !! index) as [element|]; [|inv_prim E1; done].
  destruct A1 as ((T1 & I1) & C1 & P1).
  eapply advances_trans; [split; eauto|].
  by eapply mergeElement_advances.
Qed.

(** ** new ExtractedConfig() *)

Lemma new_ExtractedConfig_run w :
  new_ExtractedConfig w =
    (with_heap (fresh_config (heap_of w)) w, Ret (length (heap_of w) + 6)).
Proof.
  unfold new_ExtractedConfig, bind, alloc, fresh_config; simpl.
  rewrite !length_app; simpl. rewrite <- !app_assoc; simpl.
  unfold with_heap; simpl. rewrite <- !Nat.add_assoc; simpl. done.
Qed.

Lemma fresh_config_lookup (h0 : heap) i :
  fresh_config h0 !! (length h0 + i) =
    [empty_object; empty_object; empty_object; empty_object; empty_object;
     empty_object;
     ExtractedConfig_object (length h0) (length h0 + 1) (length h0 + 2)
       (length h0 + 3) (length h0 + 4) (length h0 + 5)] !! i.
Proof.
  unfold fresh_config. rewrite lookup_app_r by lia. f_equal. lia.
Qed.

Lemma fresh_config_inv h0 : cfg_inv h0 (records h0) (fresh_config h0).
Proof.
  split.
  - intros l Hl. unfold fresh_config. by rewrite lookup_app_l.
  - eexists. split; [apply (fresh_config_lookup h0 6)|]. by repeat split.
  - eexists. split; [apply (fresh_config_lookup h0 3)|]. done.
  - eexists. split; [apply (fresh_config_lookup h0 4)|]. split; [done|].
    intros k v Hin. simpl in Hin. by apply elem_of_nil in Hin.
  - unfold records. repeat split; auto.
  - unfold records. repeat split; lia.
  - unfold records. intros l. lia.
  - intros l o k l' Hl E Hin. unfold records in Hl.
    assert (o = empty_object) as ->.
    { destruct Hl as [-> | [-> | [-> | ->]]].
      - rewrite <- (Nat.add_0_r (length h0)) in E.
        rewrite fresh_config_lookup in E. simpl in E. by simplify_eq.
      - rewrite fresh_config_lookup in E. simpl in E. by simplify_eq.
      - rewrite fresh_config_lookup in E. simpl in E. by simplify_eq.
      - rewrite fresh_config_lookup in E. simpl in E. by simplify_eq. }
    simpl in Hin. by apply elem_of_nil in Hin.
  - intros l Hl. unfold records in Hl. unfold fresh_config.
    rewrite length_app; simpl. lia.
Qed.

(** ** mergePlugins of the lazy variant *)

Lemma lazy_mergePlugins_ok : plugins_ok ConfigArrayLazy.mergePlugins.
Proof.
  intros h0 T source w w' r I E. unfold ConfigArrayLazy.mergePlugins in E.
  destruct source; try (inv_prim E; by apply keeps_refl).
  inv_bind E; [|inv_prim E; by apply keeps_refl]. inv_prim E0.
  revert E. apply (for_each_inv (λ w1, keeps h0 T w w1)); [|by apply keeps_refl].
  intros key w1 w2 r1 K1 E1.
  eapply keeps_trans; [exact K1|]. destruct K1 as (I1 & _ & _).
  unfold ConfigArrayLazy.mergePlugin in E1.
  inv_bind E1; [|inv_prim E1]. inv_prim E0.
  inv_bind E1; [|inv_prim E1]. inv_prim E0.
  destruct (is_undefined _); [|inv_prim E1; by apply keeps_refl].
  inv_bind E1; [apply get_prop_pure in E0 as ->|
                apply get_prop_pure in E1 as ->; by apply keeps_refl].
  destruct (truthy a); inv_prim E1; [by apply keeps_refl|].
  by apply keeps_set_plugin.
Qed.

(** ** mergePlugins of the eager variant *)

Section EagerPlugins.
Variable require : string → outcome value.

Lemma keeps_maps h0 T w w' :
  cfg_inv h0 T (heap_of w) → heap_of w' = heap_of w → cache w' = cache w →
  keeps h0 T w w'.
Proof. intros I Eh Ec. split; [by rewrite Eh|split; [done|by rewrite Eh]]. Qed.

Lemma normalizePluginRule_keeps h0 T fuel :
  ∀ rule w w' r,
    cfg_inv h0 T (heap_of w) →
    ConfigArray.normalizePluginRule require fuel rule w = (w', r) →
    keeps h0 T w w'.
Proof.
  induction fuel as [|fuel IH]; intros rule w w' r I E; simpl in E.
  { inv_prim E. by apply keeps_refl. }
  destruct rule; try (inv_prim E; by apply keeps_refl).
  - inv_bind E; [|inv_prim E; by apply keeps_refl].
    inv_prim E0. eauto.
  - inv_bind E; [|inv_prim E]. inv_prim E0. inv_prim E.
    by apply keeps_alloc.
Qed.

Lemma collect_keeps h0 T fuel pluginId defs map normalize w w' r :
  normalize = None ∨ normalize = Some (ConfigArray.normalizePluginRule require fuel) →
  cfg_inv h0 T (heap_of w) →
  ConfigArray.collect pluginId defs map normalize w = (w', r) →
  keeps h0 T w w'.
Proof.
  intros Hn I E. unfold ConfigArray.collect in E.
  destruct (truthy defs); [|inv_prim E; by apply keeps_refl].
  inv_bind E.
  2:{ unfold ConfigArray.entries in E. destruct defs; inv_prim E. }
  assert (w0 = w) as ->.
  { unfold ConfigArray.entries in E0. destruct defs; by inv_prim E0. }
  clear E0. revert E.
  apply (for_each_inv (λ w1, keeps h0 T w w1)); [|by apply keeps_refl].
  intros entry w1 w2 r1 K1 E1.
  eapply keeps_trans; [exact K1|]. destruct K1 as (I1 & _ & _).
  inv_bind E1.
  - eapply keeps_trans.
    + destruct Hn as [-> | ->]; [inv_prim E0; by apply keeps_refl|].
      by eapply normalizePluginRule_keeps.
    + assert (cfg_inv h0 T (heap_of w0)) as I0.
      { destruct Hn as [-> | ->]; [by inv_prim E0|].
        by eapply normalizePluginRule_keeps. }
      unfold ConfigArray.map_set in E1. destruct map; inv_prim E1;
        by apply keeps_maps.
  - destruct Hn as [-> | ->]; [inv_prim E1|].
    by eapply normalizePluginRule_keeps.
Qed.

Lemma eager_mergePlugins_ok fuel :
  plugins_ok (ConfigArray.mergePlugins require fuel).
Proof.
  intros h0 T source w w' r I E. unfold ConfigArray.mergePlugins in E.
  destruct source; try (inv_prim E; by apply keeps_refl).
  inv_bind E; [|inv_prim E; by apply keeps_refl]. inv_prim E0.
  revert E. apply (for_each_inv (λ w1, keeps h0 T w w1)); [|by apply keeps_refl].
  intros key w1 w2 r1 K1 E1.
  eapply keeps_trans; [exact K1|]. destruct K1 as (I1 & _ & _).
  clear I w. revert E1. generalize w1 I1. clear w1 I1. intros w I E.
  unfold ConfigArray.mergePlugin in E.
  inv_bind E; [|inv_prim E]. inv_prim E0.
  inv_bind E; [|inv_prim E]. inv_prim E0.
  destruct (is_undefined _); [|inv_prim E; by apply keeps_refl].
  inv_bind E; [apply get_prop_pure in E0 as ->|
               apply get_prop_pure in E as ->; by apply keeps_refl].
  destruct (truthy a); [inv_prim E; by apply keeps_refl|].
  inv_bind E; [|inv_prim E]. inv_prim E0.
  set (sv := heap_get (heap_of w) l key) in *.
  pose proof (keeps_set_plugin h0 T w key sv I) as K1.
  eapply keeps_trans; [exact K1|]. destruct K1 as (I1 & _ & _).
  revert E I1.
  generalize (with_heap (heap_set (length h0 + 3) key sv (heap_of w)) w).
  clearbody sv. clear I w. intros w E I.
  assert (∀ wa (k : string) (which : ConfigArray.member_map) normalize
            (rest : M unit) wb rb,
            normalize = None ∨
            normalize = Some (ConfigArray.normalizePluginRule require fuel) →
            cfg_inv h0 T (heap_of wa) →
            (let! definition := get_prop sv (KName "definition") in
             let! defs := get_prop definition (KName k) in
             ConfigArray.collect (key_to_string key) defs which normalize ;;
             rest) wa = (wb, rb) →
            keeps h0 T wa wb ∨
            ∃ wc, keeps h0 T wa wc ∧ rest wc = (wb, rb)) as Hstep.
  { intros wa k which normalize rest wb rb Hn I1 E1.
    inv_bind E1; [apply get_prop_pure in E0 as ->|
                  apply get_prop_pure in E1 as ->; left; by apply keeps_refl].
    inv_bind E1; [apply get_prop_pure in E0 as ->|
                  apply get_prop_pure in E1 as ->; left; by apply keeps_refl].
    inv_bind E1.
    - right. eexists. split; [|done]. by eapply collect_keeps.
    - left. by eapply collect_keeps. }
  eapply Hstep in E as [?|(w3 & K3 & E)]; [done| |by left|done].
  eapply keeps_trans; [exact K3|].
  eapply Hstep in E as [?|(w4 & K4 & E)]; [done| |by left|apply K3].
  eapply keeps_trans; [exact K4|].
  inv_bind E; [apply get_prop_pure in E0 as ->|
               apply get_prop_pure in E as ->; by apply keeps_refl; apply K4].
  inv_bind E; [apply get_prop_pure in E0 as ->|
               apply get_prop_pure in E as ->; by apply keeps_refl; apply K4].
  eapply collect_keeps; [by right|apply K4|done].
Qed.

End EagerPlugins.

(** ** createConfig *)

Lemma extends_refl h : extends h h.
Proof. by intros l _. Qed.

Lemma extends_length (h h' : heap) : extends h h' → length h ≤ length h'.
Proof.
  intros H. destruct (decide (length h = 0)) as [|Hne]; [lia|].
  assert (length h - 1 < length h) as Hlt by lia.
  specialize (H _ Hlt). apply lookup_lt_is_Some_2 in Hlt as [o Eo].
  rewrite Eo in H. apply lookup_lt_Some in H. lia.
Qed.

Lemma extends_trans h1 h2 h3 : extends h1 h2 → extends h2 h3 → extends h1 h3.
Proof.
  intros H12 H23 l Hl. rewrite H23, H12; [done..|].
  pose proof (extends_length _ _ H12). lia.
Qed.

Lemma fresh_config_extends h : extends h (fresh_config h).
Proof. intros l Hl. unfold fresh_config. by rewrite lookup_app_l. Qed.

(** What the merge loop guarantees when it starts right after the
    constructor. *)
Lemma merge_loop_fresh mergePlugins fuel instance indices w w' r :
  plugins_ok mergePlugins →
  merge_loop mergePlugins fuel instance (length (heap_of w) + 6) indices
    (with_heap (fresh_config (heap_of w)) w) = (w', r) →
  (∃ T, cfg_inv (heap_of w) T (heap_of w')) ∧ cache w' = cache w.
Proof.
  intros Hmp E.
  eapply (merge_loop_advances _ (heap_of w)) in E as (I & C & _); eauto.
  simpl. apply fresh_config_inv.
Qed.

Lemma lazy_createConfig_spec fuel instance indices w w' r :
  ConfigArrayLazy.createConfig fuel instance indices w = (w', r) →
  extends (heap_of w) (heap_of w') ∧ cache w' = cache w ∧
  ∀ c, r = Ret c →
       c = length (heap_of w) + 6 ∧ ∃ T, cfg_inv (heap_of w) T (heap_of w').
Proof.
  unfold ConfigArrayLazy.createConfig. intros E.
  unfold bind at 1 in E. rewrite new_ExtractedConfig_run in E.
  inv_bind E.
  - inv_prim E.
    apply merge_loop_fresh in E0 as ((T & I) & C); [|apply lazy_mergePlugins_ok].
    split; [exact (ci_frame _ _ _ I)|]. split; [done|]. intros c [= <-]. eauto.
  - apply merge_loop_fresh in E as ((T & I) & C); [|apply lazy_mergePlugins_ok].
    split; [exact (ci_frame _ _ _ I)|]. split; [done|]. intros c [=].
Qed.

Section EagerCreate.
Variable require : string → outcome value.
Variable validateConfigArrayElement :
  heap → ConfigArrayElement → (string → value) → (string → value) → option exn.

Lemma validate_pure element w w' r :
  ConfigArray.validate validateConfigArrayElement element w = (w', r) → w' = w.
Proof.
  unfold ConfigArray.validate. destruct (validateConfigArrayElement _ _ _ _);
    intros E; by inv_prim E.
Qed.

Lemma eager_createConfig_spec fuel instance indices w w' r :
  ConfigArray.createConfig require validateConfigArrayElement fuel instance
    indices w = (w', r) →
  extends (heap_of w) (heap_of w') ∧ cache w' = cache w ∧
  ∀ c, r = Ret c →
       c = length (heap_of w) + 6 ∧ ∃ T, cfg_inv (heap_of w) T (heap_of w').
Proof.
  unfold ConfigArray.createConfig. intros E.
  unfold bind at 1 in E. rewrite new_ExtractedConfig_run in E.
  inv_bind E.
  - apply merge_loop_fresh in E0 as ((T & I) & C);
      [|apply eager_mergePlugins_ok].
    assert (∀ w2 r2,
              for_each indices
                (λ index,
                   match instance !! index with
                   | Some element =>
                       ConfigArray.validate validateConfigArrayElement element
                   | None => throw TypeError
                   end) w0 = (w2, r2) → w2 = w0) as Hpure.
    { intros w2 r2. apply (for_each_inv (λ w3, w3 = w0)); [|done].
      intros index w3 w4 r4 -> E4.
      destruct (instance !! index); [by eapply validate_pure|by inv_prim E4]. }
    inv_bind E.
    + apply Hpure in E0 as ->. inv_prim E.
      split; [exact (ci_frame _ _ _ I)|]. split; [done|]. intros c [= <-]. eauto.
    + apply Hpure in E as ->.
      split; [exact (ci_frame _ _ _ I)|]. split; [done|]. intros c [=].
  - apply merge_loop_fresh in E as ((T & I) & C);
      [|apply eager_mergePlugins_ok].
    split; [exact (ci_frame _ _ _ I)|]. split; [done|]. intros c [=].
Qed.

End EagerCreate.

End MergeFacts.

(* ===================================================================== *)
(** * The key of the cache *)
(* ===================================================================== *)

Module KeyFacts.
Import Merge Props.

(** ** The cache key determines the index sequence *)

Lemma pretty_N_char_digit x : is_digit (pretty_N_char x).
Proof.
  unfold pretty_N_char, is_digit. repeat case_match; compute; eauto.
Qed.

Lemma pretty_N_go_digits x : ∀ s, all_digits s → all_digits (pretty_N_go x s).
Proof.
  induction (N.lt_wf_0 x) as [x _ IH]; intros s Hs.
  destruct (decide (x = 0)%N) as [->|Hne]; [by rewrite pretty_N_go_0|].
  rewrite pretty_N_go_step by lia. apply IH.
  - apply N.div_lt; lia.
  - split; [apply pretty_N_char_digit|done].
Qed.

Lemma pretty_N_go_nonempty x : ∀ s, s ≠ "" → pretty_N_go x s ≠ "".
Proof.
  induction (N.lt_wf_0 x) as [x _ IH]; intros s Hs.
  destruct (decide (x = 0)%N) as [->|Hne]; [by rewrite pretty_N_go_0|].
  rewrite pretty_N_go_step by lia. apply IH; [apply N.div_lt; lia|done].
Qed.

Lemma pretty_nat_digits (n : nat) : all_digits (pretty n).
Proof.
  unfold pretty, pretty_nat, pretty, pretty_N.
  case_decide; [split; [by eexists|done]|].
  by apply pretty_N_go_digits.
Qed.

Lemma pretty_nat_nonempty (n : nat) : pretty n ≠ "".
Proof.
  unfold pretty, pretty_nat, pretty, pretty_N. case_decide; [done|].
  rewrite pretty_N_go_step by lia. by apply pretty_N_go_nonempty.
Qed.

Lemma app_nil_l s : "" +:+ s = s.
Proof. done. Qed.

Lemma app_cons c s t : String c s +:+ t = String c (s +:+ t).
Proof. done. Qed.

(** Splitting at the first comma is unambiguous for strings of digits. *)
Lemma digits_comma_split a a' b b' :
  all_digits a → all_digits a' →
  a +:+ "," +:+ b = a' +:+ "," +:+ b' → a = a' ∧ b = b'.
Proof.
  revert a'. induction a as [|c a IH]; intros [|c' a'] Ha Ha' E;
    rewrite ?app_nil_l, ?app_cons in E.
  - by simplify_eq.
  - injection E as <- E. destruct Ha' as [[n Hn] _]. by compute in Hn.
  - injection E as -> E. destruct Ha as [[n Hn] _]. by compute in Hn.
  - injection E as -> E. destruct Ha as [_ Ha], Ha' as [_ Ha'].
    destruct (IH _ Ha Ha' E) as [-> ->]. done.
Qed.

Lemma digits_no_comma a b c : all_digits a → all_digits b → a ≠ b +:+ "," +:+ c.
Proof.
  revert b. induction a as [|x a IH]; intros [|y b] Ha Hb E;
    rewrite ?app_nil_l, ?app_cons in E; try done.
  - injection E as -> E. destruct Ha as [[n Hn] _]. by compute in Hn.
  - injection E as -> E. destruct Ha as [_ Ha], Hb as [_ Hb]. by eapply IH.
Qed.

Lemma cache_key_cons i indices :
  cache_key (i :: indices) =
    match indices with
    | [] => pretty i
    | _ => pretty i +:+ "," +:+ cache_key indices
    end.
Proof. by destruct indices. Qed.

Lemma cache_key_inj indices indices' :
  cache_key indices = cache_key indices' → indices = indices'.
Proof.
  revert indices'.
  induction indices as [|i indices IH]; intros [|i' indices'] E.
  - done.
  - exfalso. rewrite cache_key_cons in E. change (cache_key []) with "" in E.
    destruct indices'; [by eapply pretty_nat_nonempty|].
    pose proof (pretty_nat_nonempty i'). by destruct (pretty i').
  - exfalso. rewrite cache_key_cons in E. change (cache_key []) with "" in E.
    destruct indices; [by eapply pretty_nat_nonempty|].
    pose proof (pretty_nat_nonempty i). by destruct (pretty i).
  - rewrite !cache_key_cons in E.
    destruct indices as [|j indices], indices' as [|j' indices'].
    + by apply (inj pretty) in E as ->.
    + exfalso. eapply digits_no_comma; [..|exact E]; apply pretty_nat_digits.
    + exfalso. eapply digits_no_comma; [..|symmetry; exact E];
        apply pretty_nat_digits.
    + apply digits_comma_split in E as [Ei E]; [|apply pretty_nat_digits..].
      apply (inj pretty) in Ei as ->. f_equal. by apply IH.
Qed.

End KeyFacts.

(* ===================================================================== *)
(** * extractConfig, for any guard and any createConfig *)
(* ===================================================================== *)

Module ExtractFacts.
Import JS Eff Merge JSFacts MergeFacts KeyFacts Props.

(** ** extractConfig and its cache

    Both variants of extractConfig have one shape: an optional check of the
    argument, the matched indices, the cache lookup, createConfig on a miss.
    The section states what follows from that shape and from the
    specification of createConfig; it is instantiated twice below. *)

Lemma cfg_inv_rules_are_arrays h0 T h :
  cfg_inv h0 T h → rules_are_arrays h (length h0 + 6).
Proof.
  intros [_ (C & EC & _ & _ & _ & _ & _ & Hr & _) _ (R & ER & _ & HR) _ _ _ _ _].
  exists (length h0 + 4), R. unfold heap_get. rewrite EC. repeat split; [done..|].
  intros k v Hin. destruct (HR k v Hin) as (a & arr & -> & _ & _ & Ea & Aa).
  simpl. by rewrite Ea.
Qed.

Lemma fresh_config_empty h : empty_config (fresh_config h) (length h + 6).
Proof.
  exists (length h), (length h + 1), (length h + 2), (length h + 3),
    (length h + 4), (length h + 5).
  pose proof (fresh_config_lookup h 0) as E0.
  rewrite Nat.add_0_r in E0. rewrite !fresh_config_lookup, E0.
  by repeat split.
Qed.

Lemma empty_config_extends h h' c :
  extends h h' → empty_config h c → empty_config h' c.
Proof.
  intros Hext (e & g & po & pl & r & st & Ec & Ee & Eg & Epo & Epl & Er & Est).
  exists e, g, po, pl, r, st.
  rewrite !Hext by (by eapply lookup_lt_Some). by repeat split.
Qed.

Section Extraction.
Variable instance : list ConfigArrayElement.
Variable guard : heap → value → option exn.
Variable matched : value → outcome (list nat).
Variable create : nat → list nat → M loc.

Local Abbreviation extract := (Props.extract guard matched create).
Local Abbreviation run := (Props.run guard matched create).
Local Abbreviation calls := (Props.calls guard matched create).
Local Abbreviation sound := (Props.sound create).

Hypothesis create_spec : ∀ fuel indices w w' r,
  create fuel indices w = (w', r) →
  extends (heap_of w) (heap_of w') ∧ cache w' = cache w ∧
  ∀ c, r = Ret c →
       c = length (heap_of w) + 6 ∧ ∃ T, cfg_inv (heap_of w) T (heap_of w').

Hypothesis create_nil : ∀ fuel w,
  create fuel [] w =
    (with_heap (fresh_config (heap_of w)) w, Ret (length (heap_of w) + 6)).

Hypothesis create_errored : ∀ fuel i rest element err w,
  instance !! i = Some element → errored (heap_of w) element err →
  ∃ w', create fuel (i :: rest) w = (w', Raise (Thrown err)).

Lemma extract_run fuel filePath w w' r :
  extract fuel filePath w = (w', r) ↔ run fuel filePath w w' r.
Proof.
  unfold Props.extract, bind, lift, cache_has, cache_set, cache_get, ret. split.
  - intros E. destruct (guard _ _) as [e|] eqn:Eg.
    { simplify_eq. by constructor. }
    destruct (matched filePath) as [indices|e] eqn:Em.
    2:{ simplify_eq. by constructor. }
    destruct (cache w !! cache_key indices) as [v|] eqn:Ec.
    + rewrite bool_decide_eq_true_2 in E by eauto. rewrite Ec in E.
      simplify_eq. by econstructor.
    + rewrite bool_decide_eq_false_2 in E by (by intros [? ?]).
      destruct (create fuel indices w) as [w1 [c|e]] eqn:Ecr.
      * simpl in E. rewrite lookup_insert_eq in E. simplify_eq.
        by econstructor.
      * simplify_eq. by econstructor.
  - intros [e Eg|e Eg Em|indices v Eg Em Ec|indices w1 e Eg Em Ec Ecr
           |indices w1 c Eg Em Ec Ecr]; rewrite Eg; try done.
    + by rewrite Em.
    + rewrite Em. rewrite bool_decide_eq_true_2 by eauto. by rewrite Ec.
    + rewrite Em. rewrite bool_decide_eq_false_2 by (rewrite Ec; by intros [? ?]).
      by rewrite Ecr.
    + rewrite Em. rewrite bool_decide_eq_false_2 by (rewrite Ec; by intros [? ?]).
      rewrite Ecr. simpl. by rewrite lookup_insert_eq.
Qed.

(** A call does not touch what was on the heap, and keeps what was in the
    cache. *)
Lemma extract_extends fuel filePath w w' r :
  extract fuel filePath w = (w', r) → extends (heap_of w) (heap_of w').
Proof.
  rewrite extract_run.
  intros [| | |indices w1 e _ _ _ Ecr|indices w1 c _ _ _ Ecr];
    try apply extends_refl; by apply create_spec in Ecr as [? _].
Qed.

Lemma extract_cache_mono fuel filePath w w' r k v :
  extract fuel filePath w = (w', r) →
  cache w !! k = Some v → cache w' !! k = Some v.
Proof.
  rewrite extract_run.
  intros [| | |indices w1 e _ _ _ Ecr|indices w1 c _ _ Ec Ecr] Ek; try done.
  - apply create_spec in Ecr as (_ & -> & _). done.
  - apply create_spec in Ecr as (_ & C & _). simpl. rewrite C.
    rewrite lookup_insert_ne; [done|]. intros <-. congruence.
Qed.

Lemma calls_extends w w' : calls w w' → extends (heap_of w) (heap_of w').
Proof.
  induction 1; [apply extends_refl|].
  eauto using extends_trans, extract_extends.
Qed.

Lemma calls_cache_mono w w' k v :
  calls w w' → cache w !! k = Some v → cache w' !! k = Some v.
Proof. induction 1; eauto using extract_cache_mono. Qed.

(** After a call that returned [v], every call with the same matched
    indices returns [v] from the cache and changes nothing. *)
Lemma extract_again fuel p w w1 v indices w2 fuel' p' :
  extract fuel p w = (w1, Ret v) → matched p = Ret indices →
  calls w1 w2 →
  matched p' = Ret indices → guard (heap_of w2) p' = None →
  extract fuel' p' w2 = (w2, Ret v).
Proof.
  intros E Em Hcalls Em' Eg'.
  assert (cache w1 !! cache_key indices = Some v) as Ec.
  { apply extract_run in E.
    inversion E as [| |indices0 v0 _ Em0 Ec0| |indices0 w0 c _ Em0 _ _];
      simplify_eq; rewrite Em in Em0; injection Em0 as <-; [done|].
    simpl. apply lookup_insert_eq. }
  apply extract_run. eapply run_hit; eauto using calls_cache_mono.
Qed.

Lemma sound_initial h0 : sound h0 (initial h0).
Proof.
  split; [apply extends_refl|]. intros k v. simpl. by rewrite lookup_empty.
Qed.

Lemma sound_extract h0 fuel filePath w w' r :
  sound h0 w → extract fuel filePath w = (w', r) → sound h0 w'.
Proof.
  intros [Hext Hc] E. pose proof (extract_extends _ _ _ _ _ E) as Hext'.
  split; [eauto using extends_trans|].
  apply extract_run in E.
  destruct E as [| | |indices w1 e _ _ _ Ecr|indices w1 c _ _ Ec Ecr];
    try done.
  - intros k v Ek. apply create_spec in Ecr as (_ & C & _). rewrite C in Ek.
    destruct (Hc k v Ek) as (ix & c & f & w0 & w2 & -> & -> & H0 & Ecr & H2).
    exists ix, c, f, w0, w2. repeat split; eauto using extends_trans.
  - intros k v Ek. simpl in *.
    pose proof (create_spec _ _ _ _ _ Ecr) as (_ & C & _).
    destruct (decide (k = cache_key indices)) as [->|Hne].
    + rewrite lookup_insert_eq in Ek. simplify_eq.
      exists indices, c, fuel, w, w1.
      repeat split; auto using extends_refl.
    + rewrite lookup_insert_ne in Ek by done. rewrite C in Ek.
      destruct (Hc k v Ek) as (ix & c' & f & w0 & w2 & -> & -> & H0 & Ecr' & H2).
      exists ix, c', f, w0, w2. repeat split; eauto using extends_trans.
Qed.

Lemma sound_calls h0 w w' : sound h0 w → calls w w' → sound h0 w'.
Proof. induction 2; eauto using sound_extract. Qed.

(** What a created config looks like, now. *)
Lemma created_rules_are_arrays fuel indices w0 w1 c h :
  create fuel indices w0 = (w1, Ret c) → extends (heap_of w1) h →
  rules_are_arrays h c.
Proof.
  intros Ecr Hext.
  apply create_spec in Ecr as (_ & _ & Hc).
  destruct (Hc c eq_refl) as (-> & T & I).
  destruct (cfg_inv_rules_are_arrays _ _ _ I) as (r & R & Er & ER & HR).
  assert (length (heap_of w0) + 6 < length (heap_of w1)) as Hlen.
  { pose proof (cfg_inv_length _ _ _ I). lia. }
  exists r, R. unfold heap_get in *.
  rewrite !Hext; [|by eapply lookup_lt_Some|done].
  repeat split; [done..|]. intros k v Hin. specialize (HR k v Hin).
  destruct v; try done. simpl in *.
  destruct (heap_of w1 !! l) eqn:El; [|done].
  rewrite Hext, El; [done|]. by eapply lookup_lt_Some.
Qed.

(** ** The rules of an extracted config are arrays *)
Lemma extract_rules_are_arrays h0 fuel filePath w w' v :
  sound h0 w → extract fuel filePath w = (w', Ret v) →
  ∃ c, v = VRef c ∧ rules_are_arrays (heap_of w') c.
Proof.
  intros Hs E. pose proof (sound_extract _ _ _ _ _ _ Hs E) as [_ Hc'].
  assert (∃ k, cache w' !! k = Some v) as [k Ek].
  { apply extract_run in E.
    inversion E as [| |indices v0 _ _ Ec| |indices w1 c _ _ _ _]; simplify_eq.
    - eauto.
    - eexists. simpl. apply lookup_insert_eq. }
  destruct (Hc' k v Ek) as (ix & c & f & w0 & w1 & _ & -> & _ & Ecr & Hext).
  exists c. split; [done|]. by eapply created_rules_are_arrays.
Qed.

(** ** No element matches *)
Lemma extract_unmatched h0 fuel filePath w :
  sound h0 w → guard (heap_of w) filePath = None →
  matched filePath = Ret [] →
  ∃ w' c, extract fuel filePath w = (w', Ret (VRef c)) ∧
          empty_config (heap_of w') c.
Proof.
  intros [_ Hc] Eg Em.
  destruct (cache w !! cache_key []) as [v|] eqn:Ec.
  - destruct (Hc _ _ Ec) as (ix & c & f & w0 & w1 & Hk & -> & _ & Ecr & Hext).
    apply cache_key_inj in Hk as <-. rewrite create_nil in Ecr.
    injection Ecr as <- <-.
    exists w, (length (heap_of w0) + 6). split.
    + apply extract_run. by eapply run_hit.
    + eapply empty_config_extends; [exact Hext|]. apply fresh_config_empty.
  - eexists _, _. split.
    + apply extract_run. eapply run_created; eauto.
    + simpl. apply fresh_config_empty.
Qed.

(** ** The only matching element has a parser that failed to load *)
Lemma errored_extends h h' element err :
  extends h h' → errored h element err → errored h' element err.
Proof.
  intros Hext (p & Ep & Hp & Eerr & Ht). exists p.
  pose proof (extends_length _ _ Hext).
  repeat split; [done|lia| |done]. unfold heap_get in *. by rewrite Hext.
Qed.

Lemma extract_errored h0 fuel filePath w i rest element err :
  sound h0 w → guard (heap_of w) filePath = None →
  matched filePath = Ret (i :: rest) →
  instance !! i = Some element → errored h0 element err →
  ∃ w', extract fuel filePath w = (w', Raise (Thrown err)) ∧
        cache w' = cache w.
Proof.
  intros [Hext Hc] Eg Em Ei Herr.
  destruct (cache w !! cache_key (i :: rest)) as [v|] eqn:Ec.
  - exfalso.
    destruct (Hc _ _ Ec) as (ix & c & f & w0 & w1 & Hk & -> & H0 & Ecr & _).
    apply cache_key_inj in Hk as <-.
    destruct (create_errored f i rest element err w0 Ei) as [w2 Ecr'];
      [by eapply errored_extends|].
    congruence.
  - destruct (create_errored fuel i rest element err w Ei) as [w' Ecr];
      [by eapply errored_extends|].
    exists w'. split.
    + apply extract_run. by eapply run_failed.
    + by apply create_spec in Ecr as (_ & -> & _).
Qed.

End Extraction.
End ExtractFacts.

(* ===================================================================== *)
(** * The parser of createConfig *)
(* ===================================================================== *)

Module ParserFacts.
Import JS Eff Merge JSFacts MergeFacts KeyFacts ExtractFacts Props.

(** ** The parser step of the merge loop *)

Lemma mergeElement_errored mergePlugins fuel config element w err :
  truthy (heap_get (heap_of w) config (KName "parser")) = false →
  truthy (parser element) = true →
  get_prop (parser element) (KName "error") w = (w, Ret err) →
  truthy err = true →
  mergeElement mergePlugins fuel config element w = (w, Raise (Thrown err)).
Proof.
  intros Hc Hp He Ht. unfold mergeElement.
  unfold bind at 1. unfold read at 1. rewrite Hc, Hp. simpl.
  unfold bind at 1. unfold bind at 1. rewrite He, Ht. done.
Qed.

Lemma mergeElement_adopted mergePlugins fuel config element p w :
  truthy (heap_get (heap_of w) config (KName "parser")) = true →
  mergeElement mergePlugins fuel config (with_parser p element) w =
  mergeElement mergePlugins fuel config element w.
Proof.
  intros Hc. unfold mergeElement.
  unfold bind at 1. unfold read at 1. symmetry.
  unfold bind at 1. unfold read at 1. rewrite Hc. done.
Qed.

Lemma merge_loop_adopted mergePlugins h0 fuel instance instance' indices :
  plugins_ok mergePlugins → same_but_parsers instance instance' →
  ∀ T w, cfg_inv h0 T (heap_of w) → truthy (config_parser h0 w) = true →
    merge_loop mergePlugins fuel instance' (length h0 + 6) indices w =
    merge_loop mergePlugins fuel instance (length h0 + 6) indices w.
Proof.
  intros Hmp Hsame. unfold merge_loop.
  induction indices as [|i indices IH]; intros T w I Hp; simpl; [done|].
  assert ((match instance' !! i with
           | Some element => mergeElement mergePlugins fuel (length h0 + 6) element
           | None => throw TypeError
           end) w =
          (match instance !! i with
           | Some element => mergeElement mergePlugins fuel (length h0 + 6) element
           | None => throw TypeError
           end) w) as Estep.
  { destruct (instance !! i) as [e|] eqn:Ei.
    - destruct (Forall2_lookup_l _ _ _ _ _ Hsame Ei) as (e' & -> & ->).
      by apply mergeElement_adopted.
    - destruct (instance' !! i) as [e'|] eqn:Ei'; [|done].
      destruct (Forall2_lookup_r _ _ _ _ _ Hsame Ei') as (e & Ei'' & _).
      congruence. }
  unfold bind at 1. symmetry. unfold bind at 1. rewrite Estep.
  destruct (instance !! i) as [e|] eqn:Ei; [|done].
  destruct (mergeElement _ _ _ e w) as [w1 [[]|ex]] eqn:E1; [|done].
  eapply mergeElement_advances in E1 as ((T1 & I1) & _ & P1); eauto.
  symmetry. eapply IH; [exact I1|]. by rewrite P1.
Qed.

(** ** createConfig on its two simple inputs *)

Lemma fresh_config_get (h : heap) p k :
  p < length h → heap_get (fresh_config h) p k = heap_get h p k.
Proof. intros Hp. unfold heap_get. by rewrite fresh_config_extends. Qed.

Lemma fresh_config_parser h :
  heap_get (fresh_config h) (length h + 6) (KName "parser") = VNull.
Proof. unfold heap_get. by rewrite fresh_config_lookup. Qed.

Lemma merge_loop_errored mergePlugins fuel instance i rest element err w :
  instance !! i = Some element → errored (heap_of w) element err →
  merge_loop mergePlugins fuel instance (length (heap_of w) + 6) (i :: rest)
    (with_heap (fresh_config (heap_of w)) w) =
  (with_heap (fresh_config (heap_of w)) w, Raise (Thrown err)).
Proof.
  intros Ei (p & Ep & Hp & Eerr & Ht). unfold merge_loop. simpl.
  unfold bind at 1. rewrite Ei.
  rewrite (mergeElement_errored _ _ _ _ _ err); [done| | | |done]; simpl.
  - by rewrite fresh_config_parser.
  - by rewrite Ep.
  - rewrite Ep. unfold get_prop, read. simpl.
    by rewrite fresh_config_get, Eerr.
Qed.

Lemma lazy_createConfig_nil fuel instance w :
  ConfigArrayLazy.createConfig fuel instance [] w =
    (with_heap (fresh_config (heap_of w)) w, Ret (length (heap_of w) + 6)).
Proof.
  unfold ConfigArrayLazy.createConfig, bind.
  by rewrite new_ExtractedConfig_run.
Qed.

Lemma lazy_createConfig_errored fuel instance i rest element err w :
  instance !! i = Some element → errored (heap_of w) element err →
  ∃ w', ConfigArrayLazy.createConfig fuel instance (i :: rest) w =
          (w', Raise (Thrown err)).
Proof.
  intros Ei Herr. eexists. unfold ConfigArrayLazy.createConfig.
  unfold bind at 1. rewrite new_ExtractedConfig_run.
  unfold bind at 1. by erewrite merge_loop_errored.
Qed.

Section Eager.
Variable require : string → outcome value.
Variable validateConfigArrayElement :
  heap → ConfigArrayElement → (string → value) → (string → value) → option exn.

Lemma eager_createConfig_nil fuel instance w :
  ConfigArray.createConfig require validateConfigArrayElement fuel instance [] w =
    (with_heap (fresh_config (heap_of w)) w, Ret (length (heap_of w) + 6)).
Proof.
  unfold ConfigArray.createConfig, bind.
  by rewrite new_ExtractedConfig_run.
Qed.

Lemma eager_createConfig_errored fuel instance i rest element err w :
  instance !! i = Some element → errored (heap_of w) element err →
  ∃ w', ConfigArray.createConfig require validateConfigArrayElement fuel
          instance (i :: rest) w = (w', Raise (Thrown err)).
Proof.
  intros Ei Herr. eexists. unfold ConfigArray.createConfig.
  unfold bind at 1. rewrite new_ExtractedConfig_run.
  unfold bind at 1. by erewrite merge_loop_errored.
Qed.

End Eager.
End ParserFacts.

(* ===================================================================== *)
(** * The cases of mergeRule *)
(* ===================================================================== *)

Module RuleFacts.
Import JS Eff Merge JSFacts MergeFacts Props.

(** ** Arrays *)

Lemma assoc_imap_index (vs : list value) n i :
  assoc (KIdx (n + i)) (imap (λ j v, (KIdx (n + j), v)) vs) = vs !! i.
Proof.
  revert n i. induction vs as [|v vs IH]; intros n i; simpl; [done|].
  destruct i as [|i].
  - by rewrite Nat.add_0_r, decide_True.
  - rewrite decide_False by (intros [=]; lia).
    change ((v :: vs) !! S i) with (vs !! i).
    rewrite <- (IH (S n) i). f_equal; [f_equal; lia|].
    apply imap_ext. intros j x _. simpl. do 2 f_equal. lia.
Qed.

Lemma array_values_of_list vs : array_values (array_of_list vs) = vs.
Proof.
  unfold array_values, array_of_list, array_length, obj_get; simpl.
  apply list_eq. intros i. rewrite list_lookup_fmap.
  destruct (decide (i < length vs)) as [Hi|Hi].
  - rewrite lookup_seq_lt by done. simpl.
    pose proof (assoc_imap_index vs 0 i) as E. simpl in E. rewrite E.
    apply lookup_lt_is_Some_2 in Hi as [v ->]. done.
  - rewrite lookup_seq_ge by lia. simpl. symmetry. apply lookup_ge_None. lia.
Qed.

Lemma array_values_set_end o v :
  is_array o = true →
  array_values (obj_set (KIdx (array_length o)) v o) = array_values o ++ [v].
Proof.
  unfold is_array, array_values, array_length, obj_get, obj_set.
  destruct o as [[|n] ps]; simpl; [done|]. intros _.
  replace (n `max` S n) with (S n) by lia.
  rewrite seq_S, map_app. simpl. f_equal.
  - apply map_ext_in. intros i Hi. apply in_seq in Hi.
    rewrite assoc_set_ne; [done|]. intros [=]. lia.
  - by rewrite assoc_set_eq.
Qed.

Lemma array_length_set_end o v :
  is_array o = true →
  array_length (obj_set (KIdx (array_length o)) v o) = S (array_length o).
Proof.
  unfold is_array, array_length, obj_set. destruct o as [[|n] ps]; simpl; [done|].
  intros _. lia.
Qed.

Lemma array_values_push vs : ∀ o,
  is_array o = true → array_values (array_push vs o) = array_values o ++ vs.
Proof.
  unfold array_push.
  induction vs as [|v vs IH]; intros o Ha; simpl.
  - by rewrite app_nil_r.
  - rewrite IH by (by rewrite is_array_obj_set).
    rewrite array_values_set_end by done. by rewrite <- app_assoc.
Qed.

Lemma array_values_length o : length (array_values o) = array_length o.
Proof. unfold array_values. by rewrite length_map, length_seq. Qed.

(** ** mergeRule, case by case *)

Section Cases.
Variable w : world.
Variable target s : loc.
Variable key : key.

Let h := heap_of w.
Let targetDef := heap_get h target key.
Let sourceDef := heap_get h s key.

(** Not set yet, and the source is not an array: a singleton array. *)
Lemma mergeRule_wraps :
  targetDef = VUndef → isArray h sourceDef = false →
  mergeRule target s key w =
    (with_heap (heap_set target key (VRef (length h))
                  (h ++ [array_of_list [sourceDef]])) w, Ret tt).
Proof.
  subst targetDef sourceDef h. intros Et Es.
  unfold mergeRule, bind, read, Array_isArray, alloc, write.
  rewrite Et. simpl. by rewrite Es.
Qed.

(** Not set yet, and the source is an array: a copy of it. *)
Lemma mergeRule_clones a src :
  targetDef = VUndef → sourceDef = VRef a → h !! a = Some src →
  is_array src = true →
  mergeRule target s key w =
    (with_heap (heap_set target key (VRef (length h))
                  (h ++ [array_of_list (array_values src)])) w, Ret tt).
Proof.
  subst targetDef sourceDef h. intros Et Es Ea Ha.
  unfold mergeRule, bind, read, Array_isArray, alloc, write, spread.
  rewrite Et, Es. simpl. rewrite Ea, Ha. by rewrite Ea.
Qed.

(** Set to a single element, and the source is an array of two elements or
    more: its elements after the first are appended. *)
Lemma mergeRule_appends t tarr a src :
  targetDef = VRef t → h !! t = Some tarr → is_array tarr = true →
  array_length tarr = 1 →
  sourceDef = VRef a → h !! a = Some src → is_array src = true →
  2 ≤ array_length src →
  mergeRule target s key w =
    (with_heap (alter (array_push (drop 1 (array_values src))) t h) w, Ret tt).
Proof.
  subst targetDef sourceDef h. intros Et Ett Hta Htl Es Ea Ha Hl.
  unfold mergeRule, bind, read, Array_isArray, alloc, write, spread,
    get_prop, push, Array_isArray, read.
  assert (obj_get tarr (KName "length") = VNum 1) as Etl.
  { unfold obj_get. unfold array_length in Htl. unfold is_array in Hta.
    destruct (shape_of tarr); [done|]. rewrite decide_True by done.
    by subst. }
  assert (at_least 2 (obj_get src (KName "length")) = true) as Esl.
  { unfold obj_get. unfold array_length in Hl. unfold is_array in Ha.
    destruct (shape_of src); [done|]. rewrite decide_True by done.
    simpl. apply Z.leb_le. lia. }
  rewrite Et, Es. simpl. unfold heap_get.
  rewrite Ett, Etl. rewrite decide_True by done.
  rewrite Ea, Ha. rewrite Ea, Esl. unfold bind. rewrite Ett, Hta, Ea. done.
Qed.

(** Set, and not in the previous case: nothing changes. *)
Lemma mergeRule_keeps_entry t tarr :
  targetDef = VRef t → h !! t = Some tarr → is_array tarr = true →
  array_length tarr ≠ 1 ∨ isArray h sourceDef = false ∨
  (∃ a src, sourceDef = VRef a ∧ h !! a = Some src ∧ array_length src < 2) →
  mergeRule target s key w = (w, Ret tt).
Proof.
  subst targetDef sourceDef h. intros Et Ett Hta Hcase.
  unfold mergeRule, bind, read, Array_isArray, alloc, write, spread,
    get_prop, push, Array_isArray, read.
  assert (heap_get (heap_of w) t (KName "length") =
            VNum (Z.of_nat (array_length tarr))) as Etl.
  { unfold heap_get. rewrite Ett. unfold obj_get, array_length.
    unfold is_array in Hta. destruct (shape_of tarr); [done|].
    by rewrite decide_True. }
  rewrite Et. simpl. rewrite Etl.
  case_decide as Hlen; [|done].
  destruct (isArray (heap_of w) (heap_get (heap_of w) s key)) eqn:Earr; [|done].
  destruct Hcase as [Hne|[?|(a & src & Es & Ea & Hl)]]; [|done|].
  - exfalso. apply Hne. injection Hlen as Hlen. lia.
  - rewrite Es in *. simpl in Earr. rewrite Ea in Earr.
    unfold heap_get. rewrite Ea.
    assert (at_least 2 (obj_get src (KName "length")) = false) as ->; [|done].
    unfold obj_get. unfold array_length in Hl. unfold is_array in Earr.
    destruct (shape_of src); [done|]. rewrite decide_True by done.
    simpl. apply Z.leb_gt. lia.
Qed.

End Cases.
End RuleFacts.

(* ===================================================================== *)
(** * What a call leaves as it was *)
(* ===================================================================== *)

Module FrameFacts.
Import JS Eff Merge JSFacts MergeFacts Props.

(** ** Values as trees *)

Lemma snapshot_extends h h' :
  wf_heap h → extends h h' →
  ∀ depth v, wf_value h v → snapshot depth h' v = snapshot depth h v.
Proof.
  intros Hwf Hext. induction depth as [|d IH]; intros v Hv;
    destruct v as [| | | | | |l]; simpl; try done.
  specialize (Hv l eq_refl). rewrite Hext by done.
  destruct (h !! l) as [o|] eqn:El; [|done]. f_equal.
  apply map_ext_in. intros [k x] Hin. simpl. f_equal. apply IH.
  intros l' ->. eapply Hwf; [exact El|]. by apply list_elem_of_In.
Qed.

End FrameFacts.

(* ===================================================================== *)
(** * Facts about OverrideTester *)
(* ===================================================================== *)

Module OverrideTesterFacts.
Import JS OverrideTester Props.

Lemma prefix_spec needle haystack :
  String.prefix needle haystack = true ↔ ∃ rest, haystack = needle +:+ rest.
Proof.
  revert haystack. induction needle as [|c needle IH]; intros haystack.
  - split; [|by destruct haystack]. intros _. by exists haystack.
  - destruct haystack as [|c' haystack]; simpl.
    + split; [done|]. by intros [rest [=]].
    + destruct (Ascii.ascii_dec c c') as [->|Hne].
      * rewrite IH. split; intros [rest E]; exists rest.
        -- by rewrite E.
        -- by injection E.
      * split; [done|]. intros [rest [= ? _]]. done.
Qed.

Lemma str_includes_spec needle haystack :
  str_includes needle haystack = true ↔
  ∃ before after, haystack = before +:+ needle +:+ after.
Proof.
  induction haystack as [|c haystack IH].
  - change (str_includes needle "") with (String.prefix needle "" || false).
    rewrite orb_false_r, prefix_spec. split.
    + intros [rest E]. by exists "", rest.
    + intros ([|c before] & after & E); [by exists after|done].
  - change (str_includes needle (String c haystack))
      with (String.prefix needle (String c haystack) || str_includes needle haystack).
    rewrite orb_true_iff, prefix_spec, IH. split.
    + intros [[rest E]|(before & after & E)].
      * by exists "", rest.
      * exists (String c before), after. by rewrite E.
    + intros ([|c' before] & after & E).
      * left. by exists after.
      * right. exists before, after. by injection E.
Qed.

Section Create.
Variable isAbsolute : string → bool.

Lemma rejected_spec pattern :
  rejected isAbsolute pattern = true ↔
  isAbsolute pattern = true ∨
  ∃ before after, pattern = before +:+ ".." +:+ after.
Proof. unfold rejected. by rewrite orb_true_iff, str_includes_spec. Qed.

Lemma create_cases files excludedFiles basePath :
  let includePatterns := normalizePatterns files in
  let excludePatterns := normalizePatterns excludedFiles in
  let allPatterns := includePatterns ++ excludePatterns in
  match create isAbsolute files excludedFiles basePath with
  | Raise e =>
      ∃ pattern, e = NewError (invalid_pattern_message pattern) ∧
                 pattern ∈ allPatterns ∧ rejected isAbsolute pattern = true
  | Ret None => allPatterns = []
  | Ret (Some tester) =>
      allPatterns ≠ [] ∧
      (∀ pattern, pattern ∈ allPatterns → rejected isAbsolute pattern = false) ∧
      tester = Tester [Build_Pattern (toMatcher includePatterns)
                         (toMatcher excludePatterns)] basePath
  end.
Proof.
  intros includePatterns excludePatterns allPatterns. unfold create.
  fold includePatterns excludePatterns allPatterns.
  case_decide as Hlen.
  { by apply nil_length_inv. }
  destruct (find _ allPatterns) as [pattern|] eqn:Efind.
  - apply find_some in Efind as [Hin Hrej].
    exists pattern. by rewrite list_elem_of_In.
  - repeat split.
    + intros E. by rewrite E in Hlen.
    + intros pattern Hin. apply list_elem_of_In in Hin.
      by eapply find_none in Efind.
Qed.

End Create.
End OverrideTesterFacts.

(* ===================================================================== *)
(** * Facts about the dependencies *)
(* ===================================================================== *)

Module DependencyFacts.
Import JS Dependency Props.

Lemma LoadedEntity_toJSON_diagnostic h e :
  LoadedEntity_toJSON h e =
    diagnostic (le_id e) (le_importerPath e) (le_filePath e) (le_error e)
      (member h (le_error e) (KName "stack")).
Proof.
  unfold LoadedEntity_toJSON, diagnostic.
  by destruct (truthy (le_filePath e)), (truthy (le_error e)).
Qed.

Lemma ConfigDependency_toJSON_props d :
  props (ConfigDependency_toJSON d) =
    [ (KName "error", error d); (KName "filePath", filePath d);
      (KName "id", id d); (KName "importerName", importerName d);
      (KName "importerPath", importerPath d) ].
Proof. done. Qed.

End DependencyFacts.

(* ===================================================================== *)
(** * Facts about the loaders *)
(* ===================================================================== *)

Module FactoryFacts.
Import JS Eff Dependency Factory Props.

Lemma returns_ret {A} (a : A) : returns (ret a).
Proof. intros s. by exists s, a. Qed.

Lemma returns_bind {A B} (m : F A) (k : A → F B) :
  returns m → (∀ a, returns (k a)) → returns (bind m k).
Proof.
  intros Hm Hk s. destruct (Hm s) as (s1 & a & E). unfold bind. rewrite E.
  apply Hk.
Qed.

Lemma returns_try_catch {A} (m : F A) (handler : exn → F A) :
  (∀ e, returns (handler e)) → returns (try_catch m handler).
Proof.
  intros Hh s. unfold try_catch. destruct (m s) as [s1 [a|e]]; [eauto|].
  apply Hh.
Qed.

Lemma returns_alloc o : returns (alloc o).
Proof. intros s. by eexists _, _. Qed.

Lemma returns_write l k v : returns (write (VRef l) k v).
Proof. intros s. by eexists _, _. Qed.

Lemma returns_new_Error message : returns (new_Error message).
Proof.
  apply returns_bind; [apply returns_alloc|]. intros l. apply returns_ret.
Qed.

(** [new Error(...)] yields an object. *)
Lemma new_Error_ref message s s' v :
  new_Error message s = (s', Ret v) → ∃ l, v = VRef l.
Proof. unfold new_Error, bind, alloc, ret. intros [= <- <-]. eauto. Qed.

Lemma appends_pure {A} (m : F A) :
  (∀ s s' r, m s = (s', r) → trace s' = trace s) → appends m.
Proof. intros H s s' r E. exists []. rewrite app_nil_r. eauto. Qed.

Lemma appends_bind {A B} (m : F A) (k : A → F B) :
  appends m → (∀ a, appends (k a)) → appends (bind m k).
Proof.
  intros Hm Hk s s' r. unfold bind.
  destruct (m s) as [s1 [a|e]] eqn:E; intros E'.
  - destruct (Hm _ _ _ E) as [l1 E1]. destruct (Hk _ _ _ _ E') as [l2 E2].
    exists (l1 ++ l2). by rewrite E2, E1, app_assoc.
  - injection E' as <- <-. eauto.
Qed.

Lemma appends_try_catch {A} (m : F A) (handler : exn → F A) :
  appends m → (∀ e, appends (handler e)) → appends (try_catch m handler).
Proof.
  intros Hm Hh s s' r. unfold try_catch.
  destruct (m s) as [s1 [a|e]] eqn:E; intros E'.
  - injection E' as <- <-. eauto.
  - destruct (Hm _ _ _ E) as [l1 E1]. destruct (Hh _ _ _ _ E') as [l2 E2].
    exists (l1 ++ l2). by rewrite E2, E1, app_assoc.
Qed.

Lemma appends_ret {A} (a : A) : appends (ret a).
Proof. apply appends_pure. by intros s s' r [= <- <-]. Qed.

Lemma appends_lift {A} (o : outcome A) : appends (lift o).
Proof. apply appends_pure. by intros s s' r [= <- <-]. Qed.

Lemma appends_alloc o : appends (alloc o).
Proof. apply appends_pure. by intros s s' r [= <- <-]. Qed.

Lemma appends_log e : appends (log e).
Proof. intros s s' r [= <- <-]. by exists [e]. Qed.

Lemma appends_new_Error message : appends (new_Error message).
Proof.
  apply appends_bind; [apply appends_alloc|]. intros l. apply appends_ret.
Qed.

Section Loaders.
Variable isAbsolute : string → bool.
Variable join : string → string → string.
Variable resolve : string → string → outcome string.
Variable require : string → outcome value.
Variable normalizePackageName : string → string → string.
Variable getShorthandName : string → string → string.
Variable instanceof_Error : heap → value → bool.
Variable render : heap → value → string.
Variable debug_enabled : bool.

Lemma returns_caught e : returns (caught e).
Proof. destruct e; simpl; auto using returns_ret, returns_new_Error. Qed.

Lemma returns_as_Error error : returns (as_Error instanceof_Error render error).
Proof.
  intros s. unfold as_Error. destruct (instanceof_Error _ _); [by eexists _, _|].
  apply returns_new_Error.
Qed.

Lemma returns_plugin_missing self request error :
  returns (plugin_missing render self request error).
Proof.
  intros s. unfold plugin_missing, bind, member, Dependency.member.
  destruct error as [| | | | | |l]; simpl;
    rewrite ?andb_false_r; try (by eexists _, _).
  destruct (bool_decide _); by eexists _, _.
Qed.

Lemma returns_load_from_disk self request id importerPath importerName :
  returns (load_from_disk join resolve require instanceof_Error render
             debug_enabled self request id importerPath importerName).
Proof.
  unfold load_from_disk. apply returns_try_catch. intros e.
  apply returns_bind; [apply returns_caught|]. intros error.
  apply returns_bind; [apply returns_plugin_missing|]. intros _.
  apply returns_bind; [apply returns_as_Error|]. intros error'.
  apply returns_ret.
Qed.

(** [_loadPlugin] captures every failure: it always returns. *)
Lemma returns_loadPlugin self nameOrPath importerPath importerName :
  returns (_loadPlugin isAbsolute join resolve require normalizePackageName
             getShorthandName instanceof_Error render debug_enabled self
             nameOrPath importerPath importerName).
Proof.
  unfold _loadPlugin. destruct (isFilePath _ _); [apply returns_load_from_disk|].
  destruct (has_whitespace _).
  - intros s. unfold bind, new_Error, alloc, write, ret. simpl.
    by eexists _, _.
  - destruct (truthy _); [apply returns_ret|apply returns_load_from_disk].
Qed.

Lemma load_each_throws self names importerPath importerName :
  Exists (λ name, isFilePath isAbsolute name = true) names →
  ∀ map s, ∃ s',
    load_each isAbsolute join resolve require normalizePackageName
      getShorthandName instanceof_Error render debug_enabled self names
      importerPath importerName map s =
    (s', Raise (NewError "Plugins array cannot includes file paths.")).
Proof.
  induction names as [|name names IH]; intros Hex map s.
  { by apply Exists_nil in Hex. }
  simpl. destruct (isFilePath isAbsolute name) eqn:Ename.
  { by exists s. }
  apply Exists_cons in Hex as [Hex|Hex]; [congruence|].
  destruct (returns_loadPlugin self name importerPath importerName s)
    as (s1 & plugin & E).
  unfold bind. rewrite E. by apply IH.
Qed.

Lemma isFilePath_shapes name :
  String.prefix "./" name = true ∨ String.prefix "../" name = true ∨
  isAbsolute name = true →
  isFilePath isAbsolute name = true.
Proof.
  unfold isFilePath. intros [-> | [-> | ->]];
    rewrite ?orb_true_r, ?orb_true_l; done.
Qed.

(** The additional pool that [_loadParser] consults is the plugin pool. *)
Lemma loadParser_pool_hit self nameOrPath importerPath importerName parser s :
  additionalPluginPool self !! nameOrPath = Some parser →
  truthy parser = true →
  _loadParser join resolve require instanceof_Error render debug_enabled self
    nameOrPath importerPath importerName s =
  (s, Ret {| definition := parser;
             error := VNull;
             filePath := VStr importerPath;
             id := VStr nameOrPath;
             importerName := importerName;
             importerPath := VStr importerPath |}).
Proof.
  intros Hpool Ht. unfold _loadParser, pool_get. rewrite Hpool. simpl.
  by rewrite Ht.
Qed.

Lemma appends_do_require id : appends (do_require require id).
Proof.
  apply appends_bind; [apply appends_log|]. intros _. apply appends_lift.
Qed.

Lemma appends_debug_version name :
  appends (debug_version require debug_enabled name).
Proof.
  unfold debug_version. destruct debug_enabled; [|apply appends_ret].
  apply appends_try_catch; [|intros _; apply appends_ret].
  apply appends_bind; [apply appends_do_require|]. intros _. apply appends_ret.
Qed.

Lemma appends_caught e : appends (caught e).
Proof. destruct e; simpl; auto using appends_ret, appends_new_Error. Qed.

Lemma appends_as_Error error : appends (as_Error instanceof_Error render error).
Proof.
  intros s s' r. unfold as_Error. destruct (instanceof_Error _ _).
  - intros [= <- <-]. exists []. by rewrite app_nil_r.
  - apply appends_new_Error.
Qed.

(** Without an entry of the plugin pool, [_loadParser] goes to the module
    resolver first. *)
Lemma loadParser_pool_miss self nameOrPath importerPath importerName s :
  additionalPluginPool self !! nameOrPath = None →
  importerPath ≠ "" →
  ∃ s' d later,
    _loadParser join resolve require instanceof_Error render debug_enabled self
      nameOrPath importerPath importerName s = (s', Ret d) ∧
    trace s' = trace s ++ Resolve nameOrPath importerPath :: later ∧
    (∀ e, resolve nameOrPath importerPath = Raise e → definition d = VNull).
Proof.
  intros Hpool Hne. unfold _loadParser, pool_get. rewrite Hpool. simpl.
  assert (String.eqb importerPath "" = false) as ->.
  { by apply String.eqb_neq. }
  unfold try_catch, bind at 1, do_resolve, bind at 1, log, lift.
  destruct (resolve nameOrPath importerPath) as [filePath|e] eqn:Er.
  - set (s1 := FState _ _).
    destruct (debug_version require debug_enabled nameOrPath s1)
      as [s2 [[]|e]] eqn:Ed.
    + destruct (appends_debug_version _ _ _ _ Ed) as [l2 E2].
      unfold bind at 1. rewrite Ed.
      destruct (do_require require filePath s2) as [s3 [definition|e]] eqn:Eq.
      * destruct (appends_do_require _ _ _ _ Eq) as [l3 E3].
        unfold bind. rewrite Eq. eexists _, _, (l2 ++ l3).
        split; [done|]. split; [|done].
        rewrite E3, E2. subst s1. simpl. by rewrite <- !app_assoc.
      * destruct (appends_do_require _ _ _ _ Eq) as [l3 E3].
        unfold bind at 1. rewrite Eq.
        destruct (caught e s3) as [s4 [error|e']] eqn:Ec.
        2:{ destruct (returns_caught e s3) as (? & ? & ?). congruence. }
        destruct (appends_caught _ _ _ _ Ec) as [l4 E4].
        unfold bind at 1. rewrite Ec.
        destruct (as_Error instanceof_Error render error s4)
          as [s5 [error'|e']] eqn:Ea.
        2:{ destruct (returns_as_Error error s4) as (? & ? & ?). congruence. }
        destruct (appends_as_Error _ _ _ _ Ea) as [l5 E5].
        unfold bind. rewrite Ea. eexists _, _, (l2 ++ l3 ++ l4 ++ l5).
        split; [done|]. split; [|done].
        rewrite E5, E4, E3, E2. subst s1. simpl. by rewrite <- !app_assoc.
    + exfalso. unfold debug_version in Ed.
      destruct debug_enabled; [|by inversion Ed].
      unfold try_catch in Ed.
      destruct (bind _ _ s1) as [? [?|?]]; by inversion Ed.
  - set (s1 := FState _ _).
    destruct (caught e s1) as [s4 [error|e']] eqn:Ec.
    2:{ destruct (returns_caught e s1) as (? & ? & ?). congruence. }
    destruct (appends_caught _ _ _ _ Ec) as [l4 E4].
    unfold bind at 1. rewrite Ec.
    destruct (as_Error instanceof_Error render error s4)
      as [s5 [error'|e']] eqn:Ea.
    2:{ destruct (returns_as_Error error s4) as (? & ? & ?). congruence. }
    destruct (appends_as_Error _ _ _ _ Ea) as [l5 E5].
    unfold bind. rewrite Ea. eexists _, _, (l4 ++ l5).
    split; [done|]. split; [|done].
    rewrite E5, E4. subst s1. simpl. by rewrite <- !app_assoc.
Qed.

End Loaders.
End FactoryFacts.

(* ===================================================================== *)
(** * The two variants of extractConfig *)
(* ===================================================================== *)

Module VariantFacts.
Import JS Eff Merge JSFacts MergeFacts KeyFacts ExtractFacts ParserFacts
  RuleFacts FrameFacts Props.

Section Variants.
Variable isAbsolute : string → bool.
Variable relative : string → string → string.
Variable minimatch : string → string → bool.
Variable render : heap → value → string.
Variable require : string → outcome value.
Variable validateConfigArrayElement :
  heap → ConfigArrayElement → (string → value) → (string → value) → option exn.
Variable instance : list ConfigArrayElement.

Local Abbreviation matched := (getMatchedIndices relative minimatch instance).
Local Abbreviation eager_create :=
  (λ fuel, ConfigArray.createConfig require validateConfigArrayElement fuel instance).
Local Abbreviation lazy_create :=
  (λ fuel, ConfigArrayLazy.createConfig fuel instance).
Local Abbreviation eager_extractConfig :=
  (ConfigArray.extractConfig isAbsolute relative minimatch render require
     validateConfigArrayElement).
Local Abbreviation lazy_extractConfig :=
  (ConfigArrayLazy.extractConfig relative minimatch).
Local Abbreviation guard := (eager_guard isAbsolute render).
Local Abbreviation eager_calls :=
  (Props.eager_calls isAbsolute relative minimatch render require
     validateConfigArrayElement instance).
Local Abbreviation lazy_calls := (Props.lazy_calls relative minimatch instance).

Lemma eager_extract fuel filePath w :
  eager_extractConfig fuel instance filePath w =
  extract guard matched eager_create fuel filePath w.
Proof.
  unfold ConfigArray.extractConfig, extract, eager_guard.
  by destruct (negb _ || negb _).
Qed.

Lemma lazy_extract fuel filePath w :
  lazy_extractConfig fuel instance filePath w =
  extract (λ _ _, None) matched lazy_create fuel filePath w.
Proof. done. Qed.

Lemma eager_calls_generic w w' :
  eager_calls w w' → calls guard matched eager_create w w'.
Proof.
  induction 1 as [|w1 w2 w3 fuel filePath r _ IH E]; [constructor|].
  rewrite eager_extract in E. by econstructor.
Qed.

Lemma lazy_calls_generic w w' :
  lazy_calls w w' → calls (λ _ _, None) matched lazy_create w w'.
Proof.
  induction 1 as [|w1 w2 w3 fuel filePath r _ IH E]; [constructor|].
  rewrite lazy_extract in E. by econstructor.
Qed.

Lemma eager_sound h0 w :
  eager_calls (initial h0) w → sound eager_create h0 w.
Proof.
  intros H. eapply sound_calls; [..|by apply eager_calls_generic];
    auto using sound_initial.
  intros. by eapply eager_createConfig_spec.
Qed.

Lemma lazy_sound h0 w :
  lazy_calls (initial h0) w → sound lazy_create h0 w.
Proof.
  intros H. eapply sound_calls; [..|by apply lazy_calls_generic];
    auto using sound_initial.
  intros. by eapply lazy_createConfig_spec.
Qed.

Lemma guard_absolute h p : isAbsolute p = true → guard h (VStr p) = None.
Proof. unfold eager_guard. simpl. by intros ->. Qed.

Lemma eager_extends fuel filePath w w' r :
  eager_extractConfig fuel instance filePath w = (w', r) →
  extends (heap_of w) (heap_of w').
Proof.
  rewrite eager_extract. apply extract_extends.
  intros. by eapply eager_createConfig_spec.
Qed.

Lemma lazy_extends fuel filePath w w' r :
  lazy_extractConfig fuel instance filePath w = (w', r) →
  extends (heap_of w) (heap_of w').
Proof.
  rewrite lazy_extract. apply extract_extends.
  intros. by eapply lazy_createConfig_spec.
Qed.

(** The variant that checks its argument rejects what is not an absolute
    path, and leaves the world as it is. *)
Lemma eager_extractConfig_rejects fuel filePath w :
  is_string filePath = false ∨
  (∃ p, filePath = VStr p ∧ isAbsolute p = false) →
  eager_extractConfig fuel instance filePath w =
    (w, Raise (NewError ("'filePath' should be an absolute path, but got " +:+
                           to_string render (heap_of w) filePath +:+ "."))).
Proof.
  intros H. unfold ConfigArray.extractConfig.
  destruct H as [->|(p & -> & Hp)]; simpl; [done|]. by rewrite Hp.
Qed.

End Variants.
End VariantFacts.

(* ===================================================================== *)
(** * The properties of the resolver *)
(* ===================================================================== *)

Module ConfigArrayTheorems.
Import JS Eff Merge JSFacts MergeFacts KeyFacts ExtractFacts ParserFacts
  RuleFacts FrameFacts VariantFacts Props.

Lemma merge_loop_after_adoption mergePlugins fuel instance instance' pre rest w w1 :
  plugins_ok mergePlugins → same_but_parsers instance instance' →
  merge_loop mergePlugins fuel instance (length (heap_of w) + 6) pre
    (with_heap (fresh_config (heap_of w)) w) = (w1, Ret tt) →
  truthy (heap_get (heap_of w1) (length (heap_of w) + 6) (KName "parser")) = true →
  merge_loop mergePlugins fuel instance' (length (heap_of w) + 6) rest w1 =
  merge_loop mergePlugins fuel instance (length (heap_of w) + 6) rest w1.
Proof.
  intros Hmp Hsame Epre Hp.
  eapply (merge_loop_advances _ (heap_of w)) in Epre as ((T1 & I1) & _ & _);
    [|done|apply fresh_config_inv].
  by eapply merge_loop_adopted.
Qed.

(** C1.  In the merge loop of createConfig, an element whose parser failed
    to load makes the extraction throw the captured error when no parser
    has been adopted yet; once the merge of the elements of higher
    precedence has adopted a parser, the rest of the merge is the same
    whatever the parsers of the remaining elements are, so a parser that
    failed to load there is ignored (both variants of mergePlugins); and
    when the first matched element of an array has a parser that failed to
    load, extractConfig throws that error for every absolute path with
    these matched indices, at any time (both variants). *)
Theorem errored_parser_decides :
  (∀ mergePlugins fuel config element w err,
     truthy (heap_get (heap_of w) config (KName "parser")) = false →
     truthy (parser element) = true →
     get_prop (parser element) (KName "error") w = (w, Ret err) →
     truthy err = true →
     mergeElement mergePlugins fuel config element w = (w, Raise (Thrown err)))
  ∧
  (∀ require fuel instance instance' pre rest w w1,
     same_but_parsers instance instance' →
     merge_loop (ConfigArray.mergePlugins require fuel) fuel instance
       (length (heap_of w) + 6) pre (with_heap (fresh_config (heap_of w)) w)
       = (w1, Ret tt) →
     truthy (heap_get (heap_of w1) (length (heap_of w) + 6) (KName "parser"))
       = true →
     merge_loop (ConfigArray.mergePlugins require fuel) fuel instance'
       (length (heap_of w) + 6) rest w1 =
     merge_loop (ConfigArray.mergePlugins require fuel) fuel instance
       (length (heap_of w) + 6) rest w1)
  ∧
  (∀ fuel instance instance' pre rest w w1,
     same_but_parsers instance instance' →
     merge_loop ConfigArrayLazy.mergePlugins fuel instance
       (length (heap_of w) + 6) pre (with_heap (fresh_config (heap_of w)) w)
       = (w1, Ret tt) →
     truthy (heap_get (heap_of w1) (length (heap_of w) + 6) (KName "parser"))
       = true →
     merge_loop ConfigArrayLazy.mergePlugins fuel instance'
       (length (heap_of w) + 6) rest w1 =
     merge_loop ConfigArrayLazy.mergePlugins fuel instance
       (length (heap_of w) + 6) rest w1)
  ∧
  (∀ isAbsolute relative minimatch render require validateConfigArrayElement
     instance h0 w fuel p i rest element err,
     eager_calls isAbsolute relative minimatch render require
       validateConfigArrayElement instance (initial h0) w →
     isAbsolute p = true →
     getMatchedIndices relative minimatch instance (VStr p) = Ret (i :: rest) →
     instance !! i = Some element → errored h0 element err →
     ∃ w', ConfigArray.extractConfig isAbsolute relative minimatch render
             require validateConfigArrayElement fuel instance (VStr p) w
           = (w', Raise (Thrown err)) ∧
           cache w' = cache w)
  ∧
  (∀ relative minimatch instance h0 w fuel p i rest element err,
     lazy_calls relative minimatch instance (initial h0) w →
     getMatchedIndices relative minimatch instance (VStr p) = Ret (i :: rest) →
     instance !! i = Some element → errored h0 element err →
     ∃ w', ConfigArrayLazy.extractConfig relative minimatch fuel instance
             (VStr p) w = (w', Raise (Thrown err)) ∧
           cache w' = cache w).
Proof.
  split; [|split; [|split; [|split]]].
  - intros. by apply mergeElement_errored.
  - intros require fuel instance instance' pre rest w w1 Hsame Epre Hp.
    by apply (merge_loop_after_adoption _ _ _ _ pre rest w w1
                (eager_mergePlugins_ok require fuel) Hsame).
  - intros fuel instance instance' pre rest w w1 Hsame Epre Hp.
    by apply (merge_loop_after_adoption _ _ _ _ pre rest w w1
                lazy_mergePlugins_ok Hsame).
  - intros isAbsolute relative minimatch render require validate instance
      h0 w fuel p i rest element err Hcalls Hp Em Ei Herr.
    destruct (extract_errored instance (eager_guard isAbsolute render)
                (getMatchedIndices relative minimatch instance)
                (λ fuel, ConfigArray.createConfig require validate fuel instance)
                (λ f ix w0 w1 r, eager_createConfig_spec require validate f instance ix w0 w1 r)
                (λ f j rs el er w0, eager_createConfig_errored require validate f instance j rs el er w0)
                h0 fuel (VStr p) w i rest element err
                (eager_sound _ _ _ _ _ _ _ _ _ Hcalls)
                (guard_absolute _ _ _ _ Hp) Em Ei Herr) as (w' & E & C).
    exists w'. by rewrite eager_extract.
  - intros relative minimatch instance h0 w fuel p i rest element err
      Hcalls Em Ei Herr.
    destruct (extract_errored instance (λ _ _, None)
                (getMatchedIndices relative minimatch instance)
                (λ fuel, ConfigArrayLazy.createConfig fuel instance)
                (λ f ix w0 w1 r, lazy_createConfig_spec f instance ix w0 w1 r)
                (λ f j rs el er w0, lazy_createConfig_errored f instance j rs el er w0)
                h0 fuel (VStr p) w i rest element err
                (lazy_sound _ _ _ _ _ Hcalls)
                eq_refl Em Ei Herr) as (w' & E & C).
    exists w'. by rewrite lazy_extract.
Qed.

Lemma errored_parser_decides_witness :
  let run :=
    ConfigArray.extractConfig OverrideTester.posix_isAbsolute
      Scenarios.relative Scenarios.minimatch Scenarios.render
      Scenarios.require Scenarios.valid in
  eager_calls OverrideTester.posix_isAbsolute Scenarios.relative
    Scenarios.minimatch Scenarios.render Scenarios.require Scenarios.valid
    Scenarios.broken (initial Scenarios.parsers_heap)
    (initial Scenarios.parsers_heap) ∧
  OverrideTester.posix_isAbsolute "/project/a.js" = true ∧
  getMatchedIndices Scenarios.relative Scenarios.minimatch Scenarios.broken
    (VStr "/project/a.js") = Ret [0] ∧
  Scenarios.broken !! 0 = Some (Scenarios.with_parser (VRef 1)) ∧
  errored Scenarios.parsers_heap (Scenarios.with_parser (VRef 1)) (VRef 0) ∧
  ∃ w', run 0 Scenarios.broken (VStr "/project/a.js")
          (initial Scenarios.parsers_heap) = (w', Raise (Thrown (VRef 0))) ∧
        cache w' = cache (initial Scenarios.parsers_heap).
Proof.
  assert (errored Scenarios.parsers_heap (Scenarios.with_parser (VRef 1)) (VRef 0))
    as Herr.
  { exists 1. split; [done|]. split; [simpl; lia|]. by split. }
  split; [constructor|]. split; [done|]. split; [done|]. split; [done|].
  split; [exact Herr|].
  destruct errored_parser_decides as (_ & _ & _ & H & _).
  apply (H _ _ _ _ _ _ Scenarios.broken Scenarios.parsers_heap _ 0
           "/project/a.js" 0 [] (Scenarios.with_parser (VRef 1)) (VRef 0));
    [constructor|reflexivity|reflexivity|reflexivity|exact Herr].
Defined.

(** The parser of the last element is adopted first; the parser of the
    first element, which failed to load, is then ignored. *)
Example errored_parser_after_adoption :
  let run :=
    ConfigArray.extractConfig OverrideTester.posix_isAbsolute
      Scenarios.relative Scenarios.minimatch Scenarios.render
      Scenarios.require Scenarios.valid 10 Scenarios.overridden
      (VStr "/project/a.js") (initial Scenarios.parsers_heap) in
  snd run = Ret (VRef 9) ∧
  heap_get (heap_of (fst run)) 9 (KName "parser") = VRef 2.
Proof. by vm_compute. Qed.



(** C3.  After a call of extractConfig has returned a config, every later
    call with an absolute path that has the same matched indices returns
    the same reference from the cache, whatever calls were made in
    between; the world does not change, the entry of the cache is the one
    under the joined indices, and the object is as it was. *)
Theorem extractConfig_returns_cached :
  ∀ isAbsolute relative minimatch render require validateConfigArrayElement
    instance h0 w fuel filePath w1 v indices w2 fuel' p,
    eager_calls isAbsolute relative minimatch render require
      validateConfigArrayElement instance (initial h0) w →
    ConfigArray.extractConfig isAbsolute relative minimatch render require
      validateConfigArrayElement fuel instance filePath w = (w1, Ret v) →
    getMatchedIndices relative minimatch instance filePath = Ret indices →
    eager_calls isAbsolute relative minimatch render require
      validateConfigArrayElement instance w1 w2 →
    isAbsolute p = true →
    getMatchedIndices relative minimatch instance (VStr p) = Ret indices →
    ConfigArray.extractConfig isAbsolute relative minimatch render require
      validateConfigArrayElement fuel' instance (VStr p) w2 = (w2, Ret v) ∧
    cache w2 !! cache_key indices = Some v ∧
    ∃ c, v = VRef c ∧ c < length (heap_of w1) ∧
         heap_of w2 !! c = heap_of w1 !! c.
Proof.
  intros isAbsolute relative minimatch render require validate instance
    h0 w fuel filePath w1 v indices w2 fuel' p Hreach E Em Hcalls Hp Em'.
  pose proof (λ f ix w0 w1 r,
                eager_createConfig_spec require validate f instance ix w0 w1 r)
    as Hspec.
  pose proof (eager_sound _ _ _ _ _ _ _ _ _ Hreach) as Hsound.
  rewrite eager_extract in E.
  pose proof (sound_extract _ _ _ Hspec _ _ _ _ _ _ Hsound E) as [_ Hc1].
  apply eager_calls_generic in Hcalls.
  pose proof (extract_again _ _ _ Hspec _ _ _ _ _ _ _ fuel' (VStr p)
                E Em Hcalls Em' (guard_absolute _ _ _ _ Hp)) as E2.
  assert (cache w1 !! cache_key indices = Some v) as Ec.
  { apply extract_run in E.
    inversion E as [| |indices0 v0 _ Em0 Ec0| |indices0 w0 c _ Em0 _ _];
      simplify_eq; rewrite Em in Em0; injection Em0 as <-; [done|].
    simpl. apply lookup_insert_eq. }
  split; [by rewrite eager_extract|].
  split; [exact (calls_cache_mono _ _ _ Hspec _ _ _ _ Hcalls Ec)|].
  destruct (Hc1 _ _ Ec) as (ix & c & f & w0 & w1' & _ & -> & _ & Ecr & Hext).
  exists c. split; [done|].
  apply Hspec in Ecr as (_ & _ & Hcfg).
  destruct (Hcfg c eq_refl) as (-> & T & I).
  pose proof (cfg_inv_length _ _ _ I) as Hlen.
  pose proof (extends_length _ _ Hext) as Hlen'.
  split; [lia|].
  apply (calls_extends _ _ _ Hspec) in Hcalls. apply Hcalls. lia.
Qed.

Lemma extractConfig_returns_cached_witness :
  let extract :=
    ConfigArray.extractConfig OverrideTester.posix_isAbsolute
      Scenarios.relative Scenarios.minimatch Scenarios.render
      Scenarios.require Scenarios.valid in
  let first := extract 10 Scenarios.backfill (VStr "/project/a.js")
                 (initial Scenarios.backfill_heap) in
  snd first = Ret (VRef 9) ∧
  getMatchedIndices Scenarios.relative Scenarios.minimatch Scenarios.backfill
    (VStr "/project/a.js") = Ret [1; 0] ∧
  OverrideTester.posix_isAbsolute "/project/lib/b.js" = true ∧
  getMatchedIndices Scenarios.relative Scenarios.minimatch Scenarios.backfill
    (VStr "/project/lib/b.js") = Ret [1; 0] ∧
  extract 0 Scenarios.backfill (VStr "/project/lib/b.js") (fst first) =
    (fst first, Ret (VRef 9)) ∧
  cache (fst first) !! cache_key [1; 0] = Some (VRef 9).
Proof.
  intros extract first.
  split; [by vm_compute|]. split; [done|]. split; [done|]. split; [done|].
  assert (extract 10 Scenarios.backfill (VStr "/project/a.js")
            (initial Scenarios.backfill_heap) = (fst first, Ret (VRef 9))) as E.
  { subst first extract. by vm_compute. }
  destruct (extractConfig_returns_cached _ _ _ _ _ _ Scenarios.backfill
              Scenarios.backfill_heap _ _ _ _ _ [1; 0] (fst first) 0
              "/project/lib/b.js"
              (eager_none _ _ _ _ _ _ _ _) E eq_refl
              (eager_none _ _ _ _ _ _ _ _) eq_refl eq_refl) as (H1 & H2 & _).
  by split.
Defined.

(** C7.  extractConfig does not change any object that was on the heap
    before the call; so, in a heap without dangling references, the env,
    globals, parserOptions, settings and rules of every element look the
    same after the call as before, to any depth. *)
Theorem extractConfig_leaves_elements :
  ∀ isAbsolute relative minimatch render require validateConfigArrayElement
    instance fuel filePath w w' r,
    ConfigArray.extractConfig isAbsolute relative minimatch render require
      validateConfigArrayElement fuel instance filePath w = (w', r) →
    extends (heap_of w) (heap_of w') ∧
    (wf_heap (heap_of w) →
     ∀ element depth,
       element ∈ instance → wf_element (heap_of w) element →
       same_element depth (heap_of w) (heap_of w') element).
Proof.
  intros isAbsolute relative minimatch render require validate instance
    fuel filePath w w' r E.
  apply eager_extends in E. split; [done|].
  intros Hwf element depth _ (H1 & H2 & H3 & H4 & H5).
  repeat split; by apply snapshot_extends.
Qed.

Lemma extractConfig_leaves_elements_witness :
  let run :=
    ConfigArray.extractConfig OverrideTester.posix_isAbsolute
      Scenarios.relative Scenarios.minimatch Scenarios.render
      Scenarios.require Scenarios.valid 10 Scenarios.features
      (VStr "/project/a.js") (initial Scenarios.features_heap) in
  snd run = Ret (VRef 10) ∧
  snapshot 5 (heap_of (fst run)) (VRef 10) =
    TObject Plain
      [ (KName "env", TObject Plain []);
        (KName "globals", TObject Plain []);
        (KName "parser", TNull);
        (KName "parserOptions",
          TObject Plain
            [(KName "ecmaFeatures",
               TObject Plain [ (KName "globalReturn", TBool true);
                               (KName "jsx", TBool true) ])]);
        (KName "plugins", TObject Plain []);
        (KName "processor", TNull);
        (KName "rules", TObject Plain []);
        (KName "settings", TObject Plain []) ] ∧
  extends Scenarios.features_heap (heap_of (fst run)) ∧
  Forall (same_element 5 Scenarios.features_heap (heap_of (fst run)))
    Scenarios.features.
Proof.
  intros run. split; [by vm_compute|]. split; [by vm_compute|].
  assert (wf_heap Scenarios.features_heap) as Hwf.
  { intros l o k l' E Hin.
    do 4 (destruct l as [|l]; [simpl in E; simplify_eq; simpl in Hin;
      repeat (apply elem_of_cons in Hin as [Hin|Hin]; [simplify_eq; simpl; lia|]);
      by apply elem_of_nil in Hin|]).
    done. }
  destruct (extractConfig_leaves_elements OverrideTester.posix_isAbsolute
              Scenarios.relative Scenarios.minimatch Scenarios.render
              Scenarios.require Scenarios.valid Scenarios.features 10
              (VStr "/project/a.js") (initial Scenarios.features_heap)
              (fst run) (snd run)) as [Hext Hsame].
  { subst run. by destruct (ConfigArray.extractConfig _ _ _ _ _ _ _ _ _ _). }
  split; [done|].
  apply Forall_forall. intros element Hin. apply Hsame; [done|done|].
  repeat (apply elem_of_cons in Hin as [->|Hin];
          [repeat split; intros l [= <-]; simpl; lia|]).
  by apply elem_of_nil in Hin.
Defined.

(** C9.  When no element matches, and in particular for the empty array,
    extractConfig of an absolute path returns a config whose env, globals,
    parserOptions, plugins, rules and settings are empty records and whose
    parser and processor are null, at any time and whatever the elements
    hold. *)
Theorem extractConfig_without_match :
  (∀ relative minimatch filePath,
     getMatchedIndices relative minimatch [] filePath = Ret [])
  ∧
  (∀ isAbsolute relative minimatch render require validateConfigArrayElement
     instance h0 w fuel p,
     eager_calls isAbsolute relative minimatch render require
       validateConfigArrayElement instance (initial h0) w →
     isAbsolute p = true →
     getMatchedIndices relative minimatch instance (VStr p) = Ret [] →
     ∃ w' c,
       ConfigArray.extractConfig isAbsolute relative minimatch render require
         validateConfigArrayElement fuel instance (VStr p) w
       = (w', Ret (VRef c)) ∧
       empty_config (heap_of w') c).
Proof.
  split; [done|].
  intros isAbsolute relative minimatch render require validate instance
    h0 w fuel p Hreach Hp Em.
  destruct (extract_unmatched (eager_guard isAbsolute render)
              (getMatchedIndices relative minimatch instance)
              (λ fuel, ConfigArray.createConfig require validate fuel instance)
              (λ f w0, eager_createConfig_nil require validate f instance w0)
              h0 fuel (VStr p) w
              (eager_sound _ _ _ _ _ _ _ _ _ Hreach)
              (guard_absolute _ _ _ _ Hp) Em) as (w' & c & E & Hempty).
  exists w', c. by rewrite eager_extract.
Qed.

Lemma extractConfig_without_match_witness :
  let run :=
    ConfigArray.extractConfig OverrideTester.posix_isAbsolute
      Scenarios.relative Scenarios.minimatch Scenarios.render
      Scenarios.require Scenarios.valid in
  OverrideTester.posix_isAbsolute "/project/a.js" = true ∧
  getMatchedIndices Scenarios.relative Scenarios.minimatch Scenarios.unmatched
    (VStr "/project/a.js") = Ret [] ∧
  ∃ w' c, run 0 Scenarios.unmatched (VStr "/project/a.js")
            (initial Scenarios.parsers_heap) = (w', Ret (VRef c)) ∧
          empty_config (heap_of w') c.
Proof.
  intros run. split; [done|]. split; [done|].
  destruct extractConfig_without_match as [_ H].
  apply (H _ _ _ _ _ _ Scenarios.unmatched Scenarios.parsers_heap
           (initial Scenarios.parsers_heap) 0 "/project/a.js");
    [constructor|done|done].
Defined.

(** C4, in the variant without the check: on the empty array, a call with
    the number 100 returns a config and stores it in the cache under the
    empty key. *)
Theorem lazy_extractConfig_accepts_a_number :
  ∀ relative minimatch fuel h,
    ConfigArrayLazy.extractConfig relative minimatch fuel [] (VNum 100)
      (initial h) =
    (with_cache {[ "" := VRef (length h + 6) ]}
       (with_heap (fresh_config h) (initial h)),
     Ret (VRef (length h + 6))).
Proof.
  intros relative minimatch fuel h.
  unfold ConfigArrayLazy.extractConfig, bind, lift.
  change (getMatchedIndices relative minimatch [] (VNum 100)) with
    (Ret (@nil nat) : outcome (list nat)).
  cbv beta iota zeta.
  change (cache_has (cache_key []) (initial h)) with (initial h, Ret false).
  cbv beta iota zeta.
  rewrite lazy_createConfig_nil.
  unfold cache_set, cache_get, ret. simpl. by rewrite lookup_insert_eq.
Qed.

End ConfigArrayTheorems.

(* ===================================================================== *)
(** * The properties of the testers, the dependencies and the loaders *)
(* ===================================================================== *)

Module OverrideTesterTheorems.
Import JS OverrideTester Props OverrideTesterFacts.

Lemma app_assoc_string (a b c : string) : (a +:+ b) +:+ c = a +:+ (b +:+ c).
Proof.
  induction a as [|x a IH]; [done|].
  change (String x ((a +:+ b) +:+ c) = String x (a +:+ (b +:+ c))).
  by rewrite IH.
Qed.

(** A pattern with a [..] segment contains the two dots. *)
Lemma segments_go_dotdot cur s :
  ".." ∈ segments_go cur s → ∃ before after, cur +:+ s = before +:+ ".." +:+ after.
Proof.
  revert cur. induction s as [|c rest IH]; intros cur; cbn [segments_go].
  - intros ->%list_elem_of_singleton. by exists "", "".
  - destruct (String.eqb (String c "") "/").
    + intros [<-|Hin]%elem_of_cons.
      * by exists "", (String c rest).
      * destruct (IH _ Hin) as (before & after & E).
        exists (cur +:+ String c before), after.
        change ("" +:+ rest) with rest in E.
        rewrite E, app_assoc_string. done.
    + intros Hin. destruct (IH _ Hin) as (before & after & E).
      exists before, after. rewrite <- E, app_assoc_string. done.
Qed.

Lemma has_dotdot_segment_includes pattern :
  has_dotdot_segment pattern = true → str_includes ".." pattern = true.
Proof.
  intros H%bool_decide_eq_true. apply str_includes_spec.
  by apply (segments_go_dotdot "").
Qed.




End OverrideTesterTheorems.

Module DependencyTheorems.
Import JS Dependency Props DependencyFacts.

(** C8, as the code has it.  toJSON of LoadedEntity emits id and
    importerPath, filePath when it is truthy and, under the key error, the
    stack of the error when the error is truthy.  toJSON of
    ConfigDependency emits error, filePath, id, importerName and
    importerPath as they are, present or not.  Neither emits definition. *)
Theorem toJSON_omits_definition :
  (∀ h e,
     LoadedEntity_toJSON h e =
       diagnostic (le_id e) (le_importerPath e) (le_filePath e) (le_error e)
         (member h (le_error e) (KName "stack")))
  ∧
  (∀ d,
     ConfigDependency_toJSON d =
       Object Plain
         [ (KName "error", error d); (KName "filePath", filePath d);
           (KName "id", id d); (KName "importerName", importerName d);
           (KName "importerPath", importerPath d) ])
  ∧
  (∀ h e, ¬ has_key "definition" (LoadedEntity_toJSON h e))
  ∧
  (∀ d, ¬ has_key "definition" (ConfigDependency_toJSON d)).
Proof.
  split; [|split; [|split]].
  - apply LoadedEntity_toJSON_diagnostic.
  - done.
  - intros h e. rewrite LoadedEntity_toJSON_diagnostic.
    unfold has_key, diagnostic. simpl.
    destruct (truthy (le_filePath e)), (truthy (le_error e)); simpl;
      intros H;
      repeat (apply elem_of_cons in H as [H|H]; [discriminate H|]);
      by apply elem_of_nil in H.
  - intros d. unfold has_key. rewrite ConfigDependency_toJSON_props. simpl.
    intros H.
    repeat (apply elem_of_cons in H as [H|H]; [discriminate H|]).
    by apply elem_of_nil in H.
Qed.

(** C8, as it is worded, fails for ConfigDependency: a parser that was
    loaded from the pool has no error, and its toJSON has the keys error
    and importerName. *)
Lemma ConfigDependency_toJSON_is_not_diagnostic :
  let d := {| definition := VRef 0; error := VNull;
              filePath := VStr "/project/.eslintrc"; id := VStr "my-parser";
              importerName := VStr ".eslintrc";
              importerPath := VStr "/project/.eslintrc" |} in
  ConfigDependency_toJSON d =
    Object Plain
      [ (KName "error", VNull); (KName "filePath", VStr "/project/.eslintrc");
        (KName "id", VStr "my-parser"); (KName "importerName", VStr ".eslintrc");
        (KName "importerPath", VStr "/project/.eslintrc") ] ∧
  ¬ ∃ stack,
      ConfigDependency_toJSON d =
        diagnostic (id d) (importerPath d) (filePath d) (error d) stack.
Proof.
  split; [done|]. intros [stack E]. discriminate E.
Qed.

End DependencyTheorems.

Module FactoryTheorems.
Import JS Eff Dependency Factory Props FactoryFacts.

(** C5, on the code: a parser that is in the parser pool only is looked for
    by the resolver; with a resolver that finds nothing, the dependency
    that _loadParser returns has no definition and carries the error. *)
Theorem loadParser_skips_parser_pool :
  ∀ join require render debug_enabled,
    additionalParserPool Scenarios.my_parser !! "my-parser" = Some (VRef 0) ∧
    _loadParser join Scenarios.not_found require (λ _ _, true) render
      debug_enabled Scenarios.my_parser "my-parser" "/project/.eslintrc"
      (VStr ".eslintrc") Scenarios.loader_state =
    (FState (heap_of Scenarios.loader_state)
       [Resolve "my-parser" "/project/.eslintrc"],
     Ret {| definition := VNull;
            error := VRef 1;
            filePath := VNull;
            id := VStr "my-parser";
            importerName := VStr ".eslintrc";
            importerPath := VStr "/project/.eslintrc" |}).
Proof. intros. split; done. Qed.

(** A plugin that cannot be resolved is returned, with the error. *)
Lemma load_from_disk_captures join resolve require instanceof_Error render
  debug_enabled self request id importerPath importerName e s :
  resolve request (join (cwd self) "a.js") = Raise e →
  ∃ s' error,
    load_from_disk join resolve require instanceof_Error render debug_enabled
      self request id importerPath importerName s =
    (s', Ret (Instance {| definition := VNull;
                          error := error;
                          filePath := VNull;
                          id := VStr id;
                          importerName := importerName;
                          importerPath := VStr importerPath |})).
Proof.
  intros E. unfold load_from_disk, try_catch.
  unfold bind at 1. unfold do_resolve, bind at 1. unfold log, lift.
  rewrite E.
  set (s1 := FState _ _).
  destruct (returns_caught e s1) as (s2 & error & E1).
  destruct (returns_plugin_missing render self request error s2)
    as (s3 & [] & E2).
  destruct (returns_as_Error instanceof_Error render error s3)
    as (s4 & error' & E3).
  exists s4, error'. unfold bind. by rewrite E1, E2, E3.
Qed.

(** C10.  When a name of the list is shaped as a file path, _loadPlugins
    throws the error of the file paths; when it is the first name, nothing
    has been done before.  A failure to load a plugin is not thrown:
    _loadPlugin always returns, and for a plugin that the resolver does not
    find it returns a dependency that carries the error. *)
Theorem loadPlugins_rejects_file_paths :
  ∀ isAbsolute join resolve require normalizePackageName getShorthandName
    instanceof_Error render debug_enabled self importerPath importerName,
    let shaped name :=
      String.prefix "./" name = true ∨ String.prefix "../" name = true ∨
      isAbsolute name = true in
    (∀ names s,
       Exists shaped names →
       ∃ s',
         _loadPlugins isAbsolute join resolve require normalizePackageName
           getShorthandName instanceof_Error render debug_enabled self names
           importerPath importerName s =
         (s', Raise (NewError "Plugins array cannot includes file paths.")))
    ∧
    (∀ name rest s,
       shaped name →
       _loadPlugins isAbsolute join resolve require normalizePackageName
         getShorthandName instanceof_Error render debug_enabled self
         (name :: rest) importerPath importerName s =
       (s, Raise (NewError "Plugins array cannot includes file paths.")))
    ∧
    (∀ name s, ∃ s' plugin,
       _loadPlugin isAbsolute join resolve require normalizePackageName
         getShorthandName instanceof_Error render debug_enabled self name
         importerPath importerName s = (s', Ret plugin))
    ∧
    (∀ name s e,
       let request := normalizePackageName name "eslint-plugin" in
       let id := getShorthandName request "eslint-plugin" in
       isFilePath isAbsolute name = false → has_whitespace name = false →
       additionalPluginPool self !! request = None →
       additionalPluginPool self !! id = None →
       resolve request (join (cwd self) "a.js") = Raise e →
       ∃ s' error,
         _loadPlugin isAbsolute join resolve require normalizePackageName
           getShorthandName instanceof_Error render debug_enabled self name
           importerPath importerName s =
         (s', Ret (Instance {| definition := VNull;
                               error := error;
                               filePath := VNull;
                               id := VStr id;
                               importerName := importerName;
                               importerPath := VStr importerPath |}))).
Proof.
  intros isAbsolute join resolve require normalizePackageName getShorthandName
    instanceof_Error render debug_enabled self importerPath importerName shaped.
  split; [|split; [|split]].
  - intros names s Hex. unfold _loadPlugins.
    apply load_each_throws.
    eapply Exists_impl; [exact Hex|]. intros name. apply isFilePath_shapes.
  - intros name rest s Hname. unfold _loadPlugins. simpl.
    by rewrite (isFilePath_shapes isAbsolute name Hname).
  - intros name s. apply returns_loadPlugin.
  - intros name s e request id Hname Hspace Hrequest Hid E.
    unfold _loadPlugin. rewrite Hname, Hspace.
    fold request. fold id. unfold pool_get. rewrite Hrequest, Hid. simpl.
    by apply (load_from_disk_captures _ _ _ _ _ _ _ _ _ _ _ e).
Qed.

Lemma loadPlugins_rejects_file_paths_witness :
  let run :=
    _loadPlugins OverrideTester.posix_isAbsolute (λ a b, a +:+ "/" +:+ b)
      Scenarios.not_found Scenarios.require (λ n _, n) (λ n _, n)
      (λ _ _, true) Scenarios.render false Scenarios.my_parser in
  (∃ s', run ["foo"; "./bar"] "/project/.eslintrc" (VStr ".eslintrc")
           Scenarios.loader_state =
         (s', Raise (NewError "Plugins array cannot includes file paths."))) ∧
  run ["/project/bar"; "foo"] "/project/.eslintrc" (VStr ".eslintrc")
    Scenarios.loader_state =
  (Scenarios.loader_state,
   Raise (NewError "Plugins array cannot includes file paths.")) ∧
  (∃ s' error,
     _loadPlugin OverrideTester.posix_isAbsolute (λ a b, a +:+ "/" +:+ b)
       Scenarios.not_found Scenarios.require (λ n _, n) (λ n _, n)
       (λ _ _, true) Scenarios.render false Scenarios.my_parser "foo"
       "/project/.eslintrc" (VStr ".eslintrc") Scenarios.loader_state =
     (s', Ret (Instance {| definition := VNull;
                           error := error;
                           filePath := VNull;
                           id := VStr "foo";
                           importerName := VStr ".eslintrc";
                           importerPath := VStr "/project/.eslintrc" |}))).
Proof.
  intros run.
  destruct (loadPlugins_rejects_file_paths OverrideTester.posix_isAbsolute
              (λ a b, a +:+ "/" +:+ b) Scenarios.not_found Scenarios.require
              (λ n _, n) (λ n _, n) (λ _ _, true) Scenarios.render false
              Scenarios.my_parser "/project/.eslintrc" (VStr ".eslintrc"))
    as (H1 & H2 & _ & H3).
  split; [|split].
  - apply H1. apply Exists_cons_tl, Exists_cons_hd. by left.
  - apply H2. right. by right.
  - by apply (H3 "foo" Scenarios.loader_state (Thrown (VRef 1))).
Defined.

End FactoryTheorems.

(* ===================================================================== *)
(** * More about the testers *)
(* ===================================================================== *)

Module OverrideTesterProperties.
Import JS OverrideTester Props OverrideTesterFacts.

Section Testers.
Variable isAbsolute : string → bool.
Variable relative : string → string → string.
Variable minimatch : string → string → bool.

Lemma toMatcher_patterns ps :
  option_map (map pattern) (toMatcher ps) = or_null ps.
Proof.
  destruct ps as [|p ps]; [done|]. simpl. f_equal. f_equal.
  induction ps as [|q ps IH]; [done|]. simpl. by f_equal.
Qed.

Lemma created_tester files excludedFiles basePath tester :
  create isAbsolute files excludedFiles basePath = Ret (Some tester) →
  tester = Tester [Build_Pattern (toMatcher (normalizePatterns files))
                     (toMatcher (normalizePatterns excludedFiles))] basePath.
Proof.
  intros E. pose proof (create_cases isAbsolute files excludedFiles basePath) as H.
  cbv zeta in H. rewrite E in H. by destruct H as (_ & _ & ->).
Qed.

Lemma normalizePatterns_nonempty patterns :
  Forall (λ p, p ≠ "") (normalizePatterns patterns).
Proof.
  destruct patterns as [|p|ps]; simpl.
  - constructor.
  - unfold nonempty. destruct (String.eqb_spec p ""); simpl; [constructor|].
    by repeat constructor.
  - apply Forall_forall. intros p [Hp _]%list_elem_of_filter.
    unfold nonempty in Hp. by destruct (String.eqb_spec p "").
Qed.

Lemma some_match_map ps relativePath :
  some_match minimatch (map Matcher ps) relativePath =
  existsb (λ p, minimatch p relativePath) ps.
Proof.
  unfold some_match. induction ps as [|p ps IH]; [done|]. simpl. by rewrite IH.
Qed.

Lemma forallb_app {A} (f : A → bool) (xs ys : list A) :
  forallb f (xs ++ ys) = forallb f xs && forallb f ys.
Proof.
  induction xs as [|x xs IH]; [done|]. simpl. by rewrite IH, andb_assoc.
Qed.

(** X1.  The tester that create returns accepts a path exactly when the
    path, taken relative to the base path, matches one of the patterns of
    [files] (or [files] gives no pattern) and matches none of the patterns
    of [excludedFiles]. *)
Theorem created_tester_test :
  ∀ files excludedFiles basePath tester filePath,
    create isAbsolute files excludedFiles basePath = Ret (Some tester) →
    let relativePath := relative basePath filePath in
    test relative minimatch tester filePath =
      (bool_decide (normalizePatterns files = [])
       || existsb (λ p, minimatch p relativePath) (normalizePatterns files))
      && negb (existsb (λ p, minimatch p relativePath)
                 (normalizePatterns excludedFiles)).
Proof.
  intros files excludedFiles basePath tester filePath E relativePath.
  apply created_tester in E as ->. unfold test. simpl.
  fold relativePath. rewrite andb_true_r. f_equal.
  - destruct (normalizePatterns files) as [|p ps] eqn:Ef; [done|].
    change (toMatcher (p :: ps)) with (Some (map Matcher (p :: ps))).
    cbv beta iota. by rewrite some_match_map.
  - destruct (normalizePatterns excludedFiles) as [|p ps] eqn:Ee; [done|].
    change (toMatcher (p :: ps)) with (Some (map Matcher (p :: ps))).
    cbv beta iota. by rewrite some_match_map.
Qed.

(** X2.  toJSON of the tester that create returns shows the patterns that
    were given, without the empty ones: under [includes] those of [files],
    under [excludes] those of [excludedFiles], [null] where there is none,
    and the base path. *)
Theorem created_tester_toJSON :
  ∀ files excludedFiles basePath tester,
    create isAbsolute files excludedFiles basePath = Ret (Some tester) →
    toJSON tester =
      Single (or_null (normalizePatterns files))
        (or_null (normalizePatterns excludedFiles)) basePath ∧
    Forall (λ p, p ≠ "")
      (normalizePatterns files ++ normalizePatterns excludedFiles).
Proof.
  intros files excludedFiles basePath tester E.
  apply created_tester in E as ->. split.
  - unfold toJSON, patternToJson. simpl. by rewrite !toMatcher_patterns.
  - apply Forall_app. split; apply normalizePatterns_nonempty.
Qed.

(** X3.  [and] has null as its unit on both sides and is associative; the
    combination of two testers has the patterns of both and the base path
    of the first, it accepts a path exactly when the first accepts it and
    the second accepts it from the base path of the first, and its toJSON
    is the [AND] of the two. *)
Theorem and_conjunction :
  (∀ a, and a None = a ∧ and None a = a)
  ∧
  (∀ a b c, and (and a b) c = and a (and b c))
  ∧
  (∀ a b filePath,
     and (Some a) (Some b) = Some (Tester (patterns a ++ patterns b) (basePath a)) ∧
     test relative minimatch (Tester (patterns a ++ patterns b) (basePath a)) filePath =
       test relative minimatch a filePath
       && test relative minimatch (Tester (patterns b) (basePath a)) filePath)
  ∧
  (∀ a b, patterns a ≠ [] → patterns b ≠ [] →
     toJSON (Tester (patterns a ++ patterns b) (basePath a)) =
       AND (map patternToJson (patterns a) ++ map patternToJson (patterns b))
         (basePath a)).
Proof.
  split; [|split; [|split]].
  - intros [a|]; by split.
  - intros [a|] [b|] [c|]; simpl; try done. by rewrite app_assoc.
  - intros a b filePath. split; [done|]. unfold test. simpl.
    apply forallb_app.
  - intros a b Ha Hb. unfold toJSON. simpl.
    destruct (patterns a) as [|p ps]; [done|].
    destruct (patterns b) as [|q qs]; [done|].
    rewrite <- map_app. by destruct ps.
Qed.

End Testers.

Lemma created_tester_test_witness :
  let minimatch pattern path := String.eqb pattern path in
  let relative (_ path : string) := path in
  ∃ tester,
    create posix_isAbsolute (PatternList ["a.js"; ""; "b.js"]) (OnePattern "b.js")
      "/project" = Ret (Some tester) ∧
    test relative minimatch tester "a.js" = true ∧
    test relative minimatch tester "b.js" = false.
Proof.
  intros minimatch relative. eexists. split; [reflexivity|].
  split.
  - by rewrite (created_tester_test posix_isAbsolute relative minimatch
                  (PatternList ["a.js"; ""; "b.js"]) (OnePattern "b.js")
                  "/project" _ "a.js" eq_refl).
  - by rewrite (created_tester_test posix_isAbsolute relative minimatch
                  (PatternList ["a.js"; ""; "b.js"]) (OnePattern "b.js")
                  "/project" _ "b.js" eq_refl).
Defined.

Lemma created_tester_toJSON_witness :
  ∃ tester,
    create posix_isAbsolute (PatternList ["a.js"; ""; "b.js"]) NoPatterns
      "/project" = Ret (Some tester) ∧
    toJSON tester = Single (Some ["a.js"; "b.js"]) None "/project".
Proof.
  eexists. split; [reflexivity|].
  by destruct (created_tester_toJSON posix_isAbsolute
                 (PatternList ["a.js"; ""; "b.js"]) NoPatterns "/project" _
                 eq_refl) as [-> _].
Defined.

Lemma and_conjunction_witness :
  let a := Tester [Build_Pattern (Some [Matcher "*.js"]) None] "/project" in
  let b := Tester [Build_Pattern None (Some [Matcher "*.test.js"])] "/other" in
  toJSON (Tester (patterns a ++ patterns b) (basePath a)) =
    AND [ {| includes_json := Some ["*.js"]; excludes_json := None |};
          {| includes_json := None; excludes_json := Some ["*.test.js"] |} ]
      "/project".
Proof.
  intros a b.
  destruct (and_conjunction (λ _ p, p) (λ _ _, true)) as (_ & _ & _ & H).
  by rewrite (H a b).
Defined.

End OverrideTesterProperties.

(* ===================================================================== *)
(** * More about the config array *)
(* ===================================================================== *)

Module ConfigArrayProperties.
Import JS Eff Merge JSFacts MergeFacts KeyFacts ExtractFacts ParserFacts
  RuleFacts FrameFacts VariantFacts Props.

Section Matching.
Variable relative : string → string → string.
Variable minimatch : string → string → bool.

Lemma matches_string element p :
  matches relative minimatch element (VStr p) =
  Ret (accepts relative minimatch element p).
Proof. unfold matches, accepts. by destruct (criteria element). Qed.

Lemma matched_below_string elements p n :
  n ≤ length elements →
  ∃ indices,
    matched_below relative minimatch elements (VStr p) n = Ret indices ∧
    (∀ i, i ∈ indices ↔
          i < n ∧ ∃ element, elements !! i = Some element ∧
                             accepts relative minimatch element p = true) ∧
    StronglySorted (λ i j, j < i) indices.
Proof.
  induction n as [|n IH]; intros Hn.
  { exists []. split; [done|]. split; [|constructor].
    intros i. rewrite elem_of_nil. split; [done|]. intros [? _]. lia. }
  destruct IH as (indices & E & Hin & Hsorted); [lia|].
  destruct (lookup_lt_is_Some_2 elements n) as [element Ee]; [lia|].
  simpl. rewrite Ee, matches_string, E.
  destruct (accepts relative minimatch element p) eqn:Ea.
  - exists (n :: indices). split; [done|]. split.
    + intros i. rewrite elem_of_cons, Hin. split.
      * intros [->|[Hi He]]; [|split; [lia|done]]. split; [lia|]. eauto.
      * intros [Hi He]. destruct (decide (i = n)); [by left|right].
        split; [lia|done].
    + constructor; [done|]. apply Forall_forall. intros j Hj.
      apply Hin in Hj. lia.
  - exists indices. split; [done|]. split; [|done].
    intros i. rewrite Hin. split.
    + intros [Hi He]. split; [lia|done].
    + intros [Hi (e & Ei & He)]. split; [|eauto].
      destruct (decide (i = n)) as [->|]; [|lia]. congruence.
Qed.

Lemma matched_below_all elements filePath n :
  n ≤ length elements →
  Forall (λ element, criteria element = None) elements →
  matched_below relative minimatch elements filePath n = Ret (reverse (seq 0 n)).
Proof.
  intros Hn Hall. induction n as [|n IH]; [done|].
  destruct (lookup_lt_is_Some_2 elements n) as [element Ee]; [lia|].
  rewrite seq_S, reverse_app. simpl. rewrite Ee. unfold matches.
  rewrite (proj1 (Forall_lookup _ _) Hall _ _ Ee).
  by rewrite IH by lia.
Qed.

(** The elements of the parent keep their indices. *)
Lemma matched_below_prefix parent child filePath n :
  n ≤ length parent →
  matched_below relative minimatch (parent ++ child) filePath n =
  matched_below relative minimatch parent filePath n.
Proof.
  induction n as [|n IH]; intros Hn; [done|].
  simpl. rewrite lookup_app_l by lia. rewrite IH by lia. done.
Qed.

Lemma matched_below_suffix parent child p n ic ip :
  n ≤ length child →
  matched_below relative minimatch child (VStr p) n = Ret ic →
  matched_below relative minimatch parent (VStr p) (length parent) = Ret ip →
  matched_below relative minimatch (parent ++ child) (VStr p) (length parent + n) =
    Ret (map (λ i, length parent + i) ic ++ ip).
Proof.
  revert ic. induction n as [|n IH]; intros ic Hn Ec Ep.
  { simpl in Ec. injection Ec as <-. rewrite Nat.add_0_r.
    by rewrite matched_below_prefix. }
  destruct (lookup_lt_is_Some_2 child n) as [element Ee]; [lia|].
  simpl in Ec. rewrite Ee, matches_string in Ec.
  destruct (matched_below relative minimatch child (VStr p) n) as [ic'|e] eqn:Ec';
    [|done].
  injection Ec as <-.
  replace (length parent + S n) with (S (length parent + n)) by lia.
  simpl. rewrite lookup_app_r by lia.
  replace (length parent + n - length parent) with n by lia.
  rewrite Ee, matches_string, (IH ic') by (done || lia).
  by destruct (accepts relative minimatch element p).
Qed.

(** X4.  For a path that is a string, getMatchedIndices returns; an index
    is in the result exactly when the element at this index has no
    criteria or its criteria accepts the path, and the result goes down
    strictly, from the last element to the first.  An array whose elements
    have no criteria gives all its indices, whatever the argument is. *)
Theorem getMatchedIndices_spec :
  (∀ elements p,
     ∃ indices,
       getMatchedIndices relative minimatch elements (VStr p) = Ret indices ∧
       (∀ i, i ∈ indices ↔
             ∃ element, elements !! i = Some element ∧
                        accepts relative minimatch element p = true) ∧
       StronglySorted (λ i j, j < i) indices)
  ∧
  (∀ elements filePath,
     Forall (λ element, criteria element = None) elements →
     getMatchedIndices relative minimatch elements filePath =
       Ret (reverse (seq 0 (length elements)))).
Proof.
  split.
  - intros elements p.
    destruct (matched_below_string elements p (length elements))
      as (indices & E & Hin & Hsorted); [done|].
    exists indices. split; [done|]. split; [|done].
    intros i. rewrite Hin. split; [by intros [_ ?]|].
    intros (element & Ei & Ha). split; [by eapply lookup_lt_Some|eauto].
  - intros elements filePath Hall. by apply matched_below_all.
Qed.

End Matching.

Lemma getMatchedIndices_spec_witness :
  getMatchedIndices Scenarios.relative Scenarios.minimatch Scenarios.backfill
    (VNum 100) = Ret [1; 0].
Proof.
  destruct (getMatchedIndices_spec Scenarios.relative Scenarios.minimatch)
    as [_ H].
  apply (H Scenarios.backfill (VNum 100)). by repeat constructor.
Defined.

Lemma root_below_prefix parent child n :
  n ≤ length parent →
  root_below (parent ++ child) n = root_below parent n.
Proof.
  induction n as [|n IH]; intros Hn; [done|].
  simpl. rewrite lookup_app_l by lia. by rewrite IH by lia.
Qed.

Lemma root_below_suffix parent child n :
  n ≤ length child →
  root_below (parent ++ child) (length parent + n) =
    if existsb has_root (take n child) then root_below child n
    else root_below parent (length parent).
Proof.
  induction n as [|n IH]; intros Hn.
  { rewrite Nat.add_0_r. simpl. by apply root_below_prefix. }
  destruct (lookup_lt_is_Some_2 child n) as [element Ee]; [lia|].
  replace (length parent + S n) with (S (length parent + n)) by lia.
  simpl root_below. rewrite lookup_app_r by lia.
  replace (length parent + n - length parent) with n by lia.
  rewrite Ee, (take_S_r _ _ _ Ee), existsb_app. simpl. rewrite orb_false_r.
  unfold has_root at 2.
  destruct (root element); rewrite ?orb_true_r, ?orb_false_r; try done;
    by apply IH; lia.
Qed.

(** X5.  isRoot returns the [root] of the last element whose [root] is a
    boolean, and false when there is none: it is false for the empty
    array, and for two arrays in a row it is that of the second when the
    second has an element with a boolean [root], and that of the first
    otherwise. *)
Theorem isRoot_last_boolean :
  (∀ elements, ∃ b, isRoot elements = Ret b)
  ∧
  isRoot [] = Ret false
  ∧
  (∀ parent child,
     isRoot (parent ++ child) =
       if existsb has_root child then isRoot child else isRoot parent)
  ∧
  (∀ elements element,
     isRoot (elements ++ [element]) =
       match root element with
       | VBool b => Ret b
       | _ => isRoot elements
       end).
Proof.
  assert (∀ parent child,
            isRoot (parent ++ child) =
              if existsb has_root child then isRoot child else isRoot parent)
    as Happ.
  { intros parent child. unfold isRoot. rewrite length_app.
    rewrite root_below_suffix by done. by rewrite firstn_all. }
  split; [|split; [done|split; [done|]]].
  - intros elements. unfold isRoot.
    assert (∀ n, n ≤ length elements → ∃ b, root_below elements n = Ret b) as H.
    { induction n as [|n IH]; intros Hn; [by exists false|].
      destruct (lookup_lt_is_Some_2 elements n) as [element Ee]; [lia|].
      simpl. rewrite Ee. destruct (root element); eauto with lia. }
    by apply H.
  - intros elements element. rewrite Happ. simpl. rewrite orb_false_r.
    unfold has_root, isRoot. simpl. by destruct (root element).
Qed.

(** X6.  createConfigArray: without elements the result is the parent, or
    the empty array; without a parent it is the elements.  With both, the
    elements alone when they say they are the root, and otherwise the
    elements of the parent followed by the elements.  Then the elements
    keep their order after those of the parent, the indices that match a
    path are those of the elements, moved up, before those of the parent,
    and the result is the root exactly when the parent is, unless an
    element says otherwise. *)
Theorem createConfigArray_cascade :
  (∀ parent, Factory.createConfigArray None parent = Ret (default [] parent))
  ∧
  (∀ elements, Factory.createConfigArray (Some elements) None = Ret elements)
  ∧
  (∀ elements parent,
     isRoot elements = Ret true →
     Factory.createConfigArray (Some elements) (Some parent) = Ret elements)
  ∧
  (∀ relative minimatch elements parent p ie ip,
     isRoot elements = Ret false →
     getMatchedIndices relative minimatch elements (VStr p) = Ret ie →
     getMatchedIndices relative minimatch parent (VStr p) = Ret ip →
     Factory.createConfigArray (Some elements) (Some parent)
       = Ret (parent ++ elements) ∧
     getMatchedIndices relative minimatch (parent ++ elements) (VStr p)
       = Ret (map (λ i, length parent + i) ie ++ ip) ∧
     isRoot (parent ++ elements) =
       if existsb has_root elements then Ret false else isRoot parent).
Proof.
  split; [done|]. split; [done|]. split.
  - intros elements parent E. unfold Factory.createConfigArray. by rewrite E.
  - intros relative minimatch elements parent p ie ip E Ee Ep.
    split; [|split].
    + unfold Factory.createConfigArray. by rewrite E.
    + unfold getMatchedIndices. rewrite length_app.
      by apply matched_below_suffix.
    + destruct isRoot_last_boolean as (_ & _ & -> & _). by rewrite E.
Qed.

Lemma createConfigArray_cascade_witness :
  let parent := [Scenarios.with_rules (VRef 1)] in
  let elements := [Scenarios.with_rules (VRef 2)] in
  let rooted := [Element "" "" None VUndef VUndef VUndef VUndef VUndef VUndef
                   (VBool true) VUndef VUndef] in
  Factory.createConfigArray (Some rooted) (Some parent) = Ret rooted ∧
  Factory.createConfigArray (Some elements) (Some parent) = Ret Scenarios.backfill ∧
  getMatchedIndices Scenarios.relative Scenarios.minimatch Scenarios.backfill
    (VStr "/project/a.js") = Ret [1; 0].
Proof.
  intros parent elements rooted.
  destruct createConfigArray_cascade as (_ & _ & H1 & H2).
  split; [by apply H1|].
  destruct (H2 Scenarios.relative Scenarios.minimatch elements parent
              "/project/a.js" [0] [0] eq_refl eq_refl eq_refl) as (E1 & E2 & _).
  by split.
Defined.

(** ** The cache *)

Section Cache.
Variable guard : heap → value → option exn.
Variable matched : value → outcome (list nat).
Variable create : nat → list nat → M loc.

Hypothesis create_spec : ∀ fuel indices w w' r,
  create fuel indices w = (w', r) →
  extends (heap_of w) (heap_of w') ∧ cache w' = cache w ∧
  ∀ c, r = Ret c →
       c = length (heap_of w) + 6 ∧ ∃ T, cfg_inv (heap_of w) T (heap_of w').

Lemma extract_cache_effect fuel filePath w w' r :
  extract guard matched create fuel filePath w = (w', r) →
  cache_effect (matched filePath) w w' r.
Proof.
  rewrite (extract_run guard matched create).
  intros [e Eg|e Eg Em|indices v Eg Em Ec|indices w1 e Eg Em Ec Ecr
         |indices w1 c Eg Em Ec Ecr]; simpl; try done.
  - exists indices. split; [done|]. by left.
  - by apply create_spec in Ecr as (_ & -> & _).
  - exists indices. split; [done|]. right. split; [done|].
    by apply create_spec in Ecr as (_ & -> & _).
Qed.

Lemma fresh_cache_initial h0 : fresh_cache h0 (initial h0).
Proof.
  split; [done|]. split; intros ? ?; simpl; by rewrite lookup_empty.
Qed.

Lemma extract_fresh_cache h0 fuel filePath w w' r :
  fresh_cache h0 w →
  extract guard matched create fuel filePath w = (w', r) →
  fresh_cache h0 w'.
Proof.
  intros (Hlen & Hb & Hd).
  rewrite (extract_run guard matched create).
  intros [e Eg|e Eg Em|indices v Eg Em Ec|indices w1 e Eg Em Ec Ecr
         |indices w1 c Eg Em Ec Ecr]; try done.
  - destruct (create_spec _ _ _ _ _ Ecr) as (Hext & Hc & _).
    apply extends_length in Hext. rewrite <- Hc in Hb, Hd.
    split; [lia|]. split; [|done].
    intros k v Ek. destruct (Hb _ _ Ek) as (c & -> & ?). exists c.
    split; [done|lia].
  - destruct (create_spec _ _ _ _ _ Ecr) as (Hext & Hc & Hcfg).
    destruct (Hcfg c eq_refl) as (-> & T & I).
    apply cfg_inv_length in I. apply extends_length in Hext.
    split; [simpl; lia|]. simpl. rewrite Hc. split.
    + intros k v. destruct (decide (k = cache_key indices)) as [->|Hk].
      * rewrite lookup_insert_eq. intros [= <-]. eexists. split; [done|lia].
      * rewrite lookup_insert_ne by done. intros Ek.
        destruct (Hb _ _ Ek) as (c & -> & ?). exists c. split; [done|lia].
    + intros k1 k2 v.
      destruct (decide (k1 = cache_key indices)) as [->|Hk1];
        destruct (decide (k2 = cache_key indices)) as [->|Hk2]; [done|..];
        rewrite ?lookup_insert_eq, ?lookup_insert_ne by done.
      * intros [= <-] Ek. destruct (Hb _ _ Ek) as (c & [= <-] & ?). lia.
      * intros Ek [= <-]. destruct (Hb _ _ Ek) as (c & [= <-] & ?). lia.
      * apply Hd.
Qed.

Lemma calls_fresh_cache h0 w w' :
  fresh_cache h0 w → calls guard matched create w w' → fresh_cache h0 w'.
Proof. induction 2; eauto using extract_fresh_cache. Qed.

Lemma extract_cached fuel filePath w w' v indices :
  extract guard matched create fuel filePath w = (w', Ret v) →
  matched filePath = Ret indices →
  cache w' !! cache_key indices = Some v.
Proof.
  intros E Em. apply extract_cache_effect in E as (ix & Em' & H).
  rewrite Em in Em'. injection Em' as <-.
  destruct H as [[Ec ->]|[_ ->]]; [done|]. apply lookup_insert_eq.
Qed.

Lemma extract_distinct h0 w fuel1 p1 w1 v1 i1 w2 fuel2 p2 w3 v2 i2 :
  calls guard matched create (initial h0) w →
  extract guard matched create fuel1 p1 w = (w1, Ret v1) →
  matched p1 = Ret i1 →
  calls guard matched create w1 w2 →
  extract guard matched create fuel2 p2 w2 = (w3, Ret v2) →
  matched p2 = Ret i2 →
  i1 ≠ i2 →
  v1 ≠ v2 ∧ ∃ c1 c2, v1 = VRef c1 ∧ v2 = VRef c2 ∧
                     length h0 ≤ c1 ∧ length h0 ≤ c2.
Proof.
  intros Hreach E1 Em1 Hcalls E2 Em2 Hne.
  assert (calls guard matched create (initial h0) w3) as Hreach3.
  { assert (calls guard matched create (initial h0) w1) as H1
      by (by econstructor).
    assert (calls guard matched create (initial h0) w2) as H2.
    { clear E2. induction Hcalls; [done|]. econstructor; [|done]. eauto. }
    by econstructor. }
  pose proof (calls_fresh_cache h0 _ _ (fresh_cache_initial h0) Hreach3)
    as (_ & Hb & Hd).
  pose proof (extract_cached _ _ _ _ _ _ E1 Em1) as Ec1.
  pose proof (extract_cached _ _ _ _ _ _ E2 Em2) as Ec2.
  assert (cache w3 !! cache_key i1 = Some v1) as Ec1'.
  { eapply (extract_cache_mono guard matched create create_spec); [exact E2|].
    by eapply (calls_cache_mono guard matched create create_spec). }
  split.
  - intros ->. apply Hne. apply cache_key_inj. by eapply Hd.
  - destruct (Hb _ _ Ec1') as (c1 & -> & ?).
    destruct (Hb _ _ Ec2) as (c2 & -> & ?).
    exists c1, c2. repeat split; lia.
Qed.

End Cache.

(** X9.  What a call of extractConfig does to the cache, in both variants:
    nothing when it throws; when it returns, either the value was in the
    cache under the key of the matched indices and nothing at all has
    changed, or the key was not in the cache and has been added, with the
    value that is returned. *)
Theorem extractConfig_cache_effect :
  (∀ isAbsolute relative minimatch render require validateConfigArrayElement
     fuel instance filePath w w' r,
     ConfigArray.extractConfig isAbsolute relative minimatch render require
       validateConfigArrayElement fuel instance filePath w = (w', r) →
     cache_effect (getMatchedIndices relative minimatch instance filePath)
       w w' r)
  ∧
  (∀ relative minimatch fuel instance filePath w w' r,
     ConfigArrayLazy.extractConfig relative minimatch fuel instance filePath w
       = (w', r) →
     cache_effect (getMatchedIndices relative minimatch instance filePath)
       w w' r).
Proof.
  split.
  - intros isAbsolute relative minimatch render require validate fuel instance
      filePath w w' r E.
    rewrite eager_extract in E.
    exact (extract_cache_effect (eager_guard isAbsolute render)
             (getMatchedIndices relative minimatch instance)
             (λ fuel, ConfigArray.createConfig require validate fuel instance)
             (λ f ix w0 w1 r,
                eager_createConfig_spec require validate f instance ix w0 w1 r)
             fuel filePath w w' r E).
  - intros relative minimatch fuel instance filePath w w' r E.
    rewrite lazy_extract in E.
    exact (extract_cache_effect (λ _ _, None)
             (getMatchedIndices relative minimatch instance)
             (λ fuel, ConfigArrayLazy.createConfig fuel instance)
             (λ f ix w0 w1 r, lazy_createConfig_spec f instance ix w0 w1 r)
             fuel filePath w w' r E).
Qed.

Lemma extractConfig_cache_effect_witness :
  let run :=
    ConfigArray.extractConfig OverrideTester.posix_isAbsolute
      Scenarios.relative Scenarios.minimatch Scenarios.render
      Scenarios.require Scenarios.valid 0 Scenarios.broken
      (VStr "/project/a.js") (initial Scenarios.parsers_heap) in
  snd run = Raise (Thrown (VRef 0)) ∧ cache (fst run) = ∅.
Proof.
  intros run. split; [by vm_compute|].
  destruct extractConfig_cache_effect as [H _].
  specialize (H OverrideTester.posix_isAbsolute Scenarios.relative
                Scenarios.minimatch Scenarios.render Scenarios.require
                Scenarios.valid 0 Scenarios.broken (VStr "/project/a.js")
                (initial Scenarios.parsers_heap) (fst run) (snd run)).
  assert (snd run = Raise (Thrown (VRef 0))) as Er by (by vm_compute).
  rewrite Er in H. apply H. rewrite <- Er. subst run.
  by destruct (ConfigArray.extractConfig _ _ _ _ _ _ _ _ _ _).
Defined.

(** X10.  Two calls of extractConfig on an array whose matched indices
    differ return different objects, whatever calls were made before and
    in between, and neither object was on the heap the array started
    from (both variants). *)
Theorem extractConfig_distinct_configs :
  (∀ isAbsolute relative minimatch render require validateConfigArrayElement
     instance h0 w fuel1 p1 w1 v1 i1 w2 fuel2 p2 w3 v2 i2,
     eager_calls isAbsolute relative minimatch render require
       validateConfigArrayElement instance (initial h0) w →
     ConfigArray.extractConfig isAbsolute relative minimatch render require
       validateConfigArrayElement fuel1 instance p1 w = (w1, Ret v1) →
     getMatchedIndices relative minimatch instance p1 = Ret i1 →
     eager_calls isAbsolute relative minimatch render require
       validateConfigArrayElement instance w1 w2 →
     ConfigArray.extractConfig isAbsolute relative minimatch render require
       validateConfigArrayElement fuel2 instance p2 w2 = (w3, Ret v2) →
     getMatchedIndices relative minimatch instance p2 = Ret i2 →
     i1 ≠ i2 →
     v1 ≠ v2 ∧ ∃ c1 c2, v1 = VRef c1 ∧ v2 = VRef c2 ∧
                        length h0 ≤ c1 ∧ length h0 ≤ c2)
  ∧
  (∀ relative minimatch instance h0 w fuel1 p1 w1 v1 i1 w2 fuel2 p2 w3 v2 i2,
     lazy_calls relative minimatch instance (initial h0) w →
     ConfigArrayLazy.extractConfig relative minimatch fuel1 instance p1 w
       = (w1, Ret v1) →
     getMatchedIndices relative minimatch instance p1 = Ret i1 →
     lazy_calls relative minimatch instance w1 w2 →
     ConfigArrayLazy.extractConfig relative minimatch fuel2 instance p2 w2
       = (w3, Ret v2) →
     getMatchedIndices relative minimatch instance p2 = Ret i2 →
     i1 ≠ i2 →
     v1 ≠ v2 ∧ ∃ c1 c2, v1 = VRef c1 ∧ v2 = VRef c2 ∧
                        length h0 ≤ c1 ∧ length h0 ≤ c2).
Proof.
  split.
  - intros isAbsolute relative minimatch render require validate instance
      h0 w fuel1 p1 w1 v1 i1 w2 fuel2 p2 w3 v2 i2 Hreach E1 Em1 Hcalls E2 Em2 Hne.
    rewrite eager_extract in E1, E2.
    apply eager_calls_generic in Hreach, Hcalls.
    exact (extract_distinct (eager_guard isAbsolute render)
             (getMatchedIndices relative minimatch instance)
             (λ fuel, ConfigArray.createConfig require validate fuel instance)
             (λ f ix w0 w1 r,
                eager_createConfig_spec require validate f instance ix w0 w1 r)
             h0 w fuel1 p1 w1 v1 i1 w2 fuel2 p2 w3 v2 i2
             Hreach E1 Em1 Hcalls E2 Em2 Hne).
  - intros relative minimatch instance
      h0 w fuel1 p1 w1 v1 i1 w2 fuel2 p2 w3 v2 i2 Hreach E1 Em1 Hcalls E2 Em2 Hne.
    rewrite lazy_extract in E1, E2.
    apply lazy_calls_generic in Hreach, Hcalls.
    exact (extract_distinct (λ _ _, None)
             (getMatchedIndices relative minimatch instance)
             (λ fuel, ConfigArrayLazy.createConfig fuel instance)
             (λ f ix w0 w1 r, lazy_createConfig_spec f instance ix w0 w1 r)
             h0 w fuel1 p1 w1 v1 i1 w2 fuel2 p2 w3 v2 i2
             Hreach E1 Em1 Hcalls E2 Em2 Hne).
Qed.

Lemma extractConfig_distinct_configs_witness :
  let extract :=
    ConfigArray.extractConfig OverrideTester.posix_isAbsolute
      Scenarios.relative Scenarios.exact Scenarios.render
      Scenarios.require Scenarios.valid 10 Scenarios.override in
  let first := extract (VStr "/project/a.ts") (initial []) in
  let second := extract (VStr "/project/a.js") (fst first) in
  getMatchedIndices Scenarios.relative Scenarios.exact Scenarios.override
    (VStr "/project/a.ts") = Ret [1; 0] ∧
  getMatchedIndices Scenarios.relative Scenarios.exact Scenarios.override
    (VStr "/project/a.js") = Ret [0] ∧
  snd first = Ret (VRef 6) ∧ snd second = Ret (VRef 13) ∧
  VRef 6 ≠ VRef 13.
Proof.
  intros extract first second.
  split; [done|]. split; [done|].
  assert (snd first = Ret (VRef 6)) as E1 by (by vm_compute).
  assert (snd second = Ret (VRef 13)) as E2 by (by vm_compute).
  split; [done|]. split; [done|].
  destruct extractConfig_distinct_configs as [H _].
  apply (H OverrideTester.posix_isAbsolute Scenarios.relative Scenarios.exact
           Scenarios.render Scenarios.require Scenarios.valid
           Scenarios.override [] (initial []) 10 (VStr "/project/a.ts")
           (fst first) (VRef 6) [1; 0] (fst first) 10 (VStr "/project/a.js")
           (fst second) (VRef 13) [0]).
  - constructor.
  - rewrite <- E1. apply surjective_pairing.
  - done.
  - constructor.
  - rewrite <- E2. apply surjective_pairing.
  - done.
  - done.
Defined.

End ConfigArrayProperties.

(* ===================================================================== *)
(** * More about the merge functions *)
(* ===================================================================== *)

Module MergeProperties.
Import JS Eff Merge JSFacts MergeFacts KeyFacts ExtractFacts ParserFacts
  RuleFacts FrameFacts VariantFacts Props.

Lemma keeps_defined_refl h : keeps_defined h h.
Proof. intros l o k v E Ek _. eauto. Qed.

Lemma keeps_defined_trans h1 h2 h3 :
  keeps_defined h1 h2 → keeps_defined h2 h3 → keeps_defined h1 h3.
Proof.
  intros H12 H23 l o k v E Ek Hv.
  destruct (H12 _ _ _ _ E Ek Hv) as (o2 & E2 & Ek2 & A2).
  destruct (H23 _ _ _ _ E2 Ek2 Hv) as (o3 & E3 & Ek3 & A3).
  exists o3. split; [done|]. split; [done|congruence].
Qed.

Lemma keeps_defined_alloc (h : heap) o : keeps_defined h (h ++ [o]).
Proof.
  intros l o' k v E Ek _. exists o'. split; [|done].
  rewrite lookup_app_l; [done|]. by eapply lookup_lt_Some.
Qed.

Lemma keeps_defined_set (h : heap) l k v :
  (∀ o v0, h !! l = Some o → assoc k (props o) = Some v0 → v0 = VUndef) →
  keeps_defined h (heap_set l k v h).
Proof.
  intros Eu l0 o k0 v0 E Ek Hv. destruct (decide (l = l0)) as [->|Hne].
  - exists (obj_set k v o). rewrite heap_set_lookup, E. split; [done|].
    split; [|apply is_array_obj_set].
    rewrite props_obj_set. destruct (decide (k = k0)) as [->|Hk].
    + exfalso. apply Hv. eauto.
    + by rewrite assoc_set_ne.
  - exists o. by rewrite heap_set_lookup_ne.
Qed.

Lemma undefined_assoc (h : heap) l k o v0 :
  heap_get h l k = VUndef → h !! l = Some o → assoc k (props o) = Some v0 →
  v0 = VUndef.
Proof.
  unfold heap_get. intros Eu E Ek. rewrite E in Eu. unfold obj_get in Eu.
  destruct (shape_of o); [|case_decide; [done|]];
    rewrite Ek in Eu; simpl in Eu; done.
Qed.

Lemma keeps_defined_write (h : heap) l k v :
  heap_get h l k = VUndef → keeps_defined h (heap_set l k v h).
Proof. intros Eu. apply keeps_defined_set. eauto using undefined_assoc. Qed.

Lemma keeps_defined_get h h' l k :
  keeps_defined h h' →
  heap_get h l k ≠ VUndef →
  ¬ (isArray h (VRef l) = true ∧ k = KName "length") →
  heap_get h' l k = heap_get h l k.
Proof.
  intros Hk Hv Hlen. unfold heap_get in *. simpl in Hlen.
  destruct (h !! l) as [o|] eqn:E; [|done].
  assert (obj_get o k = default VUndef (assoc k (props o))) as Eg.
  { unfold obj_get. unfold is_array in Hlen.
    destruct (shape_of o); [done|]. case_decide; [|done].
    exfalso. by apply Hlen. }
  rewrite Eg in *.
  destruct (assoc k (props o)) as [v|] eqn:Ea; [|done]. simpl in *.
  destruct (Hk _ _ _ _ E Ea Hv) as (o' & -> & Ea' & Hshape).
  unfold obj_get. unfold is_array in Hshape, Hlen.
  destruct (shape_of o'), (shape_of o); try done; rewrite ?Ea'; try done.
  case_decide; [|done].
  exfalso. by apply Hlen.
Qed.

Lemma assignWithoutOverwrite_keeps fuel :
  ∀ target source w w' r,
    assignWithoutOverwrite fuel target source w = (w', r) →
    keeps_defined (heap_of w) (heap_of w') ∧ same_slots w w'.
Proof.
  induction fuel as [|fuel IH]; intros target source w w' r E; simpl in E.
  { inv_prim E. eauto using keeps_defined_refl, same_slots_refl. }
  destruct source as [| | | | | |s];
    try (inv_prim E; eauto using keeps_defined_refl, same_slots_refl).
  inv_bind E; [|inv_prim E; eauto using keeps_defined_refl, same_slots_refl].
  inv_prim E0.
  revert E.
  apply (for_each_inv
           (λ w1, keeps_defined (heap_of w) (heap_of w1) ∧ same_slots w w1));
    [|eauto using keeps_defined_refl, same_slots_refl].
  clear w' r. intros key w1 w2 r (K1 & S1) E.
  inv_bind E; [|inv_prim E; eauto].
  inv_prim E0.
  destruct (heap_get (heap_of w1) target key) as [| | | | | |inner] eqn:Etv;
    try (inv_prim E; eauto).
  - inv_bind E; [|inv_prim E; eauto]. inv_prim E0.
    destruct (heap_get (heap_of w1) s key) as [| | | | | |s'] eqn:Esv;
      try (inv_prim E; simpl; split;
           [eapply keeps_defined_trans; [exact K1|];
            by apply keeps_defined_write
           |eauto using same_slots_trans, same_slots_heap]).
    + inv_prim E. eauto.
    + inv_bind E; [|inv_prim E; eauto]. inv_prim E0.
      inv_bind E; [|inv_prim E]. inv_prim E0.
      inv_bind E; [|inv_prim E]. inv_prim E0.
      apply IH in E as (K4 & S4). simpl in K4. split.
      * eapply keeps_defined_trans; [exact K1|].
        eapply keeps_defined_trans; [apply keeps_defined_alloc|].
        eapply keeps_defined_trans; [|exact K4].
        apply keeps_defined_set. intros o v0 Eo Ek.
        destruct (heap_of w1 !! target) as [o1|] eqn:El.
        -- rewrite lookup_app_l in Eo by (by eapply lookup_lt_Some).
           eapply undefined_assoc; [exact Etv|by rewrite El|].
           by simplify_eq.
        -- apply lookup_ge_None in El.
           apply lookup_lt_Some in Eo as Hlt. rewrite length_app in Hlt.
           simpl in Hlt.
           assert (target = length (heap_of w1)) as -> by lia.
           rewrite list_lookup_middle in Eo by done.
           destruct (match heap_of w1 !! s' with
                     | Some o0 => is_array o0
                     | None => false
                     end); by simplify_eq.
      * eapply same_slots_trans; [exact S1|].
        eapply same_slots_trans; [|exact S4]. by repeat split.
  - inv_bind E; [|inv_prim E; eauto]. inv_prim E0.
    apply IH in E as (K4 & S4).
    eauto using keeps_defined_trans, same_slots_trans.
Qed.

(** X7.  assignWithoutOverwrite never overwrites: whatever the target and
    the source are, and however the call ends, a property of any object
    that had a value before the call has the same value after it (the
    [length] of an array apart, which grows with the array), and the slots
    of the array are untouched. *)
Theorem assignWithoutOverwrite_never_overwrites :
  ∀ fuel target source w w' r,
    assignWithoutOverwrite fuel target source w = (w', r) →
    (∀ l k,
       heap_get (heap_of w) l k ≠ VUndef →
       ¬ (isArray (heap_of w) (VRef l) = true ∧ k = KName "length") →
       heap_get (heap_of w') l k = heap_get (heap_of w) l k) ∧
    same_slots w w'.
Proof.
  intros fuel target source w w' r E.
  apply assignWithoutOverwrite_keeps in E as [K S]. split; [|done].
  intros l k. by apply keeps_defined_get.
Qed.

Lemma assignWithoutOverwrite_never_overwrites_witness :
  let run := assignWithoutOverwrite 5 0 (VRef 1) (initial Scenarios.envs_heap) in
  snd run = Ret tt ∧
  heap_get (heap_of (fst run)) 0 (KName "browser") = VBool false ∧
  heap_get (heap_of (fst run)) 0 (KName "node") = VBool true.
Proof.
  intros run. split; [by vm_compute|]. split; [|by vm_compute].
  destruct (assignWithoutOverwrite_never_overwrites 5 0 (VRef 1)
              (initial Scenarios.envs_heap) (fst run) (snd run)) as [H _].
  { subst run. by destruct (assignWithoutOverwrite _ _ _ _). }
  rewrite (H 0 (KName "browser")); [done|done|].
  by intros [? _].
Defined.

(** ** A flat source *)

Lemma insert_sorted_elem i j l : j ∈ insert_sorted i l ↔ j = i ∨ j ∈ l.
Proof.
  induction l as [|x l IH]; simpl.
  - rewrite list_elem_of_singleton, elem_of_nil. tauto.
  - case_decide; rewrite !elem_of_cons; [done|]. rewrite IH. tauto.
Qed.

Lemma own_keys_complete o k v : assoc k (props o) = Some v → k ∈ own_keys o.
Proof.
  intros E%assoc_elem. unfold own_keys, index_keys, name_keys.
  apply elem_of_app. destruct k as [i|s]; [left|right].
  - apply list_elem_of_fmap. exists i. split; [done|].
    induction (props o) as [|[k0 v0] ps IH]; [by apply elem_of_nil in E|].
    apply elem_of_cons in E as [E|E].
    + injection E as <- <-. simpl. apply insert_sorted_elem. by left.
    + destruct k0; simpl; [|by apply IH].
      apply insert_sorted_elem. right. by apply IH.
  - apply list_elem_of_fmap. exists s. split; [done|].
    apply list_elem_of_omap. by exists (KName s, v).
Qed.

Lemma flat_get src k : flat src → isNonNullObject (obj_get src k) = false.
Proof.
  intros Hflat. destruct (obj_get src k) as [| | | | | |l] eqn:E; try done.
  apply obj_get_ref in E. by apply Hflat in E.
Qed.

Lemma assignWithoutOverwrite_unfold fuel target s :
  assignWithoutOverwrite (S fuel) target (VRef s) =
  (let! keys := object_keys s in for_each keys (assign_key fuel target s)).
Proof. done. Qed.

(** One key of the loop of assignWithoutOverwrite. *)
Lemma assign_key_flat fuel (target s : loc) src (key : key) w1 T1 :
  target ≠ s → flat src →
  heap_of w1 !! s = Some src → heap_of w1 !! target = Some T1 →
  is_array T1 = false →
  ∃ w2 T2,
    assign_key (S fuel) target s key w1 = (w2, Ret tt) ∧
    heap_of w2 !! s = Some src ∧ heap_of w2 !! target = Some T2 ∧
    is_array T2 = false ∧
    (∀ l, l ≠ target → heap_of w2 !! l = heap_of w1 !! l) ∧
    length (heap_of w2) = length (heap_of w1) ∧
    same_slots w1 w2 ∧
    (flat T1 → flat T2) ∧
    (∀ k, obj_get T2 k =
          if decide (k = key) then defaulted T1 src key else obj_get T1 k).
Proof.
  unfold assign_key.
  intros Hne Hflat Es Et Ha.
  assert (∀ k, obj_get T1 k =
               if decide (k = key) then
                 (if is_undefined (obj_get T1 key) then obj_get T1 key
                  else obj_get T1 key)
               else obj_get T1 k) as Hsame.
  { intros k. case_decide; [subst|done]. by destruct (is_undefined _). }
  pose proof (flat_get src key Hflat) as Hsv.
  assert (heap_get (heap_of w1) target key = obj_get T1 key) as Egt.
  { unfold heap_get. by rewrite Et. }
  assert (heap_get (heap_of w1) s key = obj_get src key) as Egs.
  { unfold heap_get. by rewrite Es. }
  unfold bind at 1. unfold read at 1. rewrite Egt.
  cbv beta iota. unfold defaulted.
  destruct (obj_get T1 key) as [| | | | | |inner] eqn:Etv; cbv beta iota;
    try (exists w1, T1; repeat split; try done;
         intros k; case_decide; by subst).
  - unfold bind at 1. unfold read at 1. rewrite Egs.
    cbv beta iota.
    destruct (obj_get src key) as [| | | | | |l] eqn:Esv; try done;
      cbv beta iota;
      try (exists w1, T1; repeat split; try done;
           intros k; case_decide; by subst);
      (eexists _, (obj_set key _ T1); unfold write;
       split; [done|]; cbn [heap_of with_heap];
       split; [by rewrite heap_set_lookup_ne|];
       split; [by rewrite heap_set_lookup, Et|];
       split; [by rewrite is_array_obj_set|];
       split; [by intros l Hl; rewrite heap_set_lookup_ne|];
       split; [by rewrite heap_set_length|];
       split; [by repeat split|];
       split;
       [intros Hflat1 k v [[= -> ->]|Hin]%assoc_set_elem; [done|by eapply Hflat1]|];
       intros k; case_decide;
       [subst; by rewrite obj_set_get_eq|by rewrite obj_set_get_ne]).
  - unfold bind at 1. unfold read at 1. rewrite Egs.
    cbv beta iota.
    exists w1, T1.
    destruct (obj_get src key); try done; cbn [assignWithoutOverwrite];
      unfold ret;
      (repeat split; try done; intros k; case_decide; by subst).
Qed.

Lemma defaulted_again T1 src key :
  (if is_undefined (defaulted T1 src key) then obj_get src key
   else defaulted T1 src key) = defaulted T1 src key.
Proof.
  unfold defaulted. destruct (is_undefined (obj_get T1 key)) eqn:E.
  - by destruct (is_undefined (obj_get src key)).
  - by rewrite E.
Qed.

(** With a target that holds no object either, the depth left for the
    recursion does not matter. *)
Lemma assign_key_flat_target fuel (target s : loc) src (key : key) w1 T1 :
  flat src → flat T1 →
  heap_of w1 !! s = Some src → heap_of w1 !! target = Some T1 →
  assign_key fuel target s key w1 = assign_key 1 target s key w1.
Proof.
  intros Hs Ht Es Et. unfold assign_key, bind, read, heap_get.
  rewrite Et.
  pose proof (flat_get T1 key Ht) as H1. pose proof (flat_get src key Hs) as H2.
  destruct (obj_get T1 key); try done.
  rewrite Es. by destruct (obj_get src key).
Qed.

Lemma assign_loop_flat fuel (target s : loc) src ks :
  target ≠ s → flat src →
  ∀ w1 T1,
    heap_of w1 !! s = Some src → heap_of w1 !! target = Some T1 →
    is_array T1 = false → fuel ≠ 0 ∨ flat T1 →
    ∃ w2 T2,
      for_each ks (assign_key fuel target s) w1 = (w2, Ret tt) ∧
      heap_of w2 !! target = Some T2 ∧
      (∀ l, l ≠ target → heap_of w2 !! l = heap_of w1 !! l) ∧
      length (heap_of w2) = length (heap_of w1) ∧
      same_slots w1 w2 ∧
      is_array T2 = false ∧
      (flat T1 → flat T2) ∧
      (∀ k, obj_get T2 k =
            if bool_decide (k ∈ ks) then defaulted T1 src k else obj_get T1 k).
Proof.
  intros Hne Hflat. induction ks as [|key ks IH]; intros w1 T1 Es Et Ha Hor.
  { exists w1, T1. repeat split; done. }
  assert (∃ w2 T2,
            assign_key fuel target s key w1 = (w2, Ret tt) ∧
            heap_of w2 !! s = Some src ∧
            heap_of w2 !! target = Some T2 ∧
            is_array T2 = false ∧
            (∀ l, l ≠ target → heap_of w2 !! l = heap_of w1 !! l) ∧
            length (heap_of w2) = length (heap_of w1) ∧
            same_slots w1 w2 ∧
            (flat T1 → flat T2) ∧
            (∀ k, obj_get T2 k =
                  if decide (k = key) then defaulted T1 src key
                  else obj_get T1 k))
    as (w2 & T2 & E2 & Es2 & Et2 & Ha2 & Hf2 & Hl2 & Hs2 & Hfl2 & Hg2).
  { destruct Hor as [Hfuel|HT].
    - destruct fuel as [|fuel]; [done|].
      exact (assign_key_flat fuel target s src key w1 T1 Hne Hflat Es Et Ha).
    - rewrite (assign_key_flat_target fuel target s src key w1 T1) by done.
      exact (assign_key_flat 0 target s src key w1 T1 Hne Hflat Es Et Ha). }
  destruct (IH w2 T2 Es2 Et2 Ha2)
    as (w3 & T3 & E3 & Et3 & Hf3 & Hl3 & Hs3 & Ha3 & Hfl3 & Hg3).
  { destruct Hor; auto. }
  exists w3, T3. split.
  { simpl. unfold bind. by rewrite E2. }
  split; [done|].
  split; [intros l Hl; by rewrite Hf3, Hf2|].
  split; [congruence|].
  split; [eauto using same_slots_trans|].
  split; [done|].
  split; [auto|].
  intros k. rewrite Hg3. unfold defaulted at 1. rewrite !Hg2.
  destruct (decide (k = key)) as [->|Hk].
  - rewrite (bool_decide_eq_true_2 (key ∈ key :: ks)) by apply list_elem_of_here.
    rewrite defaulted_again. by destruct (bool_decide _).
  - destruct (bool_decide (k ∈ ks)) eqn:Ek.
    + rewrite bool_decide_eq_true_2; [done|].
      apply bool_decide_eq_true in Ek. by apply list_elem_of_further.
    + rewrite bool_decide_eq_false_2; [done|].
      apply bool_decide_eq_false in Ek. intros [?|?]%elem_of_cons; done.
Qed.

(** The value of a key that the source does not have. *)
Lemma defaulted_absent T src k :
  is_array src = false → k ∉ own_keys src → defaulted T src k = obj_get T k.
Proof.
  intros Hs Hk. unfold defaulted.
  assert (obj_get src k = VUndef) as ->; [|by destruct (obj_get T k)].
  rewrite obj_get_plain by done.
  destruct (assoc k (props src)) as [v|] eqn:Ek; [|done].
  exfalso. apply Hk. by eapply own_keys_complete.
Qed.



End MergeProperties.

(* ===================================================================== *)
(** * More about the loaders *)
(* ===================================================================== *)

Module FactoryProperties.
Import JS Eff Dependency Factory Props FactoryFacts.

Lemma logs_weaken (P Q : event → Prop) {A} (m : F A) :
  (∀ e, P e → Q e) → logs P m → logs Q m.
Proof.
  intros HPQ Hm s s' r E. destruct (Hm _ _ _ E) as (later & Et & Hl).
  exists later. split; [done|]. by eapply Forall_impl.
Qed.

Lemma logs_pure (P : event → Prop) {A} (m : F A) :
  (∀ s s' r, m s = (s', r) → trace s' = trace s) → logs P m.
Proof. intros H s s' r E. exists []. rewrite app_nil_r. eauto. Qed.

Lemma logs_ret P {A} (a : A) : logs P (ret a).
Proof. apply logs_pure. by intros s s' r [= <- <-]. Qed.

Lemma logs_throw P {A} e : logs P (throw e : F A).
Proof. apply logs_pure. by intros s s' r [= <- <-]. Qed.

Lemma logs_lift P {A} (o : outcome A) : logs P (lift o).
Proof. apply logs_pure. by intros s s' r [= <- <-]. Qed.

Lemma logs_alloc P o : logs P (alloc o).
Proof. apply logs_pure. by intros s s' r [= <- <-]. Qed.

Lemma logs_write P x k v : logs P (write x k v).
Proof.
  apply logs_pure. intros s s' r. unfold write.
  destruct x; by intros [= <- <-].
Qed.

Lemma logs_member P x k : logs P (member x k).
Proof. apply logs_pure. by intros s s' r [= <- <-]. Qed.

Lemma logs_log (P : event → Prop) e : P e → logs P (log e).
Proof. intros He s s' r [= <- <-]. exists [e]. by repeat constructor. Qed.

Lemma logs_bind P {A B} (m : F A) (k : A → F B) :
  logs P m → (∀ a, logs P (k a)) → logs P (bind m k).
Proof.
  intros Hm Hk s s' r. unfold bind.
  destruct (m s) as [s1 [a|e]] eqn:E; intros E'.
  - destruct (Hm _ _ _ E) as (l1 & E1 & H1).
    destruct (Hk _ _ _ _ E') as (l2 & E2 & H2).
    exists (l1 ++ l2). split; [by rewrite E2, E1, app_assoc|].
    by apply Forall_app.
  - injection E' as <- <-. eauto.
Qed.

Lemma logs_try_catch P {A} (m : F A) (handler : exn → F A) :
  logs P m → (∀ e, logs P (handler e)) → logs P (try_catch m handler).
Proof.
  intros Hm Hh s s' r. unfold try_catch.
  destruct (m s) as [s1 [a|e]] eqn:E; intros E'.
  - injection E' as <- <-. eauto.
  - destruct (Hm _ _ _ E) as (l1 & E1 & H1).
    destruct (Hh _ _ _ _ E') as (l2 & E2 & H2).
    exists (l1 ++ l2). split; [by rewrite E2, E1, app_assoc|].
    by apply Forall_app.
Qed.

Lemma logs_new_Error P message : logs P (new_Error message).
Proof. apply logs_bind; [apply logs_alloc|]. intros l. apply logs_ret. Qed.

Section Loaders.
Variable isAbsolute : string → bool.
Variable join : string → string → string.
Variable resolve : string → string → outcome string.
Variable require : string → outcome value.
Variable normalizePackageName : string → string → string.
Variable getShorthandName : string → string → string.
Variable instanceof_Error : heap → value → bool.
Variable render : heap → value → string.
Variable debug_enabled : bool.

Lemma logs_do_require (P : event → Prop) id :
  (∀ i, P (Require i)) → logs P (do_require require id).
Proof.
  intros HP. apply logs_bind; [by apply logs_log|]. intros _. apply logs_lift.
Qed.

Lemma logs_do_resolve (P : event → Prop) request importer :
  P (Resolve request importer) → logs P (do_resolve resolve request importer).
Proof.
  intros HP. apply logs_bind; [by apply logs_log|]. intros _. apply logs_lift.
Qed.

Lemma logs_debug_version (P : event → Prop) name :
  (∀ i, P (Require i)) → logs P (debug_version require debug_enabled name).
Proof.
  intros HP. unfold debug_version. destruct debug_enabled; [|apply logs_ret].
  apply logs_try_catch; [|intros _; apply logs_ret].
  apply logs_bind; [by apply logs_do_require|]. intros _. apply logs_ret.
Qed.

Lemma logs_caught P e : logs P (caught e).
Proof. destruct e; simpl; auto using logs_ret, logs_new_Error. Qed.

Lemma logs_as_Error P error : logs P (as_Error instanceof_Error render error).
Proof.
  intros s s' r. unfold as_Error. destruct (instanceof_Error _ _).
  - intros [= <- <-]. exists []. by rewrite app_nil_r.
  - apply logs_new_Error.
Qed.

Lemma logs_plugin_missing P self request error :
  logs P (plugin_missing render self request error).
Proof.
  unfold plugin_missing. apply logs_bind; [apply logs_member|]. intros code.
  destruct (truthy error && bool_decide (code = VStr "MODULE_NOT_FOUND"));
    [|apply logs_ret].
  apply logs_bind; [apply logs_member|]. intros message.
  apply logs_bind.
  { apply logs_pure. by intros s s' r [= <- <-]. }
  intros text.
  apply logs_bind; [apply logs_write|]. intros _.
  apply logs_bind; [apply logs_write|]. intros _.
  apply logs_bind; [apply logs_alloc|]. intros data.
  apply logs_write.
Qed.

Local Abbreviation parser_importer := (Props.parser_importer join).
Local Abbreviation plugin_request :=
  (Props.plugin_request isAbsolute normalizePackageName).
Local Abbreviation plugin_id :=
  (Props.plugin_id isAbsolute normalizePackageName getShorthandName).

Lemma logs_loadParser self nameOrPath importerPath importerName :
  logs (resolves nameOrPath (parser_importer self importerPath))
    (_loadParser join resolve require instanceof_Error render debug_enabled
       self nameOrPath importerPath importerName).
Proof.
  unfold _loadParser. destruct (truthy _); [apply logs_ret|].
  apply logs_try_catch.
  - apply logs_bind; [by apply logs_do_resolve|]. intros filePath.
    apply logs_bind; [by apply logs_debug_version|]. intros _.
    apply logs_bind; [by apply logs_do_require|]. intros definition.
    apply logs_ret.
  - intros e. apply logs_bind; [apply logs_caught|]. intros error.
    apply logs_bind; [apply logs_as_Error|]. intros error'. apply logs_ret.
Qed.

Lemma loadParser_returns self nameOrPath importerPath importerName s :
  ∃ s' d,
    _loadParser join resolve require instanceof_Error render debug_enabled
      self nameOrPath importerPath importerName s = (s', Ret d) ∧
    parser_of nameOrPath importerPath importerName d.
Proof.
  unfold _loadParser. destruct (truthy _).
  { eexists _, _. split; [done|]. repeat split. by left. }
  unfold try_catch.
  match goal with |- context [bind ?m ?k s] => destruct (bind m k s) as [s1 [d|e]] eqn:E end.
  - exists s1, d. split; [done|].
    unfold bind in E.
    destruct (do_resolve _ _ _ s) as [s2 [filePath|?]]; [|done].
    destruct (debug_version _ _ _ s2) as [s3 [[]|?]]; [|done].
    destruct (do_require _ _ s3) as [s4 [definition|?]]; [|done].
    injection E as <- <-. repeat split. by left.
  - destruct (returns_caught e s1) as (s2 & error & E1).
    destruct (returns_as_Error instanceof_Error render error s2)
      as (s3 & error' & E2).
    exists s3. eexists. unfold bind. rewrite E1, E2. split; [done|].
    repeat split. by right.
Qed.

(** X11.  _loadParser never throws: it returns a dependency with the id,
    the importer name and the importer path it was given, and this has
    either no error, or no definition and no file path.  It asks the module
    resolver for nothing but the name it was given, from the importer path,
    or from [a.js] in the working directory when the importer path is
    empty.  When the resolver and [require] succeed, the dependency has the
    module and its path. *)
Theorem loadParser_captures :
  (∀ self nameOrPath importerPath importerName s,
     ∃ s' d later,
       _loadParser join resolve require instanceof_Error render debug_enabled
         self nameOrPath importerPath importerName s = (s', Ret d) ∧
       parser_of nameOrPath importerPath importerName d ∧
       trace s' = trace s ++ later ∧
       Forall (resolves nameOrPath (parser_importer self importerPath)) later)
  ∧
  (∀ self nameOrPath importerPath importerName s filePath definition,
     truthy (pool_get (additionalPluginPool self) nameOrPath) = false →
     debug_enabled = false →
     resolve nameOrPath (parser_importer self importerPath) = Ret filePath →
     require filePath = Ret definition →
     _loadParser join resolve require instanceof_Error render debug_enabled
       self nameOrPath importerPath importerName s =
     (FState (heap_of s)
        (trace s ++ [Resolve nameOrPath (parser_importer self importerPath);
                     Require filePath]),
      Ret {| definition := definition;
             error := VNull;
             filePath := VStr filePath;
             id := VStr nameOrPath;
             importerName := importerName;
             importerPath := VStr importerPath |})).
Proof.
  split.
  - intros self nameOrPath importerPath importerName s.
    destruct (loadParser_returns self nameOrPath importerPath importerName s)
      as (s' & d & E & Hd).
    destruct (logs_loadParser self nameOrPath importerPath importerName _ _ _ E)
      as (later & Et & Hl).
    by exists s', d, later.
  - intros self nameOrPath importerPath importerName s filePath definition
      Hpool -> Er Eq.
    unfold _loadParser. rewrite Hpool.
    change (if String.eqb importerPath "" then join (cwd self) "a.js"
            else importerPath) with (parser_importer self importerPath).
    unfold try_catch, bind, do_resolve, debug_version, do_require, bind, log,
      lift, ret.
    rewrite Er. simpl. rewrite Eq. by rewrite <- app_assoc.
Qed.

(** ** _loadPlugin and _loadPlugins *)

Lemma logs_load_from_disk self request id importerPath importerName :
  logs (resolves request (join (cwd self) "a.js"))
    (load_from_disk join resolve require instanceof_Error render debug_enabled
       self request id importerPath importerName).
Proof.
  unfold load_from_disk. apply logs_try_catch.
  - apply logs_bind; [by apply logs_do_resolve|]. intros filePath.
    apply logs_bind; [by apply logs_debug_version|]. intros _.
    apply logs_bind; [by apply logs_do_require|]. intros definition.
    apply logs_ret.
  - intros e. apply logs_bind; [apply logs_caught|]. intros error.
    apply logs_bind; [apply logs_plugin_missing|]. intros _.
    apply logs_bind; [apply logs_as_Error|]. intros error'. apply logs_ret.
Qed.

Lemma logs_loadPlugin self name importerPath importerName :
  logs (resolves (plugin_request name) (join (cwd self) "a.js"))
    (_loadPlugin isAbsolute join resolve require normalizePackageName
       getShorthandName instanceof_Error render debug_enabled self name
       importerPath importerName).
Proof.
  unfold _loadPlugin, Props.plugin_request.
  destruct (isFilePath isAbsolute name); [apply logs_load_from_disk|].
  destruct (has_whitespace name).
  - apply logs_bind; [apply logs_new_Error|]. intros error.
    apply logs_bind; [apply logs_write|]. intros _.
    apply logs_bind; [apply logs_alloc|]. intros data.
    apply logs_bind; [apply logs_write|]. intros _. apply logs_ret.
  - destruct (truthy _); [apply logs_ret|apply logs_load_from_disk].
Qed.

Lemma load_from_disk_id self request id importerPath importerName s s' p :
  load_from_disk join resolve require instanceof_Error render debug_enabled
    self request id importerPath importerName s = (s', Ret p) →
  loaded_id p = VStr id.
Proof.
  unfold load_from_disk, try_catch.
  match goal with |- context [bind ?m ?k s] => destruct (bind m k s) as [s1 [d|e]] eqn:E end.
  - intros [= <- <-]. unfold bind in E.
    destruct (do_resolve _ _ _ s) as [s2 [filePath|?]]; [|done].
    destruct (debug_version _ _ _ s2) as [s3 [[]|?]]; [|done].
    destruct (do_require _ _ s3) as [s4 [definition|?]]; [|done].
    by injection E as <- <-.
  - unfold bind.
    destruct (caught e s1) as [s2 [error|?]]; [|done].
    destruct (plugin_missing _ _ _ _ s2) as [s3 [[]|?]]; [|done].
    destruct (as_Error _ _ _ s3) as [s4 [error'|?]]; [|done].
    by intros [= <- <-].
Qed.

Lemma loadPlugin_id self name importerPath importerName s s' p :
  _loadPlugin isAbsolute join resolve require normalizePackageName
    getShorthandName instanceof_Error render debug_enabled self name
    importerPath importerName s = (s', Ret p) →
  loaded_id p = VStr (plugin_id name).
Proof.
  unfold _loadPlugin, Props.plugin_id.
  destruct (isFilePath isAbsolute name); [apply load_from_disk_id|].
  destruct (has_whitespace name).
  - unfold bind, new_Error, bind, alloc, write, ret. by intros [= <- <-].
  - destruct (truthy _); [by intros [= <- <-]|apply load_from_disk_id].
Qed.

(** X12.  _loadPlugin asks the module resolver for nothing but the request
    it derives from the name, and always from [a.js] in the working
    directory, never from the importer.  For a name with white space that
    is not a file path it asks for nothing at all, whatever the pool holds:
    it returns the object with the error of the white space.  A plugin of
    the pool, under the request or under the id, is returned as it is,
    and nothing is asked either. *)
Theorem loadPlugin_resolution :
  (∀ self name importerPath importerName s s' r,
     _loadPlugin isAbsolute join resolve require normalizePackageName
       getShorthandName instanceof_Error render debug_enabled self name
       importerPath importerName s = (s', r) →
     ∃ later,
       trace s' = trace s ++ later ∧
       Forall (resolves (plugin_request name) (join (cwd self) "a.js")) later)
  ∧
  (∀ self name importerPath importerName s,
     isFilePath isAbsolute name = false → has_whitespace name = true →
     let error := length (heap_of s) in
     _loadPlugin isAbsolute join resolve require normalizePackageName
       getShorthandName instanceof_Error render debug_enabled self name
       importerPath importerName s =
     (FState
        (heap_of s ++
         [ Object Plain
             [ (KName "message",
                 VStr ("Whitespace found in plugin name '" +:+ name +:+ "'"));
               (KName "messageTemplate", VStr "whitespace-found");
               (KName "messageData", VRef (S error)) ];
           Object Plain [(KName "pluginName", VStr (plugin_request name))] ])
        (trace s),
      Ret (Literal (VRef error) (plugin_id name) importerPath)))
  ∧
  (∀ self name importerPath importerName s plugin,
     isFilePath isAbsolute name = false → has_whitespace name = false →
     truthy plugin = true →
     additionalPluginPool self !! plugin_request name = Some plugin ∨
     (additionalPluginPool self !! plugin_request name = None ∧
      additionalPluginPool self !! plugin_id name = Some plugin) →
     _loadPlugin isAbsolute join resolve require normalizePackageName
       getShorthandName instanceof_Error render debug_enabled self name
       importerPath importerName s =
     (s, Ret (Instance {| definition := plugin;
                          error := VNull;
                          filePath := VStr importerPath;
                          id := VStr (plugin_id name);
                          importerName := importerName;
                          importerPath := VStr importerPath |}))).
Proof.
  split; [|split].
  - intros self name importerPath importerName s s' r E.
    by eapply logs_loadPlugin.
  - intros self name importerPath importerName s Hname Hspace error.
    unfold _loadPlugin, Props.plugin_request, Props.plugin_id.
    rewrite Hname, Hspace.
    unfold bind, new_Error, bind, alloc, write, ret, heap_set. simpl.
    f_equal. f_equal.
    rewrite length_alter, length_app. simpl. rewrite Nat.add_1_r.
    rewrite (alter_app_r_alt _ (heap_of s)) by lia.
    rewrite Nat.sub_diag. simpl.
    rewrite <- app_assoc. rewrite alter_app_r_alt by lia.
    by rewrite Nat.sub_diag.
  - intros self name importerPath importerName s plugin Hname Hspace Ht Hpool.
    unfold _loadPlugin. unfold Props.plugin_request, Props.plugin_id in *.
    rewrite Hname in *. rewrite Hspace. unfold pool_get.
    destruct Hpool as [->|[-> ->]]; simpl; by repeat rewrite Ht.
Qed.

Lemma map_set_keys k v (m : list (value * loaded)) :
  (map_set k v m).*1 = if bool_decide (k ∈ m.*1) then m.*1 else m.*1 ++ [k].
Proof.
  induction m as [|[k' v'] m IH]; [done|].
  cbn [map_set]. destruct (decide (k' = k)) as [->|Hk]; rewrite !fmap_cons;
    cbn [fst].
  - rewrite bool_decide_eq_true_2; [done|]. apply list_elem_of_here.
  - rewrite IH.
    destruct (bool_decide (k ∈ m.*1)) eqn:E.
    + rewrite bool_decide_eq_true_2; [done|].
      apply list_elem_of_further. by apply bool_decide_eq_true in E.
    + rewrite bool_decide_eq_false_2; [done|].
      apply bool_decide_eq_false in E.
      intros [?|?]%elem_of_cons; congruence.
Qed.

Lemma map_set_elem k v (m : list (value * loaded)) entry :
  entry ∈ map_set k v m → entry = (k, v) ∨ entry ∈ m.
Proof.
  induction m as [|[k' v'] m IH]; simpl.
  - rewrite list_elem_of_singleton. auto.
  - case_decide; rewrite !elem_of_cons; intros [E|E]; auto.
    destruct (IH E); auto.
Qed.

Lemma keyed_by_id_set p (m : list (value * loaded)) :
  keyed_by_id m → keyed_by_id (map_set (loaded_id p) p m).
Proof.
  intros [Hnd Hid]. split.
  - rewrite map_set_keys. case_bool_decide as Hk; [done|].
    apply NoDup_app. split; [done|]. split; [|apply NoDup_singleton].
    intros k Hin ->%list_elem_of_singleton. done.
  - apply Forall_forall. intros entry [->|Hin]%map_set_elem; [done|].
    by eapply (proj1 (Forall_forall _ _) Hid).
Qed.

Lemma load_each_keyed self names importerPath importerName :
  ∀ map s s' result,
    load_each isAbsolute join resolve require normalizePackageName
      getShorthandName instanceof_Error render debug_enabled self names
      importerPath importerName map s = (s', Ret result) →
    keyed_by_id map →
    keyed_by_id result ∧
    (∀ k, k ∈ map.*1 → k ∈ result.*1) ∧
    Forall (λ name, isFilePath isAbsolute name = false ∧
                    VStr (plugin_id name) ∈ result.*1) names.
Proof.
  induction names as [|name names IH]; intros map s s' result E Hmap.
  { injection E as <- <-. split; [done|]. split; [done|constructor]. }
  simpl in E. destruct (isFilePath isAbsolute name) eqn:Ename; [done|].
  unfold bind in E.
  destruct (_loadPlugin _ _ _ _ _ _ _ _ _ _ _ _ _ s) as [s1 [p|e]] eqn:Ep;
    [|done].
  pose proof (loadPlugin_id _ _ _ _ _ _ _ Ep) as Hid.
  apply IH in E as (Hres & Hkeys & Hnames); [|by apply keyed_by_id_set].
  assert (∀ k, k ∈ (map_set (loaded_id p) p map).*1 ↔
               k = loaded_id p ∨ k ∈ map.*1) as Hset.
  { intros k. rewrite map_set_keys. case_bool_decide as Hk.
    - split; [auto|]. by intros [->|?].
    - rewrite elem_of_app, list_elem_of_singleton. tauto. }
  split; [done|]. split.
  - intros k Hk. apply Hkeys, Hset. by right.
  - constructor; [|done]. split; [done|].
    apply Hkeys, Hset. left. by rewrite Hid.
Qed.

(** X13.  When _loadPlugins returns, no name of the list is a file path,
    the record it returns has one entry for each plugin id, each under the
    id of the plugin it holds, and it has an entry under the id of every
    name of the list. *)
Theorem loadPlugins_keyed_by_id :
  ∀ self names importerPath importerName s s' result,
    _loadPlugins isAbsolute join resolve require normalizePackageName
      getShorthandName instanceof_Error render debug_enabled self names
      importerPath importerName s = (s', Ret result) →
    keyed_by_id result ∧
    Forall (λ name, isFilePath isAbsolute name = false ∧
                    VStr (plugin_id name) ∈ result.*1) names.
Proof.
  intros self names importerPath importerName s s' result E.
  apply load_each_keyed in E as (H1 & _ & H2); [done|].
  split; [apply NoDup_nil_2|constructor].
Qed.

End Loaders.

Lemma loadPlugin_resolution_witness :
  let load :=
    _loadPlugin OverrideTester.posix_isAbsolute (λ a b, a +:+ "/" +:+ b)
      Scenarios.not_found Scenarios.require (λ n _, "eslint-plugin-" +:+ n)
      (λ n _, String.substring 14 (String.length n - 14) n)
      (λ _ _, true) Scenarios.render false Scenarios.my_parser in
  let found :=
    load "react" "/project/packages/.eslintrc" (VStr ".eslintrc")
      Scenarios.loader_state in
  let spaced :=
    load "my plugin" "/project/packages/.eslintrc" (VStr ".eslintrc")
      Scenarios.loader_state in
  (∃ later,
     trace (fst found) = trace Scenarios.loader_state ++ later ∧
     Forall (resolves "eslint-plugin-react" "/project/a.js") later) ∧
  trace (fst found) = [Resolve "eslint-plugin-react" "/project/a.js"] ∧
  snd spaced = Ret (Literal (VRef 2) "my plugin" "/project/packages/.eslintrc") ∧
  trace (fst spaced) = [].
Proof.
  intros load found spaced.
  destruct (loadPlugin_resolution OverrideTester.posix_isAbsolute
              (λ a b, a +:+ "/" +:+ b) Scenarios.not_found Scenarios.require
              (λ n _, "eslint-plugin-" +:+ n)
              (λ n _, String.substring 14 (String.length n - 14) n)
              (λ _ _, true) Scenarios.render false) as (H1 & H2 & _).
  split.
  { apply (H1 Scenarios.my_parser "react" "/project/packages/.eslintrc"
             (VStr ".eslintrc") Scenarios.loader_state (fst found) (snd found)).
    apply surjective_pairing. }
  split; [done|].
  subst spaced load.
  rewrite (H2 Scenarios.my_parser "my plugin" "/project/packages/.eslintrc"
             (VStr ".eslintrc") Scenarios.loader_state eq_refl eq_refl).
  done.
Defined.

Lemma loadPlugins_keyed_by_id_witness :
  let pool : gmap string value :=
    {[ "eslint-plugin-a" := VRef 0; "eslint-plugin-b" := VRef 0 ]} in
  let self := {| additionalParserPool := ∅; additionalPluginPool := pool;
                 cwd := "/project" |} in
  let run :=
    _loadPlugins OverrideTester.posix_isAbsolute (λ a b, a +:+ "/" +:+ b)
      Scenarios.not_found Scenarios.require (λ n _, "eslint-plugin-" +:+ n)
      (λ n _, String.substring 14 (String.length n - 14) n)
      (λ _ _, true) Scenarios.render false self ["a"; "b"; "a"]
      "/project/.eslintrc" (VStr ".eslintrc") Scenarios.loader_state in
  ∃ result,
    snd run = Ret result ∧ result.*1 = [VStr "a"; VStr "b"] ∧
    keyed_by_id result.
Proof.
  intros pool self run.
  destruct run as [s' r] eqn:E. pose proof E as E'.
  vm_compute in E'. injection E' as _ <-.
  eexists. split; [reflexivity|]. split; [reflexivity|].
  by destruct (loadPlugins_keyed_by_id _ _ _ _ _ _ _ _ _ _ _ _ _ _ _ _ E).
Defined.

Lemma loadParser_captures_witness :
  let resolve (request importer : string) : outcome string :=
    Ret ("/project/node_modules/" +:+ request +:+ "/index.js") in
  let require (id : string) : outcome value := Ret (VRef 0) in
  _loadParser (λ a b, a +:+ "/" +:+ b) resolve require (λ _ _, true)
    Scenarios.render false Scenarios.my_parser "espree" "" (VStr ".eslintrc")
    Scenarios.loader_state =
  (FState (heap_of Scenarios.loader_state)
     [Resolve "espree" "/project/a.js";
      Require "/project/node_modules/espree/index.js"],
   Ret {| definition := VRef 0;
          error := VNull;
          filePath := VStr "/project/node_modules/espree/index.js";
          id := VStr "espree";
          importerName := VStr ".eslintrc";
          importerPath := VStr "" |}).
Proof.
  intros resolve require.
  destruct (loadParser_captures (λ a b, a +:+ "/" +:+ b) resolve require
              (λ _ _, true) Scenarios.render false) as [_ H].
  by apply (H Scenarios.my_parser "espree" "" (VStr ".eslintrc")
              Scenarios.loader_state "/project/node_modules/espree/index.js"
              (VRef 0)).
Defined.

End FactoryProperties.

(* ===================================================================== *)
(** * More about the members of the plugins *)
(* ===================================================================== *)

Module PluginMemberProperties.
Import JS Eff Merge JSFacts MergeFacts KeyFacts Props.
Import ConfigArray.

Lemma string_app_inj (p a b : string) : p +:+ a = p +:+ b → a = b.
Proof.
  induction p as [|c p IH]; [done|].
  rewrite !app_cons. intros [= E]. auto.
Qed.

Lemma slot_map_set which k v w w' :
  map_set which k v w = (w', Ret tt) →
  slot which w' = <[k := v]> (slot which w) ∧
  (∀ other, other ≠ which → slot other w' = slot other w) ∧
  heap_of w' = heap_of w ∧ cache w' = cache w.
Proof.
  unfold map_set. intros [= <-].
  destruct which; (split; [done|]); (split; [|done]);
    intros other Hne; by destruct other.
Qed.

Section Collect.
Variable pluginId : string.
Variable which : member_map.
Variable o : object.

Local Abbreviation id_of k := (member_prefix pluginId +:+ key_to_string k).

Lemma collect_loop ks :
  NoDup (map key_to_string ks) →
  ∀ w, ∃ w',
    for_each (map (λ k, (k, obj_get o k)) ks)
      (λ entry,
         let! v := ret (snd entry) in
         map_set which
           ((if String.eqb pluginId "" then pluginId else pluginId +:+ "/")
              +:+ key_to_string (fst entry)) v) w = (w', Ret tt) ∧
    heap_of w' = heap_of w ∧ cache w' = cache w ∧
    (∀ other, other ≠ which → slot other w' = slot other w) ∧
    (∀ k, k ∈ ks → slot which w' !! id_of k = Some (obj_get o k)) ∧
    (∀ id, (∀ k, k ∈ ks → id ≠ id_of k) →
           slot which w' !! id = slot which w !! id).
Proof.
  assert ((if String.eqb pluginId "" then pluginId else pluginId +:+ "/")
          = member_prefix pluginId) as ->.
  { unfold member_prefix. by destruct (String.eqb_spec pluginId "") as [->|]. }
  induction ks as [|k0 ks IH]; intros Hnd w.
  { exists w. repeat split; try done. intros k Hk. by apply elem_of_nil in Hk. }
  apply NoDup_cons in Hnd as [Hk0 Hnd].
  destruct (map_set which (id_of k0) (obj_get o k0) w) as [w1 r] eqn:E1.
  assert (r = Ret tt) as -> by (unfold map_set in E1; by injection E1).
  destruct (slot_map_set _ _ _ _ _ E1) as (Hs1 & Ho1 & Hh1 & Hc1).
  destruct (IH Hnd w1) as (w' & E & Hh & Hc & Ho & Hin & Hout).
  exists w'. split.
  { simpl. unfold bind at 1. unfold bind at 1. unfold ret at 1.
    cbn [fst snd]. by rewrite E1. }
  split; [congruence|]. split; [congruence|].
  split; [intros other Hne; by rewrite Ho, Ho1|].
  split.
  - intros k [->|Hk]%elem_of_cons; [|by apply Hin].
    rewrite Hout, Hs1; [apply lookup_insert_eq|].
    intros k Hk E'. apply string_app_inj in E'. apply Hk0.
    rewrite E'. apply list_elem_of_fmap. by exists k.
  - intros id Hid. rewrite Hout, Hs1.
    + apply lookup_insert_ne. intros E'. eapply Hid; [|done].
      apply list_elem_of_here.
    + intros k Hk. apply Hid. by apply list_elem_of_further.
Qed.

End Collect.

(** X14.  collect on definitions that are not truthy does nothing.  On an
    object whose keys are different as strings, it puts every value of the
    object into the map, under the key with the plugin id and a slash
    before it (the key alone for the empty id); the other entries of the
    map, the two other maps, the cache and the heap stay as they are.  The
    getter of the map then gives the value, or null for a value that is
    not truthy. *)
Theorem collect_registers :
  (∀ pluginId defs which normalize w,
     truthy defs = false →
     collect pluginId defs which normalize w = (w, Ret tt))
  ∧
  (∀ pluginId l o which w,
     heap_of w !! l = Some o → distinct_keys o →
     ∃ w',
       collect pluginId (VRef l) which None w = (w', Ret tt) ∧
       heap_of w' = heap_of w ∧ cache w' = cache w ∧
       (∀ other, other ≠ which → slot other w' = slot other w) ∧
       (∀ k, k ∈ own_keys o →
             let id := member_prefix pluginId +:+ key_to_string k in
             slot which w' !! id = Some (obj_get o k) ∧
             map_get which id w' =
               (w', Ret (if truthy (obj_get o k) then obj_get o k else VNull))) ∧
       (∀ id, (∀ k, k ∈ own_keys o →
                    id ≠ member_prefix pluginId +:+ key_to_string k) →
              slot which w' !! id = slot which w !! id)).
Proof.
  split.
  - intros pluginId defs which normalize w Hd. unfold collect. by rewrite Hd.
  - intros pluginId l o which w El Hnd.
    destruct (collect_loop pluginId which o (own_keys o) Hnd w)
      as (w' & E & Hh & Hc & Ho & Hin & Hout).
    exists w'. split.
    { unfold collect. simpl. unfold bind at 1. unfold entries. rewrite El.
      exact E. }
    split; [done|]. split; [done|]. split; [done|]. split; [|done].
    intros k Hk id. specialize (Hin k Hk). split; [done|].
    unfold map_get. fold (slot which w'). subst id. by rewrite Hin.
Qed.

Lemma collect_registers_witness :
  let environments :=
    Object Plain [(KName "browser", VRef 5); (KName "node", VNum 0)] in
  ∃ w',
    collect "react" (VRef 0) EnvMap None (initial [environments])
      = (w', Ret tt) ∧
    envMap w' !! "react/browser" = Some (VRef 5) ∧
    getPluginEnvironment "react/browser" w' = (w', Ret (VRef 5)) ∧
    getPluginEnvironment "react/node" w' = (w', Ret VNull) ∧
    getPluginEnvironment "browser" w' = (w', Ret VNull).
Proof.
  intros environments.
  destruct collect_registers as [_ H].
  destruct (H "react" 0 environments EnvMap (initial [environments]) eq_refl)
    as (w' & E & _ & _ & _ & Hin & Hout).
  { apply (bool_decide_unpack _). by vm_compute. }
  exists w'. split; [done|].
  destruct (Hin (KName "browser")) as [H1 H2];
    [apply (bool_decide_unpack _); by vm_compute|].
  destruct (Hin (KName "node")) as [_ H3];
    [apply (bool_decide_unpack _); by vm_compute|].
  split; [done|]. split; [done|]. split; [done|].
  unfold getPluginEnvironment, map_get. fold (slot EnvMap w').
  rewrite Hout; [done|].
  intros k Hk. apply elem_of_cons in Hk as [->|Hk]; [done|].
  apply elem_of_cons in Hk as [->|Hk]; [done|]. by apply elem_of_nil in Hk.
Defined.

Section Rules.
Variable require : string → outcome value.

Lemma normalizePluginRule_shape fuel :
  ∀ rule w w' v,
    normalizePluginRule require fuel rule w = (w', Ret v) →
    is_string v = false ∧ (∀ f, v ≠ VFun f) ∧ same_slots w w' ∧
    (w' = w ∨
     ∃ f, v = VRef (length (heap_of w)) ∧
          heap_of w' = heap_of w ++ [Object Plain [(KName "create", VFun f)]]).
Proof.
  induction fuel as [|fuel IH]; intros rule w w' v E; simpl in E; [done|].
  destruct rule as [| | | |id|f|l];
    try (injection E as <- <-; repeat split; try done; by left).
  - unfold bind, lift in E. destruct (require id) as [loaded|e]; [|done].
    by apply IH in E.
  - unfold bind, alloc, ret in E. injection E as <- <-.
    repeat split; try done. right. by exists f.
Qed.


End Rules.


End PluginMemberProperties.

(* ===================================================================== *)
(** * The cascade: which element gives a key of env, globals,
      parserOptions and settings its value *)
(* ===================================================================== *)

Module CascadeProperties.
Import JS Eff Merge JSFacts MergeFacts KeyFacts ExtractFacts ParserFacts
  RuleFacts FrameFacts VariantFacts Props MergeProperties.

(** ** What the merges of the plugins and of the rules leave alone *)

Lemma frames_refl T h : frames T h h.
Proof. by intros l _. Qed.

Lemma frames_trans T h1 h2 h3 :
  frames T h1 h2 → frames T h2 h3 → frames T h1 h3.
Proof. intros H12 H23 l Hl. by rewrite H23, H12. Qed.

Lemma frames_alloc h0 T (h : heap) o :
  cfg_inv h0 T h → frames T h (h ++ [o]).
Proof.
  intros I l Hl. apply lookup_app_l. by apply (ci_bounded _ _ _ I).
Qed.

Lemma frames_alter T (h : heap) f l : ¬ T l → frames T h (alter f l h).
Proof. intros Hl l' Hl'. apply list_lookup_alter_ne. by intros ->. Qed.

Lemma mergeRule_frames h0 T s key w w' r :
  cfg_inv h0 T (heap_of w) →
  mergeRule (length h0 + 4) s key w = (w', r) →
  frames T (heap_of w) (heap_of w').
Proof.
  intros I E. pose proof (cfg_inv_length _ _ _ I) as Hlen.
  destruct (ci_out _ _ _ I) as (_ & Hrules & _).
  unfold mergeRule in E.
  inv_bind E; [|inv_prim E]. inv_prim E0.
  inv_bind E; [|inv_prim E]. inv_prim E0.
  destruct (is_undefined _) eqn:Eundef.
  - assert (∀ vs w1 r1,
              (let! a := alloc (array_of_list vs) in
               write (length h0 + 4) key (VRef a)) w = (w1, r1) →
              frames T (heap_of w) (heap_of w1)) as Hstore.
    { intros vs w1 r1 E1. inv_bind E1; [|inv_prim E1]. inv_prim E0.
      inv_prim E1. simpl.
      eapply frames_trans; [by eapply frames_alloc|].
      by apply frames_alter. }
    inv_bind E; [|inv_prim E]. inv_prim E0.
    destruct (isArray _ _).
    + inv_bind E; [apply spread_pure in E0 as ->; eauto|].
      apply spread_pure in E as ->. apply frames_refl.
    + eauto.
  - inv_bind E; [apply get_prop_pure in E0 as ->|
                 apply get_prop_pure in E as ->; apply frames_refl].
    case_decide; [|inv_prim E; apply frames_refl].
    inv_bind E; [|inv_prim E]. inv_prim E0.
    destruct (isArray (heap_of w) (heap_get (heap_of w) s key));
      [|inv_prim E; apply frames_refl].
    inv_bind E; [apply get_prop_pure in E0 as ->|
                 apply get_prop_pure in E as ->; apply frames_refl].
    destruct (at_least _ _); [|inv_prim E; apply frames_refl].
    inv_bind E; [apply spread_pure in E0 as ->|
                 apply spread_pure in E as ->; apply frames_refl].
    unfold push in E.
    destruct (heap_get (heap_of w) (length h0 + 4) key) as [| | | | | |tl] eqn:Etd;
      try (inv_prim E; apply frames_refl).
    inv_bind E; [|inv_prim E]. inv_prim E0.
    apply heap_get_ref in Etd as (R & ER & Hin).
    destruct (ci_rules _ _ _ I) as (R' & ER' & _ & HR).
    assert (R' = R) as -> by congruence.
    destruct (HR _ _ Hin) as (a' & arr & [= <-] & Ha & HTa & Ea & Aa).
    rewrite Ea, Aa in E. inv_prim E. simpl.
    by apply frames_alter.
Qed.

Lemma mergeRules_frames h0 T source w w' r :
  cfg_inv h0 T (heap_of w) →
  mergeRules (length h0 + 4) source w = (w', r) →
  frames T (heap_of w) (heap_of w').
Proof.
  intros I E. unfold mergeRules in E.
  destruct source; try (inv_prim E; apply frames_refl).
  inv_bind E; [|inv_prim E; apply frames_refl]. inv_prim E0.
  revert E.
  apply (for_each_inv
           (λ w1, keeps h0 T w w1 ∧ frames T (heap_of w) (heap_of w1)));
    [|split; [by apply keeps_refl|apply frames_refl]].
  intros key w1 w2 r1 [K1 F1] E1. split.
  - eapply keeps_trans; [exact K1|]. eapply mergeRule_keeps; [apply K1|done].
  - eapply frames_trans; [exact F1|]. eapply mergeRule_frames; [apply K1|done].
Qed.

Lemma lazy_mergePlugins_frame : plugins_frame ConfigArrayLazy.mergePlugins.
Proof.
  intros h0 T source w w' r I E. unfold ConfigArrayLazy.mergePlugins in E.
  destruct source; try (inv_prim E; apply frames_refl).
  inv_bind E; [|inv_prim E; apply frames_refl]. inv_prim E0.
  revert E.
  apply (for_each_inv
           (λ w1, keeps h0 T w w1 ∧ frames T (heap_of w) (heap_of w1)));
    [|split; [by apply keeps_refl|apply frames_refl]].
  intros key w1 w2 r1 [K1 F1] E1.
  assert (keeps h0 T w1 w2 ∧ frames T (heap_of w1) (heap_of w2)) as [K2 F2].
  { destruct K1 as (I1 & _ & _).
    destruct (ci_out _ _ _ I1) as (Hplugins & _ & _).
    unfold ConfigArrayLazy.mergePlugin in E1.
    inv_bind E1; [|inv_prim E1]. inv_prim E0.
    inv_bind E1; [|inv_prim E1]. inv_prim E0.
    destruct (is_undefined _);
      [|inv_prim E1; split; [by apply keeps_refl|apply frames_refl]].
    inv_bind E1; [apply get_prop_pure in E0 as ->|
                  apply get_prop_pure in E1 as ->;
                  split; [by apply keeps_refl|apply frames_refl]].
    destruct (truthy a); inv_prim E1;
      [split; [by apply keeps_refl|apply frames_refl]|].
    split; [by apply keeps_set_plugin|by apply frames_alter]. }
  split; [by eapply keeps_trans|by eapply frames_trans].
Qed.

Lemma settles_refl h0 T w : cfg_inv h0 T (heap_of w) → settles h0 T w w.
Proof. intros I. split; [by apply keeps_refl|apply frames_refl]. Qed.

Lemma settles_trans h0 T w1 w2 w3 :
  settles h0 T w1 w2 → settles h0 T w2 w3 → settles h0 T w1 w3.
Proof.
  intros [K1 F1] [K2 F2]. split; [by eapply keeps_trans|by eapply frames_trans].
Qed.

Section EagerPlugins.
Variable require : string → outcome value.

Lemma settles_maps h0 T w w' :
  cfg_inv h0 T (heap_of w) → heap_of w' = heap_of w → cache w' = cache w →
  settles h0 T w w'.
Proof.
  intros I Eh Ec. split; [by apply keeps_maps|]. rewrite Eh. apply frames_refl.
Qed.

Lemma normalizePluginRule_settles h0 T fuel :
  ∀ rule w w' r,
    cfg_inv h0 T (heap_of w) →
    ConfigArray.normalizePluginRule require fuel rule w = (w', r) →
    settles h0 T w w'.
Proof.
  induction fuel as [|fuel IH]; intros rule w w' r I E; simpl in E.
  { inv_prim E. by apply settles_refl. }
  destruct rule; try (inv_prim E; by apply settles_refl).
  - inv_bind E; [|inv_prim E; by apply settles_refl].
    inv_prim E0. eauto.
  - inv_bind E; [|inv_prim E]. inv_prim E0. inv_prim E.
    split; [by apply keeps_alloc|by eapply frames_alloc].
Qed.

Lemma collect_settles h0 T fuel pluginId defs map normalize w w' r :
  normalize = None ∨ normalize = Some (ConfigArray.normalizePluginRule require fuel) →
  cfg_inv h0 T (heap_of w) →
  ConfigArray.collect pluginId defs map normalize w = (w', r) →
  settles h0 T w w'.
Proof.
  intros Hn I E. unfold ConfigArray.collect in E.
  destruct (truthy defs); [|inv_prim E; by apply settles_refl].
  inv_bind E.
  2:{ unfold ConfigArray.entries in E. destruct defs; inv_prim E. }
  assert (w0 = w) as ->.
  { unfold ConfigArray.entries in E0. destruct defs; by inv_prim E0. }
  clear E0. revert E.
  apply (for_each_inv (λ w1, settles h0 T w w1)); [|by apply settles_refl].
  intros entry w1 w2 r1 K1 E1.
  eapply settles_trans; [exact K1|]. destruct K1 as ((I1 & _ & _) & _).
  inv_bind E1.
  - eapply settles_trans.
    + destruct Hn as [-> | ->]; [inv_prim E0; by apply settles_refl|].
      by eapply normalizePluginRule_settles.
    + assert (cfg_inv h0 T (heap_of w0)) as I0.
      { destruct Hn as [-> | ->]; [by inv_prim E0|].
        by eapply normalizePluginRule_settles. }
      unfold ConfigArray.map_set in E1. destruct map; inv_prim E1;
        by apply settles_maps.
  - destruct Hn as [-> | ->]; [inv_prim E1|].
    by eapply normalizePluginRule_settles.
Qed.

Lemma eager_mergePlugins_settles fuel h0 T source w w' r :
  cfg_inv h0 T (heap_of w) →
  ConfigArray.mergePlugins require fuel (length h0 + 3) source w = (w', r) →
  settles h0 T w w'.
Proof.
  intros I E. unfold ConfigArray.mergePlugins in E.
  destruct source; try (inv_prim E; by apply settles_refl).
  inv_bind E; [|inv_prim E; by apply settles_refl]. inv_prim E0.
  revert E. apply (for_each_inv (λ w1, settles h0 T w w1)); [|by apply settles_refl].
  intros key w1 w2 r1 K1 E1.
  eapply settles_trans; [exact K1|]. destruct K1 as ((I1 & _ & _) & _).
  clear I w. revert E1. generalize w1 I1. clear w1 I1. intros w I E.
  unfold ConfigArray.mergePlugin in E.
  inv_bind E; [|inv_prim E]. inv_prim E0.
  inv_bind E; [|inv_prim E]. inv_prim E0.
  destruct (is_undefined _); [|inv_prim E; by apply settles_refl].
  inv_bind E; [apply get_prop_pure in E0 as ->|
               apply get_prop_pure in E as ->; by apply settles_refl].
  destruct (truthy a); [inv_prim E; by apply settles_refl|].
  inv_bind E; [|inv_prim E]. inv_prim E0.
  set (sv := heap_get (heap_of w) l key) in *.
  assert (settles h0 T w
            (with_heap (heap_set (length h0 + 3) key sv (heap_of w)) w)) as K1.
  { split; [by apply keeps_set_plugin|].
    apply frames_alter. apply (ci_out _ _ _ I). }
  eapply settles_trans; [exact K1|]. destruct K1 as ((I1 & _ & _) & _).
  revert E I1.
  generalize (with_heap (heap_set (length h0 + 3) key sv (heap_of w)) w).
  clearbody sv. clear I w. intros w E I.
  assert (∀ wa (k : string) (which : ConfigArray.member_map) normalize
            (rest : M unit) wb rb,
            normalize = None ∨
            normalize = Some (ConfigArray.normalizePluginRule require fuel) →
            cfg_inv h0 T (heap_of wa) →
            (let! definition := get_prop sv (KName "definition") in
             let! defs := get_prop definition (KName k) in
             ConfigArray.collect (key_to_string key) defs which normalize ;;
             rest) wa = (wb, rb) →
            settles h0 T wa wb ∨
            ∃ wc, settles h0 T wa wc ∧ rest wc = (wb, rb)) as Hstep.
  { intros wa k which normalize rest wb rb Hn I1 E1.
    inv_bind E1; [apply get_prop_pure in E0 as ->|
                  apply get_prop_pure in E1 as ->; left; by apply settles_refl].
    inv_bind E1; [apply get_prop_pure in E0 as ->|
                  apply get_prop_pure in E1 as ->; left; by apply settles_refl].
    inv_bind E1.
    - right. eexists. split; [|done]. by eapply collect_settles.
    - left. by eapply collect_settles. }
  eapply Hstep in E as [?|(w3 & K3 & E)]; [done| |by left|done].
  eapply settles_trans; [exact K3|].
  eapply Hstep in E as [?|(w4 & K4 & E)]; [done| |by left|apply K3].
  eapply settles_trans; [exact K4|].
  inv_bind E; [apply get_prop_pure in E0 as ->|
               apply get_prop_pure in E as ->; by apply settles_refl; apply K4].
  inv_bind E; [apply get_prop_pure in E0 as ->|
               apply get_prop_pure in E as ->; by apply settles_refl; apply K4].
  eapply collect_settles; [by right|apply K4|done].
Qed.

Lemma eager_mergePlugins_frame fuel :
  plugins_frame (ConfigArray.mergePlugins require fuel).
Proof.
  intros h0 T source w w' r I E.
  by eapply eager_mergePlugins_settles in E as [_ F].
Qed.

End EagerPlugins.

(** ** The record that is followed, and the rest of the region *)

Lemma cfg_inv_ext h0 T T' h :
  (∀ l, T l ↔ T' l) → cfg_inv h0 T h → cfg_inv h0 T' h.
Proof.
  intros HT [Hf HC HP (R & ER & AR & HR) (I1 & I2 & I3 & I4) (O1 & O2 & O3)
               Hlow Hcl Hb].
  split; try done.
  - exists R. repeat split; [done..|]. intros k v Hin.
    destruct (HR k v Hin) as (a & arr & -> & Ha & HTa & Ea & Aa).
    exists a, arr. repeat split; auto. by rewrite <- HT.
  - by rewrite <- !HT.
  - by rewrite <- !HT.
  - intros l Hl. apply Hlow. by apply HT.
  - intros l o k l' Hl El Hin. apply HT. eapply Hcl; [by apply HT|done..].
  - intros l Hl. apply Hb. by apply HT.
Qed.

Lemma record_in_region h0 T h f :
  cfg_inv h0 T h → T (length h0 + field_offset f).
Proof.
  intros I. destruct (ci_in _ _ _ I) as (I1 & I2 & I3 & I4).
  destruct f; simpl; rewrite ?Nat.add_0_r; done.
Qed.

Lemma field_offset_inj f f' : field_offset f = field_offset f' → f = f'.
Proof. by destruct f, f'. Qed.

Lemma sep_inv_frames h0 rec Tr h h' E :
  sep_inv h0 rec Tr h E →
  cfg_inv h0 (λ l, l = rec ∨ Tr l) h' →
  frames (λ l, l = rec ∨ Tr l) h h' →
  sep_inv h0 rec Tr h' E.
Proof.
  intros [I O C R P F] I' Fr. split; try done.
  - intros l o k l' Hl El Hin. rewrite (Fr l) in El by auto. by eapply C.
  - rewrite Fr by auto. done.
Qed.

Lemma sep_inv_settles h0 rec Tr w w' E :
  sep_inv h0 rec Tr (heap_of w) E →
  settles h0 (λ l, l = rec ∨ Tr l) w w' →
  sep_inv h0 rec Tr (heap_of w') E.
Proof. intros S [(I & _) F]. by eapply sep_inv_frames. Qed.

Lemma sep_inv_set_config h0 rec Tr h E k v :
  sep_inv h0 rec Tr h E → k = KName "parser" ∨ k = KName "processor" →
  sep_inv h0 rec Tr (heap_set (length h0 + 6) k v h) E.
Proof.
  intros S Hk. eapply sep_inv_frames; [done| |].
  - apply cfg_inv_set_config; [apply S|done].
  - apply frames_alter. apply (ci_out _ _ _ (si_cfg _ _ _ _ _ S)).
Qed.

Lemma sep_inv_grows h0 rec Tr h E Tr' h' :
  sep_inv h0 rec Tr h E → grows Tr h Tr' h' → sep_inv h0 rec Tr' h' E.
Proof.
  intros [I O C R P F] G.
  assert (rec < length h) as Hrec by (by eapply lookup_lt_Some).
  assert (h' !! rec = Some E) as R'.
  { by rewrite (grows_frame _ _ _ _ G). }
  assert (¬ Tr' rec) as O'.
  { intros H. destruct (grows_new _ _ _ _ G _ H); [done|lia]. }
  split; try done; [|apply G].
  apply (cfg_inv_grows h0 (λ l, l = rec ∨ Tr l) h); [done|].
  destruct G as [Gi Gn Gb Gc Gl Gf Gs]. split.
  - intros l [->|Hl]; auto.
  - intros l [->|Hl]; [auto|]. destruct (Gn l Hl); auto.
  - intros l [->|Hl]; [lia|auto].
  - intros l o k l' [->|Hl] El Hin.
    + rewrite R' in El. simplify_eq. by apply F in Hin.
    + right. by eapply Gc.
  - done.
  - intros l Hl Hn. apply Gf; [done|]. intros H. apply Hn. auto.
  - done.
Qed.

Lemma sep_inv_update h0 rec Tr (h : heap) E (h' : heap) E' :
  sep_inv h0 rec Tr h E →
  length h' = length h → (∀ l, l ≠ rec → h' !! l = h !! l) →
  h' !! rec = Some E' → is_array E' = false → flat E' →
  sep_inv h0 rec Tr h' E'.
Proof.
  intros [I O C R P F] Hlen Hother R' P' F'.
  destruct I as [Hf (C0 & EC & AC & HC) (P0 & EP & AP) (R0 & ER & AR & HR)
                   (I1 & I2 & I3 & I4) (O1 & O2 & O3) Hlow Hcl Hb].
  assert (∀ l, ¬ (l = rec ∨ Tr l) → l ≠ rec) as Hout by (intros l H ->; auto).
  split; try done.
  - split.
    + intros l Hl. rewrite Hother; [auto|].
      pose proof (Hlow rec (or_introl eq_refl)). lia.
    + exists C0. by rewrite Hother by auto.
    + exists P0. by rewrite Hother by auto.
    + exists R0. rewrite Hother by auto. repeat split; [done..|].
      intros k v Hin.
      destruct (HR k v Hin) as (a & arr & -> & Ha & HTa & Ea & Aa).
      exists a, arr. rewrite Hother by auto. done.
    + done.
    + done.
    + done.
    + intros l o k l' Hl El Hin. destruct (decide (l = rec)) as [->|Hne].
      * rewrite R' in El. simplify_eq. by apply F' in Hin.
      * rewrite Hother in El by done. by eapply Hcl.
    + intros l Hl. rewrite Hlen. by apply Hb.
  - intros l o k l' Hl El Hin. rewrite Hother in El by (by intros ->).
    by eapply C.
Qed.

(** ** assignWithoutOverwrite on one of the four records *)

Lemma assign_field h0 f f' Tr E fuel e w w' :
  sep_inv h0 (length h0 + field_offset f) Tr (heap_of w) E →
  flat_field h0 f e →
  assignWithoutOverwrite fuel (length h0 + field_offset f') (field_source f' e) w
    = (w', Ret tt) →
  ∃ Tr' E',
    sep_inv h0 (length h0 + field_offset f) Tr' (heap_of w') E' ∧
    ∀ k, obj_get E' k =
         if decide (f' = f)
         then match source_of h0 f e with
              | Some source => defaulted E source k
              | None => obj_get E k
              end
         else obj_get E k.
Proof.
  intros HS Hflat Ea. destruct (decide (f' = f)) as [->|Hne].
  - destruct fuel as [|fuel]; [by inv_prim Ea|].
    unfold source_of.
    destruct (field_source f e) as [| |b|n|str|fn|s] eqn:Ev;
      try (simpl in Ea; inv_prim Ea; by exists Tr, E).
    destruct (Hflat s Ev) as (source & Es & As & Fs). rewrite Es.
    assert (s < length h0) as Hs by (by eapply lookup_lt_Some).
    assert (heap_of w !! s = Some source) as Es'.
    { by rewrite (ci_frame _ _ _ (si_cfg _ _ _ _ _ HS)). }
    destruct (assign_loop_flat fuel (length h0 + field_offset f) s source
                (own_keys source) ltac:(lia) Fs w E Es'
                (si_rec _ _ _ _ _ HS) (si_plain _ _ _ _ _ HS)
                (or_intror (si_flat _ _ _ _ _ HS)))
      as (w2 & E2 & Er & Et & Hf & Hl & Hsl & Ha & Hfl & Hg).
    rewrite assignWithoutOverwrite_unfold in Ea.
    unfold bind, object_keys in Ea. rewrite Es', Er in Ea. simplify_eq.
    exists Tr, E2. split.
    + eapply sep_inv_update; eauto. apply Hfl, HS.
    + intros k. rewrite Hg. case_bool_decide; [done|].
      by rewrite defaulted_absent.
  - pose proof (record_in_region _ _ _ f' (si_cfg _ _ _ _ _ HS)) as [Heq|Hin].
    { exfalso. apply Hne, field_offset_inj. lia. }
    eapply assignWithoutOverwrite_grows in Ea as (Tr' & G & _);
      [|exact Hin|apply HS|].
    + exists Tr', E. split; [by eapply sep_inv_grows|done].
    + intros l Hl. apply (ci_bounded _ _ _ (si_cfg _ _ _ _ _ HS)). auto.
Qed.

(** ** One element, then all of them *)

Lemma mergeElement_cascade mergePlugins h0 f Tr E fuel element w w' :
  plugins_ok mergePlugins → plugins_frame mergePlugins →
  sep_inv h0 (length h0 + field_offset f) Tr (heap_of w) E →
  flat_field h0 f element →
  mergeElement mergePlugins fuel (length h0 + 6) element w = (w', Ret tt) →
  ∃ Tr' E',
    sep_inv h0 (length h0 + field_offset f) Tr' (heap_of w') E' ∧
    ∀ k, obj_get E' k =
         match source_of h0 f element with
         | Some source => defaulted E source k
         | None => obj_get E k
         end.
Proof.
  intros Hok Hfr HS Hflat Em. unfold mergeElement in Em.
  (* parser *)
  inv_bind Em; [|done]. inv_prim Em0.
  inv_bind Em; [|done].
  assert (sep_inv h0 (length h0 + field_offset f) Tr (heap_of w0) E) as HS0.
  { destruct (negb _ && _); [|by inv_prim Em0].
    inv_bind Em0; [apply get_prop_pure in Em1 as ->|done].
    destruct (truthy a0); inv_prim Em0. simpl. apply sep_inv_set_config; auto. }
  clear Em0 HS.
  (* processor *)
  inv_bind Em; [|done]. inv_prim Em0.
  inv_bind Em; [|done].
  assert (sep_inv h0 (length h0 + field_offset f) Tr (heap_of w1) E) as HS1.
  { destruct (negb _ && _); inv_prim Em0; [|done].
    simpl. apply sep_inv_set_config; auto. }
  clear Em0 HS0.
  (* env, globals, parserOptions, settings *)
  assert (∀ f' name Tr1 E1 w1 w2 (rest : M unit),
            sep_inv h0 (length h0 + field_offset f) Tr1 (heap_of w1) E1 →
            (∀ T1, cfg_inv h0 T1 (heap_of w1) →
                   field (length h0 + 6) name w1
                     = (w1, Ret (length h0 + field_offset f'))) →
            (let! t := field (length h0 + 6) name in
             assignWithoutOverwrite fuel t (field_source f' element) ;; rest) w1
              = (w2, Ret tt) →
            ∃ Tr3 E3 w3,
              sep_inv h0 (length h0 + field_offset f) Tr3 (heap_of w3) E3 ∧
              rest w3 = (w2, Ret tt) ∧
              ∀ k, obj_get E3 k =
                   if decide (f' = f)
                   then match source_of h0 f element with
                        | Some source => defaulted E1 source k
                        | None => obj_get E1 k
                        end
                   else obj_get E1 k) as Hassign.
  { intros f' name Tr1 E1 w2 w3 rest HS2 Hfield E3.
    unfold bind at 1 in E3.
    rewrite (Hfield _ (si_cfg _ _ _ _ _ HS2)) in E3.
    inv_bind E3; [|done]. destruct a1.
    destruct (assign_field _ _ _ _ _ _ _ _ _ HS2 Hflat E0)
      as (Tr3 & E3' & HS3 & Hg).
    by exists Tr3, E3', w4. }
  apply (Hassign FEnv "env" Tr E) in Em as (Tr2 & E2 & w2 & HS2 & Em & H2);
    [|done|]; cycle 1.
  { intros T1 I1. simpl. rewrite Nat.add_0_r. apply (field_config _ _ _ I1). }
  apply (Hassign FGlobals "globals" Tr2 E2) in Em
    as (Tr3 & E3 & w3 & HS3 & Em & H3); [|done|]; cycle 1.
  { intros T1 I1. apply (field_config _ _ _ I1). }
  apply (Hassign FParserOptions "parserOptions" Tr3 E3) in Em
    as (Tr4 & E4 & w4 & HS4 & Em & H4); [|done|]; cycle 1.
  { intros T1 I1. apply (field_config _ _ _ I1). }
  apply (Hassign FSettings "settings" Tr4 E4) in Em
    as (Tr5 & E5 & w5 & HS5 & Em & H5); [|done|]; cycle 1.
  { intros T1 I1. apply (field_config _ _ _ I1). }
  clear Hassign.
  (* plugins, rules *)
  pose proof (si_cfg _ _ _ _ _ HS5) as I5.
  destruct (field_config _ _ _ I5) as (_ & _ & _ & Fp & _ & _).
  unfold bind at 1 in Em. rewrite Fp in Em.
  inv_bind Em; [|done].
  assert (sep_inv h0 (length h0 + field_offset f) Tr5 (heap_of w6) E5) as HS6.
  { eapply sep_inv_settles; [done|]. split; [by eapply Hok|by eapply Hfr]. }
  pose proof (si_cfg _ _ _ _ _ HS6) as I6.
  destruct (field_config _ _ _ I6) as (_ & _ & _ & _ & Fr & _).
  unfold bind at 1 in Em. rewrite Fr in Em.
  exists Tr5, E5. split.
  { eapply sep_inv_settles; [done|].
    split; [by eapply mergeRules_keeps|by eapply mergeRules_frames]. }
  intros k. unfold defaulted in *. rewrite H5, H4, H3, H2.
  destruct f; repeat case_decide; try done;
    destruct (source_of _ _ _); try done;
    by rewrite ?H5, ?H4, ?H3, ?H2.
Qed.

Lemma cascade_step E E1 E2 source rest k :
  obj_get E1 k = defaulted E source k →
  obj_get E2 k = (if is_undefined (obj_get E1 k) then cascade rest k
                  else obj_get E1 k) →
  obj_get E2 k = (if is_undefined (obj_get E k) then cascade (source :: rest) k
                  else obj_get E k).
Proof.
  intros H1 H2. rewrite H2, H1. unfold defaulted. simpl.
  destruct (is_undefined (obj_get E k)) eqn:Eu; [done|]. by rewrite Eu.
Qed.

Lemma sources_cons source instance i indices :
  sources source instance (i :: indices) =
  match instance !! i with
  | Some e =>
      match source e with
      | Some o => o :: sources source instance indices
      | None => sources source instance indices
      end
  | None => sources source instance indices
  end.
Proof. unfold sources. simpl. by destruct (instance !! i). Qed.

Lemma sources_ext source source' instance indices :
  (∀ e, e ∈ instance → source' e = source e) →
  sources source' instance indices = sources source instance indices.
Proof.
  intros Hs. induction indices as [|i indices IH]; [done|].
  rewrite !sources_cons, IH.
  destruct (instance !! i) as [e|] eqn:Ei; [|done].
  by rewrite (Hs e (list_elem_of_lookup_2 _ _ _ Ei)).
Qed.

(** A loop over the indices whose body fills an object with defaults. *)
Lemma loop_cascade (I : world → object → Prop)
  (source : ConfigArrayElement → option object)
  (body : ConfigArrayElement → M unit) instance indices :
  (∀ i e, i ∈ indices → instance !! i = Some e →
     ∀ w w' E, I w E → body e w = (w', Ret tt) →
       ∃ E', I w' E' ∧
         ∀ k, obj_get E' k = match source e with
                             | Some o => defaulted E o k
                             | None => obj_get E k
                             end) →
  ∀ E w w',
    I w E →
    for_each indices (λ index, match instance !! index with
                               | Some element => body element
                               | None => throw TypeError
                               end) w = (w', Ret tt) →
    ∃ E', I w' E' ∧
      ∀ k, obj_get E' k =
           if is_undefined (obj_get E k)
           then cascade (sources source instance indices) k
           else obj_get E k.
Proof.
  induction indices as [|i indices IH]; intros Hbody E w w' HI El.
  { simpl in El. inv_prim El. exists E. split; [done|]. intros k. simpl.
    by destruct (obj_get E k). }
  simpl in El. inv_bind El; [|done].
  destruct (instance !! i) as [element|] eqn:Ei; [|by inv_prim El0].
  destruct a.
  destruct (Hbody i element ltac:(apply list_elem_of_here) Ei _ _ _ HI El0)
    as (E1 & HI1 & H1).
  destruct (IH (λ j e Hj, Hbody j e (list_elem_of_further _ _ _ Hj))
              E1 w0 w' HI1 El) as (E2 & HI2 & H2).
  exists E2. split; [done|]. intros k.
  rewrite sources_cons, Ei.
  destruct (source element) as [o|].
  - by eapply cascade_step.
  - by rewrite H2, H1.
Qed.

Lemma merge_loop_cascade mergePlugins h0 f fuel instance indices :
  plugins_ok mergePlugins → plugins_frame mergePlugins →
  (∀ i e, i ∈ indices → instance !! i = Some e → flat_field h0 f e) →
  ∀ Tr E w w',
    sep_inv h0 (length h0 + field_offset f) Tr (heap_of w) E →
    merge_loop mergePlugins fuel instance (length h0 + 6) indices w
      = (w', Ret tt) →
    ∃ Tr' E',
      sep_inv h0 (length h0 + field_offset f) Tr' (heap_of w') E' ∧
      ∀ k, obj_get E' k =
           if is_undefined (obj_get E k)
           then cascade (sources_of h0 f instance indices) k
           else obj_get E k.
Proof.
  intros Hok Hfr Hflat Tr E w w' HS El. unfold merge_loop in El.
  destruct (loop_cascade
              (λ w1 E1, ∃ Tr1, sep_inv h0 (length h0 + field_offset f) Tr1
                                 (heap_of w1) E1)
              (source_of h0 f)
              (mergeElement mergePlugins fuel (length h0 + 6))
              instance indices) with (E := E) (w := w) (w' := w')
    as (E' & [Tr' HS'] & Hg); [|by exists Tr|done|by exists Tr', E'].
  intros i e Hi Ei w1 w2 E1 [Tr1 HS1] Em.
  destruct (mergeElement_cascade _ _ _ _ _ _ _ _ _ Hok Hfr HS1
              (Hflat i e Hi Ei) Em) as (Tr2 & E2 & HS2 & H2).
  exists E2. split; [by exists Tr2|done].
Qed.

(** ** From the constructor to the end of the loop *)

Lemma fresh_config_sep h0 f :
  sep_inv h0 (length h0 + field_offset f)
    (λ l, records h0 l ∧ l ≠ length h0 + field_offset f)
    (fresh_config h0) empty_object.
Proof.
  assert (records h0 (length h0 + field_offset f)) as Hrec.
  { unfold records. destruct f; simpl; lia. }
  split.
  - apply (cfg_inv_ext h0 (records h0)); [|apply fresh_config_inv].
    intros l. split.
    + intros Hl. destruct (decide (l = length h0 + field_offset f)); auto.
    + by intros [-> | [Hl _]].
  - by intros [_ H].
  - intros l o k l' [Hl _] El Hin. exfalso.
    assert (o = empty_object) as ->.
    { unfold records in Hl.
      destruct Hl as [-> | [-> | [-> | ->]]];
        [rewrite <- (Nat.add_0_r (length h0)) in El|..];
        rewrite fresh_config_lookup in El; simpl in El; congruence. }
    by apply elem_of_nil in Hin.
  - rewrite fresh_config_lookup. by destruct f.
  - done.
  - by intros k v Hin%elem_of_nil.
Qed.

Lemma merge_loop_fresh_cascade mergePlugins f fuel instance indices w w' :
  plugins_ok mergePlugins → plugins_frame mergePlugins →
  (∀ i e, i ∈ indices → instance !! i = Some e →
          flat_field (heap_of w) f e) →
  merge_loop mergePlugins fuel instance (length (heap_of w) + 6) indices
    (with_heap (fresh_config (heap_of w)) w) = (w', Ret tt) →
  ∃ R, record_of (heap_of w') (length (heap_of w) + 6) f R ∧
       ∀ k, obj_get R k = cascade (sources_of (heap_of w) f instance indices) k.
Proof.
  intros Hok Hfr Hflat El.
  destruct (merge_loop_cascade _ _ _ _ _ _ Hok Hfr Hflat _ empty_object
              (with_heap (fresh_config (heap_of w)) w) w'
              (fresh_config_sep (heap_of w) f) El) as (Tr & R & HS & Hg).
  exists R. split; [|done].
  exists (length (heap_of w) + field_offset f). split; [|apply HS].
  destruct (ci_config _ _ _ (si_cfg _ _ _ _ _ HS))
    as (C & EC & _ & H1 & H2 & H3 & _ & _ & H6).
  unfold heap_get. rewrite EC.
  destruct f; simpl; rewrite ?Nat.add_0_r; done.
Qed.

Lemma lazy_createConfig_cascade f fuel instance indices w w' c :
  (∀ i e, i ∈ indices → instance !! i = Some e →
          flat_field (heap_of w) f e) →
  ConfigArrayLazy.createConfig fuel instance indices w = (w', Ret c) →
  ∃ R, record_of (heap_of w') c f R ∧
       ∀ k, obj_get R k = cascade (sources_of (heap_of w) f instance indices) k.
Proof.
  intros Hflat E. unfold ConfigArrayLazy.createConfig in E.
  unfold bind at 1 in E. rewrite new_ExtractedConfig_run in E.
  inv_bind E; [|done]. inv_prim E. destruct a.
  eapply merge_loop_fresh_cascade; eauto.
  - apply lazy_mergePlugins_ok.
  - apply lazy_mergePlugins_frame.
Qed.

Section EagerCreate.
Variable require : string → outcome value.
Variable validateConfigArrayElement :
  heap → ConfigArrayElement → (string → value) → (string → value) → option exn.

Lemma eager_createConfig_cascade f fuel instance indices w w' c :
  (∀ i e, i ∈ indices → instance !! i = Some e →
          flat_field (heap_of w) f e) →
  ConfigArray.createConfig require validateConfigArrayElement fuel instance
    indices w = (w', Ret c) →
  ∃ R, record_of (heap_of w') c f R ∧
       ∀ k, obj_get R k = cascade (sources_of (heap_of w) f instance indices) k.
Proof.
  intros Hflat E. unfold ConfigArray.createConfig in E.
  unfold bind at 1 in E. rewrite new_ExtractedConfig_run in E.
  inv_bind E; [|done]. destruct a.
  inv_bind E; [|done]. inv_prim E.
  assert (w1 = w0) as ->.
  { revert E1. apply (for_each_inv (λ w3, w3 = w0)); [|done].
    intros index w3 w4 r4 -> E4.
    destruct (instance !! index); [by eapply validate_pure|by inv_prim E4]. }
  eapply merge_loop_fresh_cascade; eauto.
  - apply eager_mergePlugins_ok.
  - apply eager_mergePlugins_frame.
Qed.

End EagerCreate.

(** ** extractConfig, for any guard and any createConfig *)

Lemma flat_field_extends h h' f e :
  extends h h' → flat_field h f e → flat_field h' f e.
Proof.
  intros Hext Hflat s Es. destruct (Hflat s Es) as (source & E & Hs).
  exists source. split; [|done]. rewrite Hext; [done|by eapply lookup_lt_Some].
Qed.

Lemma source_of_extends h h' f e :
  extends h h' → flat_field h f e → source_of h' f e = source_of h f e.
Proof.
  intros Hext Hflat. unfold source_of.
  destruct (field_source f e) as [| |b|n|str|fn|s] eqn:Es; try done.
  destruct (Hflat s Es) as (source & E & _).
  rewrite Hext; [done|by eapply lookup_lt_Some].
Qed.

Lemma record_of_extends h h' c f R :
  extends h h' → record_of h c f R → record_of h' c f R.
Proof.
  intros Hext (r & Ec & Er). exists r. unfold heap_get in *.
  destruct (h !! c) as [C|] eqn:EC; [|done].
  rewrite !Hext by (by eapply lookup_lt_Some). by rewrite EC.
Qed.

Section Extraction.
Variable instance : list ConfigArrayElement.
Variable guard : heap → value → option exn.
Variable matched : value → outcome (list nat).
Variable create : nat → list nat → M loc.
Variable good : heap → ConfigArrayElement → Prop.
Variable source : heap → ConfigArrayElement → option object.
Variable holds : heap → loc → object → Prop.

Hypothesis good_extends : ∀ h h' e, extends h h' → good h e → good h' e.
Hypothesis source_extends : ∀ h h' e,
  extends h h' → good h e → source h' e = source h e.
Hypothesis holds_extends : ∀ h h' c R,
  extends h h' → holds h c R → holds h' c R.

Hypothesis create_cascade : ∀ fuel indices w w' c,
  (∀ i e, i ∈ indices → instance !! i = Some e → good (heap_of w) e) →
  create fuel indices w = (w', Ret c) →
  ∃ R, holds (heap_of w') c R ∧
       ∀ k, obj_get R k =
            cascade (sources (source (heap_of w)) instance indices) k.

Lemma created_cascade h0 fuel indices w w' c :
  (∀ e, e ∈ instance → good h0 e) →
  extends h0 (heap_of w) →
  create fuel indices w = (w', Ret c) →
  ∃ R, holds (heap_of w') c R ∧
       ∀ k, obj_get R k = cascade (sources (source h0) instance indices) k.
Proof.
  intros Hgood Hext Ecr.
  destruct (create_cascade fuel indices w w' c) as (R & HR & Hg); [|done|].
  { intros i e _ Ei. eapply good_extends; [done|].
    apply Hgood. by eapply list_elem_of_lookup_2. }
  exists R. split; [done|]. intros k. rewrite Hg.
  rewrite (sources_ext (source h0) (source (heap_of w))); [done|].
  intros e He. apply source_extends; auto.
Qed.

Lemma extract_cascade h0 fuel filePath w w' v :
  (∀ e, e ∈ instance → good h0 e) →
  sound create h0 w →
  extract guard matched create fuel filePath w = (w', Ret v) →
  ∃ indices c R,
    matched filePath = Ret indices ∧ v = VRef c ∧
    holds (heap_of w') c R ∧
    ∀ k, obj_get R k = cascade (sources (source h0) instance indices) k.
Proof.
  intros Hgood [Hext Hc] E. apply extract_run in E.
  inversion E as [| |indices v0 _ Em Ec| |indices w1 c _ Em _ Ecr]; simplify_eq.
  - destruct (Hc _ _ Ec)
      as (ix & c & fuel0 & w0 & w1 & Ek & -> & H0 & Ecr & H1).
    apply cache_key_inj in Ek as ->.
    destruct (created_cascade h0 _ _ _ _ _ Hgood H0 Ecr) as (R & HR & Hg).
    exists ix, c, R. repeat split; [done|by eapply holds_extends|done].
  - destruct (created_cascade h0 _ _ _ _ _ Hgood Hext Ecr) as (R & HR & Hg).
    by exists indices, c, R.
Qed.

End Extraction.



End CascadeProperties.

(* ===================================================================== *)
(** * The plugins of an extracted config *)
(* ===================================================================== *)

Module PluginCascadeProperties.
Import JS Eff Merge JSFacts MergeFacts KeyFacts ExtractFacts ParserFacts
  RuleFacts FrameFacts VariantFacts Props MergeProperties CascadeProperties.

(** ** A loop over keys that fills an object with defaults *)

Lemma default_loop (I : world → object → Prop) (body : key → M unit)
  (src : object) ks :
  (∀ key w w' T, I w T → body key w = (w', Ret tt) →
     ∃ T', I w' T' ∧
       ∀ k, obj_get T' k = if decide (k = key) then defaulted T src key
                           else obj_get T k) →
  ∀ w w' T,
    I w T → for_each ks body w = (w', Ret tt) →
    ∃ T', I w' T' ∧
      ∀ k, obj_get T' k = if bool_decide (k ∈ ks) then defaulted T src k
                          else obj_get T k.
Proof.
  intros Hbody. induction ks as [|key ks IH]; intros w w' T HI E.
  { simpl in E. inv_prim E. by exists T. }
  simpl in E. inv_bind E; [|done]. destruct a.
  destruct (Hbody _ _ _ _ HI E0) as (T1 & HI1 & H1).
  destruct (IH _ _ _ HI1 E) as (T2 & HI2 & H2).
  exists T2. split; [done|]. intros k.
  rewrite H2. unfold defaulted at 1. rewrite !H1.
  destruct (decide (k = key)) as [->|Hk].
  - rewrite (bool_decide_eq_true_2 (key ∈ key :: ks)) by apply list_elem_of_here.
    rewrite defaulted_again. by destruct (bool_decide _).
  - destruct (bool_decide (k ∈ ks)) eqn:Ek.
    + rewrite bool_decide_eq_true_2; [done|].
      apply bool_decide_eq_true in Ek. by apply list_elem_of_further.
    + rewrite bool_decide_eq_false_2; [done|].
      apply bool_decide_eq_false in Ek. intros [?|?]%elem_of_cons; done.
Qed.

Lemma default_keys (I : world → object → Prop) (body : key → M unit)
  (src : object) :
  is_array src = false →
  (∀ key w w' T, I w T → body key w = (w', Ret tt) →
     ∃ T', I w' T' ∧
       ∀ k, obj_get T' k = if decide (k = key) then defaulted T src key
                           else obj_get T k) →
  ∀ w w' T,
    I w T → for_each (own_keys src) body w = (w', Ret tt) →
    ∃ T', I w' T' ∧ ∀ k, obj_get T' k = defaulted T src k.
Proof.
  intros Hs Hbody w w' T HI E.
  destruct (default_loop I body src (own_keys src) Hbody _ _ _ HI E)
    as (T' & HI' & Hg).
  exists T'. split; [done|]. intros k. rewrite Hg.
  case_bool_decide; [done|]. by rewrite defaulted_absent.
Qed.

(** ** mergePlugins, for one source *)

Lemma lazy_mergePlugin_adopts (target s : loc) src key w w' T :
  target ≠ s →
  heap_of w !! target = Some T ∧ is_array T = false ∧
    heap_of w !! s = Some src →
  ConfigArrayLazy.mergePlugin target s key w = (w', Ret tt) →
  ∃ T', (heap_of w' !! target = Some T' ∧ is_array T' = false ∧
         heap_of w' !! s = Some src) ∧
        ∀ k, obj_get T' k = if decide (k = key) then defaulted T src key
                            else obj_get T k.
Proof.
  intros Hne (Et & Ha & Es) E. unfold ConfigArrayLazy.mergePlugin in E.
  inv_bind E; [|done]. inv_prim E0.
  inv_bind E; [|done]. inv_prim E0.
  unfold heap_get in E. rewrite Et, Es in E. unfold defaulted.
  destruct (is_undefined (obj_get T key)) eqn:Eu.
  - inv_bind E; [apply get_prop_pure in E0 as ->|done].
    destruct (truthy a); inv_prim E. simpl.
    exists (obj_set key (obj_get src key) T). split.
    + rewrite heap_set_lookup, Et, is_array_obj_set.
      by rewrite heap_set_lookup_ne.
    + intros k. destruct (decide (k = key)) as [->|Hk].
      * by rewrite obj_set_get_eq.
      * by rewrite obj_set_get_ne.
  - inv_prim E. exists T. split; [done|]. intros k. by case_decide; subst.
Qed.

Lemma lazy_mergePlugins_adopts (target s : loc) src w w' T :
  target ≠ s → is_array src = false →
  heap_of w !! target = Some T → is_array T = false →
  heap_of w !! s = Some src →
  ConfigArrayLazy.mergePlugins target (VRef s) w = (w', Ret tt) →
  ∃ T', heap_of w' !! target = Some T' ∧
        ∀ k, obj_get T' k = defaulted T src k.
Proof.
  intros Hne Hs Et Ha Es E. unfold ConfigArrayLazy.mergePlugins in E.
  inv_bind E; [|done]. inv_prim E0. rewrite Es in E.
  destruct (default_keys
              (λ w1 T1, heap_of w1 !! target = Some T1 ∧ is_array T1 = false ∧
                        heap_of w1 !! s = Some src)
              (ConfigArrayLazy.mergePlugin target s) src Hs) with (w := w) (w' := w') (T := T)
    as (T' & (Et' & _) & Hg); [|done|done|by exists T'].
  intros key w1 w2 T1 H1 E1. by eapply lazy_mergePlugin_adopts.
Qed.

Lemma for_each_raise {A} (I : world → Prop) (body : A → M unit) xs :
  (∀ x w w', I w → body x w = (w', Ret tt) → I w') →
  ∀ w w' e,
    I w → for_each xs body w = (w', Raise e) →
    ∃ x w1, x ∈ xs ∧ I w1 ∧ body x w1 = (w', Raise e).
Proof.
  intros Hbody. induction xs as [|x xs IH]; intros w w' e HI E; simpl in E.
  { unfold ret in E. discriminate E. }
  inv_bind E.
  - destruct a. destruct (IH _ _ _ (Hbody _ _ _ HI E0) E) as (y & w1 & Hy & H1).
    exists y, w1. split; [by apply list_elem_of_further|done].
  - simplify_eq. exists x, w. split; [apply list_elem_of_here|done].
Qed.



Section EagerPlugins.
Variable require : string → outcome value.

Lemma normalizePluginRule_extends fuel :
  ∀ rule w w' r,
    ConfigArray.normalizePluginRule require fuel rule w = (w', r) →
    extends (heap_of w) (heap_of w').
Proof.
  induction fuel as [|fuel IH]; intros rule w w' r E; simpl in E.
  { inv_prim E. apply extends_refl. }
  destruct rule; try (inv_prim E; apply extends_refl).
  - inv_bind E; [|inv_prim E; apply extends_refl].
    inv_prim E0. by eapply IH.
  - inv_bind E; [|inv_prim E]. inv_prim E0. inv_prim E. simpl.
    intros l Hl. by apply lookup_app_l.
Qed.

Lemma collect_extends fuel pluginId defs map normalize w w' r :
  normalize = None ∨
  normalize = Some (ConfigArray.normalizePluginRule require fuel) →
  ConfigArray.collect pluginId defs map normalize w = (w', r) →
  extends (heap_of w) (heap_of w').
Proof.
  intros Hn E. unfold ConfigArray.collect in E.
  destruct (truthy defs); [|inv_prim E; apply extends_refl].
  inv_bind E.
  2:{ unfold ConfigArray.entries in E. destruct defs; inv_prim E. }
  assert (w0 = w) as ->.
  { unfold ConfigArray.entries in E0. destruct defs; by inv_prim E0. }
  clear E0. revert E.
  apply (for_each_inv (λ w1, extends (heap_of w) (heap_of w1)));
    [|apply extends_refl].
  intros entry w1 w2 r1 X1 E1.
  eapply extends_trans; [exact X1|].
  inv_bind E1.
  - eapply extends_trans.
    + destruct Hn as [-> | ->]; [inv_prim E0; apply extends_refl|].
      by eapply normalizePluginRule_extends.
    + unfold ConfigArray.map_set in E1. destruct map; inv_prim E1;
        apply extends_refl.
  - destruct Hn as [-> | ->]; [inv_prim E1|].
    by eapply normalizePluginRule_extends.
Qed.

Lemma eager_mergePlugin_adopts fuel (target s : loc) src key w w' T :
  target ≠ s →
  heap_of w !! target = Some T ∧ is_array T = false ∧
    heap_of w !! s = Some src →
  ConfigArray.mergePlugin require fuel target s key w = (w', Ret tt) →
  ∃ T', (heap_of w' !! target = Some T' ∧ is_array T' = false ∧
         heap_of w' !! s = Some src) ∧
        ∀ k, obj_get T' k = if decide (k = key) then defaulted T src key
                            else obj_get T k.
Proof.
  intros Hne (Et & Ha & Es) E. unfold ConfigArray.mergePlugin in E.
  inv_bind E; [|done]. inv_prim E0.
  inv_bind E; [|done]. inv_prim E0.
  unfold heap_get in E. rewrite Et, Es in E. unfold defaulted.
  destruct (is_undefined (obj_get T key)) eqn:Eu.
  - inv_bind E; [apply get_prop_pure in E0 as ->|done].
    destruct (truthy a); [by inv_prim E|].
    inv_bind E; [|done]. inv_prim E0.
    assert (extends (heap_set target key (obj_get src key) (heap_of w))
              (heap_of w')) as Hext.
    { assert (∀ wa (k : string) (which : ConfigArray.member_map) normalize
                (rest : M unit) wb,
                normalize = None ∨
                normalize = Some (ConfigArray.normalizePluginRule require fuel) →
                (let! definition := get_prop (obj_get src key) (KName "definition") in
                 let! defs := get_prop definition (KName k) in
                 ConfigArray.collect (key_to_string key) defs which normalize ;;
                 rest) wa = (wb, Ret tt) →
                ∃ wc, extends (heap_of wa) (heap_of wc) ∧
                      rest wc = (wb, Ret tt)) as Hstep.
      { intros wa k which normalize rest wb Hn E1.
        inv_bind E1; [apply get_prop_pure in E0 as ->|done].
        inv_bind E1; [apply get_prop_pure in E0 as ->|done].
        inv_bind E1; [|done].
        eexists. split; [|done]. by eapply collect_extends. }
      apply Hstep in E as (w3 & X3 & E); [|by left].
      apply Hstep in E as (w4 & X4 & E); [|by left].
      inv_bind E; [apply get_prop_pure in E0 as ->|done].
      inv_bind E; [apply get_prop_pure in E0 as ->|done].
      eapply collect_extends in E; [|by right].
      simpl in X3. eauto using extends_trans. }
    assert (target < length (heap_of w)) by (by eapply lookup_lt_Some).
    assert (s < length (heap_of w)) by (by eapply lookup_lt_Some).
    exists (obj_set key (obj_get src key) T). split.
    + rewrite !Hext by (by rewrite heap_set_length).
      rewrite heap_set_lookup, Et, is_array_obj_set.
      by rewrite heap_set_lookup_ne.
    + intros k. destruct (decide (k = key)) as [->|Hk].
      * by rewrite obj_set_get_eq.
      * by rewrite obj_set_get_ne.
  - inv_prim E. exists T. split; [done|]. intros k. by case_decide; subst.
Qed.

Lemma eager_mergePlugins_adopts fuel (target s : loc) src w w' T :
  target ≠ s → is_array src = false →
  heap_of w !! target = Some T → is_array T = false →
  heap_of w !! s = Some src →
  ConfigArray.mergePlugins require fuel target (VRef s) w = (w', Ret tt) →
  ∃ T', heap_of w' !! target = Some T' ∧
        ∀ k, obj_get T' k = defaulted T src k.
Proof.
  intros Hne Hs Et Ha Es E. unfold ConfigArray.mergePlugins in E.
  inv_bind E; [|done]. inv_prim E0. rewrite Es in E.
  destruct (default_keys
              (λ w1 T1, heap_of w1 !! target = Some T1 ∧ is_array T1 = false ∧
                        heap_of w1 !! s = Some src)
              (ConfigArray.mergePlugin require fuel target s) src Hs)
    with (w := w) (w' := w') (T := T)
    as (T' & (Et' & _) & Hg); [|done|done|by exists T'].
  intros key w1 w2 T1 H1 E1. by eapply eager_mergePlugin_adopts.
Qed.

End EagerPlugins.

(** ** Both variants adopt the plugins *)

Lemma adopts_plugins (mergePlugins : loc → value → M unit) :
  (∀ target v w, (∀ s, v ≠ VRef s) → mergePlugins target v w = (w, Ret tt)) →
  (∀ (target s : loc) src w w' T,
     target ≠ s → is_array src = false →
     heap_of w !! target = Some T → is_array T = false →
     heap_of w !! s = Some src →
     mergePlugins target (VRef s) w = (w', Ret tt) →
     ∃ T', heap_of w' !! target = Some T' ∧
           ∀ k, obj_get T' k = defaulted T src k) →
  plugins_adopt mergePlugins.
Proof.
  intros Hprim Hobj h0 e P w w' [[T I] EP] Hplain E.
  unfold plugin_source.
  destruct (plugins e) as [| |b|n|str|fn|s] eqn:Ev;
    try (rewrite Hprim in E by done; simplify_eq; by exists P).
  destruct (Hplain s Ev) as (src & Es & Hs). rewrite Es.
  assert (s < length h0) by (by eapply lookup_lt_Some).
  destruct (ci_plugins _ _ _ I) as (P0 & EP0 & AP).
  assert (P0 = P) as -> by congruence.
  apply (Hobj (length h0 + 3) s src w w' P); [lia|done|done|done| |done].
  by rewrite (ci_frame _ _ _ I).
Qed.

Lemma lazy_plugins_adopt : plugins_adopt ConfigArrayLazy.mergePlugins.
Proof.
  apply adopts_plugins.
  - intros target v w Hv. destruct v; try done. by destruct (Hv l).
  - apply lazy_mergePlugins_adopts.
Qed.

Lemma eager_plugins_adopt require fuel :
  plugins_adopt (ConfigArray.mergePlugins require fuel).
Proof.
  apply adopts_plugins.
  - intros target v w Hv. destruct v; try done. by destruct (Hv l).
  - apply eager_mergePlugins_adopts.
Qed.

(** ** What the other steps of the loop do to the plugins record *)

Lemma mergeRule_plugins h0 T s key w w' r :
  cfg_inv h0 T (heap_of w) →
  mergeRule (length h0 + 4) s key w = (w', r) →
  heap_of w' !! (length h0 + 3) = heap_of w !! (length h0 + 3).
Proof.
  intros I E. pose proof (cfg_inv_length _ _ _ I) as Hlen.
  unfold mergeRule in E.
  inv_bind E; [|inv_prim E]. inv_prim E0.
  inv_bind E; [|inv_prim E]. inv_prim E0.
  destruct (is_undefined _) eqn:Eundef.
  - assert (∀ vs w1 r1,
              (let! a := alloc (array_of_list vs) in
               write (length h0 + 4) key (VRef a)) w = (w1, r1) →
              heap_of w1 !! (length h0 + 3) = heap_of w !! (length h0 + 3))
      as Hstore.
    { intros vs w1 r1 E1. inv_bind E1; [|inv_prim E1]. inv_prim E0.
      inv_prim E1. simpl.
      rewrite heap_set_lookup_ne by lia. apply lookup_app_l. lia. }
    inv_bind E; [|inv_prim E]. inv_prim E0.
    destruct (isArray _ _).
    + inv_bind E; [apply spread_pure in E0 as ->; eauto|].
      by apply spread_pure in E as ->.
    + eauto.
  - inv_bind E; [apply get_prop_pure in E0 as ->|
                 by apply get_prop_pure in E as ->].
    case_decide; [|by inv_prim E].
    inv_bind E; [|inv_prim E]. inv_prim E0.
    destruct (isArray (heap_of w) (heap_get (heap_of w) s key));
      [|by inv_prim E].
    inv_bind E; [apply get_prop_pure in E0 as ->|
                 by apply get_prop_pure in E as ->].
    destruct (at_least _ _); [|by inv_prim E].
    inv_bind E; [apply spread_pure in E0 as ->|
                 by apply spread_pure in E as ->].
    unfold push in E.
    destruct (heap_get (heap_of w) (length h0 + 4) key) as [| | | | | |tl] eqn:Etd;
      try (by inv_prim E).
    inv_bind E; [|inv_prim E]. inv_prim E0.
    apply heap_get_ref in Etd as (R & ER & Hin).
    destruct (ci_rules _ _ _ I) as (R' & ER' & _ & HR).
    assert (R' = R) as -> by congruence.
    destruct (HR _ _ Hin) as (a' & arr & [= <-] & Ha & HTa & Ea & Aa).
    rewrite Ea, Aa in E. inv_prim E. simpl.
    apply list_lookup_alter_ne. intros ->.
    destruct (ci_plugins _ _ _ I) as (P & EP & AP). congruence.
Qed.

Lemma mergeRules_plugins h0 T source w w' r :
  cfg_inv h0 T (heap_of w) →
  mergeRules (length h0 + 4) source w = (w', r) →
  heap_of w' !! (length h0 + 3) = heap_of w !! (length h0 + 3).
Proof.
  intros I E. unfold mergeRules in E.
  destruct source; try (by inv_prim E).
  inv_bind E; [|by inv_prim E]. inv_prim E0.
  revert E.
  apply (for_each_inv
           (λ w1, keeps h0 T w w1 ∧
                  heap_of w1 !! (length h0 + 3) = heap_of w !! (length h0 + 3)));
    [|split; [by apply keeps_refl|done]].
  intros key w1 w2 r1 [K1 F1] E1. split.
  - eapply keeps_trans; [exact K1|]. eapply mergeRule_keeps; [apply K1|done].
  - rewrite <- F1. eapply mergeRule_plugins; [apply K1|done].
Qed.

Lemma pl_inv_set_config h0 h P k v :
  pl_inv h0 h P → k = KName "parser" ∨ k = KName "processor" →
  pl_inv h0 (heap_set (length h0 + 6) k v h) P.
Proof.
  intros [[T I] EP] Hk. split.
  - exists T. by apply cfg_inv_set_config.
  - rewrite heap_set_lookup_ne by lia. done.
Qed.

Lemma pl_inv_assign h0 f fuel source w w' r P :
  pl_inv h0 (heap_of w) P →
  assignWithoutOverwrite fuel (length h0 + field_offset f) source w = (w', r) →
  pl_inv h0 (heap_of w') P.
Proof.
  intros [[T I] EP] E.
  eapply assignWithoutOverwrite_grows in E as (T' & G & _);
    [|by eapply record_in_region|apply I|apply I].
  destruct (cfg_inv_grows _ _ _ _ _ I G) as [I' _].
  split; [by exists T'|].
  rewrite (grows_frame _ _ _ _ G); [done|by eapply lookup_lt_Some|].
  apply (ci_out _ _ _ I).
Qed.

(** ** One element, then all of them *)

Lemma mergeElement_plugins mergePlugins h0 P fuel element w w' :
  plugins_ok mergePlugins → plugins_adopt mergePlugins →
  pl_inv h0 (heap_of w) P →
  plain_plugins h0 element →
  mergeElement mergePlugins fuel (length h0 + 6) element w = (w', Ret tt) →
  ∃ P',
    pl_inv h0 (heap_of w') P' ∧
    ∀ k, obj_get P' k =
         match plugin_source h0 element with
         | Some source => defaulted P source k
         | None => obj_get P k
         end.
Proof.
  intros Hok Had HP Hplain Em. unfold mergeElement in Em.
  (* parser *)
  inv_bind Em; [|done]. inv_prim Em0.
  inv_bind Em; [|done].
  assert (pl_inv h0 (heap_of w0) P) as HP0.
  { destruct (negb _ && _); [|by inv_prim Em0].
    inv_bind Em0; [apply get_prop_pure in Em1 as ->|done].
    destruct (truthy a0); inv_prim Em0. simpl. apply pl_inv_set_config; auto. }
  clear Em0 HP.
  (* processor *)
  inv_bind Em; [|done]. inv_prim Em0.
  inv_bind Em; [|done].
  assert (pl_inv h0 (heap_of w1) P) as HP1.
  { destruct (negb _ && _); inv_prim Em0; [|done].
    simpl. apply pl_inv_set_config; auto. }
  clear Em0 HP0.
  (* env, globals, parserOptions, settings *)
  assert (∀ f' name source w1 w2 (rest : M unit),
            pl_inv h0 (heap_of w1) P →
            (∀ T1, cfg_inv h0 T1 (heap_of w1) →
                   field (length h0 + 6) name w1
                     = (w1, Ret (length h0 + field_offset f'))) →
            (let! t := field (length h0 + 6) name in
             assignWithoutOverwrite fuel t source ;; rest) w1
              = (w2, Ret tt) →
            ∃ w3, pl_inv h0 (heap_of w3) P ∧ rest w3 = (w2, Ret tt))
    as Hassign.
  { intros f' name source w2 w3 rest HP2 Hfield E3.
    unfold bind at 1 in E3. destruct HP2 as [[T2 I2] EP2].
    rewrite (Hfield _ I2) in E3.
    inv_bind E3; [|done].
    exists w4. split; [|done]. eapply pl_inv_assign; [|done]. split; eauto. }
  apply (Hassign FEnv "env") in Em as (w2 & HP2 & Em); [|done|]; cycle 1.
  { intros T1 I1. simpl. rewrite Nat.add_0_r. apply (field_config _ _ _ I1). }
  apply (Hassign FGlobals "globals") in Em as (w3 & HP3 & Em);
    [|done|]; cycle 1.
  { intros T1 I1. apply (field_config _ _ _ I1). }
  apply (Hassign FParserOptions "parserOptions") in Em as (w4 & HP4 & Em);
    [|done|]; cycle 1.
  { intros T1 I1. apply (field_config _ _ _ I1). }
  apply (Hassign FSettings "settings") in Em as (w5 & HP5 & Em);
    [|done|]; cycle 1.
  { intros T1 I1. apply (field_config _ _ _ I1). }
  clear Hassign.
  (* plugins, rules *)
  pose proof HP5 as [[T5 I5] EP5].
  destruct (field_config _ _ _ I5) as (_ & _ & _ & Fp & _ & _).
  unfold bind at 1 in Em. rewrite Fp in Em.
  inv_bind Em; [|done]. destruct a1.
  destruct (Had _ _ _ _ _ HP5 Hplain Em0) as (P' & EP' & Hg).
  pose proof (Hok _ _ _ _ _ _ I5 Em0) as (I6 & _ & _).
  destruct (field_config _ _ _ I6) as (_ & _ & _ & _ & Fr & _).
  unfold bind at 1 in Em. rewrite Fr in Em.
  exists P'. split; [|done]. split.
  - exists T5. by eapply mergeRules_keeps.
  - by rewrite (mergeRules_plugins _ _ _ _ _ _ I6 Em).
Qed.

Lemma fresh_config_plugins h0 : pl_inv h0 (fresh_config h0) empty_object.
Proof.
  split; [eexists; apply fresh_config_inv|]. by rewrite fresh_config_lookup.
Qed.

Lemma merge_loop_plugins mergePlugins fuel instance indices w w' :
  plugins_ok mergePlugins → plugins_adopt mergePlugins →
  (∀ i e, i ∈ indices → instance !! i = Some e →
          plain_plugins (heap_of w) e) →
  merge_loop mergePlugins fuel instance (length (heap_of w) + 6) indices
    (with_heap (fresh_config (heap_of w)) w) = (w', Ret tt) →
  ∃ P, plugins_of (heap_of w') (length (heap_of w) + 6) P ∧
       ∀ k, obj_get P k =
            cascade (sources (plugin_source (heap_of w)) instance indices) k.
Proof.
  intros Hok Had Hplain El. unfold merge_loop in El.
  destruct (loop_cascade
              (λ w1 P1, pl_inv (heap_of w) (heap_of w1) P1)
              (plugin_source (heap_of w))
              (mergeElement mergePlugins fuel (length (heap_of w) + 6))
              instance indices)
    with (E := empty_object) (w := with_heap (fresh_config (heap_of w)) w)
         (w' := w')
    as (P & [[T I] EP] & Hg); [|apply fresh_config_plugins|done|].
  { intros i e Hi Ei w1 w2 P1 HP1 Em.
    exact (mergeElement_plugins mergePlugins (heap_of w) P1 fuel e w1 w2
             Hok Had HP1 (Hplain i e Hi Ei) Em). }
  exists P. split; [|done].
  exists (length (heap_of w) + 3). split; [|done].
  destruct (ci_config _ _ _ I) as (C & EC & _ & _ & _ & _ & H4 & _).
  unfold heap_get. by rewrite EC.
Qed.

Lemma lazy_createConfig_plugins fuel instance indices w w' c :
  (∀ i e, i ∈ indices → instance !! i = Some e →
          plain_plugins (heap_of w) e) →
  ConfigArrayLazy.createConfig fuel instance indices w = (w', Ret c) →
  ∃ P, plugins_of (heap_of w') c P ∧
       ∀ k, obj_get P k =
            cascade (sources (plugin_source (heap_of w)) instance indices) k.
Proof.
  intros Hplain E. unfold ConfigArrayLazy.createConfig in E.
  unfold bind at 1 in E. rewrite new_ExtractedConfig_run in E.
  inv_bind E; [|done]. inv_prim E. destruct a.
  eapply merge_loop_plugins; eauto.
  - apply lazy_mergePlugins_ok.
  - apply lazy_plugins_adopt.
Qed.

Section EagerCreate.
Variable require : string → outcome value.
Variable validateConfigArrayElement :
  heap → ConfigArrayElement → (string → value) → (string → value) → option exn.

Lemma eager_createConfig_plugins fuel instance indices w w' c :
  (∀ i e, i ∈ indices → instance !! i = Some e →
          plain_plugins (heap_of w) e) →
  ConfigArray.createConfig require validateConfigArrayElement fuel instance
    indices w = (w', Ret c) →
  ∃ P, plugins_of (heap_of w') c P ∧
       ∀ k, obj_get P k =
            cascade (sources (plugin_source (heap_of w)) instance indices) k.
Proof.
  intros Hplain E. unfold ConfigArray.createConfig in E.
  unfold bind at 1 in E. rewrite new_ExtractedConfig_run in E.
  inv_bind E; [|done]. destruct a.
  inv_bind E; [|done]. inv_prim E.
  assert (w1 = w0) as ->.
  { revert E1. apply (for_each_inv (λ w3, w3 = w0)); [|done].
    intros index w3 w4 r4 -> E4.
    destruct (instance !! index); [by eapply validate_pure|by inv_prim E4]. }
  eapply merge_loop_plugins; eauto.
  - apply eager_mergePlugins_ok.
  - apply eager_plugins_adopt.
Qed.

End EagerCreate.

Lemma plain_plugins_extends h h' e :
  extends h h' → plain_plugins h e → plain_plugins h' e.
Proof.
  intros Hext Hplain s Es. destruct (Hplain s Es) as (source & E & Hs).
  exists source. split; [|done]. rewrite Hext; [done|by eapply lookup_lt_Some].
Qed.

Lemma plugin_source_extends h h' e :
  extends h h' → plain_plugins h e → plugin_source h' e = plugin_source h e.
Proof.
  intros Hext Hplain. unfold plugin_source.
  destruct (plugins e) as [| |b|n|str|fn|s] eqn:Es; try done.
  destruct (Hplain s Es) as (source & E & _).
  rewrite Hext; [done|by eapply lookup_lt_Some].
Qed.

Lemma plugins_of_extends h h' c P :
  extends h h' → plugins_of h c P → plugins_of h' c P.
Proof.
  intros Hext (r & Ec & Er). exists r. unfold heap_get in *.
  destruct (h !! c) as [C|] eqn:EC; [|done].
  rewrite !Hext by (by eapply lookup_lt_Some). by rewrite EC.
Qed.



End PluginCascadeProperties.

(* ===================================================================== *)
(** * The config file of a directory *)
(* ===================================================================== *)

Module DirectoryProperties.
Import JS Eff Directory Props.

Section Load.
Variable R : Type.
Variable join : string → string → string.
Variable loadConfigFile : string → D value.
Variable _normalizeConfigData : value → string → value → D R.

Local Abbreviation try_filename :=
  (Directory.try_filename R join loadConfigFile _normalizeConfigData).
Local Abbreviation search :=
  (Directory.search R join loadConfigFile _normalizeConfigData).

Lemma handler_cases (error : exn) s s' (r : outcome (option R)) :
  (let! code := error_code error in
   if missing code then ret None else throw error) s = (s', r) →
  s' = s ∧
  ((r = Ret None ∧ says_missing (heap_of s) error) ∨
   ∃ e, r = Raise e ∧ ¬ says_missing (heap_of s) e).
Proof.
  unfold bind, error_code, ret, throw. intros E.
  destruct error as [v|msg| |]; simpl in E;
    try (simplify_eq; split; [done|right]; eexists;
         split; [reflexivity|simpl; tauto]).
  destruct v as [| |b|n|str|fn|l]; simpl in E;
    try (simplify_eq; split; [done|right]; eexists;
         split; [reflexivity|simpl; tauto]).
  destruct (missing (heap_get (heap_of s) l (KName "code"))) eqn:Em;
    simplify_eq; split; try done; [by left|right].
  eexists. split; [done|]. simpl. by rewrite Em.
Qed.

(** One file name: the file is loaded with [debug] silent, and
    [debug.enabled] is put back. *)
Lemma try_filename_cases directoryPath filename name s s' r :
  try_filename directoryPath filename name s = (s', r) →
  ∃ s2 r0,
    loadConfigFile (join directoryPath filename)
      (DState (heap_of s) false (printed s)) = (s2, r0) ∧
    ((∃ e, r0 = Raise e ∧
           s' = DState (heap_of s2) (enabled s) (printed s2) ∧
           ((r = Ret None ∧ says_missing (heap_of s2) e) ∨
            ∃ e', r = Raise e' ∧ ¬ says_missing (heap_of s') e')) ∨
     (∃ configData, r0 = Ret configData ∧ truthy configData = false ∧
           s' = DState (heap_of s2) (enabled s) (printed s2) ∧ r = Ret None) ∨
     (∃ configData s3 r1, r0 = Ret configData ∧ truthy configData = true ∧
           enabled s3 = enabled s ∧
           _normalizeConfigData configData (join directoryPath filename) name s3
             = (s', r1) ∧
           match r1 with
           | Ret elements => r = Ret (Some elements)
           | Raise e =>
               (r = Ret None ∧ says_missing (heap_of s') e) ∨
               ∃ e', r = Raise e' ∧ ¬ says_missing (heap_of s') e'
           end)).
Proof.
  unfold Directory.try_filename, try_catch, bind, get_enabled, set_enabled,
    try_finally, debug, ret.
  cbn [Directory.heap_of Directory.enabled Directory.printed].
  destruct (loadConfigFile _ _) as [s2 r0] eqn:El.
  intros E. exists s2, r0. split; [done|].
  destruct r0 as [configData|e].
  - destruct (truthy configData) eqn:Et.
    + right. right.
      match type of E with
      | context [_normalizeConfigData _ _ _ ?s3] =>
          destruct (_normalizeConfigData configData
                      (join directoryPath filename) name s3)
            as [s4 r1] eqn:En;
          exists configData, s3, r1
      end.
      destruct r1 as [elements|e].
      * simplify_eq. repeat split; try done. by destruct (enabled s).
      * apply handler_cases in E as [-> Hr].
        repeat split; try done. by destruct (enabled s).
    + right. left. simplify_eq. by exists configData.
  - left. apply handler_cases in E as [-> Hr]. by exists e.
Qed.

Lemma try_filename_enabled directoryPath filename name :
  (∀ configData filePath, keeps_enabled (_normalizeConfigData configData filePath name)) →
  keeps_enabled (try_filename directoryPath filename name).
Proof.
  intros Hn s s' r E.
  apply try_filename_cases in E
    as (s2 & r0 & El & [(e & _ & -> & _)|[(cd & _ & _ & -> & _)
                                        |(cd & s3 & r1 & _ & _ & E3 & En & _)]]);
    [done|done|].
  rewrite <- E3. by eapply Hn.
Qed.

Lemma search_enabled directoryPath name filenames :
  (∀ configData filePath, keeps_enabled (_normalizeConfigData configData filePath name)) →
  keeps_enabled (search directoryPath filenames name).
Proof.
  intros Hn. induction filenames as [|filename rest IH]; intros s s' r E;
    simpl in E.
  - unfold bind, debug, ret in E. destruct (enabled s) eqn:Ee; by simplify_eq.
  - unfold bind at 1 in E.
    destruct (try_filename directoryPath filename name s) as [s1 [found|e]] eqn:Et;
      apply (try_filename_enabled _ _ _ Hn) in Et.
    + destruct found as [elements|].
      * unfold ret in E. by simplify_eq.
      * rewrite <- Et. by eapply IH.
    + by simplify_eq.
Qed.

Lemma search_outcome directoryPath name filenames s s' r :
  search directoryPath filenames name s = (s', r) →
  match r with
  | Ret (Some elements) =>
      ∃ before filename after,
        filenames = before ++ filename :: after ∧
        Forall (λ f, passed_over loadConfigFile _normalizeConfigData
                       (join directoryPath f) name) before ∧
        found_in loadConfigFile _normalizeConfigData
          (join directoryPath filename) name s' elements
  | Ret None =>
      Forall (λ f, passed_over loadConfigFile _normalizeConfigData
                     (join directoryPath f) name) filenames
  | Raise e => ¬ says_missing (heap_of s') e
  end.
Proof.
  revert s. induction filenames as [|filename rest IH]; intros s E; simpl in E.
  { unfold bind, debug, ret in E. by simplify_eq. }
  unfold bind at 1 in E.
  destruct (try_filename directoryPath filename name s) as [s1 [found|e]] eqn:Et;
    apply try_filename_cases in Et as (s2 & r0 & El & Hcases).
  - destruct found as [elements|].
    + unfold ret in E. simplify_eq.
      destruct Hcases as [(e & _ & _ & [[? _]|(e' & ? & _)])
                         |[(cd & _ & _ & _ & ?)
                          |(cd & s3 & r1 & -> & Ht & _ & En & Hr)]]; try done.
      destruct r1 as [elements'|e]; [|by destruct Hr as [[? _]|(? & ? & _)]].
      simplify_eq. exists [], filename, rest. split; [done|].
      split; [constructor|]. by exists (DState (heap_of s) false (printed s)), s2, cd, s3.
    + assert (passed_over loadConfigFile _normalizeConfigData
                (join directoryPath filename) name) as Hpassed.
      { exists (DState (heap_of s) false (printed s)), s2, r0.
        split; [done|].
        destruct Hcases as [(e & -> & _ & [[_ ?]|(e' & ? & _)])
                           |[(cd & -> & ? & _)
                            |(cd & s3 & r1 & -> & Ht & _ & En & Hr)]];
          try done; [by left|].
        destruct r1 as [elements'|e]; [done|].
        destruct Hr as [[_ ?]|(? & ? & _)]; [|done].
        right. by exists s3, s1, e. }
      specialize (IH _ E). destruct r as [[elements|]|e]; [| |done].
      * destruct IH as (before & f & after & -> & Hb & Hf).
        exists (filename :: before), f, after. split; [done|].
        split; [by constructor|done].
      * by constructor.
  - simplify_eq.
    destruct Hcases as [(e0 & _ & _ & [[? _]|(e' & ? & ?)])
                       |[(cd & _ & _ & _ & ?)
                        |(cd & s3 & r1 & _ & _ & _ & _ & Hr)]]; try done.
    + by simplify_eq.
    + destruct r1 as [elements'|e0]; [done|].
      destruct Hr as [[? _]|(e' & ? & ?)]; [done|]. by simplify_eq.
Qed.

End Load.

(** X19.  _loadConfigDataOnDirectory leaves [debug.enabled] as it found
    it, whether it returns or throws and whatever the loader of the files
    does to the flag, as long as the normalization of a config leaves it
    alone: the flag is cleared only while a file is loaded. *)
Theorem loadConfigDataOnDirectory_restores_debug :
  ∀ (R : Type) join loadConfigFile
    (_normalizeConfigData : value → string → value → D R) directoryPath name,
    (∀ configData filePath,
       keeps_enabled (_normalizeConfigData configData filePath name)) →
    keeps_enabled
      (_loadConfigDataOnDirectory R join loadConfigFile _normalizeConfigData
         directoryPath name).
Proof.
  intros R join loadConfigFile normalize directoryPath name Hn.
  by apply search_enabled.
Qed.

Lemma loadConfigDataOnDirectory_restores_debug_witness :
  let run :=
    _loadConfigDataOnDirectory value Scenarios.slash Scenarios.json_only
      Scenarios.as_it_is "/project" VUndef Scenarios.directory_state in
  snd run = Ret (Some (VRef 0)) ∧
  enabled (fst run) = enabled Scenarios.directory_state.
Proof.
  intros run. split; [by vm_compute|].
  apply (loadConfigDataOnDirectory_restores_debug value Scenarios.slash
           Scenarios.json_only Scenarios.as_it_is "/project" VUndef)
    with (r := snd run); [|apply surjective_pairing].
  intros configData filePath s s' r E. unfold Scenarios.as_it_is, ret in E.
  by simplify_eq.
Defined.

(** X20.  _loadConfigDataOnDirectory tries the six file names in their
    order.  When it returns elements, they are the normalized config of
    one of the files, and every name before it was passed over: its file
    had no config, or loading or normalizing it threw something whose
    [code] is ENOENT or MODULE_NOT_FOUND.  When it returns null, every
    name was passed over.  When it throws, what it throws does not have
    one of these two codes. *)
Theorem loadConfigDataOnDirectory_priority :
  ∀ (R : Type) join loadConfigFile
    (_normalizeConfigData : value → string → value → D R) directoryPath name
    s s' r,
    _loadConfigDataOnDirectory R join loadConfigFile _normalizeConfigData
      directoryPath name s = (s', r) →
    match r with
    | Ret (Some elements) =>
        ∃ before filename after,
          configFilenames = before ++ filename :: after ∧
          Forall (λ f, passed_over loadConfigFile _normalizeConfigData
                         (join directoryPath f) name) before ∧
          found_in loadConfigFile _normalizeConfigData
            (join directoryPath filename) name s' elements
    | Ret None =>
        Forall (λ f, passed_over loadConfigFile _normalizeConfigData
                       (join directoryPath f) name) configFilenames
    | Raise e => ¬ says_missing (heap_of s') e
    end.
Proof.
  intros R join loadConfigFile normalize directoryPath name s s' r E.
  by apply search_outcome in E.
Qed.

Lemma loadConfigDataOnDirectory_priority_witness :
  let run :=
    _loadConfigDataOnDirectory value Scenarios.slash Scenarios.json_only
      Scenarios.as_it_is "/project" VUndef Scenarios.directory_state in
  snd run = Ret (Some (VRef 0)) ∧
  ∃ before filename after,
    configFilenames = before ++ filename :: after ∧
    Forall (λ f, passed_over Scenarios.json_only Scenarios.as_it_is
                   (Scenarios.slash "/project" f) VUndef) before ∧
    found_in Scenarios.json_only Scenarios.as_it_is
      (Scenarios.slash "/project" filename) VUndef (fst run) (VRef 0).
Proof.
  intros run. split; [by vm_compute|].
  apply (loadConfigDataOnDirectory_priority value Scenarios.slash
           Scenarios.json_only Scenarios.as_it_is "/project" VUndef
           Scenarios.directory_state (fst run) (Ret (Some (VRef 0)))).
  subst run. by vm_compute.
Defined.

End DirectoryProperties.

(* ===================================================================== *)
(** * The rules of an extracted config *)
(* ===================================================================== *)

Module RuleCascadeProperties.
Import JS Eff Merge JSFacts MergeFacts KeyFacts ExtractFacts ParserFacts
  RuleFacts FrameFacts VariantFacts Props MergeProperties CascadeProperties
  PluginCascadeProperties.

(** ** mergePlugins writes to the plugins record only *)

Lemma local_loop {A} (target : loc) (body : A → M unit) xs :
  (∀ x w w' r, body x w = (w', r) →
     length (heap_of w) ≤ length (heap_of w') ∧
     ∀ l, l < length (heap_of w) → l ≠ target →
          heap_of w' !! l = heap_of w !! l) →
  ∀ w w' r, for_each xs body w = (w', r) →
    ∀ l, l < length (heap_of w) → l ≠ target →
         heap_of w' !! l = heap_of w !! l.
Proof.
  intros Hbody w w' r E.
  cut (length (heap_of w) ≤ length (heap_of w') ∧
       ∀ l, l < length (heap_of w) → l ≠ target →
            heap_of w' !! l = heap_of w !! l); [by intros [_ ?]|].
  revert E.
  apply (for_each_inv
           (λ w1, length (heap_of w) ≤ length (heap_of w1) ∧
                  ∀ l, l < length (heap_of w) → l ≠ target →
                       heap_of w1 !! l = heap_of w !! l)); [|done].
  intros x w1 w2 r1 [L1 F1] E1. destruct (Hbody _ _ _ _ E1) as [L2 F2].
  split; [lia|]. intros l Hl Hne. rewrite F2 by (done || lia). by apply F1.
Qed.

Lemma lazy_plugins_local : plugins_local ConfigArrayLazy.mergePlugins.
Proof.
  intros target source w w' r E. unfold ConfigArrayLazy.mergePlugins in E.
  destruct source; try (by inv_prim E).
  inv_bind E; [|by inv_prim E]. inv_prim E0.
  revert E. apply local_loop. clear w w' r.
  intros key w w' r E. unfold ConfigArrayLazy.mergePlugin in E.
  inv_bind E; [|inv_prim E]. inv_prim E0.
  inv_bind E; [|inv_prim E]. inv_prim E0.
  destruct (is_undefined _); [|by inv_prim E].
  inv_bind E; [apply get_prop_pure in E0 as ->|
               by apply get_prop_pure in E as ->].
  destruct (truthy a); inv_prim E; [done|]. simpl.
  rewrite heap_set_length. split; [done|].
  intros l' Hl Hne. by rewrite heap_set_lookup_ne.
Qed.

Lemma eager_collects_extends require fuel sv (key : key) w w' r :
  (let! definition := get_prop sv (KName "definition") in
   let! environments := get_prop definition (KName "environments") in
   ConfigArray.collect (key_to_string key) environments ConfigArray.EnvMap None ;;
   let! definition := get_prop sv (KName "definition") in
   let! processors := get_prop definition (KName "processors") in
   ConfigArray.collect (key_to_string key) processors ConfigArray.ProcessorMap None ;;
   let! definition := get_prop sv (KName "definition") in
   let! pluginRules := get_prop definition (KName "rules") in
   ConfigArray.collect (key_to_string key) pluginRules ConfigArray.RuleMap
     (Some (ConfigArray.normalizePluginRule require fuel))) w = (w', r) →
  extends (heap_of w) (heap_of w').
Proof.
  intros E.
  assert (∀ wa (k : string) (which : ConfigArray.member_map) normalize
            (rest : M unit) wb rb,
            normalize = None ∨
            normalize = Some (ConfigArray.normalizePluginRule require fuel) →
            (let! definition := get_prop sv (KName "definition") in
             let! defs := get_prop definition (KName k) in
             ConfigArray.collect (key_to_string key) defs which normalize ;;
             rest) wa = (wb, rb) →
            extends (heap_of wa) (heap_of wb) ∨
            ∃ wc, extends (heap_of wa) (heap_of wc) ∧ rest wc = (wb, rb))
    as Hstep.
  { intros wa k which normalize rest wb rb Hn E1.
    inv_bind E1; [apply get_prop_pure in E0 as ->|
                  apply get_prop_pure in E1 as ->; left; apply extends_refl].
    inv_bind E1; [apply get_prop_pure in E0 as ->|
                  apply get_prop_pure in E1 as ->; left; apply extends_refl].
    inv_bind E1.
    - right. eexists. split; [|done]. by eapply collect_extends.
    - left. by eapply collect_extends. }
  eapply Hstep in E as [?|(w3 & X3 & E)]; [done| |by left].
  eapply extends_trans; [exact X3|].
  eapply Hstep in E as [?|(w4 & X4 & E)]; [done| |by left].
  eapply extends_trans; [exact X4|].
  inv_bind E; [apply get_prop_pure in E0 as ->|
               apply get_prop_pure in E as ->; apply extends_refl].
  inv_bind E; [apply get_prop_pure in E0 as ->|
               apply get_prop_pure in E as ->; apply extends_refl].
  eapply collect_extends; [|done]. by right.
Qed.

Lemma eager_plugins_local require fuel :
  plugins_local (ConfigArray.mergePlugins require fuel).
Proof.
  intros target source w w' r E. unfold ConfigArray.mergePlugins in E.
  destruct source; try (by inv_prim E).
  inv_bind E; [|by inv_prim E]. inv_prim E0.
  revert E. apply local_loop. clear w w' r.
  intros key w w' r E. unfold ConfigArray.mergePlugin in E.
  inv_bind E; [|inv_prim E]. inv_prim E0.
  inv_bind E; [|inv_prim E]. inv_prim E0.
  destruct (is_undefined _); [|by inv_prim E].
  inv_bind E; [apply get_prop_pure in E0 as ->|
               by apply get_prop_pure in E as ->].
  destruct (truthy a); [by inv_prim E|].
  inv_bind E; [|inv_prim E]. inv_prim E0.
  apply eager_collects_extends in E. simpl in E.
  pose proof (extends_length _ _ E) as Hlen.
  rewrite heap_set_length in Hlen. split; [done|].
  intros l' Hl Hne. rewrite E by (by rewrite heap_set_length).
  by rewrite heap_set_lookup_ne.
Qed.

(** ** The elements of a rule *)

Lemma merge_rule_again h0 t v :
  merge_rule h0 (merge_rule h0 t v) v = merge_rule h0 t v.
Proof.
  destruct t as [items|]; simpl.
  - destruct (bool_decide (length items = 1) && isArray h0 v
              && bool_decide (2 ≤ length (rule_items h0 v))) eqn:Ec; simpl.
    + apply andb_true_iff in Ec as [[E1 _]%andb_true_iff E2].
      apply bool_decide_eq_true in E1, E2.
      rewrite (bool_decide_eq_false_2 (length (items ++ _) = 1)); [done|].
      rewrite length_app, length_drop. lia.
    + by rewrite Ec.
  - destruct (bool_decide (length (rule_items h0 v) = 1)) eqn:E1; [|done].
    apply bool_decide_eq_true in E1.
    rewrite (bool_decide_eq_false_2 (2 ≤ _)) by lia.
    by rewrite andb_false_r.
Qed.

Lemma rules_hold_ext h R spec spec' :
  (∀ k, spec k = spec' k) → rules_hold h R spec → rules_hold h R spec'.
Proof. intros He H k. rewrite <- He. apply H. Qed.

Lemma ru_inv_ext h0 h spec spec' :
  (∀ k, spec k = spec' k) → ru_inv h0 h spec → ru_inv h0 h spec'.
Proof.
  intros He (I & R & ER & HR & Hinj). split; [done|].
  exists R. split; [done|]. split; [by eapply rules_hold_ext|done].
Qed.

(** A step that leaves the rules record and its arrays alone. *)
Lemma ru_inv_frame h0 h h' spec :
  ru_inv h0 h spec →
  (∃ T, cfg_inv h0 T h') →
  (∀ l o, h !! l = Some o → l = length h0 + 4 ∨ is_array o = true →
          (∀ T, cfg_inv h0 T h → ¬ T l) → h' !! l = Some o) →
  ru_inv h0 h' spec.
Proof.
  intros ([T I] & R & ER & HR & Hinj) I' Hf. split; [done|].
  assert (∀ T1, cfg_inv h0 T1 h → ¬ T1 (length h0 + 4)) as Hout.
  { intros T1 I1. apply (ci_out _ _ _ I1). }
  exists R. split; [by apply Hf; auto|]. split; [|done].
  intros k. specialize (HR k). destruct (spec k) as [items|]; [|done].
  destruct HR as (a & arr & Ea & Earr & Ha & Hv).
  exists a, arr. repeat split; try done.
  apply Hf; [done|by right|].
  intros T1 I1. destruct (ci_rules _ _ _ I1) as (R1 & ER1 & _ & HR1).
  assert (R1 = R) as -> by congruence.
  apply obj_get_ref in Ea.
  by destruct (HR1 _ _ Ea) as (a' & arr' & [= <-] & _ & HTa & _).
Qed.

(** ** mergeRule, for one key *)

Lemma is_array_of_list vs : is_array (array_of_list vs) = true.
Proof. done. Qed.

Lemma rule_items_array h0 b src :
  h0 !! b = Some src → is_array src = true →
  rule_items h0 (VRef b) = array_values src.
Proof. intros E Ha. unfold rule_items. by rewrite E, Ha. Qed.

Lemma rule_items_other h0 v : isArray h0 v = false → rule_items h0 v = [v].
Proof.
  unfold isArray, rule_items. destruct v; try done.
  destruct (h0 !! l) as [o|]; [|done]. by intros ->.
Qed.

Lemma isArray_cases h0 v :
  isArray h0 v = true →
  ∃ b src, v = VRef b ∧ h0 !! b = Some src ∧ is_array src = true.
Proof.
  unfold isArray. destruct v; try done.
  destruct (h0 !! l) as [o|] eqn:E; [|done]. intros Ha. by exists l, o.
Qed.

Lemma mergeRule_spec h0 s src key w spec :
  ru_inv h0 (heap_of w) spec →
  h0 !! s = Some src →
  (∀ k a, obj_get src k = VRef a → a < length h0) →
  ∃ w',
    mergeRule (length h0 + 4) s key w = (w', Ret tt) ∧
    ru_inv h0 (heap_of w')
      (λ k, if decide (k = key) then merge_rule h0 (spec k) (obj_get src k)
            else spec k).
Proof.
  intros ([T I] & R & ER & HR & Hinj) Es Hwf.
  pose proof (cfg_inv_length _ _ _ I) as Hlen.
  assert (s < length h0) as Hs by (by eapply lookup_lt_Some).
  assert (heap_of w !! s = Some src) as Es'.
  { by rewrite (ci_frame _ _ _ I). }
  set (v := obj_get src key).
  assert (heap_get (heap_of w) s key = v) as Ev.
  { unfold heap_get. by rewrite Es'. }
  assert (heap_get (heap_of w) (length h0 + 4) key = obj_get R key) as Et.
  { unfold heap_get. by rewrite ER. }
  assert (∀ b o, v = VRef b → h0 !! b = Some o → heap_of w !! b = Some o)
    as Hsame.
  { intros b o Eb Eo. rewrite (ci_frame _ _ _ I); [done|].
    by eapply lookup_lt_Some. }
  assert (isArray (heap_of w) v = isArray h0 v) as Earr.
  { unfold isArray. destruct v as [| |?|?|?|?|b] eqn:Eb; try done.
    rewrite (ci_frame _ _ _ I); [done|]. by eapply Hwf. }
  destruct (ci_rules _ _ _ I) as (R0 & ER0 & AR & Harrs).
  assert (R0 = R) as -> by congruence.
  assert (∀ k a, obj_get R k = VRef a →
                 a < length (heap_of w) ∧ a ≠ length h0 + 4) as Hloc.
  { intros k a Ea. apply obj_get_ref in Ea.
    destruct (Harrs _ _ Ea) as (a' & arr & [= <-] & _ & _ & Earr' & Ha').
    split; [by eapply lookup_lt_Some|]. intros ->. congruence. }
  pose proof (HR key) as HRk.
  destruct (spec key) as [items|] eqn:Esk.
  - destruct HRk as (a & arr & Ea & Ear & Ha & Hv).
    assert (array_length arr = length items) as Hl.
    { by rewrite <- Hv, array_values_length. }
    destruct (bool_decide (length items = 1) && isArray h0 v
              && bool_decide (2 ≤ length (rule_items h0 v))) eqn:Ec.
    + apply andb_true_iff in Ec as [[E1 E2]%andb_true_iff E3].
      apply bool_decide_eq_true in E1, E3.
      destruct (isArray_cases _ _ E2) as (b & o & Eb & Eo & Ho).
      rewrite Eb, (rule_items_array _ _ _ Eo Ho) in E3.
      pose proof (mergeRule_appends w (length h0 + 4) s key a arr b o) as Em.
      rewrite Et, Ev in Em.
      specialize (Em Ea Ear Ha ltac:(lia) Eb (Hsame _ _ Eb Eo) Ho
                    ltac:(by rewrite <- array_values_length)).
      eexists. split; [exact Em|].
      pose proof (mergeRule_keeps _ _ _ _ _ _ _ I Em) as (I' & _).
      split; [by exists T|]. simpl.
      destruct (Hloc _ _ Ea) as [Hlt Hne].
      exists R. split; [by rewrite list_lookup_alter_ne|].
      split; [|done].
      intros k. destruct (decide (k = key)) as [->|Hk].
      * rewrite Esk. simpl.
        rewrite (bool_decide_eq_true_2 (length items = 1)) by done.
        fold v. rewrite E2. simpl.
        rewrite Eb, (rule_items_array _ _ _ Eo Ho).
        rewrite bool_decide_eq_true_2 by done.
        exists a, (array_push (drop 1 (array_values o)) arr).
        split; [done|]. split; [by rewrite list_lookup_alter_eq, Ear|].
        split; [by rewrite is_array_push|].
        by rewrite array_values_push, Hv.
      * specialize (HR k). destruct (spec k) as [items'|]; [|done].
        destruct HR as (a' & arr' & Ea' & Ear' & Ha' & Hv').
        exists a', arr'. repeat split; try done.
        rewrite list_lookup_alter_ne; [done|]. intros <-.
        by apply Hk, (Hinj _ _ a).
    + exists w. split.
      * apply (mergeRule_keeps_entry w (length h0 + 4) s key a arr);
          [by rewrite Et|done|done|].
        rewrite Ev, Earr.
        apply andb_false_iff in Ec as [[E1|E2]%andb_false_iff|E3].
        -- left. apply bool_decide_eq_false in E1. lia.
        -- by right; left.
        -- destruct (isArray h0 v) eqn:E2; [|by right; left].
           destruct (isArray_cases _ _ E2) as (b & o & Eb & Eo & Ho).
           right. right. exists b, o. split; [done|].
           split; [by eapply Hsame|].
           apply bool_decide_eq_false in E3.
           rewrite Eb, (rule_items_array _ _ _ Eo Ho),
             array_values_length in E3. lia.
      * eapply ru_inv_ext; [|split; [by exists T|by exists R]].
        intros k. destruct (decide (k = key)) as [->|]; [|done].
        rewrite Esk. simpl. fold v. by rewrite Ec.
  - assert (mergeRule (length h0 + 4) s key w =
              (with_heap (heap_set (length h0 + 4) key
                            (VRef (length (heap_of w)))
                            (heap_of w ++ [array_of_list (rule_items h0 v)])) w,
               Ret tt)) as Em.
    { destruct (isArray h0 v) eqn:E2.
      - destruct (isArray_cases _ _ E2) as (b & o & Eb & Eo & Ho).
        rewrite Eb, (rule_items_array _ _ _ Eo Ho).
        apply (mergeRule_clones w (length h0 + 4) s key b o);
          [by rewrite Et|by rewrite Ev|by eapply Hsame|done].
      - rewrite (rule_items_other _ _ E2). rewrite <- Ev.
        apply (mergeRule_wraps w (length h0 + 4) s key);
          [by rewrite Et|by rewrite Ev, Earr]. }
    eexists. split; [exact Em|].
    pose proof (mergeRule_keeps _ _ _ _ _ _ _ I Em) as (I' & _).
    split; [by exists T|]. simpl.
    exists (obj_set key (VRef (length (heap_of w))) R). split.
    { rewrite heap_set_lookup, alloc_lookup_old by lia. by rewrite ER. }
    split.
    + intros k. destruct (decide (k = key)) as [->|Hk].
      * rewrite Esk. simpl. fold v.
        exists (length (heap_of w)), (array_of_list (rule_items h0 v)).
        split; [by rewrite obj_set_get_eq|].
        split; [rewrite heap_set_lookup_ne by lia; apply alloc_lookup_new|].
        split; [done|apply array_values_of_list].
      * specialize (HR k). rewrite obj_set_get_ne by done.
        destruct (spec k) as [items'|]; [|done].
        destruct HR as (a' & arr' & Ea' & Ear' & Ha' & Hv').
        exists a', arr'. repeat split; try done.
        destruct (Hloc _ _ Ea') as [Hlt Hne].
        rewrite heap_set_lookup_ne by done. by rewrite alloc_lookup_old.
    + intros k k' a Ek Ek'.
      destruct (decide (k = key)) as [->|Hk];
        destruct (decide (k' = key)) as [->|Hk']; [done| | |].
      * rewrite obj_set_get_eq in Ek by done.
        rewrite obj_set_get_ne in Ek' by done. simplify_eq.
        destruct (Hloc _ _ Ek'). lia.
      * rewrite obj_set_get_eq in Ek' by done.
        rewrite obj_set_get_ne in Ek by done. simplify_eq.
        destruct (Hloc _ _ Ek). lia.
      * rewrite obj_set_get_ne in Ek, Ek' by done. by eapply Hinj.
Qed.

(** ** mergeRules, for one source *)

Lemma mergeRule_loop h0 s src ks :
  h0 !! s = Some src →
  (∀ k a, obj_get src k = VRef a → a < length h0) →
  ∀ w spec,
    ru_inv h0 (heap_of w) spec →
    ∃ w',
      for_each ks (mergeRule (length h0 + 4) s) w = (w', Ret tt) ∧
      ru_inv h0 (heap_of w')
        (λ k, if bool_decide (k ∈ ks)
              then merge_rule h0 (spec k) (obj_get src k)
              else spec k).
Proof.
  intros Es Hwf. induction ks as [|key ks IH]; intros w spec HI.
  { exists w. split; [done|]. eapply ru_inv_ext; [|done]. done. }
  destruct (mergeRule_spec h0 s src key w spec HI Es Hwf) as (w1 & E1 & HI1).
  destruct (IH _ _ HI1) as (w2 & E2 & HI2).
  exists w2. split.
  { simpl. unfold bind. by rewrite E1. }
  eapply ru_inv_ext; [|exact HI2]. intros k. simpl.
  destruct (decide (k = key)) as [->|Hk].
  - rewrite (bool_decide_eq_true_2 (key ∈ key :: ks)) by apply list_elem_of_here.
    destruct (bool_decide (key ∈ ks)); [|done]. apply merge_rule_again.
  - destruct (bool_decide (k ∈ ks)) eqn:Ek.
    + rewrite bool_decide_eq_true_2; [done|].
      apply bool_decide_eq_true in Ek. by apply list_elem_of_further.
    + rewrite bool_decide_eq_false_2; [done|].
      apply bool_decide_eq_false in Ek. intros [?|?]%elem_of_cons; done.
Qed.

Lemma mergeRules_spec h0 e w spec :
  ru_inv h0 (heap_of w) spec → plain_rules h0 e →
  ∃ w',
    mergeRules (length h0 + 4) (rules e) w = (w', Ret tt) ∧
    ru_inv h0 (heap_of w')
      (λ k, match rules_source h0 e with
            | Some source => merge_rules h0 k (spec k) source
            | None => spec k
            end).
Proof.
  intros HI Hplain. unfold mergeRules, rules_source.
  destruct (rules e) as [| |b|n|str|fn|s] eqn:Ev;
    try (exists w; split; [done|]; eapply ru_inv_ext; [|exact HI]; done).
  destruct (Hplain s Ev) as (src & Es & As & Hwf). rewrite Es.
  assert (heap_of w !! s = Some src) as Es'.
  { destruct HI as ([T I] & _). rewrite (ci_frame _ _ _ I); [done|].
    by eapply lookup_lt_Some. }
  destruct (mergeRule_loop h0 s src (own_keys src) Es Hwf w spec HI)
    as (w' & E & HI').
  exists w'. split; [|done].
  unfold bind, object_keys. by rewrite Es'.
Qed.

(** ** One element, then all of them *)

Lemma ru_inv_set_config h0 h spec k v :
  ru_inv h0 h spec → k = KName "parser" ∨ k = KName "processor" →
  ru_inv h0 (heap_set (length h0 + 6) k v h) spec.
Proof.
  intros HI Hk. pose proof HI as ([T I] & _).
  eapply ru_inv_frame; [done| |].
  - exists T. by apply cfg_inv_set_config.
  - intros l o El Hl _. rewrite heap_set_lookup_ne; [done|]. intros <-.
    destruct (ci_config _ _ _ I) as (C & EC & AC & _).
    destruct Hl as [?|Ha]; [lia|]. congruence.
Qed.

Lemma ru_inv_assign h0 f fuel source w w' r spec :
  ru_inv h0 (heap_of w) spec →
  assignWithoutOverwrite fuel (length h0 + field_offset f) source w = (w', r) →
  ru_inv h0 (heap_of w') spec.
Proof.
  intros HI E. pose proof HI as ([T I] & _).
  eapply assignWithoutOverwrite_grows in E as (T' & G & _);
    [|by eapply record_in_region|apply I|apply I].
  destruct (cfg_inv_grows _ _ _ _ _ I G) as [I' _].
  eapply ru_inv_frame; [done|by exists T'|].
  intros l o El _ Hout. rewrite (grows_frame _ _ _ _ G); [done| |by apply Hout].
  by eapply lookup_lt_Some.
Qed.

Lemma ru_inv_plugins mergePlugins h0 source w w' r spec :
  plugins_ok mergePlugins → plugins_local mergePlugins →
  ru_inv h0 (heap_of w) spec →
  mergePlugins (length h0 + 3) source w = (w', r) →
  ru_inv h0 (heap_of w') spec.
Proof.
  intros Hok Hloc HI E. pose proof HI as ([T I] & _).
  pose proof (Hok _ _ _ _ _ _ I E) as (I' & _).
  eapply ru_inv_frame; [done|by exists T|].
  intros l o El Hl _. rewrite (Hloc _ _ _ _ _ E); [done| |].
  - by eapply lookup_lt_Some.
  - intros ->. destruct (ci_plugins _ _ _ I) as (P & EP & AP).
    destruct Hl as [?|Ha]; [lia|]. congruence.
Qed.

Lemma mergeElement_rules mergePlugins h0 spec fuel element w w' :
  plugins_ok mergePlugins → plugins_local mergePlugins →
  ru_inv h0 (heap_of w) spec →
  plain_rules h0 element →
  mergeElement mergePlugins fuel (length h0 + 6) element w = (w', Ret tt) →
  ru_inv h0 (heap_of w')
    (λ k, match rules_source h0 element with
          | Some source => merge_rules h0 k (spec k) source
          | None => spec k
          end).
Proof.
  intros Hok Hloc HI Hplain Em. unfold mergeElement in Em.
  (* parser *)
  inv_bind Em; [|done]. inv_prim Em0.
  inv_bind Em; [|done].
  assert (ru_inv h0 (heap_of w0) spec) as HI0.
  { destruct (negb _ && _); [|by inv_prim Em0].
    inv_bind Em0; [apply get_prop_pure in Em1 as ->|done].
    destruct (truthy a0); inv_prim Em0. simpl. apply ru_inv_set_config; auto. }
  clear Em0 HI.
  (* processor *)
  inv_bind Em; [|done]. inv_prim Em0.
  inv_bind Em; [|done].
  assert (ru_inv h0 (heap_of w1) spec) as HI1.
  { destruct (negb _ && _); inv_prim Em0; [|done].
    simpl. apply ru_inv_set_config; auto. }
  clear Em0 HI0.
  (* env, globals, parserOptions, settings *)
  assert (∀ f' name source w1 w2 (rest : M unit),
            ru_inv h0 (heap_of w1) spec →
            (∀ T1, cfg_inv h0 T1 (heap_of w1) →
                   field (length h0 + 6) name w1
                     = (w1, Ret (length h0 + field_offset f'))) →
            (let! t := field (length h0 + 6) name in
             assignWithoutOverwrite fuel t source ;; rest) w1
              = (w2, Ret tt) →
            ∃ w3, ru_inv h0 (heap_of w3) spec ∧ rest w3 = (w2, Ret tt))
    as Hassign.
  { intros f' name source w2 w3 rest HI2 Hfield E3.
    unfold bind at 1 in E3. pose proof HI2 as ([T2 I2] & _).
    rewrite (Hfield _ I2) in E3.
    inv_bind E3; [|done].
    exists w4. split; [|done]. by eapply ru_inv_assign. }
  apply (Hassign FEnv "env") in Em as (w2 & HI2 & Em); [|done|]; cycle 1.
  { intros T1 I1. simpl. rewrite Nat.add_0_r. apply (field_config _ _ _ I1). }
  apply (Hassign FGlobals "globals") in Em as (w3 & HI3 & Em);
    [|done|]; cycle 1.
  { intros T1 I1. apply (field_config _ _ _ I1). }
  apply (Hassign FParserOptions "parserOptions") in Em as (w4 & HI4 & Em);
    [|done|]; cycle 1.
  { intros T1 I1. apply (field_config _ _ _ I1). }
  apply (Hassign FSettings "settings") in Em as (w5 & HI5 & Em);
    [|done|]; cycle 1.
  { intros T1 I1. apply (field_config _ _ _ I1). }
  clear Hassign.
  (* plugins, rules *)
  pose proof HI5 as ([T5 I5] & _).
  destruct (field_config _ _ _ I5) as (_ & _ & _ & Fp & _ & _).
  unfold bind at 1 in Em. rewrite Fp in Em.
  inv_bind Em; [|done]. destruct a1.
  pose proof (ru_inv_plugins _ _ _ _ _ _ _ Hok Hloc HI5 Em0) as HI6.
  pose proof HI6 as ([T6 I6] & _).
  destruct (field_config _ _ _ I6) as (_ & _ & _ & _ & Fr & _).
  unfold bind at 1 in Em. rewrite Fr in Em.
  destruct (mergeRules_spec h0 element w6 spec HI6 Hplain) as (w7 & E7 & HI7).
  rewrite E7 in Em. by simplify_eq.
Qed.

Lemma merge_loop_rules mergePlugins h0 fuel instance indices :
  plugins_ok mergePlugins → plugins_local mergePlugins →
  (∀ i e, i ∈ indices → instance !! i = Some e → plain_rules h0 e) →
  ∀ spec w w',
    ru_inv h0 (heap_of w) spec →
    merge_loop mergePlugins fuel instance (length h0 + 6) indices w
      = (w', Ret tt) →
    ru_inv h0 (heap_of w')
      (λ k, foldl (merge_rules h0 k) (spec k)
              (sources (rules_source h0) instance indices)).
Proof.
  intros Hok Hloc. unfold merge_loop.
  induction indices as [|i indices IH]; intros Hplain spec w w' HI El.
  { simpl in El. inv_prim El. eapply ru_inv_ext; [|exact HI]. done. }
  simpl in El. inv_bind El; [|done].
  destruct (instance !! i) as [element|] eqn:Ei; [|by inv_prim El0].
  destruct a.
  pose proof (mergeElement_rules _ _ _ _ _ _ _ Hok Hloc HI
                (Hplain i element ltac:(apply list_elem_of_here) Ei) El0)
    as HI1.
  pose proof (IH (λ j e Hj, Hplain j e (list_elem_of_further _ _ _ Hj))
                _ _ _ HI1 El) as HI2.
  eapply ru_inv_ext; [|exact HI2]. intros k.
  rewrite sources_cons, Ei. by destruct (rules_source h0 element).
Qed.

Lemma fresh_config_rules h0 : ru_inv h0 (fresh_config h0) (λ _, None).
Proof.
  split; [eexists; apply fresh_config_inv|].
  exists empty_object. split; [by rewrite fresh_config_lookup|].
  split; [done|]. intros k k' a Hk. done.
Qed.

Lemma merge_loop_fresh_rules mergePlugins fuel instance indices w w' :
  plugins_ok mergePlugins → plugins_local mergePlugins →
  (∀ i e, i ∈ indices → instance !! i = Some e →
          plain_rules (heap_of w) e) →
  merge_loop mergePlugins fuel instance (length (heap_of w) + 6) indices
    (with_heap (fresh_config (heap_of w)) w) = (w', Ret tt) →
  rules_of (heap_of w') (length (heap_of w) + 6)
    (rule_cascade (heap_of w)
       (sources (rules_source (heap_of w)) instance indices)).
Proof.
  intros Hok Hloc Hplain El.
  pose proof (merge_loop_rules mergePlugins (heap_of w) fuel instance indices
                Hok Hloc Hplain (λ _, None)
                (with_heap (fresh_config (heap_of w)) w) w'
                (fresh_config_rules (heap_of w)) El)
    as ([T I] & R & ER & HR & _).
  exists (length (heap_of w) + 4), R. split; [|done].
  destruct (ci_config _ _ _ I) as (C & EC & _ & _ & _ & _ & _ & H5 & _).
  unfold heap_get. by rewrite EC.
Qed.

Lemma lazy_createConfig_rules fuel instance indices w w' c :
  (∀ i e, i ∈ indices → instance !! i = Some e →
          plain_rules (heap_of w) e) →
  ConfigArrayLazy.createConfig fuel instance indices w = (w', Ret c) →
  rules_of (heap_of w') c
    (rule_cascade (heap_of w)
       (sources (rules_source (heap_of w)) instance indices)).
Proof.
  intros Hplain E. unfold ConfigArrayLazy.createConfig in E.
  unfold bind at 1 in E. rewrite new_ExtractedConfig_run in E.
  inv_bind E; [|done]. inv_prim E. destruct a.
  eapply merge_loop_fresh_rules; eauto.
  - apply lazy_mergePlugins_ok.
  - apply lazy_plugins_local.
Qed.

Section EagerCreate.
Variable require : string → outcome value.
Variable validateConfigArrayElement :
  heap → ConfigArrayElement → (string → value) → (string → value) → option exn.

Lemma eager_createConfig_rules fuel instance indices w w' c :
  (∀ i e, i ∈ indices → instance !! i = Some e →
          plain_rules (heap_of w) e) →
  ConfigArray.createConfig require validateConfigArrayElement fuel instance
    indices w = (w', Ret c) →
  rules_of (heap_of w') c
    (rule_cascade (heap_of w)
       (sources (rules_source (heap_of w)) instance indices)).
Proof.
  intros Hplain E. unfold ConfigArray.createConfig in E.
  unfold bind at 1 in E. rewrite new_ExtractedConfig_run in E.
  inv_bind E; [|done]. destruct a.
  inv_bind E; [|done]. inv_prim E.
  assert (w1 = w0) as ->.
  { revert E1. apply (for_each_inv (λ w3, w3 = w0)); [|done].
    intros index w3 w4 r4 -> E4.
    destruct (instance !! index); [by eapply validate_pure|by inv_prim E4]. }
  eapply merge_loop_fresh_rules; eauto.
  - apply eager_mergePlugins_ok.
  - apply eager_plugins_local.
Qed.

End EagerCreate.

(** ** The same rules, from a later heap *)

Lemma plain_rules_extends h h' e :
  extends h h' → plain_rules h e → plain_rules h' e.
Proof.
  intros Hext Hplain s Es. destruct (Hplain s Es) as (source & E & Ha & Hwf).
  exists source. split; [|split; [done|]].
  - rewrite Hext; [done|by eapply lookup_lt_Some].
  - intros k a Ek. pose proof (Hwf k a Ek). pose proof (extends_length _ _ Hext).
    lia.
Qed.

Lemma rules_source_extends h h' e :
  extends h h' → plain_rules h e → rules_source h' e = rules_source h e.
Proof.
  intros Hext Hplain. unfold rules_source.
  destruct (rules e) as [| |b|n|str|fn|s] eqn:Es; try done.
  destruct (Hplain s Es) as (source & E & _).
  rewrite Hext; [done|by eapply lookup_lt_Some].
Qed.

Lemma merge_rule_extends h h' t v :
  extends h h' → (∀ a, v = VRef a → a < length h) →
  merge_rule h' t v = merge_rule h t v.
Proof.
  intros Hext Hv.
  assert (rule_items h' v = rule_items h v) as Hi.
  { unfold rule_items. destruct v; try done. by rewrite Hext by auto. }
  assert (isArray h' v = isArray h v) as Ha.
  { unfold isArray. destruct v; try done. by rewrite Hext by auto. }
  unfold merge_rule. by rewrite Hi, Ha.
Qed.

Lemma rule_cascade_extends h h' srcs k :
  extends h h' →
  Forall (λ source, ∀ k a, obj_get source k = VRef a → a < length h) srcs →
  rule_cascade h' srcs k = rule_cascade h srcs k.
Proof.
  intros Hext Hwf. unfold rule_cascade. generalize (@None (list value)).
  induction Hwf as [|source srcs Hs _ IH]; intros t; [done|]. simpl.
  rewrite IH. f_equal. unfold merge_rules.
  destruct (bool_decide (k ∈ own_keys source)); [|done].
  apply merge_rule_extends; [done|]. intros a Ea. by eapply Hs.
Qed.

Lemma sources_wf h instance indices :
  (∀ e, e ∈ instance → plain_rules h e) →
  Forall (λ source, ∀ k a, obj_get source k = VRef a → a < length h)
    (sources (rules_source h) instance indices).
Proof.
  intros Hplain. induction indices as [|i indices IH]; [constructor|].
  rewrite sources_cons. destruct (instance !! i) as [e|] eqn:Ei; [|done].
  unfold rules_source at 1.
  destruct (rules e) as [| |b|n|str|fn|s] eqn:Es; try done.
  destruct (h !! s) as [source|] eqn:E; [|done].
  constructor; [|done].
  destruct (Hplain e (list_elem_of_lookup_2 _ _ _ Ei) s Es)
    as (source' & E' & _ & Hwf).
  by simplify_eq.
Qed.

Lemma rules_hold_extends h h' R spec :
  extends h h' → rules_hold h R spec → rules_hold h' R spec.
Proof.
  intros Hext HR k. specialize (HR k). destruct (spec k) as [items|]; [|done].
  destruct HR as (a & arr & Ea & Earr & Ha & Hv).
  exists a, arr. repeat split; try done.
  rewrite Hext; [done|by eapply lookup_lt_Some].
Qed.

Lemma rules_of_extends h h' c spec :
  extends h h' → rules_of h c spec → rules_of h' c spec.
Proof.
  intros Hext (r & R & Ec & Er & HR). exists r, R. unfold heap_get in *.
  destruct (h !! c) as [C|] eqn:EC; [|done].
  rewrite !Hext by (by eapply lookup_lt_Some). rewrite EC.
  split; [done|]. split; [done|]. by eapply rules_hold_extends.
Qed.

Lemma rules_of_ext h c spec spec' :
  (∀ k, spec k = spec' k) → rules_of h c spec → rules_of h c spec'.
Proof.
  intros He (r & R & Ec & Er & HR). exists r, R.
  split; [done|]. split; [done|]. by eapply rules_hold_ext.
Qed.

(** ** extractConfig, for any guard and any createConfig *)

Section Extraction.
Variable instance : list ConfigArrayElement.
Variable guard : heap → value → option exn.
Variable matched : value → outcome (list nat).
Variable create : nat → list nat → M loc.

Hypothesis create_rules : ∀ fuel indices w w' c,
  (∀ i e, i ∈ indices → instance !! i = Some e → plain_rules (heap_of w) e) →
  create fuel indices w = (w', Ret c) →
  rules_of (heap_of w') c
    (rule_cascade (heap_of w)
       (sources (rules_source (heap_of w)) instance indices)).

Lemma created_rules h0 fuel indices w w' c :
  (∀ e, e ∈ instance → plain_rules h0 e) →
  extends h0 (heap_of w) →
  create fuel indices w = (w', Ret c) →
  rules_of (heap_of w') c
    (rule_cascade h0 (sources (rules_source h0) instance indices)).
Proof.
  intros Hplain Hext Ecr.
  eapply rules_of_ext; [|eapply create_rules; [|exact Ecr]].
  - intros k.
    rewrite (sources_ext (rules_source h0) (rules_source (heap_of w))).
    + apply rule_cascade_extends; [done|]. by apply sources_wf.
    + intros e He. apply rules_source_extends; auto.
  - intros i e _ Ei. eapply plain_rules_extends; [done|].
    apply Hplain. by eapply list_elem_of_lookup_2.
Qed.

Lemma extract_rules h0 fuel filePath w w' v :
  (∀ e, e ∈ instance → plain_rules h0 e) →
  sound create h0 w →
  extract guard matched create fuel filePath w = (w', Ret v) →
  ∃ indices c,
    matched filePath = Ret indices ∧ v = VRef c ∧
    rules_of (heap_of w') c
      (rule_cascade h0 (sources (rules_source h0) instance indices)).
Proof.
  intros Hplain [Hext Hc] E. apply extract_run in E.
  inversion E as [| |indices v0 _ Em Ec| |indices w1 c _ Em _ Ecr]; simplify_eq.
  - destruct (Hc _ _ Ec)
      as (ix & c & fuel0 & w0 & w1 & Ek & -> & H0 & Ecr & H1).
    apply cache_key_inj in Ek as ->.
    exists ix, c. split; [done|]. split; [done|].
    eapply rules_of_extends; [exact H1|].
    exact (created_rules h0 fuel0 ix w0 w1 c Hplain H0 Ecr).
  - exists indices, c. split; [done|]. split; [done|].
    exact (created_rules h0 fuel indices w w1 c Hplain Hext Ecr).
Qed.

End Extraction.



End RuleCascadeProperties.
